(** * photon-pump: the connection engine

    A shallow embedding of [photonpump/connection.py] and
    [photonpump/connection2.py]: the frame decoder ([MessageReader.process]),
    the heartbeat [PaceMaker], the [MessageDispatcher] and the [Connector]
    supervisor, followed by the properties of the specification that are
    stated about them.

    Python integers are [Z]; byte strings are [list byte]; an attribute that
    may hold [None] is an [option]; a raised exception is the [Raise] branch
    of [result]; a loop that may spin is run with fuel and answers [None]
    when the fuel is used up. *)

From Stdlib Require Import ZArith Lia.
From Stdlib Require Import Strings.Byte.
From stdpp Require Import base option list strings gmap.

Open Scope Z_scope.

(* ================================================================== *)
(** * Python values: exceptions, sequences, integers from bytes        *)
(* ================================================================== *)

Module Py.

(** The exceptions that the modelled code can raise or hand around. *)
Inductive exn : Type :=
| IndexError
| StructError
| ValueError
| AttributeError
| KeyError
| InvalidStateError
| NotImplementedError
| TimeoutError
| OSError (errno : Z)
| DiscoveryFailed.

Inductive result (A : Type) : Type :=
| Ok (a : A)
| Raise (e : exn).
Arguments Ok {A} a.
Arguments Raise {A} e.

Definition bind {A B : Type} (f : A -> result B) (m : result A) : result B :=
  match m with
  | Ok a => f a
  | Raise e => Raise e
  end.

#[export] Instance result_ret : MRet result := @Ok.
#[export] Instance result_bind : MBind result := @bind.

(** [len(l)] *)
Definition len {A : Type} (l : list A) : Z := Z.of_nat (length l).

(** The position a subscript [l[i]] denotes: a negative subscript counts
    from the end, anything outside [-len, len) is an [IndexError]. *)
Definition index (n i : Z) : result nat :=
  if (0 <=? i) && (i <? n) then Ok (Z.to_nat i)
  else if (- n <=? i) && (i <? 0) then Ok (Z.to_nat (i + n))
  else Raise IndexError.

(** [l[i]] *)
Definition getitem {A : Type} (l : list A) (i : Z) : result A :=
  k ← index (len l) i;
  match l !! k with
  | Some x => Ok x
  | None => Raise IndexError
  end.

(** [l[i] = x] *)
Definition setitem {A : Type} (l : list A) (i : Z) (x : A) : result (list A) :=
  k ← index (len l) i;
  Ok (<[k := x]> l).

(** A slice bound, clamped the way Python clamps it. *)
Definition bound (n i : Z) : nat :=
  Z.to_nat (if i <? 0 then Z.max 0 (i + n) else Z.min i n).

(** [l[a:b]] *)
Definition slice {A : Type} (l : list A) (a b : Z) : list A :=
  take (bound (len l) b - bound (len l) a)%nat (drop (bound (len l) a) l).

(** The value of a byte, [0 .. 255]. *)
Definition byte_val (b : byte) : Z := Z.of_N (Byte.to_N b).

(** The byte of an integer, taken modulo 256. *)
Definition byte_of (z : Z) : byte :=
  match Byte.of_N (Z.to_N (z mod 256)) with
  | Some b => b
  | None => x00
  end.

(** [int.from_bytes(l, 'big')] *)
Definition int_from_bytes_big (l : list byte) : Z :=
  fold_left (fun acc b => acc * 256 + byte_val b) l 0.

(** [int.from_bytes(l, 'little')] *)
Definition int_from_bytes_little (l : list byte) : Z :=
  fold_right (fun b acc => byte_val b + 256 * acc) 0 l.

(** [z.to_bytes(n, 'little')], for [0 <= z < 256^n]. *)
Fixpoint int_to_bytes_little (n : nat) (z : Z) : list byte :=
  match n with
  | O => []
  | S n' => byte_of z :: int_to_bytes_little n' (z / 256)
  end.

(** [z.to_bytes(n, 'big')], for [0 <= z < 256^n]. *)
Definition int_to_bytes_big (n : nat) (z : Z) : list byte :=
  rev (int_to_bytes_little n z).

End Py.
Export Py.

(* ================================================================== *)
(** * [uuid.UUID] and [struct.Struct("<IBB")]                          *)
(* ================================================================== *)

(** A [uuid.UUID] is its 128-bit integer; two UUIDs are equal when their
    integers are. *)
Record UUID : Type := mkUUID { int : Z }.

#[export] Instance UUID_eq_dec : EqDecision UUID.
Proof. solve_decision. Defined.

Definition uuid_valid (u : UUID) : Prop := 0 <= int u < 2 ^ 128.

(** The byte shuffle between [bytes] and [bytes_le]:
    [b[3::-1] + b[5:3:-1] + b[7:5:-1] + b[8:]]. *)
Definition le_shuffle (b : list byte) : list byte :=
  rev (take 4 b) ++ rev (take 2 (drop 4 b)) ++ rev (take 2 (drop 6 b)) ++ drop 8 b.

(** [uuid.UUID(bytes_le=b)] *)
Definition UUID_of_bytes_le (b : list byte) : result UUID :=
  if (length b =? 16)%nat
  then Ok (mkUUID (int_from_bytes_big (le_shuffle b)))
  else Raise ValueError.

(** [u.bytes_le] *)
Definition bytes_le (u : UUID) : list byte :=
  le_shuffle (int_to_bytes_big 16 (int u)).

(** [struct.Struct("<IBB").unpack(b)]: a little-endian unsigned 32-bit
    integer and two unsigned bytes, from exactly six bytes. *)
Definition HEAD_PACK_unpack (b : list byte) : result (Z * Z * Z) :=
  match b with
  | [b0; b1; b2; b3; c; f] =>
      Ok (int_from_bytes_little [b0; b1; b2; b3], byte_val c, byte_val f)
  | _ => Raise StructError
  end.

Definition HEADER_LENGTH : Z := 1 + 1 + 16.
Definition SIZE_UINT_32 : Z := 4.

(* ================================================================== *)
(** * Messages and the wire format                                     *)
(* ================================================================== *)

(** Modelled from the spec: [messages.py] is not part of the sources at
    hand.  An [InboundMessage] is built by the reader as
    [InboundMessage(conversation_id, cmd, payload)] and read back through
    [.conversation_id] and [.command]; the conversation id is whatever the
    reader's attribute holds, which may be [None]. *)
Record InboundMessage : Type := mkInbound {
  in_conversation_id : option UUID;
  in_command : Z;
  in_payload : list byte
}.

(** Modelled from the spec: [messages.py] is not part of the sources at
    hand.  An [OutboundMessage(conversation_id, command, payload)] is what
    conversations put on the output queue; its conversation id is the one
    it was built with. *)
Record OutboundMessage : Type := mkOutbound {
  out_conversation_id : option UUID;
  out_command : Z;
  out_payload : list byte
}.

(** The two command codes the core looks at.  [TcpCommand] is declared in
    [messages.py], which is not part of the sources at hand, so the codes
    are carried as a record and every function that compares against them
    takes it. *)
Record TcpCommand : Type := mkTcpCommand {
  HeartbeatRequest : Z;
  HeartbeatResponse : Z
}.

Module Wire.

(** Modelled from the spec: the frame of section 3, "a 4-byte little-endian
    length L covering the remainder of the frame; a 1-byte command code; a
    1-byte flags field; a 16-byte conversation identifier in little-endian
    UUID byte order; and L - 18 bytes of opaque payload". *)
Record Frame : Type := mkFrame {
  frame_length : Z;
  frame_command : byte;
  frame_flags : byte;
  frame_conversation_id : UUID;
  frame_payload : list byte
}.

(** The frame invariant: the length field counts the eighteen header bytes
    that follow it and the payload, fits the 32-bit field, and the
    conversation id is a UUID. *)
Definition well_formed (f : Frame) : Prop :=
  frame_length f = HEADER_LENGTH + len (frame_payload f) /\
  frame_length f < 2 ^ 32 /\
  uuid_valid (frame_conversation_id f).

(** What the header of a frame needs to be packed: a length that fits the
    32-bit field and a conversation id that is a UUID. *)
Definition header_ok (f : Frame) : Prop :=
  0 <= frame_length f < 2 ^ 32 /\ uuid_valid (frame_conversation_id f).

(** Modelled from the spec: section 4.1, "Serialize header as four
    little-endian length bytes followed by command, flags, and the 16-byte
    little-endian UUID". *)
Definition encode_header (f : Frame) : list byte :=
  int_to_bytes_little 4 (frame_length f)
    ++ [frame_command f; frame_flags f]
    ++ bytes_le (frame_conversation_id f).

(** Modelled from the spec: section 4.1, "then append payload". *)
Definition encode (f : Frame) : list byte :=
  encode_header f ++ frame_payload f.

(** The message a frame stands for: its conversation id, command and
    payload. *)
Definition message (f : Frame) : InboundMessage :=
  mkInbound (Some (frame_conversation_id f))
            (byte_val (frame_command f))
            (frame_payload f).

End Wire.

(* ================================================================== *)
(** * [MessageReader]: the frame decoder                               *)
(* ================================================================== *)

(** [MessageReader.process] has the same text in [connection.py]
    (lines 409-483) and in [connection2.py] (lines 452-518) up to what is
    done with a finished message: the first hands it to the pacemaker or to
    the queue, the second always to the queue.  The decoder is therefore
    written once, over the state [World] that the hand-over acts on. *)
Module MessageReader.

Definition MESSAGE_MIN_SIZE : Z := SIZE_UINT_32 + HEADER_LENGTH.

(** The attributes [process] reads and writes.  [cmd] and [flags] are not
    assigned by [__init__]: they are [None] here until the first header has
    been unpacked, and reading them before raises [AttributeError]. *)
Record state : Type := mkReader {
  header_bytes : list byte;
  header_bytes_required : Z;
  length_ : Z;
  message_offset : Z;
  conversation_id : option UUID;
  cmd : option Z;
  flags : option Z;
  message_buffer : option (list byte)
}.

(** [__init__] *)
Definition init : state :=
  {| header_bytes := replicate (Z.to_nat MESSAGE_MIN_SIZE) x00;
     header_bytes_required := MESSAGE_MIN_SIZE;
     length_ := 0;
     message_offset := 0;
     conversation_id := None;
     cmd := None;
     flags := None;
     message_buffer := None |}.

Definition set_header_byte (hb : list byte) (self : state) : state :=
  {| header_bytes := hb;
     header_bytes_required := header_bytes_required self - 1;
     length_ := length_ self;
     message_offset := message_offset self;
     conversation_id := conversation_id self;
     cmd := cmd self;
     flags := flags self;
     message_buffer := message_buffer self |}.

Definition set_header (l c f : Z) (u : UUID) (self : state) : state :=
  {| header_bytes := header_bytes self;
     header_bytes_required := header_bytes_required self;
     length_ := l;
     message_offset := message_offset self;
     conversation_id := Some u;
     cmd := Some c;
     flags := Some f;
     message_buffer := message_buffer self |}.

Definition set_message_offset (o : Z) (self : state) : state :=
  {| header_bytes := header_bytes self;
     header_bytes_required := header_bytes_required self;
     length_ := length_ self;
     message_offset := o;
     conversation_id := conversation_id self;
     cmd := cmd self;
     flags := flags self;
     message_buffer := message_buffer self |}.

Definition set_message_buffer (b : list byte) (o : Z) (self : state) : state :=
  {| header_bytes := header_bytes self;
     header_bytes_required := header_bytes_required self;
     length_ := length_ self;
     message_offset := o;
     conversation_id := conversation_id self;
     cmd := cmd self;
     flags := flags self;
     message_buffer := Some b |}.

(** The six assignments that end [process]'s loop body after a message has
    been handed over. *)
Definition reset (self : state) : state :=
  {| header_bytes := header_bytes self;
     header_bytes_required := MESSAGE_MIN_SIZE;
     length_ := -1;
     message_offset := 0;
     conversation_id := None;
     cmd := Some (-1);
     flags := flags self;
     message_buffer := None |}.

(** Truth value of [self.message_buffer]: [None] and the empty bytearray
    are false. *)
Definition buffer_or_empty (b : option (list byte)) : list byte :=
  match b with
  | Some l => l
  | None => []
  end.

(** The inner loop,
    [while self.header_bytes_required and chunk_offset < chunk_len].
    Each turn advances [chunk_offset] by one, so the loop takes at most
    [chunk_len - chunk_offset] turns: [n] counts them down. *)
Fixpoint read_header (n : nat) (self : state) (chunk : list byte)
    (chunk_offset : Z) : result (state * Z) :=
  match n with
  | O => Ok (self, chunk_offset)
  | S n' =>
      if negb (header_bytes_required self =? 0) && (chunk_offset <? len chunk)
      then
        let offset := MESSAGE_MIN_SIZE - header_bytes_required self in
        b ← getitem chunk chunk_offset;
        hb ← setitem (header_bytes self) offset b;
        let chunk_offset := chunk_offset + 1 in
        let self := set_header_byte hb self in
        self ← (if header_bytes_required self =? 0
                then
                  '(l, c, f) ← HEAD_PACK_unpack (slice (header_bytes self) 0 6);
                  u ← UUID_of_bytes_le (slice (header_bytes self) 6 22);
                  Ok (set_header l c f u self)
                else Ok self);
        let self := set_message_offset HEADER_LENGTH self in
        read_header n' self chunk chunk_offset
      else Ok (self, chunk_offset)
  end.

Section Process.

Context {World : Type}.

(** What is done with a finished message (lines 471-476 of [connection.py],
    line 512 of [connection2.py]). *)
Variable on_message : InboundMessage -> World -> result World.

(** One turn of the outer loop [while chunk_offset < chunk_len]. *)
Definition process_turn (self : state) (w : World) (chunk : list byte)
    (chunk_offset : Z) : result (state * World * Z) :=
  let chunk_len := len chunk in
  '(self, chunk_offset) ←
    read_header (Z.to_nat (chunk_len - chunk_offset)) self chunk chunk_offset;
  let message_bytes_required := length_ self - message_offset self in
  let '(self, chunk_offset, message_bytes_required) :=
    if 0 <? message_bytes_required
    then
      let buffer := buffer_or_empty (message_buffer self) in
      let end_span := Z.min chunk_len (message_bytes_required + chunk_offset) in
      let bytes_read := end_span - chunk_offset in
      let buffer := buffer ++ slice chunk chunk_offset end_span in
      (set_message_buffer buffer (message_offset self + bytes_read) self,
       end_span,
       message_bytes_required - bytes_read)
    else (self, chunk_offset, message_bytes_required) in
  if message_bytes_required =? 0
  then
    c ← match cmd self with
        | Some c => Ok c
        | None => Raise AttributeError
        end;
    let message :=
      mkInbound (conversation_id self) c (buffer_or_empty (message_buffer self)) in
    w ← on_message message w;
    Ok (reset self, w, chunk_offset)
  else Ok (self, w, chunk_offset).

(** The outer loop.  Nothing in the source bounds its turns, so it is run
    with [fuel]; [None] says that the fuel did not suffice. *)
Fixpoint process_loop (fuel : nat) (self : state) (w : World)
    (chunk : list byte) (chunk_offset : Z) : option (result (state * World)) :=
  if chunk_offset <? len chunk
  then
    match fuel with
    | O => None
    | S fuel' =>
        match process_turn self w chunk chunk_offset with
        | Ok (self', w', chunk_offset') =>
            process_loop fuel' self' w' chunk chunk_offset'
        | Raise e => Some (Raise e)
        end
    end
  else Some (Ok (self, w)).

(** [process(chunk)]; [chunk] is [None] when the argument is [None]. *)
Definition process (fuel : nat) (self : state) (w : World)
    (chunk : option (list byte)) : option (result (state * World)) :=
  match chunk with
  | None => Some (Ok (self, w))
  | Some chunk => process_loop fuel self w chunk 0
  end.

(** The read pump: [process] on each chunk the stream reader returns, in
    order; an exception ends the pump. *)
Fixpoint feed (fuel : nat) (self : state) (w : World)
    (chunks : list (list byte)) : option (result (state * World)) :=
  match chunks with
  | [] => Some (Ok (self, w))
  | chunk :: chunks' =>
      match process fuel self w (Some chunk) with
      | Some (Ok (self', w')) => feed fuel self' w' chunks'
      | other => other
      end
  end.

End Process.

End MessageReader.

(* ================================================================== *)
(** * What the engine holds but does not define                        *)
(* ================================================================== *)

(** [asyncio.Future]: pending until a result or an exception is set, or
    until it is cancelled. *)
Inductive Future (A : Type) : Type :=
| Pending
| Finished (a : A)
| Failed (e : exn)
| Cancelled.
Arguments Pending {A}.
Arguments Finished {A} a.
Arguments Failed {A} e.
Arguments Cancelled {A}.

(** [fut.set_result(a)] *)
Definition set_result {A : Type} (a : A) (fut : Future A) : result (Future A) :=
  match fut with
  | Pending => Ok (Finished a)
  | _ => Raise InvalidStateError
  end.

(** Modelled from the spec: [conversations.py] is not part of the sources
    at hand.  Section 3 gives a conversation an id, the flag [is_one_way],
    [start()] that "produces the initial request frame", [respond_to(frame)]
    that advances it and may produce frames, and [is_complete]; the engine
    also reads its [result] handle.  The conversation id is "included in
    every frame of the exchange". *)
Class Conversation (C : Type) : Type := {
  Reply : Type;
  conversation_id : C -> UUID;
  one_way : C -> bool;
  start : C -> OutboundMessage;
  respond_to : InboundMessage -> C -> C * list OutboundMessage;
  is_complete : C -> bool;
  result_handle : C -> Future Reply;
  start_conversation_id :
    forall c, out_conversation_id (start c) = Some (conversation_id c)
}.

(** Modelled from the spec: [conversations.py] is not part of the sources
    at hand.  [Heartbeat(conversation_id)] is the reply to a server
    heartbeat, "a HeartbeatResponse bearing the same conversation id";
    [Heartbeat(conversation_id, direction=OUTBOUND)] is the client's own
    probe, "a HeartbeatRequest with a fixed pacemaker-chosen conversation
    id".  Neither has a payload. *)
Inductive Direction : Type := INBOUND | OUTBOUND.

Definition Heartbeat_start (tcp : TcpCommand) (conversation_id : option UUID)
    (direction : Direction) : OutboundMessage :=
  match direction with
  | INBOUND => mkOutbound conversation_id (HeartbeatResponse tcp) []
  | OUTBOUND => mkOutbound conversation_id (HeartbeatRequest tcp) []
  end.

(** Modelled from the spec: [discovery.py] is not part of the sources at
    hand.  Section 3: "NodeService. A pair (address, port)". *)
Record NodeService : Type := mkNode {
  address : string;
  port : Z
}.

(** Modelled from the spec: [discovery.py] is not part of the sources at
    hand.  Section 6: "Discovery.discover() -> NodeService (may fail with a
    domain error ...)", "Discovery.mark_failed(NodeService)". *)
Class Discovery (D : Type) : Type := {
  discover : D -> result NodeService * D;
  mark_failed : NodeService -> D -> D
}.

(** Modelled from the spec: [discovery.py] is not part of the sources at
    hand.  Section 3: "DiscoveryRetryPolicy. Per-node counters:
    record_success(node), record_failure(node), should_retry(node) -> bool,
    wait(node) -> delay". *)
Class DiscoveryRetryPolicy (R : Type) : Type := {
  record_success : NodeService -> R -> R;
  record_failure : NodeService -> R -> R;
  should_retry : NodeService -> R -> bool;
  wait : NodeService -> R -> R
}.

(** What a dial does, seen from the caller: it answers after some time,
    with a transport or with an exception, or it never answers. *)
Inductive Dial : Type :=
| Answers (after : Z) (outcome : result Z)
| Hangs.

(** [loop.create_connection(...)] of the event loop the connector runs on. *)
Class EventLoop (L : Type) : Type := {
  create_connection : NodeService -> L -> Dial * L
}.

(** [asyncio.wait_for(aw, timeout)] for a [timeout] that is a number: the
    outcome of [aw] when it answers before [timeout] has passed,
    [TimeoutError] otherwise; with it, the time at which that is decided,
    which is when [aw] answered or when [timeout] had passed.  On giving
    up, [wait_for] cancels [aw]; from Python 3.7 on it returns only when
    the cancelled [aw] has finished, which the model does not time. *)
Definition wait_for (aw : Dial) (timeout : Z) : Z * result Z :=
  match aw with
  | Answers after outcome =>
      if after <? timeout then (after, outcome) else (timeout, Raise TimeoutError)
  | Hangs => (timeout, Raise TimeoutError)
  end.

(** [await aw] with no timeout: [None] when it never answers. *)
Definition await (aw : Dial) : option (Z * result Z) :=
  match aw with
  | Answers after outcome => Some (after, outcome)
  | Hangs => None
  end.

(* ================================================================== *)
(** * Dictionaries and queues                                          *)
(* ================================================================== *)

(** A Python [dict]: keys are unique and keep the order in which they were
    first inserted. *)
Module Dict.

Section Dict.
Context {K V : Type} `{EqDecision K}.

(** [d[k] = v] *)
Fixpoint set (k : K) (v : V) (d : list (K * V)) : list (K * V) :=
  match d with
  | [] => [(k, v)]
  | (k', v') :: d' =>
      if decide (k = k') then (k', v) :: d' else (k', v') :: set k v d'
  end.

(** [d.get(k)] *)
Fixpoint get (k : K) (d : list (K * V)) : option V :=
  match d with
  | [] => None
  | (k', v') :: d' => if decide (k = k') then Some v' else get k d'
  end.

(** [k in d] *)
Definition mem (k : K) (d : list (K * V)) : bool :=
  match get k d with
  | Some _ => true
  | None => false
  end.

(** [del d[k]] *)
Definition del (k : K) (d : list (K * V)) : result (list (K * V)) :=
  if mem k d
  then Ok (filter (fun kv => kv.1 <> k) d)
  else Raise KeyError.

(** [d.keys()], [d.values()] *)
Definition keys (d : list (K * V)) : list K := map fst d.
Definition values (d : list (K * V)) : list V := map snd d.

End Dict.
End Dict.

(** The [asyncio.Queue]s that protocols create as their [output_queue].
    Such a queue is held by several objects at once (the protocol's
    pacemaker and writer, and the dispatcher), so the queues live in one
    store, each named by the connection number of the protocol that made
    it. *)
Module Queues.

Abbreviation t := (gmap Z (list OutboundMessage)).

(** The messages waiting in queue [q]. *)
Definition contents (q : Z) (qs : t) : list OutboundMessage :=
  default [] (qs !! q).

(** [await q.put(m)]; the queues are unbounded. *)
Definition put (q : Z) (m : OutboundMessage) (qs : t) : t :=
  <[q := contents q qs ++ [m]]> qs.

End Queues.

(* ================================================================== *)
(** * [connection.py]                                                  *)
(* ================================================================== *)

Module Connection.

(** ** [MessageDispatcher] *)

Section Dispatcher.
Context {C : Type} `{Conversation C}.

(** [active_conversations] maps a conversation id to the tuple
    [(conversation, None)]; the second component never holds anything and
    is left out.  [output] is [None] until the first [write_to]. *)
Record MessageDispatcher : Type := mkDispatcher {
  active_conversations : list (UUID * C);
  output : option Z
}.

(** [__init__] *)
Definition MessageDispatcher_init : MessageDispatcher :=
  {| active_conversations := []; output := None |}.

(** [start_conversation] (lines 493-506).  [conversation.start(output)]
    puts the conversation's start frame on [output]. *)
Definition start_conversation (conversation : C)
    (self : MessageDispatcher) (qs : Queues.t)
    : MessageDispatcher * Queues.t * Future Reply :=
  let self :=
    if negb (one_way conversation)
    then {| active_conversations :=
              Dict.set (conversation_id conversation) conversation
                       (active_conversations self);
            output := output self |}
    else self in
  let qs :=
    match output self with
    | Some q => Queues.put q (start conversation) qs
    | None => qs
    end in
  (self, qs, result_handle conversation).

(** The loop of [write_to]: [conversation.start(self.output)] for each
    value of the dictionary, in its order. *)
Fixpoint start_all (conversations : list C) (q : Z) (qs : Queues.t) : Queues.t :=
  match conversations with
  | [] => qs
  | conversation :: rest => start_all rest q (Queues.put q (start conversation) qs)
  end.

(** [write_to] (lines 508-516) *)
Definition write_to (q : Z) (self : MessageDispatcher) (qs : Queues.t)
    : MessageDispatcher * Queues.t :=
  let self := {| active_conversations := active_conversations self;
                 output := Some q |} in
  (self, start_all (Dict.values (active_conversations self)) q qs).

(** [dispatch] (lines 518-533).  [respond_to] advances the conversation
    held in the dictionary and puts its frames on [output]. *)
Definition dispatch (message : InboundMessage) (q : Z)
    (self : MessageDispatcher) (qs : Queues.t)
    : result (MessageDispatcher * Queues.t) :=
  match in_conversation_id message with
  | None => Ok (self, qs)
  | Some k =>
      match Dict.get k (active_conversations self) with
      | None => Ok (self, qs)
      | Some conversation =>
          let '(conversation, frames) := respond_to message conversation in
          let d := Dict.set k conversation (active_conversations self) in
          let qs := foldl (fun qs m => Queues.put q m qs) qs frames in
          if is_complete conversation
          then
            d ← Dict.del (conversation_id conversation) d;
            Ok ({| active_conversations := d; output := output self |}, qs)
          else Ok ({| active_conversations := d; output := output self |}, qs)
      end
  end.

(** [has_conversation] *)
Definition has_conversation (id : UUID) (self : MessageDispatcher) : bool :=
  Dict.mem id (active_conversations self).

(** [remove] *)
Definition remove (id : UUID) (self : MessageDispatcher) : MessageDispatcher :=
  if Dict.mem id (active_conversations self)
  then {| active_conversations :=
            filter (fun kv => kv.1 <> id) (active_conversations self);
          output := output self |}
  else self.

End Dispatcher.
Arguments MessageDispatcher C : clear implicits.

(** ** [PaceMaker] and the hand-over of [MessageReader] *)

(** The attributes of a [PaceMaker] that its handlers use.  [_output] names
    the protocol's output queue in the store. *)
Record PaceMaker : Type := mkPaceMaker {
  _output : Z;
  heartbeat_id : UUID;
  response_timeout : Z;
  heartbeat_period : Z;
  _fut : option (Future (option UUID))
}.

(** [__init__], with the [heartbeat_id] that was passed or drawn. *)
Definition PaceMaker_init (output_queue : Z) (heartbeat_id : UUID) : PaceMaker :=
  {| _output := output_queue;
     heartbeat_id := heartbeat_id;
     response_timeout := 10;
     heartbeat_period := 30;
     _fut := None |}.

Definition set_fut (fut : option (Future (option UUID))) (self : PaceMaker)
    : PaceMaker :=
  {| _output := _output self;
     heartbeat_id := heartbeat_id self;
     response_timeout := response_timeout self;
     heartbeat_period := heartbeat_period self;
     _fut := fut |}.

(** What one protocol's read pump can reach: the protocol's input queue,
    its pacemaker, the store of output queues and, behind the dispatch
    pump, the dispatcher. *)
Record Pump (C : Type) : Type := mkPump {
  input_queue : list InboundMessage;
  pacemaker : PaceMaker;
  queues : Queues.t;
  dispatcher : MessageDispatcher C
}.
Arguments mkPump {C}.
Arguments input_queue {C}.
Arguments pacemaker {C}.
Arguments queues {C}.
Arguments dispatcher {C}.

Section Pump.
Context {C : Type}.
Variable tcp : TcpCommand.

(** [PaceMaker.handle_request] (lines 280-284) *)
Definition handle_request (message : InboundMessage) (w : Pump C) : result (Pump C) :=
  let response := Heartbeat_start tcp (in_conversation_id message) INBOUND in
  Ok {| input_queue := input_queue w;
        pacemaker := pacemaker w;
        queues := Queues.put (_output (pacemaker w)) response (queues w);
        dispatcher := dispatcher w |}.

(** [PaceMaker.handle_response] (lines 286-289) *)
Definition handle_response (message : InboundMessage) (w : Pump C) : result (Pump C) :=
  if decide (in_conversation_id message = Some (heartbeat_id (pacemaker w)))
  then
    match _fut (pacemaker w) with
    | Some fut =>
        fut ← set_result (in_conversation_id message) fut;
        Ok {| input_queue := input_queue w;
              pacemaker := set_fut (Some fut) (pacemaker w);
              queues := queues w;
              dispatcher := dispatcher w |}
    | None => Ok w
    end
  else Ok w.

(** [PaceMaker.send_heartbeat] (lines 291-298) *)
Definition send_heartbeat (w : Pump C) : Pump C :=
  let hb := Heartbeat_start tcp (Some (heartbeat_id (pacemaker w))) OUTBOUND in
  {| input_queue := input_queue w;
     pacemaker := set_fut (Some Pending) (pacemaker w);
     queues := Queues.put (_output (pacemaker w)) hb (queues w);
     dispatcher := dispatcher w |}.

(** Lines 471-476 of [MessageReader.process]: where a finished message
    goes. *)
Definition on_message (message : InboundMessage) (w : Pump C) : result (Pump C) :=
  if in_command message =? HeartbeatRequest tcp
  then handle_request message w
  else if in_command message =? HeartbeatResponse tcp
  then handle_response message w
  else Ok {| input_queue := input_queue w ++ [message];
             pacemaker := pacemaker w;
             queues := queues w;
             dispatcher := dispatcher w |}.

(** [MessageReader.process] of [connection.py]. *)
Definition process := MessageReader.process on_message.

(** [MessageReader.start]: the read pump. *)
Definition feed := MessageReader.feed on_message.

End Pump.

(** ** [PhotonPumpProtocol] *)

(** A protocol object, as the connector holds it: the node it was made
    for and its connection number.  Its [output_queue] is the queue of the
    store that bears its connection number. *)
Record PhotonPumpProtocol : Type := mkProtocol {
  node : NodeService;
  connection_number : Z
}.

Definition output_queue (protocol : PhotonPumpProtocol) : Z :=
  connection_number protocol.

(** ** [Connector] *)

Inductive ConnectorState : Type :=
| Begin
| Connecting
| Connected
| Stopping
| Stopped.

(** [ConnectorInstruction(command, future, data)].  The constructor is the
    [ConnectorCommand], its arguments are what [data] holds for that
    command; [future] is [None] wherever an instruction is built and is
    left out. *)
Inductive ConnectorInstruction : Type :=
| Connect (target : option NodeService)
| HandleConnectFailure (exn : exn)
| HandleConnectionOpened (address : NodeService) (protocol : PhotonPumpProtocol)
| HandleConnectionClosed
| HandleConnectionFailed (exn : exn)
| HandleHeartbeatFailed (exn : exn)
| HandleHeartbeatSuccess (conversation_id : UUID)
| HandleConnectorFailed (exn : exn)
| Stop (exn : option exn).

(** What the connector does to the world outside the model, in order: the
    dials, the protocols it stops and the events it fires.  No handler is
    attached to the events in [connection.py]. *)
Inductive Effect : Type :=
| dialled (node : NodeService) (connection_number : Z) (waited : Z)
| protocol_stopped (connection_number : Z)
| connected (address : NodeService)
| disconnected
| stopped (exn : option exn).

(** The attributes of the connector itself.  [state] and [target_node] are
    not assigned by [__init__]: [None] stands for the missing attribute.
    [cancelled] says that [_run_loop.cancel()] has been called.
    [connect_timeout] is a number: [None], with which [asyncio.wait_for]
    waits without a bound, is not modelled. *)
Record Connector : Type := mkConnector {
  connection_counter : Z;
  ctrl_queue : list ConnectorInstruction;
  heartbeat_failures : Z;
  connect_timeout : Z;
  active_protocol : option PhotonPumpProtocol;
  state : option ConnectorState;
  target_node : option NodeService;
  cancelled : bool
}.

(** [__init__], with [connect_timeout=5] unless another is given. *)
Definition Connector_init (connect_timeout : option Z) : Connector :=
  {| connection_counter := 0;
     ctrl_queue := [];
     heartbeat_failures := 0;
     connect_timeout := default 5 connect_timeout;
     active_protocol := None;
     state := None;
     target_node := None;
     cancelled := false |}.

Definition set_connection_counter (n : Z) (self : Connector) : Connector :=
  {| connection_counter := n;
     ctrl_queue := ctrl_queue self;
     heartbeat_failures := heartbeat_failures self;
     connect_timeout := connect_timeout self;
     active_protocol := active_protocol self;
     state := state self;
     target_node := target_node self;
     cancelled := cancelled self |}.

Definition set_ctrl_queue (q : list ConnectorInstruction) (self : Connector)
    : Connector :=
  {| connection_counter := connection_counter self;
     ctrl_queue := q;
     heartbeat_failures := heartbeat_failures self;
     connect_timeout := connect_timeout self;
     active_protocol := active_protocol self;
     state := state self;
     target_node := target_node self;
     cancelled := cancelled self |}.

Definition set_heartbeat_failures (n : Z) (self : Connector) : Connector :=
  {| connection_counter := connection_counter self;
     ctrl_queue := ctrl_queue self;
     heartbeat_failures := n;
     connect_timeout := connect_timeout self;
     active_protocol := active_protocol self;
     state := state self;
     target_node := target_node self;
     cancelled := cancelled self |}.

Definition set_active_protocol (p : option PhotonPumpProtocol) (self : Connector)
    : Connector :=
  {| connection_counter := connection_counter self;
     ctrl_queue := ctrl_queue self;
     heartbeat_failures := heartbeat_failures self;
     connect_timeout := connect_timeout self;
     active_protocol := p;
     state := state self;
     target_node := target_node self;
     cancelled := cancelled self |}.

Definition set_state (st : ConnectorState) (self : Connector) : Connector :=
  {| connection_counter := connection_counter self;
     ctrl_queue := ctrl_queue self;
     heartbeat_failures := heartbeat_failures self;
     connect_timeout := connect_timeout self;
     active_protocol := active_protocol self;
     state := Some st;
     target_node := target_node self;
     cancelled := cancelled self |}.

Definition set_target_node (n : NodeService) (self : Connector) : Connector :=
  {| connection_counter := connection_counter self;
     ctrl_queue := ctrl_queue self;
     heartbeat_failures := heartbeat_failures self;
     connect_timeout := connect_timeout self;
     active_protocol := active_protocol self;
     state := state self;
     target_node := Some n;
     cancelled := cancelled self |}.

Definition set_cancelled (self : Connector) : Connector :=
  {| connection_counter := connection_counter self;
     ctrl_queue := ctrl_queue self;
     heartbeat_failures := heartbeat_failures self;
     connect_timeout := connect_timeout self;
     active_protocol := active_protocol self;
     state := state self;
     target_node := target_node self;
     cancelled := true |}.

(** [ctrl_queue.put(msg)], also through [_put_msg]. *)
Definition put_msg (msg : ConnectorInstruction) (self : Connector) : Connector :=
  set_ctrl_queue (ctrl_queue self ++ [msg]) self.

(** The objects the connector holds by reference: its discovery, retry
    policy and event loop, the dispatcher, the store of output queues, and
    the record of what it has done to the outside. *)
Record System (C D R L : Type) : Type := mkSystem {
  discovery : D;
  retry_policy : R;
  loop : L;
  sys_dispatcher : MessageDispatcher C;
  sys_queues : Queues.t;
  effects : list Effect
}.
Arguments mkSystem {C D R L}.
Arguments discovery {C D R L}.
Arguments retry_policy {C D R L}.
Arguments loop {C D R L}.
Arguments sys_dispatcher {C D R L}.
Arguments sys_queues {C D R L}.
Arguments effects {C D R L}.

Section Connector.
Context {C D R L : Type}.
Context `{Conversation C} `{Discovery D} `{DiscoveryRetryPolicy R} `{EventLoop L}.

Abbreviation Sys := (System C D R L).

Definition set_discovery (d : D) (s : Sys) : Sys :=
  mkSystem d (retry_policy s) (loop s) (sys_dispatcher s) (sys_queues s) (effects s).

Definition set_retry_policy (r : R) (s : Sys) : Sys :=
  mkSystem (discovery s) r (loop s) (sys_dispatcher s) (sys_queues s) (effects s).

Definition set_loop (l : L) (s : Sys) : Sys :=
  mkSystem (discovery s) (retry_policy s) l (sys_dispatcher s) (sys_queues s) (effects s).

Definition set_dispatcher (d : MessageDispatcher C) (qs : Queues.t) (s : Sys) : Sys :=
  mkSystem (discovery s) (retry_policy s) (loop s) d qs (effects s).

Definition effect (e : Effect) (s : Sys) : Sys :=
  mkSystem (discovery s) (retry_policy s) (loop s) (sys_dispatcher s) (sys_queues s)
           (effects s ++ [e]).

(** Reading [self.target_node]. *)
Definition get_target_node (self : Connector) : result NodeService :=
  match target_node self with
  | Some n => Ok n
  | None => Raise AttributeError
  end.

(** [PhotonPumpProtocol.stop] (lines 809-828): the four pumps are
    cancelled and awaited, the transport is closed. *)
Definition PhotonPumpProtocol_stop (protocol : PhotonPumpProtocol) (s : Sys) : Sys :=
  effect (protocol_stopped (connection_number protocol)) s.

(** [PhotonPumpProtocol.connection_made] (lines 764-786), called by the
    event loop when a dial succeeds, as far as the connector is concerned:
    the protocol makes its output queue anew and reports to
    [Connector.connection_made] (lines 81-86).  It also starts its four
    pumps (lines 782-785), which run as tasks of their own: what they put
    on that queue and take from it, beginning with the first probe of the
    pacemaker, is followed in [Pump] and [Protocol] and not here, where a
    queue holds what the dispatcher puts on it. *)
Definition connection_made (protocol : PhotonPumpProtocol)
    (self : Connector) (s : Sys) : Connector * Sys :=
  let s := set_dispatcher (sys_dispatcher s)
             (<[output_queue protocol := []]> (sys_queues s)) s in
  (put_msg (HandleConnectionOpened (node protocol) protocol) self,
   s).

(** [heartbeat_received] (lines 88-94) *)
Definition heartbeat_received (conversation_id : UUID)
    (self : Connector) (s : Sys) : result (Connector * Sys) :=
  n ← get_target_node self;
  let s := set_retry_policy (record_success n (retry_policy s)) s in
  Ok (put_msg (HandleHeartbeatSuccess conversation_id) self, s).

(** [connection_lost] (lines 96-109) *)
Definition connection_lost (exn : option exn)
    (self : Connector) (s : Sys) : result (Connector * Sys) :=
  n ← get_target_node self;
  let s := set_retry_policy (record_failure n (retry_policy s)) s in
  match exn with
  | Some e => Ok (put_msg (HandleConnectionFailed e) self, s)
  | None => Ok (put_msg HandleConnectionClosed self, s)
  end.

(** [heartbeat_failed] (lines 111-114) *)
Definition heartbeat_failed (exn : exn) (self : Connector) : Connector :=
  put_msg (HandleHeartbeatFailed exn) self.

(** [start] (lines 116-120) *)
Definition Connector_start (target : option NodeService) (self : Connector)
    : Connector :=
  let self := set_state Connecting self in
  put_msg (Connect target) self.

(** [stop] (lines 122-131) *)
Definition Connector_stop (exn : option exn) (self : Connector) (s : Sys)
    : Connector * Sys :=
  let self := set_state Stopping self in
  let s :=
    match active_protocol self with
    | Some protocol => PhotonPumpProtocol_stop protocol s
    | None => s
    end in
  let self := set_active_protocol None self in
  let self := set_cancelled self in
  (self, effect (stopped exn) s).

(** The second half of [_attempt_connect] (lines 152-165): the dial,
    under [asyncio.wait_for] with [self.connect_timeout]. *)
Definition dial_node (n : NodeService) (self : Connector) (s : Sys)
    : Connector * Sys :=
  let self := set_connection_counter (connection_counter self + 1) self in
  let protocol := mkProtocol n (connection_counter self) in
  let '(dial, l) := create_connection n (loop s) in
  let s := set_loop l s in
  let '(waited, outcome) := wait_for dial (connect_timeout self) in
  let s := effect (dialled n (connection_counter self) waited) s in
  match outcome with
  | Ok _ => connection_made protocol self s
  | Raise e => (put_msg (HandleConnectFailure e) self, s)
  end.

(** [_attempt_connect] (lines 139-165) *)
Definition _attempt_connect (node : option NodeService)
    (self : Connector) (s : Sys) : Connector * Sys :=
  match node with
  | Some n => dial_node n self s
  | None =>
      let '(found, d) := discover (discovery s) in
      let s := set_discovery d s in
      match found with
      | Ok n => dial_node n (set_target_node n self) s
      | Raise e => (put_msg (HandleConnectorFailed e) self, s)
      end
  end.

(** [_on_transport_received] (lines 167-175) *)
Definition _on_transport_received (address : NodeService)
    (protocol : PhotonPumpProtocol) (self : Connector) (s : Sys)
    : Connector * Sys :=
  let self := set_active_protocol (Some protocol) self in
  let '(d, qs) := write_to (output_queue protocol) (sys_dispatcher s) (sys_queues s) in
  let s := set_dispatcher d qs s in
  (self, effect (connected address) s).

(** [_reconnect] (lines 177-189) *)
Definition _reconnect (node : option NodeService) (self : Connector) (s : Sys)
    : Connector * Sys :=
  match node with
  | None => (Connector_start None self, s)
  | Some n =>
      if should_retry n (retry_policy s)
      then
        let s := set_retry_policy (wait n (retry_policy s)) s in
        (Connector_start (Some n) self, s)
      else
        let s := set_discovery (mark_failed n (discovery s)) s in
        (Connector_start None self, s)
  end.

(** [_on_transport_closed] (lines 191-194) *)
Definition _on_transport_closed (self : Connector) (s : Sys)
    : result (Connector * Sys) :=
  let s := effect disconnected s in
  n ← get_target_node self;
  Ok (_reconnect (Some n) self s).

(** [_on_transport_error] (lines 196-199) *)
Definition _on_transport_error (exn : exn) (self : Connector) (s : Sys)
    : result (Connector * Sys) :=
  let s := effect disconnected s in
  n ← get_target_node self;
  Ok (_reconnect (Some n) self s).

(** [_on_connect_failed] (lines 201-208) *)
Definition _on_connect_failed (exn : exn) (self : Connector) (s : Sys)
    : result (Connector * Sys) :=
  n ← get_target_node self;
  let s := set_retry_policy (record_failure n (retry_policy s)) s in
  Ok (_reconnect (Some n) self s).

(** [_on_failed_heartbeat] (lines 210-216) *)
Definition _on_failed_heartbeat (exn : exn) (self : Connector) (s : Sys)
    : result (Connector * Sys) :=
  let self := set_heartbeat_failures (heartbeat_failures self + 1) self in
  if 3 <=? heartbeat_failures self
  then
    match active_protocol self with
    | Some protocol =>
        let s := PhotonPumpProtocol_stop protocol s in
        Ok (set_heartbeat_failures 0 self, s)
    | None => Raise AttributeError
    end
  else Ok (self, s).

(** [_on_successful_heartbeat] (lines 218-220) *)
Definition _on_successful_heartbeat (conversation_id : UUID)
    (self : Connector) (s : Sys) : Connector * Sys :=
  (set_heartbeat_failures 0 self, s).

(** [_on_connector_failed] (lines 222-224) *)
Definition _on_connector_failed (exn : exn) (self : Connector) (s : Sys)
    : Connector * Sys :=
  Connector_stop (Some exn) self s.

(** The body of the loop of [_run] (lines 232-257) for one instruction. *)
Definition handle (msg : ConnectorInstruction) (self : Connector) (s : Sys)
    : result (Connector * Sys) :=
  match msg with
  | Connect target => Ok (_attempt_connect target self s)
  | HandleConnectFailure exn => _on_connect_failed exn self s
  | HandleConnectionOpened address protocol =>
      Ok (_on_transport_received address protocol self s)
  | HandleConnectionClosed => _on_transport_closed self s
  | HandleConnectionFailed exn => _on_transport_error exn self s
  | HandleHeartbeatFailed exn => _on_failed_heartbeat exn self s
  | HandleHeartbeatSuccess conversation_id =>
      Ok (_on_successful_heartbeat conversation_id self s)
  | HandleConnectorFailed exn => Ok (_on_connector_failed exn self s)
  | Stop _ => Raise NotImplementedError
  end.

(** Whether the handler of [msg] comes to an [await] on which its task
    can be suspended: [asyncio.wait_for] in [_attempt_connect],
    [asyncio.gather] in [PhotonPumpProtocol.stop], and the awaits of code
    that is not at hand ([discover], [retry_policy.wait],
    [conversation.start]).  [ctrl_queue.put] on the control queue, which
    has no bound unless the caller passes one of its own that has,
    returns without suspending. *)
Definition waits (msg : ConnectorInstruction) (self : Connector) (s : Sys) : bool :=
  match msg with
  | Connect _ => true
  | HandleConnectFailure _ =>
      match target_node self with
      | Some n => should_retry n (record_failure n (retry_policy s))
      | None => false
      end
  | HandleConnectionOpened _ _ =>
      match active_conversations (sys_dispatcher s) with
      | [] => false
      | _ => true
      end
  | HandleConnectionClosed | HandleConnectionFailed _ =>
      match target_node self with
      | Some n => should_retry n (retry_policy s)
      | None => false
      end
  | HandleHeartbeatFailed _ =>
      (3 <=? heartbeat_failures self + 1)
      && match active_protocol self with Some _ => true | None => false end
  | HandleHeartbeatSuccess _ => false
  | HandleConnectorFailed _ =>
      match active_protocol self with Some _ => true | None => false end
  | Stop _ => false
  end.

(** [_run] (lines 226-257), from the top of its loop: instructions are
    taken from the control queue one at a time, and the loop dies with the
    exception a handler raises.  With the queue empty the loop is
    suspended in [ctrl_queue.get()]: that is where it rests, and where it
    ends when its task has been cancelled.  When it is a handler that
    calls [stop] ([_on_connector_failed]), [_run_loop.cancel()] is called
    from inside the task and only marks it: [ctrl_queue.get()] on a queue
    that is not empty does not suspend, and the instructions that wait
    are still taken.  A handler that comes to wait while the task is so
    marked meets the [CancelledError] there; whether that is caught
    depends on the Python that runs the code and on code that is not at
    hand, and the loop is not followed further: the answer is [None], as
    it is when the fuel is used up, which the loop needs because handlers
    put instructions themselves. *)
Fixpoint _run (fuel : nat) (self : Connector) (s : Sys)
    : option (result (Connector * Sys)) :=
  match ctrl_queue self with
  | [] => Some (Ok (self, s))
  | msg :: waiting =>
      match fuel with
      | O => None
      | S fuel' =>
          if cancelled self && waits msg self s then None
          else
            match handle msg (set_ctrl_queue waiting self) s with
            | Ok (self', s') => _run fuel' self' s'
            | Raise e => Some (Raise e)
            end
      end
  end.

(** The connector and its surroundings when the loop has taken [n]
    instructions, or when it stands before [n]: at rest or at its end on
    the empty queue, not followed further, or dead, in which case the
    state is the one in which the last instruction was taken. *)
Fixpoint turns (n : nat) (self : Connector) (s : Sys) : Connector * Sys :=
  match n with
  | O => (self, s)
  | S n' =>
      match ctrl_queue self with
      | [] => (self, s)
      | msg :: waiting =>
          if cancelled self && waits msg self s then (self, s)
          else
            match handle msg (set_ctrl_queue waiting self) s with
            | Ok (self', s') => turns n' self' s'
            | Raise _ => (set_ctrl_queue waiting self, s)
            end
      end
  end.

End Connector.

End Connection.

(* ================================================================== *)
(** * [connection2.py]                                                 *)
(* ================================================================== *)

(** The second implementation, for the functions the properties below
    refer to. *)
Module Connection2.

(** ** [MessageReader] *)

(** Line 512 of [MessageReader.process]: every finished message is put on
    the queue. *)
Definition on_message (message : InboundMessage) (queue : list InboundMessage)
    : result (list InboundMessage) :=
  Ok (queue ++ [message]).

(** [MessageReader.process] of [connection2.py]. *)
Definition process := MessageReader.process on_message.

(** [MessageReader._read_inbound_messages]: the read pump. *)
Definition feed := MessageReader.feed on_message.

(** ** [MessageDispatcher] *)

Section Dispatcher.
Context {C : Type} `{Conversation C}.
Variable tcp : TcpCommand.

(** What [enqueue_conversation] is given: a conversation of the caller or
    the [convo.Heartbeat] that the dispatcher builds itself. *)
Inductive Enqueued : Type :=
| Heartbeat (conversation_id : option UUID)
| Started (conversation : C).

(** [convo.conversation_id] *)
Definition enqueued_id (convo : Enqueued) : option UUID :=
  match convo with
  | Heartbeat id => id
  | Started c => Some (conversation_id c)
  end.

(** [convo.start()], which here returns the start frame. *)
Definition enqueued_start (convo : Enqueued) : OutboundMessage :=
  match convo with
  | Heartbeat id => Heartbeat_start tcp id INBOUND
  | Started c => start c
  end.

(** [active_conversations] maps a conversation id to the tuple
    [(convo, future)]; [output] is the one queue the dispatcher was built
    with. *)
Record MessageDispatcher : Type := mkDispatcher {
  active_conversations : list (option UUID * (Enqueued * Future Reply));
  output : list OutboundMessage;
  _connected : bool
}.

(** [enqueue_conversation] (lines 541-551) *)
Definition enqueue_conversation (convo : Enqueued) (self : MessageDispatcher)
    : MessageDispatcher * Future Reply :=
  let future := Pending in
  let message := enqueued_start convo in
  let conversations :=
    Dict.set (enqueued_id convo) (convo, future) (active_conversations self) in
  ({| active_conversations := conversations;
      output := if _connected self then output self ++ [message] else output self;
      _connected := _connected self |},
   future).

(** The head of [_process_messages] (lines 566-570), run by [start] when
    the connector fires [connected]. *)
Definition _process_messages_begin (self : MessageDispatcher) : MessageDispatcher :=
  {| active_conversations := active_conversations self;
     output := output self
               ++ map (fun entry => enqueued_start entry.1)
                      (Dict.values (active_conversations self));
     _connected := true |}.

(** The turn of the loop of [_process_messages] for a message whose
    command is [HeartbeatRequest] (lines 582-587). *)
Definition on_heartbeat_request (message : InboundMessage)
    (self : MessageDispatcher) : MessageDispatcher :=
  fst (enqueue_conversation (Heartbeat (in_conversation_id message)) self).

(** [stop], run when the connector fires [disconnected]. *)
Definition MessageDispatcher_stop (self : MessageDispatcher) : MessageDispatcher :=
  {| active_conversations := active_conversations self;
     output := output self;
     _connected := false |}.

End Dispatcher.
Arguments MessageDispatcher C {_}.
Arguments Enqueued C : clear implicits.

(** ** [Connector] *)

Inductive ConnectorInstruction : Type :=
| Connect (target : option NodeService)
| HandleConnectFailure (exn : exn)
| HandleConnectionOpened (transport : Z)
| HandleConnectionClosed
| HandleConnectionFailed (exn : exn)
| HandleHeartbeatFailed (exn : exn)
| HandleHeartbeatSuccess (conversation_id : UUID)
| HandleConnectorFailed (exn : exn)
| Stop (exn : option exn).

Inductive Effect : Type :=
| dialled (node : NodeService) (waited : Z)
| transport_closed (transport : Z)
| stopped (exn : option exn).

(** The attributes of the connector that the modelled handlers use, and
    the record of what it has done to the outside. *)
Record Connector : Type := mkConnector {
  ctrl_queue : list ConnectorInstruction;
  transport : option Z;
  heartbeat_failures : Z;
  target_node : option NodeService;
  state : Connection.ConnectorState;
  effects : list Effect
}.

(** [__init__] *)
Definition Connector_init : Connector :=
  {| ctrl_queue := [];
     transport := None;
     heartbeat_failures := 0;
     target_node := None;
     state := Connection.Begin;
     effects := [] |}.

Definition put_msg (msg : ConnectorInstruction) (self : Connector) : Connector :=
  {| ctrl_queue := ctrl_queue self ++ [msg];
     transport := transport self;
     heartbeat_failures := heartbeat_failures self;
     target_node := target_node self;
     state := state self;
     effects := effects self |}.

Definition set_heartbeat_failures (n : Z) (self : Connector) : Connector :=
  {| ctrl_queue := ctrl_queue self;
     transport := transport self;
     heartbeat_failures := n;
     target_node := target_node self;
     state := state self;
     effects := effects self |}.

Definition set_target_node (n : NodeService) (self : Connector) : Connector :=
  {| ctrl_queue := ctrl_queue self;
     transport := transport self;
     heartbeat_failures := heartbeat_failures self;
     target_node := Some n;
     state := state self;
     effects := effects self |}.

Definition set_state (st : Connection.ConnectorState) (self : Connector)
    : Connector :=
  {| ctrl_queue := ctrl_queue self;
     transport := transport self;
     heartbeat_failures := heartbeat_failures self;
     target_node := target_node self;
     state := st;
     effects := effects self |}.

Definition effect (e : Effect) (self : Connector) : Connector :=
  {| ctrl_queue := ctrl_queue self;
     transport := transport self;
     heartbeat_failures := heartbeat_failures self;
     target_node := target_node self;
     state := state self;
     effects := effects self ++ [e] |}.

Section Connector.
Context {D L : Type} `{Discovery D} `{EventLoop L}.

(** [stop] (lines 135-143) *)
Definition Connector_stop (exn : option exn) (self : Connector) : Connector :=
  put_msg (Stop exn) (set_state Connection.Stopping self).

(** [connection_made] (lines 82-87), called by the event loop when a dial
    succeeds: the connector is its own protocol. *)
Definition connection_made (transport : Z) (self : Connector) : Connector :=
  put_msg (HandleConnectionOpened transport) self.

(** [_attempt_connect] (lines 145-165).  The dial is awaited with no
    timeout: when it never answers, neither does [_attempt_connect], which
    is the answer [None]. *)
Definition _attempt_connect (node : option NodeService)
    (self : Connector) (d : D) (l : L) : option (Connector * D * L) :=
  let dial n self d :=
    let '(aw, l) := create_connection n l in
    match await aw with
    | None => None
    | Some (waited, outcome) =>
        let self := effect (dialled n waited) self in
        match outcome with
        | Ok transport => Some (connection_made transport self, d, l)
        | Raise e => Some (put_msg (HandleConnectFailure e) self, d, l)
        end
    end in
  match node with
  | Some n => dial n self d
  | None =>
      let '(found, d) := discover d in
      match found with
      | Ok n => dial n (set_target_node n self) d
      | Raise e => Some (put_msg (HandleConnectorFailed e) self, d, l)
      end
  end.

(** [_on_failed_heartbeat] (lines 208-215) *)
Definition _on_failed_heartbeat (exn : exn) (self : Connector) : Connector :=
  let self := set_heartbeat_failures (heartbeat_failures self + 1) self in
  if 3 <=? heartbeat_failures self
  then
    let self :=
      match transport self with
      | Some t => effect (transport_closed t) self
      | None => self
      end in
    set_heartbeat_failures 0 self
  else self.

(** [_on_successful_heartbeat] (lines 217-221) *)
Definition _on_successful_heartbeat (conversation_id : UUID) (self : Connector)
    : Connector :=
  set_heartbeat_failures 0 self.

(** [_on_connector_failed] (lines 223-225) *)
Definition _on_connector_failed (exn : exn) (self : Connector) : Connector :=
  Connector_stop (Some exn) self.

(** The [Stop] branch of [_run] (lines 257-261): the [stopped] event is
    fired with the instruction's data and the loop returns. *)
Definition on_stop (exn : option exn) (self : Connector) : Connector :=
  effect (stopped exn) self.

End Connector.

End Connection2.

(* ================================================================== *)
(** * What the decoder is expected to do: streams and positions        *)
(* ================================================================== *)

(** The vocabulary of the framing properties.  A stream is the bytes of a
    list of frames laid end to end; a reader sits either inside a header,
    with some of its bytes stored, or inside a payload, with some of its
    bytes buffered. *)
Module Decoding.
Import Wire MessageReader.

(** [encode(F1) || encode(F2) || ... || encode(Fn)] *)
Definition stream (fs : list Frame) : list byte := concat (map encode fs).

Section HandOver.

Context {World : Type}.
Variable on_message : InboundMessage -> World -> result World.

(** The messages [ms] handed over one after the other; the first exception
    ends it. *)
Fixpoint hand_over (ms : list InboundMessage) (w : World) : result World :=
  match ms with
  | [] => Ok w
  | m :: ms' => w' ← on_message m w; hand_over ms' w'
  end.

End HandOver.

(** The reader is waiting for header bytes and has stored [hs] of them. *)
Record in_header (self : state) (hs : list byte) : Prop := mk_in_header {
  ih_required : header_bytes_required self = MESSAGE_MIN_SIZE - len hs;
  ih_short : len hs < MESSAGE_MIN_SIZE;
  ih_bytes : take (length hs) (header_bytes self) = hs;
  ih_size : len (header_bytes self) = MESSAGE_MIN_SIZE;
  ih_length : length_ self < HEADER_LENGTH;
  ih_buffer : message_buffer self = None
}.

(** The reader has unpacked the header of [f] and buffered [got] of its
    payload. *)
Record in_payload (self : state) (f : Frame) (got : list byte) : Prop :=
  mk_in_payload {
  ip_required : header_bytes_required self = 0;
  ip_size : len (header_bytes self) = MESSAGE_MIN_SIZE;
  ip_length : length_ self = frame_length f;
  ip_offset : message_offset self = HEADER_LENGTH + len got;
  ip_buffer : buffer_or_empty (message_buffer self) = got;
  ip_cmd : cmd self = Some (byte_val (frame_command f));
  ip_id : conversation_id self = Some (frame_conversation_id f)
}.

(** [expects self fs bs]: the reader [self] is at a point of the byte
    stream from which the bytes [bs] complete the frames [fs], the first of
    which may have been read in part. *)
Inductive expects : state -> list Frame -> list byte -> Prop :=
| expects_nothing self :
    in_header self [] ->
    expects self [] []
| expects_header self hs hrest f fs :
    in_header self hs ->
    hs ++ hrest = encode_header f ->
    expects self (f :: fs) (hrest ++ frame_payload f ++ stream fs)
| expects_payload self f got prest fs :
    in_payload self f got ->
    message_buffer self = Some got ->
    got ++ prest = frame_payload f ->
    prest <> [] ->
    expects self (f :: fs) (prest ++ stream fs).

End Decoding.

(* ================================================================== *)
(** * Small collaborators, to run the engine on                        *)
(* ================================================================== *)

(** Concrete conversations, discoveries, retry policies and event loops
    with which the engine can be evaluated. *)
Module Sample.

(** A conversation that is nothing but its start frame; it completes on
    the first reply. *)
Record Simple : Type := mkSimple {
  simple_id : UUID;
  simple_one_way : bool;
  simple_command : Z;
  simple_payload : list byte;
  simple_result : Future (list byte)
}.

#[global] Instance Simple_Conversation : Conversation Simple := {|
  Reply := list byte;
  conversation_id := simple_id;
  one_way := simple_one_way;
  start c := mkOutbound (Some (simple_id c)) (simple_command c) (simple_payload c);
  respond_to m c :=
    (mkSimple (simple_id c) (simple_one_way c) (simple_command c)
              (simple_payload c) (Finished (in_payload m)), []);
  is_complete c :=
    match simple_result c with
    | Pending => false
    | _ => true
    end;
  result_handle := simple_result;
  start_conversation_id c := eq_refl
|}.

(** A discovery that knows the nodes it may still hand out, and fails when
    none is left. *)
#[global] Instance Nodes_Discovery : Discovery (list NodeService) := {|
  discover nodes :=
    match nodes with
    | n :: _ => (Ok n, nodes)
    | [] => (Raise DiscoveryFailed, nodes)
    end;
  mark_failed n nodes := filter (fun m => port m <> port n) nodes
|}.

(** A retry policy that counts the failures and allows [retries] of them. *)
Record Retries : Type := mkRetries {
  retries : Z;
  failures : Z
}.

#[global] Instance Retries_Policy : DiscoveryRetryPolicy Retries := {|
  record_success _ r := mkRetries (retries r) 0;
  record_failure _ r := mkRetries (retries r) (failures r + 1);
  should_retry _ r := failures r <=? retries r;
  wait _ r := r
|}.

(** An event loop whose every dial behaves the same way. *)
#[global] Instance Fixed_Loop : EventLoop Dial := {|
  create_connection _ dial := (dial, dial)
|}.

Definition tcp : TcpCommand := mkTcpCommand 1 2.

Definition uuid_a : UUID := mkUUID 10.
Definition uuid_b : UUID := mkUUID 11.
Definition uuid_c : UUID := mkUUID 12.

Definition ping : Simple := mkSimple uuid_a false 3 [] Pending.
Definition write_events : Simple := mkSimple uuid_b false 130 [x01; x02] Pending.
Definition ack : Simple := mkSimple uuid_c true 204 [x09] Pending.

Definition localhost : NodeService := mkNode "localhost" 1113.

(** Two frames from a server: a reply with a two-byte payload and one with
    none. *)
Definition reply : Wire.Frame := Wire.mkFrame 20 x84 x00 uuid_b [x07; x2a].
Definition pong : Wire.Frame := Wire.mkFrame 18 x04 x00 uuid_a [].

(** Heartbeat frames from a server: a request, and a response that does
    not answer the pacemaker's own probe. *)
Definition heartbeat_request : Wire.Frame := Wire.mkFrame 18 x01 x00 uuid_c [].
Definition stray_response : Wire.Frame := Wire.mkFrame 18 x02 x00 uuid_c [].

(** A header that announces 17 bytes, one fewer than a header holds. *)
Definition short : Wire.Frame := Wire.mkFrame 17 x03 x00 uuid_a [].

(** The read pump's surroundings on connection 1: an empty input queue, a
    pacemaker with a probe in flight, an empty output queue, and a
    dispatcher that tracks [ping]. *)
Definition pump : Connection.Pump Simple :=
  Connection.mkPump []
    (Connection.set_fut (Some Pending) (Connection.PaceMaker_init 1 uuid_a))
    (<[1 := []]> ∅)
    (Connection.mkDispatcher [(uuid_a, ping)] (Some 1)).

(** A connector with connection 1 open to [localhost], and its
    surroundings: a discovery that knows [localhost], no retries, a loop
    whose dials answer after one unit of time, a dispatcher that tracks
    [ping] and is attached to the output queue of connection 1. *)
Definition protocol : Connection.PhotonPumpProtocol :=
  Connection.mkProtocol localhost 1.

Definition connector : Connection.Connector :=
  Connection.mkConnector 1 [] 0 5 (Some protocol) (Some Connection.Connecting)
    (Some localhost) false.

Definition system : Connection.System Simple (list NodeService) Retries Dial :=
  Connection.mkSystem [localhost] (mkRetries 0 0) (Answers 1 (Ok 1))
    (Connection.mkDispatcher [(uuid_a, ping)] (Some 1)) (<[1 := []]> ∅) [].

(** A connector that has just been started, with nothing to discover and a
    dispatcher that tracks [ping] for a caller who awaits its result. *)
Definition fresh_connector : Connection.Connector :=
  Connection.Connector_start None (Connection.Connector_init None).

Definition nowhere : Connection.System Simple (list NodeService) Retries Dial :=
  Connection.mkSystem [] (mkRetries 0 0) Hangs
    (Connection.mkDispatcher [(uuid_a, ping)] None) ∅ [].

(** The connector of [connection2.py] with transport 1 open. *)
Definition connector2 : Connection2.Connector :=
  Connection2.mkConnector [] (Some 1) 0 (Some localhost) Connection.Connecting [].

End Sample.

(* ================================================================== *)
(** * Vocabulary of the connector and dispatcher properties            *)
(* ================================================================== *)

Module Heartbeats.
Import Connection.

(** The two instructions the pacemaker's verdicts become. *)
Definition is_failure (msg : ConnectorInstruction) : bool :=
  match msg with
  | HandleHeartbeatFailed _ => true
  | _ => false
  end.

Definition is_verdict (msg : ConnectorInstruction) : bool :=
  match msg with
  | HandleHeartbeatFailed _ | HandleHeartbeatSuccess _ => true
  | _ => false
  end.

(** The longest run of consecutive failures that [msgs] completes or
    contains, when [run] failures in a row come right before it. *)
Fixpoint longest_run (run : nat) (msgs : list ConnectorInstruction) : nat :=
  match msgs with
  | [] => run
  | msg :: msgs' =>
      if is_failure msg
      then longest_run (S run) msgs'
      else Nat.max run (longest_run 0 msgs')
  end.

End Heartbeats.

Module Tracking.

Section Tracking.
Context {C : Type} `{Conversation C}.

(** What holds of the dispatcher's dictionary however it was filled by
    [start_conversation]: no id is held twice, and every conversation is
    held under its own id. *)
Definition consistent (d : list (UUID * C)) : Prop :=
  NoDup (Dict.keys d) /\ Forall (fun kv => conversation_id kv.2 = kv.1) d.

(** How many of the frames [ms] bear the conversation id [u]. *)
Definition frames_of (u : UUID) (ms : list OutboundMessage) : nat :=
  length (filter (fun m => out_conversation_id m = Some u) ms).

(** The specification's reading of [start_conversation]: the start frame
    is on the attached queue at once, or else it is on whichever queue is
    attached next. *)
Definition sent_or_deferred (conversation : C)
    (d : Connection.MessageDispatcher C) (qs : Queues.t) : Prop :=
  let '(d', qs', _) := Connection.start_conversation conversation d qs in
  match Connection.output d with
  | Some q => Queues.contents q qs' = Queues.contents q qs ++ [start conversation]
  | None =>
      forall q, start conversation ∈ Queues.contents q (Connection.write_to q d' qs').2
  end.

(** The specification's reading of a terminal error: every conversation
    the dispatcher still tracks has had the error set on its result
    handle. *)
Definition delivered_to_all (e : exn) (d : Connection.MessageDispatcher C) : Prop :=
  Forall (fun c => result_handle c = Failed e)
         (Dict.values (Connection.active_conversations d)).

End Tracking.
End Tracking.

(* ================================================================== *)
(** * [connection.py]: the dispatch pump and the heartbeat wait        *)
(* ================================================================== *)

(** The two pumps of a [PhotonPumpProtocol] that stand behind the read
    pump: the dispatch pump, which feeds the dispatcher from the input
    queue, and the pacemaker's wait for the answer to its probe. *)
Module Protocol.
Import Connection.

Section Dispatch.
Context {C : Type} `{Conversation C}.

(** Where the dispatch pump stands once the input queue has nothing more
    for it: it waits in [input_queue.get()], or it has left its loop on an
    exception, and the messages it had not taken stay in the queue. *)
Inductive DispatchLoop : Type :=
| waits (d : MessageDispatcher C) (qs : Queues.t)
| broke (e : exn) (untaken : list InboundMessage).

(** [PhotonPumpProtocol.dispatch] (lines 791-801): messages are taken from
    the input queue one at a time and given to the dispatcher together
    with the protocol's output queue; [except: ... break] ends the loop on
    the first exception. *)
Fixpoint PhotonPumpProtocol_dispatch (protocol : PhotonPumpProtocol)
    (input_queue : list InboundMessage) (d : MessageDispatcher C)
    (qs : Queues.t) : DispatchLoop :=
  match input_queue with
  | [] => waits d qs
  | next_msg :: input_queue' =>
      match dispatch next_msg (output_queue protocol) d qs with
      | Ok (d', qs') => PhotonPumpProtocol_dispatch protocol input_queue' d' qs'
      | Raise e => broke e input_queue'
      end
  end.

End Dispatch.
Arguments DispatchLoop C : clear implicits.

Section Wait.
Context {C D R L : Type}.
Context `{Conversation C} `{Discovery D} `{DiscoveryRetryPolicy R} `{EventLoop L}.

(** The [TypeError] that [asyncio.wait_for] raises when it is handed
    [None] for a future.  The pacemaker only passes it on. *)
Variable not_a_future : exn.

(** How [await_heartbeat_response] ends: it returns, or it re-raises the
    [CancelledError] of its wait, which ends [send_heartbeats]. *)
Inductive Waited : Type :=
| returned
| cancelled_error.

Definition set_pacemaker (p : PaceMaker) (w : Pump C) : Pump C :=
  {| input_queue := input_queue w;
     pacemaker := p;
     queues := queues w;
     dispatcher := dispatcher w |}.

(** [PaceMaker.await_heartbeat_response] (lines 300-313), at the moment
    its [asyncio.wait_for(self._fut, self.response_timeout)] ends.  A
    future that has its result makes the wait return; one that is still
    pending when the timeout has passed is cancelled by [wait_for], which
    raises [TimeoutError]; a cancelled one raises [CancelledError]; one
    that holds an exception raises it.  Whatever [heartbeat_received]
    raises is caught by [except Exception] with the rest. *)
Definition await_heartbeat_response (w : Pump C) (self : Connector)
    (s : System C D R L) : Waited * Pump C * Connector * System C D R L :=
  match _fut (pacemaker w) with
  | Some (Finished _) =>
      match heartbeat_received (heartbeat_id (pacemaker w)) self s with
      | Ok (self', s') => (returned, w, self', s')
      | Raise exn => (returned, w, heartbeat_failed exn self, s)
      end
  | Some Pending =>
      (returned, set_pacemaker (set_fut (Some Cancelled) (pacemaker w)) w,
       heartbeat_failed TimeoutError self, s)
  | Some Cancelled => (cancelled_error, w, self, s)
  | Some (Failed exn) => (returned, w, heartbeat_failed exn self, s)
  | None => (returned, w, heartbeat_failed not_a_future self, s)
  end.

End Wait.

End Protocol.

(* ================================================================== *)
(** * [connection2.py]: [StreamingIterator] and [MessageWriter]        *)
(* ================================================================== *)

Module Streaming.

(** What is put on the queue of a [StreamingIterator]: an event, or one of
    the exception objects that are put there as marks. *)
Inductive Item (A : Type) : Type :=
| Value (a : A)
| StopIteration
| StopAsyncIteration
| Error (e : exn).
Arguments Value {A} a.
Arguments StopIteration {A}.
Arguments StopAsyncIteration {A}.
Arguments Error {A} e.

(** [items] is the [asyncio.Queue(maxsize=size)]. *)
Record StreamingIterator (A : Type) : Type := mkIterator {
  maxsize : Z;
  items : list (Item A);
  finished : bool
}.
Arguments mkIterator {A}.
Arguments maxsize {A}.
Arguments items {A}.
Arguments finished {A}.

(** How a call of [__anext__] ends. *)
Inductive Next (B : Type) : Type :=
| yields (b : B)
| stop_async_iteration
| raises (e : exn)
| suspended.
Arguments yields {B} b.
Arguments stop_async_iteration {B}.
Arguments raises {B} e.
Arguments suspended {B}.

Section Iterator.
Context {A : Type}.

(** [__init__] *)
Definition StreamingIterator_init (size : Z) : StreamingIterator A :=
  {| maxsize := size; items := []; finished := false |}.

(** [self.items.full()]: a queue made with [maxsize <= 0] is never full. *)
Definition full (self : StreamingIterator A) : bool :=
  (0 <? maxsize self) && (maxsize self <=? len (items self)).

(** [await self.items.put(item)]; [None] when the queue is full, where the
    caller is suspended until an item is taken. *)
Definition put (item : Item A) (self : StreamingIterator A)
    : option (StreamingIterator A) :=
  if full self then None
  else Some {| maxsize := maxsize self;
               items := items self ++ [item];
               finished := finished self |}.

(** [enqueue_items] (lines 276-279).  With the iterator comes what has not
    been put: when that is not empty, the caller is suspended in the [put]
    of its first item. *)
Fixpoint enqueue_items (new : list (Item A)) (self : StreamingIterator A)
    : StreamingIterator A * list (Item A) :=
  match new with
  | [] => (self, [])
  | item :: new' =>
      match put item self with
      | Some self' => enqueue_items new' self'
      | None => (self, new)
      end
  end.

(** [enqueue], [athrow] and [asend] are all [await self.items.put(...)]. *)
Definition enqueue (item : Item A) := put item.
Definition athrow (e : Item A) := put e.
Definition asend (m : Item A) := put m.

Definition set_items (l : list (Item A)) (self : StreamingIterator A)
    : StreamingIterator A :=
  {| maxsize := maxsize self; items := l; finished := finished self |}.

(** [__anext__] (lines 290-305).  With an empty queue, [self.items.get()]
    suspends the caller.  A [StopAsyncIteration] object on the queue is an
    [Exception] that is not a [StopIteration], so it is raised, which ends
    the iteration as well. *)
Definition __anext__ (self : StreamingIterator A)
    : Next A * StreamingIterator A :=
  if finished self && (len (items self) =? 0)
  then (stop_async_iteration, self)
  else
    match items self with
    | [] => (suspended, self)
    | Value a :: rest => (yields a, set_items rest self)
    | StopIteration :: rest => (stop_async_iteration, set_items rest self)
    | StopAsyncIteration :: rest => (stop_async_iteration, set_items rest self)
    | Error e :: rest => (raises e, set_items rest self)
    end.

(** [anext] (lines 284-288): the end of the iteration is answered with
    [None]. *)
Definition anext (self : StreamingIterator A)
    : Next (option A) * StreamingIterator A :=
  match __anext__ self with
  | (yields a, self') => (yields (Some a), self')
  | (stop_async_iteration, self') => (yields None, self')
  | (raises e, self') => (raises e, self')
  | (suspended, self') => (suspended, self')
  end.

(** [cancel] (lines 313-315).  [self.asend(StopIteration())] builds a
    coroutine that is never awaited: nothing is put. *)
Definition cancel (self : StreamingIterator A) : StreamingIterator A :=
  {| maxsize := maxsize self; items := items self; finished := true |}.

(** A consumer that calls [__anext__] [n] times, one call after the
    other, and what each call answered. *)
Fixpoint consume (n : nat) (self : StreamingIterator A)
    : list (Next A) * StreamingIterator A :=
  match n with
  | O => ([], self)
  | S n' =>
      let '(answer, self') := __anext__ self in
      let '(answers, self'') := consume n' self' in
      (answer :: answers, self'')
  end.

End Iterator.

End Streaming.

Module Writer2.

(** What [stream_writer.write] is given: [header_bytes] and [payload] of a
    message.  [messages.py], which computes [header_bytes], is not part of
    the sources at hand. *)
Inductive Chunk : Type :=
| header_bytes (m : OutboundMessage)
| payload (m : OutboundMessage).

(** The attributes of the [MessageWriter] of [connection2.py].  A stream
    writer is named by the number of the transport it writes to;
    [written] records every [write], in order, with the stream writer it
    went to. *)
Record MessageWriter : Type := mkWriter {
  _queue : list OutboundMessage;
  _is_connected : bool;
  next : option OutboundMessage;
  stream_writer : option Z;
  written : list (Z * Chunk)
}.

(** [__init__], on the queue it is given. *)
Definition MessageWriter_init (queue : list OutboundMessage) : MessageWriter :=
  {| _queue := queue;
     _is_connected := false;
     next := None;
     stream_writer := None;
     written := [] |}.

(** [enqueue_message] *)
Definition enqueue_message (message : OutboundMessage) (self : MessageWriter)
    : MessageWriter :=
  {| _queue := _queue self ++ [message];
     _is_connected := _is_connected self;
     next := next self;
     stream_writer := stream_writer self;
     written := written self |}.

(** [self.stream_writer.write(m.header_bytes)] and
    [self.stream_writer.write(m.payload)]. *)
Definition write_message (m : OutboundMessage) (self : MessageWriter)
    : result MessageWriter :=
  match stream_writer self with
  | Some sw =>
      Ok {| _queue := _queue self;
            _is_connected := _is_connected self;
            next := next self;
            stream_writer := stream_writer self;
            written := written self ++ [(sw, header_bytes m); (sw, payload m)] |}
  | None => Raise AttributeError
  end.

(** The loop of [_write_outbound_messages] (lines 383-396) over the
    messages that wait in the queue; it then rests in [self._queue.get()].
    An exception of a write is logged and the loop goes on. *)
Fixpoint write_waiting (waiting : list OutboundMessage) (self : MessageWriter)
    : MessageWriter :=
  match waiting with
  | [] => self
  | m :: waiting' =>
      let self := {| _queue := waiting';
                     _is_connected := _is_connected self;
                     next := Some m;
                     stream_writer := stream_writer self;
                     written := written self |} in
      let self := match write_message m self with
                  | Ok self' => self'
                  | Raise _ => self
                  end in
      write_waiting waiting' self
  end.

(** [_write_outbound_messages] (lines 377-396) *)
Definition _write_outbound_messages (self : MessageWriter) : result MessageWriter :=
  self ← match next self with
         | Some m => write_message m self
         | None => Ok self
         end;
  if _is_connected self
  then Ok (write_waiting (_queue self) self)
  else Ok self.

(** [on_connected] (lines 366-372), with the write loop it starts. *)
Definition on_connected (streamwriter : Z) (self : MessageWriter)
    : result MessageWriter :=
  _write_outbound_messages
    {| _queue := _queue self;
       _is_connected := true;
       next := next self;
       stream_writer := Some streamwriter;
       written := written self |}.

(** [on_connection_lost] (lines 358-364): the write loop is cancelled.
    [_write_loop] is [None] until [on_connected] has made the loop, and
    [stream_writer] is not set before: on a writer that has never been
    connected, [self._write_loop.cancel()] raises [AttributeError]. *)
Definition on_connection_lost (self : MessageWriter) : result MessageWriter :=
  match stream_writer self with
  | Some _ =>
      Ok {| _queue := _queue self;
            _is_connected := false;
            next := next self;
            stream_writer := stream_writer self;
            written := written self |}
  | None => Raise AttributeError
  end.

(** What was written to stream writer [sw], in order. *)
Definition written_to (sw : Z) (self : MessageWriter) : list Chunk :=
  map snd (filter (fun entry => entry.1 = sw) (written self)).

(** The writes that the messages [ms] make, one after the other. *)
Definition chunks_of (ms : list OutboundMessage) : list Chunk :=
  concat (map (fun m => [header_bytes m; payload m]) ms).

End Writer2.

(* ================================================================== *)
(** * Vocabulary of the further properties                             *)
(* ================================================================== *)

Module Reading.
Import MessageReader.

(** What holds of a reader between two turns of [process], whatever bytes
    it has been fed: the count of header bytes still required is within
    the header, the header array keeps its size, no length at or above
    the header's is held while a header is being read, and a command has
    been unpacked once the header is complete. *)
Record steady (self : state) : Prop := mk_steady {
  steady_required : 0 <= header_bytes_required self <= MESSAGE_MIN_SIZE;
  steady_size : len (header_bytes self) = MESSAGE_MIN_SIZE;
  steady_length : header_bytes_required self <> 0 -> length_ self < HEADER_LENGTH;
  steady_cmd : header_bytes_required self = 0 -> is_Some (cmd self)
}.

(** A steady reader that, once its header is complete, still has payload
    to read or holds a length below the header's: a complete message is
    handed over in the turn that completes it, never in a later one. *)
Definition settled (self : state) : Prop :=
  steady self
  /\ (header_bytes_required self = 0 -> length_ self <> message_offset self).

Section Turn.
Context {World : Type}.
Variable on_message : InboundMessage -> World -> result World.

(** The turn of [process] after its header loop: the copy into the
    message buffer and the hand-over, as they stand in [process_turn]. *)
Definition after_header (self : state) (w : World) (chunk : list byte)
    (chunk_offset : Z) : result (state * World * Z) :=
  let chunk_len := len chunk in
  let message_bytes_required := length_ self - message_offset self in
  let '(self, chunk_offset, message_bytes_required) :=
    if 0 <? message_bytes_required
    then
      let buffer := buffer_or_empty (message_buffer self) in
      let end_span := Z.min chunk_len (message_bytes_required + chunk_offset) in
      let bytes_read := end_span - chunk_offset in
      let buffer := buffer ++ slice chunk chunk_offset end_span in
      (set_message_buffer buffer (message_offset self + bytes_read) self,
       end_span,
       message_bytes_required - bytes_read)
    else (self, chunk_offset, message_bytes_required) in
  if message_bytes_required =? 0
  then
    c ← match cmd self with
        | Some c => Ok c
        | None => Raise AttributeError
        end;
    let message :=
      mkInbound (conversation_id self) c (buffer_or_empty (message_buffer self)) in
    w ← on_message message w;
    Ok (reset self, w, chunk_offset)
  else Ok (self, w, chunk_offset).

End Turn.

End Reading.

Module Delivery.

Section Delivery.
Context {C : Type} `{Conversation C}.

(** A conversation whose [respond_to] leaves its id alone. *)
Definition keeps_id : Prop :=
  forall (m : InboundMessage) (c : C),
    conversation_id (respond_to m c).1 = conversation_id c.

(** The conversation [c] after the messages [ms], given to [respond_to] in
    order; [None] once it is complete, after which nothing reaches it. *)
Fixpoint replies (ms : list InboundMessage) (c : C) : option C :=
  match ms with
  | [] => Some c
  | m :: ms' =>
      let c' := (respond_to m c).1 in
      if is_complete c' then None else replies ms' c'
  end.

(** The messages of [ms] that bear the conversation id [k]. *)
Definition addressed_to (k : UUID) (ms : list InboundMessage)
    : list InboundMessage :=
  filter (fun m => in_conversation_id m = Some k) ms.

End Delivery.

End Delivery.

Module Trace.
Import Connection.

(** The connection numbers of the dials among the effects [es]. *)
Fixpoint dial_numbers (es : list Effect) : list Z :=
  match es with
  | [] => []
  | dialled _ k _ :: es' => k :: dial_numbers es'
  | _ :: es' => dial_numbers es'
  end.

(** No two dials bear the same connection number, and none bears a number
    above the connector's counter. *)
Definition numbered (self : Connector) (es : list Effect) : Prop :=
  NoDup (dial_numbers es)
  /\ Forall (fun k => k <= connection_counter self) (dial_numbers es).

(** The instructions by which the connector learns that a dial or a
    connection has failed. *)
Definition is_loss (msg : ConnectorInstruction) : bool :=
  match msg with
  | HandleConnectFailure _ | HandleConnectionClosed | HandleConnectionFailed _ => true
  | _ => false
  end.

End Trace.

(* ================================================================== *)
(** * [connection2.py]: the loop of the dispatcher                     *)
(* ================================================================== *)

(** The [while True] loop of [MessageDispatcher._process_messages]
    (lines 572-681), with the result futures that the dispatcher makes.
    A future is held both by the dispatcher, in the tuple of its
    conversation, and by the caller that [enqueue_conversation] returned
    it to, and the iterator that a future is resolved with is filled by
    the dispatcher while its consumer empties it.  So the futures live in
    one store, in the order in which they were made, and a conversation's
    tuple holds the place of its future in that store. *)
Module Replies.
Import Streaming.

(** Modelled from the spec: [conversations.py] is not part of the sources
    at hand.  Section 3: "ReplyAction is a tagged variant with these
    cases", which are the ten below.  What comes with each action is what
    [_process_messages] takes from [reply.result]: a value, an exception,
    [(size, events)], events, or a subscription with its [buffer_size]. *)
Inductive ReplyAction (V E : Type) : Type :=
| CompleteScalar (result : V)
| CompleteError (result : exn)
| BeginIterator (size : Z) (events : list E)
| YieldToIterator (events : list E)
| CompleteIterator (events : list E)
| RaiseToIterator (error : exn)
| BeginPersistentSubscription (buffer_size : Z)
| YieldToSubscription (event : E)
| RaiseToSubscription (error : exn)
| FinishSubscription.
Arguments CompleteScalar {V E} result.
Arguments CompleteError {V E} result.
Arguments BeginIterator {V E} size events.
Arguments YieldToIterator {V E} events.
Arguments CompleteIterator {V E} events.
Arguments RaiseToIterator {V E} error.
Arguments BeginPersistentSubscription {V E} buffer_size.
Arguments YieldToSubscription {V E} event.
Arguments RaiseToSubscription {V E} error.
Arguments FinishSubscription {V E}.

(** What the dispatcher resolves a future with: the value of a scalar
    reply, a [StreamingIterator], or a [PersistentSubscription], of which
    the loop uses the iterator [events]. *)
Inductive Handle (V E : Type) : Type :=
| scalar (value : V)
| iterator (it : StreamingIterator E)
| subscription (events : StreamingIterator E).
Arguments scalar {V E} value.
Arguments iterator {V E} it.
Arguments subscription {V E} events.

(** How [fut.result()] and [await fut] end, when they do. *)
Inductive Got (A : Type) : Type :=
| got (a : A)
| got_exception (e : exn)
| got_cancelled.
Arguments got {A} a.
Arguments got_exception {A} e.
Arguments got_cancelled {A}.

(** [fut.result()]: a future that is not done raises
    [InvalidStateError]. *)
Definition Future_result {A : Type} (fut : Future A) : Got A :=
  match fut with
  | Pending => got_exception InvalidStateError
  | Finished a => got a
  | Failed e => got_exception e
  | Cancelled => got_cancelled
  end.

(** [await fut]; [None] for a pending future, on which the caller is
    suspended. *)
Definition Future_await {A : Type} (fut : Future A) : option (Got A) :=
  match fut with
  | Pending => None
  | _ => Some (Future_result fut)
  end.

(** [fut.set_exception(e)] *)
Definition set_exception {A : Type} (e : exn) (fut : Future A)
    : result (Future A) :=
  match fut with
  | Pending => Ok (Failed e)
  | _ => Raise InvalidStateError
  end.

Section Replies.
Context {C : Type} `{Conversation C}.
Context {V E : Type}.
Variable tcp : TcpCommand.

(** [conversation.respond_to(message)], for the conversations of callers
    and for the [convo.Heartbeat] that the loop enqueues itself: the
    conversation as it is afterwards, and the reply. *)
Variable respond_to :
  InboundMessage -> Connection2.Enqueued C
  -> Connection2.Enqueued C * ReplyAction V E.

(** [active_conversations] maps a conversation id to the tuple
    [(convo, future)], the future being named by its place in
    [futures]. *)
Record MessageDispatcher : Type := mkDispatcher {
  active_conversations : list (option UUID * (Connection2.Enqueued C * nat));
  futures : list (Future (Handle V E));
  output : list OutboundMessage;
  _connected : bool
}.

Definition set_active_conversations
    (d : list (option UUID * (Connection2.Enqueued C * nat)))
    (self : MessageDispatcher) : MessageDispatcher :=
  {| active_conversations := d;
     futures := futures self;
     output := output self;
     _connected := _connected self |}.

Definition set_future (i : nat) (fut : Future (Handle V E))
    (self : MessageDispatcher) : MessageDispatcher :=
  {| active_conversations := active_conversations self;
     futures := <[i := fut]> (futures self);
     output := output self;
     _connected := _connected self |}.

(** The future at place [i]. *)
Definition future_at (i : nat) (self : MessageDispatcher)
    : Future (Handle V E) :=
  default Cancelled (futures self !! i).

(** [enqueue_conversation] (lines 541-551), with the place of the future
    it returns. *)
Definition enqueue_conversation (convo : Connection2.Enqueued C)
    (self : MessageDispatcher) : MessageDispatcher * nat :=
  let future := length (futures self) in
  let message := Connection2.enqueued_start tcp convo in
  ({| active_conversations :=
        Dict.set (Connection2.enqueued_id convo) (convo, future)
                 (active_conversations self);
      futures := futures self ++ [Pending];
      output := if _connected self then output self ++ [message] else output self;
      _connected := _connected self |},
   future).

(** How one turn of the loop ends: the loop goes on to the next message;
    it is suspended in a [put] on the full queue of an iterator, with the
    items it has not put; it is suspended in [await result] on a pending
    future; an exception leaves the loop, which has no handler for any;
    the [CancelledError] of a cancelled future does; or the turn calls
    into objects that the sources at hand do not show (the value of a
    scalar reply, or the base class of [PersistentSubscription], where the
    reply is for an iterator or a subscription). *)
Inductive Turn : Type :=
| goes_on (self : MessageDispatcher)
| suspended_in_put (self : MessageDispatcher) (future : nat)
                   (unput : list (Item E))
| suspended_on_result (self : MessageDispatcher) (future : nat)
| raised (e : exn) (self : MessageDispatcher)
| cancelled (self : MessageDispatcher)
| undetermined.

(** [del self.active_conversations[message.conversation_id]] *)
Definition forget (key : option UUID) (self : MessageDispatcher) : Turn :=
  match Dict.del key (active_conversations self) with
  | Ok d => goes_on (set_active_conversations d self)
  | Raise e => raised e self
  end.

(** [await it.enqueue_items(items)] on the iterator that future [i] holds
    as [wrap it], followed by [after] when all items have been put. *)
Definition fill (i : nat) (wrap : StreamingIterator E -> Handle V E)
    (it : StreamingIterator E) (new : list (Item E))
    (after : StreamingIterator E -> MessageDispatcher -> Turn)
    (self : MessageDispatcher) : Turn :=
  let '(it', unput) := enqueue_items new it in
  let self := set_future i (Finished (wrap it')) self in
  match unput with
  | [] => after it' self
  | _ => suspended_in_put self i unput
  end.

(** [await it.asend(item)] or [await it.enqueue(item)] on that iterator,
    followed by [after]. *)
Definition send (i : nat) (wrap : StreamingIterator E -> Handle V E)
    (it : StreamingIterator E) (item : Item E)
    (after : MessageDispatcher -> Turn) (self : MessageDispatcher) : Turn :=
  match put item it with
  | Some it' => after (set_future i (Finished (wrap it')) self)
  | None => suspended_in_put self i [item]
  end.

(** [iterator = result.result()] and what is then done with it. *)
Definition with_iterator (i : nat)
    (use : StreamingIterator E -> MessageDispatcher -> Turn)
    (self : MessageDispatcher) : Turn :=
  match Future_result (future_at i self) with
  | got (iterator it) => use it self
  | got _ => undetermined
  | got_exception e => raised e self
  | got_cancelled => cancelled self
  end.

(** [sub = await result] and what is then done with [sub.events]; a
    [StreamingIterator] has no attribute [events]. *)
Definition with_subscription (i : nat)
    (use : StreamingIterator E -> MessageDispatcher -> Turn)
    (self : MessageDispatcher) : Turn :=
  match Future_await (future_at i self) with
  | None => suspended_on_result self i
  | Some (got (subscription events)) => use events self
  | Some (got (iterator _)) => raised AttributeError self
  | Some (got (scalar _)) => undetermined
  | Some (got_exception e) => raised e self
  | Some got_cancelled => cancelled self
  end.

(** The branches on [reply.action] (lines 607-681), for the message's
    conversation id [key] and the future at place [i]. *)
Definition on_reply (key : option UUID) (i : nat) (reply : ReplyAction V E)
    (self : MessageDispatcher) : Turn :=
  match reply with
  | CompleteScalar value =>
      match set_result (scalar value) (future_at i self) with
      | Ok fut => forget key (set_future i fut self)
      | Raise e => raised e self
      end
  | CompleteError e =>
      match set_exception e (future_at i self) with
      | Ok fut => forget key (set_future i fut self)
      | Raise e => raised e self
      end
  | BeginIterator size events =>
      let it := StreamingIterator_init (size * 2) in
      match set_result (iterator it) (future_at i self) with
      | Ok fut =>
          fill i iterator it (map Value events) (fun _ => goes_on)
               (set_future i fut self)
      | Raise e => raised e self
      end
  | YieldToIterator events =>
      with_iterator i
        (fun it => fill i iterator it (map Value events) (fun _ => goes_on))
        self
  | CompleteIterator events =>
      with_iterator i
        (fun it =>
           fill i iterator it (map Value events)
                (fun it => send i iterator it StopAsyncIteration (forget key)))
        self
  | RaiseToIterator error =>
      with_iterator i
        (fun it => send i iterator it (Error error) (forget key))
        self
  | BeginPersistentSubscription buffer_size =>
      let sub := subscription (StreamingIterator_init buffer_size) in
      match set_result sub (future_at i self) with
      | Ok fut => goes_on (set_future i fut self)
      | Raise e => raised e self
      end
  | YieldToSubscription event =>
      with_subscription i
        (fun events => send i subscription events (Value event) goes_on)
        self
  | RaiseToSubscription error =>
      with_subscription i
        (fun events => send i subscription events (Error error) goes_on)
        self
  | FinishSubscription =>
      with_subscription i
        (fun events => send i subscription events StopIteration goes_on)
        self
  end.

(** [conversation] is the object that the dict holds: what [respond_to]
    has made of it is what the dict holds afterwards. *)
Definition keep (key : option UUID) (conversation : Connection2.Enqueued C)
    (result : nat) (self : MessageDispatcher) : MessageDispatcher :=
  set_active_conversations
    (Dict.set key (conversation, result) (active_conversations self)) self.

(** One turn of the loop (lines 573-681) for the message it has taken.
    The queue holds messages and conversations, objects that are true:
    [if not message] and [if not conversation] are the tests for
    [None]. *)
Definition turn (message : InboundMessage) (self : MessageDispatcher) : Turn :=
  if in_command message =? HeartbeatRequest tcp
  then
    goes_on (enqueue_conversation
               (Connection2.Heartbeat (in_conversation_id message)) self).1
  else
    match Dict.get (in_conversation_id message) (active_conversations self) with
    | None => goes_on self
    | Some (conversation, result) =>
        let '(conversation, reply) := respond_to message conversation in
        on_reply (in_conversation_id message) result reply
                 (keep (in_conversation_id message) conversation result self)
    end.

(** What a conversation replies to the messages [messages], taken one
    after the other, and what it is afterwards. *)
Fixpoint answers (conversation : Connection2.Enqueued C)
    (messages : list InboundMessage)
    : Connection2.Enqueued C * list (ReplyAction V E) :=
  match messages with
  | [] => (conversation, [])
  | message :: messages' =>
      let '(conversation, reply) := respond_to message conversation in
      let '(conversation, replies) := answers conversation messages' in
      (conversation, reply :: replies)
  end.

(** The messages [messages] are for conversation [key], and none is a
    heartbeat request. *)
Definition for_conversation (key : option UUID)
    (messages : list InboundMessage) : Prop :=
  Forall (fun message =>
            in_command message <> HeartbeatRequest tcp
            /\ in_conversation_id message = key) messages.

(** Where the loop stands once the input queue has nothing more for it,
    or once it cannot go on: it waits in [self.input.get()], or a turn
    has ended otherwise than by going on, and the messages it had not
    taken stay in the queue. *)
Inductive Loop : Type :=
| waits (self : MessageDispatcher)
| stopped_in (how : Turn) (untaken : list InboundMessage).

(** The loop over the messages that are or come on the input queue. *)
Fixpoint _process_messages_loop (input : list InboundMessage)
    (self : MessageDispatcher) : Loop :=
  match input with
  | [] => waits self
  | message :: input' =>
      match turn message self with
      | goes_on self' => _process_messages_loop input' self'
      | how => stopped_in how input'
      end
  end.

End Replies.

Arguments MessageDispatcher C V E : clear implicits.
Arguments Turn C V E : clear implicits.
Arguments Loop C V E : clear implicits.

End Replies.

(** A partner for the loop: the command of a frame tells the reply, and
    the bytes of its payload are the events. *)
Module Reads.
Import Replies.

Definition respond_to (m : InboundMessage)
    (c : Connection2.Enqueued Sample.Simple)
    : Connection2.Enqueued Sample.Simple * ReplyAction (list byte) byte :=
  (c,
   match in_command m with
   | 16 => CompleteScalar (in_payload m)
   | 17 => CompleteError ValueError
   | 18 => BeginIterator 2 (in_payload m)
   | 19 => YieldToIterator (in_payload m)
   | 20 => CompleteIterator (in_payload m)
   | 21 => RaiseToIterator ValueError
   | 22 => BeginPersistentSubscription 4
   | 23 => YieldToSubscription (default x00 (head (in_payload m)))
   | 24 => RaiseToSubscription ValueError
   | _ => FinishSubscription
   end).

(** A dispatcher with connection, which tracks [write_events] for a
    caller that holds future 0. *)
Definition dispatcher : MessageDispatcher Sample.Simple (list byte) byte :=
  (enqueue_conversation Sample.tcp (Connection2.Started Sample.write_events)
     (mkDispatcher [] [] [] true)).1.

(** A frame for [write_events] from the server. *)
Definition frame (command : Z) (payload : list byte) : InboundMessage :=
  mkInbound (Some Sample.uuid_b) command payload.

End Reads.

(* ================================================================== *)
(** * Readings of the specification that the code does not bear out    *)
(* ================================================================== *)

Module Readings.

(** Whether a transport is attached, by the events the connector has
    fired: the last of [connected] and [disconnected] says. *)
Definition attached (es : list Connection.Effect) : bool :=
  foldl (fun so_far e =>
           match e with
           | Connection.connected _ => true
           | Connection.disconnected => false
           | _ => so_far
           end)
        false es.

Section Readings.
Context {C : Type} `{Conversation C}.
Variable tcp : TcpCommand.

(** The specification's reading of the sending rule of
    [start_conversation] while no transport is attached: the frame is put
    on no queue. *)
Definition held_back_while_detached {D R L : Type} (conversation : C)
    (s : Connection.System C D R L) : Prop :=
  attached (Connection.effects s) = false ->
  (Connection.start_conversation conversation (Connection.sys_dispatcher s)
     (Connection.sys_queues s)).1.2
  = Connection.sys_queues s.

(** The specification's reading of the tracking rule on
    [enqueue_conversation] of [connection2.py]: a one-way conversation is
    not inserted into the conversation map. *)
Definition one_way_untracked2 (conversation : C)
    (d : Connection2.MessageDispatcher C) : Prop :=
  one_way conversation = true ->
  Connection2.active_conversations
    (Connection2.enqueue_conversation tcp (Connection2.Started conversation) d).1
  = Connection2.active_conversations d.

(** The specification's reading of the reply to a heartbeat request on the
    dispatcher of [connection2.py]: the reply does not touch the
    conversation map. *)
Definition answered_directly2 (m : InboundMessage)
    (d : Connection2.MessageDispatcher C) : Prop :=
  Connection2.active_conversations (Connection2.on_heartbeat_request tcp m d)
  = Connection2.active_conversations d.

End Readings.

(** The specification's reading of the connect timeout on
    [_attempt_connect] of [connection2.py]: the dial attempt comes to an
    end, whatever the dial does. *)
Definition dial_is_bounded2 {D L : Type} `{Discovery D} `{EventLoop L}
    (target : option NodeService) (self : Connection2.Connector) (d : D) (l : L)
    : Prop :=
  exists self' d' l',
    Connection2._attempt_connect target self d l = Some (self', d', l').

End Readings.

(** A connector that has found [localhost], has connected to it, and has
    then lost that connection; and one whose dials fail. *)
Module Scenario.
Import Connection.

(** Nothing is tracked, [localhost] is there to discover and answers the
    dial after one unit of time. *)
Definition reachable : System Sample.Simple (list NodeService) Sample.Retries Dial :=
  mkSystem [Sample.localhost] (Sample.mkRetries 0 0) (Answers 1 (Ok 7))
    (mkDispatcher [] None) ∅ [].

(** After [start()] and the two turns of the loop that it takes to
    connect. *)
Definition connected_once
    : Connector * System Sample.Simple (list NodeService) Sample.Retries Dial :=
  turns 2 Sample.fresh_connector reachable.

(** After the event loop has then reported the loss of the connection and
    the loop has taken the instruction that this put on its queue. *)
Definition lost
    : Connector * System Sample.Simple (list NodeService) Sample.Retries Dial :=
  match connection_lost None connected_once.1 connected_once.2 with
  | Ok (self, s) => turns 1 self s
  | Raise _ => connected_once
  end.

(** [localhost] refuses every dial, and the retry policy allows one more
    attempt. *)
Definition refusing : System Sample.Simple (list NodeService) Sample.Retries Dial :=
  mkSystem [Sample.localhost] (Sample.mkRetries 1 0) (Answers 1 (Raise (OSError 111)))
    (mkDispatcher [] None) ∅ [].

End Scenario.

(* ================================================================== *)
(** * Bytes and integers                                               *)
(* ================================================================== *)

Lemma byte_val_range (b : byte) : 0 <= byte_val b < 256.
Proof.
  unfold byte_val. pose proof (Byte.to_N_bounded b). lia.
Qed.

Lemma byte_val_of (z : Z) : byte_val (byte_of z) = z mod 256.
Proof.
  unfold byte_val, byte_of.
  pose proof (Z.mod_pos_bound z 256 ltac:(lia)) as Hz.
  destruct (Byte.of_N (Z.to_N (z mod 256))) as [b|] eqn:E.
  - apply Byte.to_of_N in E. rewrite E. lia.
  - apply Byte.of_N_None_iff in E. lia.
Qed.

Lemma length_int_to_bytes_little (n : nat) (z : Z) :
  length (int_to_bytes_little n z) = n.
Proof.
  revert z. induction n as [|n IH]; intros z; simpl; [reflexivity|].
  now rewrite IH.
Qed.

Lemma int_from_to_bytes_little (n : nat) (z : Z) :
  int_from_bytes_little (int_to_bytes_little n z) = z mod 256 ^ Z.of_nat n.
Proof.
  revert z. induction n as [|n IH]; intros z.
  - simpl. now rewrite Z.mod_1_r.
  - cbn [int_to_bytes_little int_from_bytes_little fold_right].
    fold (int_from_bytes_little (int_to_bytes_little n (z / 256))).
    rewrite IH, byte_val_of.
    rewrite Nat2Z.inj_succ, Z.pow_succ_r by lia.
    rewrite Z.rem_mul_r by lia. reflexivity.
Qed.

Lemma int_from_bytes_big_snoc (l : list byte) (b : byte) :
  int_from_bytes_big (l ++ [b]) = int_from_bytes_big l * 256 + byte_val b.
Proof.
  unfold int_from_bytes_big. now rewrite fold_left_app.
Qed.

Lemma int_from_bytes_big_rev (l : list byte) :
  int_from_bytes_big (rev l) = int_from_bytes_little l.
Proof.
  induction l as [|b l IH]; [reflexivity|].
  simpl rev. rewrite int_from_bytes_big_snoc, IH. simpl. lia.
Qed.

Lemma int_from_to_bytes_big (n : nat) (z : Z) :
  0 <= z < 256 ^ Z.of_nat n ->
  int_from_bytes_big (int_to_bytes_big n z) = z.
Proof.
  intros Hz. unfold int_to_bytes_big.
  rewrite int_from_bytes_big_rev, int_from_to_bytes_little.
  now apply Z.mod_small.
Qed.

Lemma length_int_to_bytes_big (n : nat) (z : Z) :
  length (int_to_bytes_big n z) = n.
Proof.
  unfold int_to_bytes_big. now rewrite length_rev, length_int_to_bytes_little.
Qed.

(** The shuffle is its own inverse on sixteen bytes. *)
Lemma le_shuffle_involutive (b : list byte) :
  length b = 16%nat -> le_shuffle (le_shuffle b) = b.
Proof.
  intros H.
  do 16 (destruct b as [|? b]; [discriminate H|]).
  destruct b; [reflexivity | discriminate H].
Qed.

Lemma length_le_shuffle (b : list byte) :
  length b = 16%nat -> length (le_shuffle b) = 16%nat.
Proof.
  intros H.
  do 16 (destruct b as [|? b]; [discriminate H|]).
  destruct b; [reflexivity | discriminate H].
Qed.

Lemma length_bytes_le (u : UUID) : length (bytes_le u) = 16%nat.
Proof.
  unfold bytes_le. apply length_le_shuffle, length_int_to_bytes_big.
Qed.

(** [uuid.UUID(bytes_le=u.bytes_le) == u] *)
Lemma UUID_of_bytes_le_bytes_le (u : UUID) :
  uuid_valid u -> UUID_of_bytes_le (bytes_le u) = Ok u.
Proof.
  intros Hu. unfold UUID_of_bytes_le.
  rewrite length_bytes_le. simpl.
  unfold bytes_le. rewrite le_shuffle_involutive by apply length_int_to_bytes_big.
  rewrite int_from_to_bytes_big by exact Hu.
  now destruct u.
Qed.

(** [HEAD_PACK.unpack(HEAD_PACK.pack(l, c, f)) == (l, c, f)] *)
Lemma HEAD_PACK_unpack_pack (l : Z) (c f : byte) :
  0 <= l < 2 ^ 32 ->
  HEAD_PACK_unpack (int_to_bytes_little 4 l ++ [c; f]) = Ok (l, byte_val c, byte_val f).
Proof.
  intros Hl.
  pose proof (int_from_to_bytes_little 4 l) as H.
  rewrite Z.mod_small in H by exact Hl.
  cbn [int_to_bytes_little app] in *. cbn [HEAD_PACK_unpack].
  now rewrite H.
Qed.

(* ================================================================== *)
(** * Subscripts and slices                                            *)
(* ================================================================== *)

Lemma len_app {A : Type} (l k : list A) : len (l ++ k) = len l + len k.
Proof. unfold len. rewrite length_app. lia. Qed.

Lemma len_nonneg {A : Type} (l : list A) : 0 <= len l.
Proof. unfold len. lia. Qed.

Lemma index_in_range (n i : Z) :
  0 <= i < n -> index n i = Ok (Z.to_nat i).
Proof.
  intros H. unfold index.
  destruct (0 <=? i) eqn:E1; [|lia].
  destruct (i <? n) eqn:E2; [reflexivity|lia].
Qed.

Lemma getitem_middle {A : Type} (pre cur : list A) (x : A) :
  getitem (pre ++ x :: cur) (len pre) = Ok x.
Proof.
  unfold getitem. rewrite index_in_range.
  - cbn. unfold len. rewrite Nat2Z.id.
    now rewrite list_lookup_middle.
  - rewrite len_app. unfold len. simpl length. lia.
Qed.

Lemma setitem_in_range {A : Type} (l : list A) (i : Z) (x : A) :
  0 <= i < len l -> setitem l i x = Ok (<[Z.to_nat i := x]> l).
Proof.
  intros H. unfold setitem. now rewrite index_in_range.
Qed.

Lemma bound_in_range (n i : Z) : 0 <= i <= n -> bound n i = Z.to_nat i.
Proof.
  intros H. unfold bound. destruct (i <? 0) eqn:E; [lia|]. f_equal. lia.
Qed.

Lemma slice_in_range {A : Type} (l : list A) (a b : Z) :
  0 <= a <= b -> b <= len l ->
  slice l a b = take (Z.to_nat (b - a)) (drop (Z.to_nat a) l).
Proof.
  intros H1 H2. unfold slice.
  rewrite !bound_in_range by lia. f_equal. lia.
Qed.

Lemma slice_middle {A : Type} (pre cur : list A) (e : Z) :
  len pre <= e <= len (pre ++ cur) ->
  slice (pre ++ cur) (len pre) e = take (Z.to_nat (e - len pre)) cur.
Proof.
  intros H. pose proof (len_nonneg pre).
  rewrite slice_in_range by lia.
  unfold len at 2. rewrite Nat2Z.id, drop_app_length. reflexivity.
Qed.

(* ================================================================== *)
(** * The header loop                                                  *)
(* ================================================================== *)

Section HeaderLoop.
Import Wire MessageReader Decoding.

Lemma length_encode_header (f : Frame) : length (encode_header f) = 22%nat.
Proof.
  unfold encode_header.
  rewrite !length_app, length_int_to_bytes_little, length_bytes_le. reflexivity.
Qed.

Lemma len_encode_header (f : Frame) : len (encode_header f) = MESSAGE_MIN_SIZE.
Proof. unfold len. now rewrite length_encode_header. Qed.

Lemma well_formed_header_ok (f : Frame) : well_formed f -> header_ok f.
Proof.
  intros (Hlen & Hmax & Hid). split; [|exact Hid].
  pose proof (len_nonneg (frame_payload f)). unfold HEADER_LENGTH in Hlen. lia.
Qed.

(** Unpacking a stored header gives back the fields of the frame. *)
Lemma unpack_encode_header (f : Frame) :
  header_ok f ->
  HEAD_PACK_unpack (slice (encode_header f) 0 6)
    = Ok (frame_length f, byte_val (frame_command f), byte_val (frame_flags f))
  /\ UUID_of_bytes_le (slice (encode_header f) 6 22) = Ok (frame_conversation_id f).
Proof.
  intros (Hl & Hid).
  pose proof (len_encode_header f) as HL. unfold MESSAGE_MIN_SIZE, SIZE_UINT_32, HEADER_LENGTH in HL.
  rewrite !slice_in_range by lia.
  pose proof (HEAD_PACK_unpack_pack (frame_length f) (frame_command f) (frame_flags f) Hl) as Hu.
  pose proof (UUID_of_bytes_le_bytes_le _ Hid) as Hb.
  pose proof (length_bytes_le (frame_conversation_id f)) as Hbl.
  unfold encode_header.
  cbn [int_to_bytes_little app] in *.
  change (Z.to_nat (6 - 0)) with 6%nat. change (Z.to_nat 0) with 0%nat.
  change (Z.to_nat (22 - 6)) with 16%nat. change (Z.to_nat 6) with 6%nat.
  cbn [take drop].
  split; [exact Hu|].
  rewrite drop_0, take_ge by lia. exact Hb.
Qed.

Lemma read_header_done (n : nat) (self : state) (chunk : list byte) (o : Z) :
  header_bytes_required self = 0 ->
  read_header n self chunk o = Ok (self, o).
Proof.
  intros H. destruct n; [reflexivity|]. simpl. now rewrite H.
Qed.

Lemma read_header_exhausted (n : nat) (self : state) (chunk : list byte) (o : Z) :
  len chunk <= o ->
  read_header n self chunk o = Ok (self, o).
Proof.
  intros H. destruct n; [reflexivity|]. simpl.
  destruct (o <? len chunk) eqn:E; [lia|]. now rewrite andb_false_r.
Qed.

(** One turn of the header loop that stores a byte. *)
Lemma read_header_turn (n : nat) (self : state) (hs : list byte)
    (pre cur : list byte) (b : byte) :
  in_header self hs ->
  read_header (S n) self (pre ++ b :: cur) (len pre) =
    (let self1 := set_header_byte (<[length hs := b]> (header_bytes self)) self in
     self2 ← (if header_bytes_required self1 =? 0
              then
                '(l, c, f) ← HEAD_PACK_unpack (slice (header_bytes self1) 0 6);
                u ← UUID_of_bytes_le (slice (header_bytes self1) 6 22);
                Ok (set_header l c f u self1)
              else Ok self1);
     read_header n (set_message_offset HEADER_LENGTH self2) (pre ++ b :: cur) (len pre + 1)).
Proof.
  intros [Hreq Hshort _ Hsize _ _].
  cbn [read_header].
  pose proof (len_nonneg hs) as Hhs.
  destruct (Z.eqb_spec (header_bytes_required self) 0) as [E|E]; [lia|].
  destruct (Z.ltb_spec (len pre) (len (pre ++ b :: cur))) as [E2|E2].
  2:{ rewrite len_app in E2. unfold len in E2. simpl length in E2. lia. }
  cbn [negb andb].
  rewrite getitem_middle. cbn [mbind result_bind bind].
  rewrite setitem_in_range by lia. cbn [mbind result_bind bind].
  cbv zeta.
  replace (Z.to_nat (MESSAGE_MIN_SIZE - header_bytes_required self)) with (length hs)
    by (unfold len in *; lia).
  reflexivity.
Qed.

Lemma take_insert_snoc {A : Type} (l : list A) (i : nat) (x : A) :
  (i < length l)%nat -> take (S i) (<[i := x]> l) = take i l ++ [x].
Proof.
  intros H. rewrite (take_S_r _ _ x).
  - now rewrite take_insert_ge by lia.
  - now apply list_lookup_insert_eq.
Qed.

(** Storing a byte that does not finish the header. *)
Lemma in_header_store (self : state) (hs hrest : list byte) (b : byte) (f : Frame) :
  in_header self hs ->
  hs ++ b :: hrest = encode_header f ->
  hrest <> [] ->
  let self1 := set_header_byte (<[length hs := b]> (header_bytes self)) self in
  (header_bytes_required self1 =? 0) = false /\
  in_header (set_message_offset HEADER_LENGTH self1) (hs ++ [b]).
Proof.
  intros [Hreq Hshort Hbytes Hsize Hlen Hbuf] Henc Hne self1.
  pose proof (f_equal length Henc) as HL.
  rewrite length_encode_header, length_app in HL. simpl length in HL.
  assert (length hrest <> 0%nat) by (destruct hrest; [congruence | simpl; lia]).
  unfold MESSAGE_MIN_SIZE, SIZE_UINT_32, HEADER_LENGTH, len in *.
  split.
  - subst self1. cbn. apply Z.eqb_neq. lia.
  - subst self1. split; cbn; unfold MESSAGE_MIN_SIZE, SIZE_UINT_32, HEADER_LENGTH, len;
      rewrite ?length_app, ?length_insert; simpl length; try lia; try assumption.
    replace (length hs + 1)%nat with (S (length hs)) by lia.
    rewrite take_insert_snoc by lia. now rewrite Hbytes.
Qed.

(** Storing the byte that finishes the header of [f]. *)
Lemma in_header_finish (self : state) (hs : list byte) (b : byte) (f : Frame) :
  header_ok f ->
  in_header self hs ->
  hs ++ [b] = encode_header f ->
  let self1 := set_header_byte (<[length hs := b]> (header_bytes self)) self in
  (header_bytes_required self1 =? 0) = true /\
  header_bytes self1 = encode_header f /\
  message_buffer self1 = None.
Proof.
  intros Hwf [Hreq Hshort Hbytes Hsize Hlen Hbuf] Henc self1.
  pose proof (f_equal length Henc) as HL.
  rewrite length_encode_header, length_app in HL. simpl length in HL.
  unfold MESSAGE_MIN_SIZE, SIZE_UINT_32, HEADER_LENGTH, len in *.
  subst self1. cbn [header_bytes header_bytes_required set_header_byte message_buffer].
  split; [apply Z.eqb_eq; lia|]. split; [|assumption].
  rewrite <- Henc.
  rewrite <- (take_ge (<[length hs:=b]> (header_bytes self)) (S (length hs)))
    by (rewrite length_insert; lia).
  rewrite take_insert_snoc by lia. now rewrite Hbytes.
Qed.

End HeaderLoop.

Section HeaderRuns.
Import Wire MessageReader Decoding.

(** The header loop on a chunk that ends before the header does: every
    byte of the chunk is stored. *)
Lemma read_header_partial (f : Frame) (cur more : list byte) :
  more <> [] ->
  forall (n : nat) (self : state) (hs pre : list byte),
    in_header self hs ->
    hs ++ cur ++ more = encode_header f ->
    (length cur <= n)%nat ->
    exists self1,
      read_header n self (pre ++ cur) (len pre) = Ok (self1, len pre + len cur)
      /\ in_header self1 (hs ++ cur)
      /\ message_offset self1
         = match cur with [] => message_offset self | _ => HEADER_LENGTH end.
Proof.
  intros Hmore. induction cur as [|b cur IH]; intros n self hs pre Hin Henc Hn.
  - exists self. rewrite !app_nil_r. split; [|split; [assumption|reflexivity]].
    rewrite read_header_exhausted by lia. f_equal. f_equal. unfold len. simpl. lia.
  - destruct n as [|n]; [simpl in Hn; lia|].
    rewrite (read_header_turn n self hs pre cur b Hin).
    destruct (in_header_store self hs (cur ++ more) b f Hin Henc) as [Hz Hin1].
    { destruct cur; [assumption | discriminate]. }
    cbv zeta. rewrite Hz. cbn [mbind result_bind bind].
    destruct (IH n _ (hs ++ [b]) (pre ++ [b]) Hin1) as (self1 & Hrun & Hin2 & Hoff).
    { now rewrite <- app_assoc. }
    { simpl in Hn. lia. }
    exists self1. rewrite <- !app_assoc in *. cbn [app] in *.
    replace (len (pre ++ [b])) with (len pre + 1) in Hrun
      by (rewrite len_app; reflexivity).
    split; [|split; [assumption|]].
    + rewrite Hrun. f_equal. f_equal. unfold len. simpl length. lia.
    + rewrite Hoff. now destruct cur.
Qed.

(** The header loop on a chunk that holds the rest of the header of [f]:
    it stops right after the header, with the fields of [f] unpacked. *)
Lemma read_header_complete (f : Frame) (hrest : list byte) :
  header_ok f ->
  forall (n : nat) (self : state) (hs pre cur : list byte),
    in_header self hs ->
    hs ++ hrest = encode_header f ->
    (length hrest <= n)%nat ->
    exists self1,
      read_header n self (pre ++ hrest ++ cur) (len pre)
        = Ok (self1, len pre + len hrest)
      /\ in_payload self1 f []
      /\ message_buffer self1 = None.
Proof.
  intros Hwf. induction hrest as [|b hrest IH]; intros n self hs pre cur Hin Henc Hn.
  - exfalso. rewrite app_nil_r in Henc. destruct Hin as [_ Hshort _ _ _ _].
    rewrite Henc, len_encode_header in Hshort. lia.
  - destruct n as [|n]; [simpl in Hn; lia|].
    cbn [app]. rewrite (read_header_turn n self hs pre (hrest ++ cur) b Hin).
    destruct hrest as [|b' hrest].
    + destruct (in_header_finish self hs b f Hwf Hin Henc) as (Hz & Hhb & Hbuf).
      cbv zeta.
      set (s1 := set_header_byte (<[length hs:=b]> (header_bytes self)) self) in *.
      rewrite Hz, Hhb.
      destruct (unpack_encode_header f Hwf) as [Hu Hid].
      rewrite Hu. cbn [mbind result_bind bind]. rewrite Hid. cbn [mbind result_bind bind].
      rewrite read_header_done by (cbn; now apply Z.eqb_eq).
      eexists. split; [reflexivity|]. split; [|exact Hbuf].
      destruct Hin as [Hreq Hshort Hbytes Hsize Hlen Hbuf'].
      split; cbn [header_bytes_required header_bytes length_ message_offset
                  message_buffer cmd conversation_id set_header set_message_offset
                  buffer_or_empty];
        try reflexivity; try (now apply Z.eqb_eq).
      * rewrite Hhb. apply len_encode_header.
      * now rewrite Hbuf.
    + destruct (in_header_store self hs (b' :: hrest) b f Hin Henc) as [Hz Hin1];
        [discriminate|].
      cbv zeta. rewrite Hz. cbn [mbind result_bind bind].
      destruct (IH n _ (hs ++ [b]) (pre ++ [b]) cur Hin1) as (self1 & Hrun & Hin2 & Hbuf).
      { now rewrite <- app_assoc. }
      { simpl in Hn. simpl. lia. }
      exists self1. rewrite <- !app_assoc in Hrun. cbn [app] in *.
      replace (len (pre ++ [b])) with (len pre + 1) in Hrun
        by (rewrite len_app; reflexivity).
      split; [|split; assumption].
      rewrite Hrun. f_equal. f_equal. unfold len. simpl length. lia.
Qed.

End HeaderRuns.

(* ================================================================== *)
(** * One turn of the outer loop                                       *)
(* ================================================================== *)

Section Turns.
Import Wire MessageReader Decoding.

Context {World : Type}.
Variable on_message : InboundMessage -> World -> result World.

Lemma in_header_reset (self : state) :
  len (header_bytes self) = MESSAGE_MIN_SIZE -> in_header (reset self) [].
Proof.
  intros H. split; cbn; try reflexivity; try assumption; try lia.
Qed.

(** The turn ends a frame: the header loop has left the reader [self1]
    inside the payload of [f], and the chunk holds the rest of it. *)
Lemma turn_payload_complete (self self1 : state) (w : World)
    (chunk pre1 prest cur2 got : list byte) (o : Z) (f : Frame) :
  read_header (Z.to_nat (len chunk - o)) self chunk o = Ok (self1, len pre1) ->
  chunk = pre1 ++ prest ++ cur2 ->
  in_payload self1 f got ->
  well_formed f ->
  got ++ prest = frame_payload f ->
  exists self2,
    process_turn on_message self w chunk o
      = (w' ← on_message (message f) w; Ok (self2, w', len pre1 + len prest))
    /\ in_header self2 [].
Proof.
  intros Hread -> [Hreq Hsize Hlen Hoff Hbuf Hcmd Hid] (Hwl & Hmax & Hu) Hpay.
  unfold process_turn. rewrite Hread. cbn [mbind result_bind bind].
  assert (length_ self1 - message_offset self1 = len prest) as Hneed.
  { rewrite Hlen, Hoff, Hwl, <- Hpay, len_app. lia. }
  rewrite Hneed.
  pose proof (len_nonneg prest) as Hp. pose proof (len_nonneg cur2) as Hc.
  pose proof (len_nonneg pre1) as Hq.
  destruct (Z.ltb_spec 0 (len prest)) as [E|E].
  - rewrite !len_app.
    replace (Z.min (len pre1 + (len prest + len cur2)) (len prest + len pre1))
      with (len pre1 + len prest) by lia.
    replace (len prest - (len pre1 + len prest - len pre1)) with 0 by lia.
    cbn [Z.eqb cmd set_message_buffer conversation_id message_buffer buffer_or_empty].
    rewrite Hcmd, Hid. cbn [mbind result_bind bind].
    rewrite slice_middle by (rewrite !len_app; lia).
    replace (Z.to_nat (len pre1 + len prest - len pre1)) with (length prest)
      by (unfold len; lia).
    rewrite take_app_length, Hbuf, Hpay.
    eexists. split; [reflexivity|].
    apply in_header_reset. exact Hsize.
  - assert (len prest = 0) as Hz by lia. rewrite Hz.
    cbn [Z.eqb]. rewrite Hcmd, Hid, Hbuf. cbn [mbind result_bind bind].
    assert (prest = []) as -> by (destruct prest; [reflexivity | unfold len in Hz; simpl in Hz; lia]).
    rewrite app_nil_r in Hpay. rewrite Hpay.
    eexists. split.
    + unfold message. change (len (@nil byte)) with 0. rewrite Z.add_0_r.
      reflexivity.
    + apply in_header_reset. exact Hsize.
Qed.

(** The turn ends inside a payload: the chunk runs out first. *)
Lemma turn_payload_partial (self self1 : state) (w : World)
    (chunk pre1 cur1 more got : list byte) (o : Z) (f : Frame) :
  read_header (Z.to_nat (len chunk - o)) self chunk o = Ok (self1, len pre1) ->
  chunk = pre1 ++ cur1 ->
  in_payload self1 f got ->
  well_formed f ->
  got ++ cur1 ++ more = frame_payload f ->
  more <> [] ->
  exists self2,
    process_turn on_message self w chunk o = Ok (self2, w, len pre1 + len cur1)
    /\ in_payload self2 f (got ++ cur1)
    /\ message_buffer self2 = Some (got ++ cur1).
Proof.
  intros Hread -> [Hreq Hsize Hlen Hoff Hbuf Hcmd Hid] (Hwl & Hmax & Hu) Hpay Hmore.
  unfold process_turn. rewrite Hread. cbn [mbind result_bind bind].
  assert (0 < len more) as Hm.
  { destruct more; [congruence | unfold len; simpl; lia]. }
  assert (length_ self1 - message_offset self1 = len cur1 + len more) as Hneed.
  { rewrite Hlen, Hoff, Hwl, <- Hpay, !len_app. lia. }
  rewrite Hneed.
  pose proof (len_nonneg cur1) as Hc. pose proof (len_nonneg pre1) as Hq.
  destruct (Z.ltb_spec 0 (len cur1 + len more)) as [E|E]; [|lia].
  rewrite !len_app.
  replace (Z.min (len pre1 + len cur1) (len cur1 + len more + len pre1))
    with (len pre1 + len cur1) by lia.
  destruct (Z.eqb_spec (len cur1 + len more - (len pre1 + len cur1 - len pre1)) 0)
    as [E2|E2]; [lia|].
  rewrite slice_middle by (rewrite !len_app; lia).
  replace (Z.to_nat (len pre1 + len cur1 - len pre1)) with (length cur1)
    by (unfold len; lia).
  rewrite firstn_all, Hbuf.
  eexists. split; [reflexivity|]. split; [|reflexivity].
  split; cbn [header_bytes_required header_bytes length_ message_offset
              message_buffer cmd conversation_id set_message_buffer buffer_or_empty];
    try assumption; try reflexivity.
  rewrite Hoff, len_app. lia.
Qed.

End Turns.

Section Loop.
Import Wire MessageReader Decoding.

Context {World : Type}.
Variable on_message : InboundMessage -> World -> result World.

Lemma app_meet {A : Type} (cur rest target tail : list A) :
  cur ++ rest = target ++ tail ->
  (exists k, cur = target ++ k /\ tail = k ++ rest)
  \/ (exists k, k <> [] /\ target = cur ++ k /\ rest = k ++ tail).
Proof.
  intros H. destruct (app_eq_inv _ _ _ _ H) as [(k & -> & ->)|(k & -> & ->)].
  - left. now exists k.
  - destruct k as [|x k].
    + left. exists []. now rewrite !app_nil_r.
    + right. exists (x :: k). easy.
Qed.

Lemma stream_cons (f : Frame) (fs : list Frame) :
  stream (f :: fs) = encode_header f ++ frame_payload f ++ stream fs.
Proof. unfold stream. cbn [map concat]. unfold encode. now rewrite <- app_assoc. Qed.

(** A reader between two frames expects whatever frames come. *)
Lemma expects_stream (self : state) (fs : list Frame) :
  in_header self [] -> expects self fs (stream fs).
Proof.
  intros H. destruct fs as [|f fs].
  - now constructor.
  - rewrite stream_cons. now apply (expects_header self [] (encode_header f)).
Qed.

Lemma expects_init (fs : list Frame) : expects init fs (stream fs).
Proof. apply expects_stream. split; cbn; try reflexivity; lia. Qed.

(** When no byte is left to come, no frame is. *)
Lemma expects_end (self : state) (fs : list Frame) :
  expects self fs [] -> fs = [] /\ in_header self [].
Proof.
  intros H. remember (@nil byte) as bs eqn:Hbs.
  destruct H as [s Hin | s hs hrest f fs' Hin Henc | s f got prest fs' Hin Hbuf Hpay Hne].
  - easy.
  - exfalso. apply app_nil in Hbs. destruct Hbs as [-> _].
    rewrite app_nil_r in Henc. destruct Hin as [_ Hshort _ _ _ _].
    rewrite Henc, len_encode_header in Hshort. lia.
  - exfalso. apply app_nil in Hbs. destruct Hbs as [-> _]. congruence.
Qed.

(** The turn ends inside a header. *)
Lemma turn_header_partial (self self1 : state) (w : World)
    (chunk hs : list byte) (o o1 : Z) :
  read_header (Z.to_nat (len chunk - o)) self chunk o = Ok (self1, o1) ->
  in_header self1 hs ->
  message_offset self1 = HEADER_LENGTH ->
  process_turn on_message self w chunk o = Ok (self1, w, o1).
Proof.
  intros Hread [_ _ _ _ Hlen _] Hoff.
  unfold process_turn. rewrite Hread. cbn [mbind result_bind bind].
  rewrite Hoff.
  destruct (Z.ltb_spec 0 (length_ self1 - HEADER_LENGTH)) as [E|E]; [lia|].
  destruct (Z.eqb_spec (length_ self1 - HEADER_LENGTH) 0) as [E2|E2]; [lia|].
  reflexivity.
Qed.

(** What one turn does, from any point of a stream of well-formed frames:
    it takes at least one byte of the chunk, hands over at most one
    message, and leaves the reader at the matching point of the stream. *)
Lemma process_turn_spec (self : state) (w : World) (fs : list Frame)
    (pre cur rest : list byte) :
  expects self fs (cur ++ rest) ->
  Forall well_formed fs ->
  cur <> [] ->
  exists (taken cur2 : list byte) (done fs' : list Frame) (self' : state),
    cur = taken ++ cur2 /\ taken <> [] /\ fs = done ++ fs' /\
    expects self' fs' (cur2 ++ rest) /\
    process_turn on_message self w (pre ++ cur) (len pre)
      = (w' ← hand_over on_message (map message done) w;
         Ok (self', w', len pre + len taken)).
Proof.
  intros Hexp Hwf Hcur.
  inversion Hexp as [s Hin Hs Hfs Hbs
                    | s hs hrest f fs0 Hin Henc Hs Hfs Hbs
                    | s f got prest fs0 Hin Hbuf Hpay Hne Hs Hfs Hbs]; subst.
  - symmetry in Hbs. apply app_nil in Hbs. destruct Hbs; congruence.
  - apply Forall_cons in Hwf. destruct Hwf as [Hf Hwf].
    symmetry in Hbs.
    destruct (app_meet _ _ _ _ Hbs) as [(k & -> & Hk)|(k & Hne & -> & ->)].
    + (* the header is finished in this chunk *)
      assert (hrest <> []) as Hhrest.
      { intros ->. rewrite app_nil_r in Henc. destruct Hin as [_ Hshort _ _ _ _].
        rewrite Henc, len_encode_header in Hshort. lia. }
      destruct (read_header_complete f hrest (well_formed_header_ok f Hf)
                  (Z.to_nat (len (pre ++ hrest ++ k) - len pre)) self hs pre k Hin Henc)
        as (self1 & Hread & Hin1 & Hbuf1).
      { rewrite !len_app. unfold len. lia. }
      replace (len pre + len hrest) with (len (pre ++ hrest)) in Hread
        by apply len_app.
      symmetry in Hk.
      destruct (app_meet _ _ _ _ Hk) as [(k2 & -> & Hk2)|(k2 & Hne2 & Hp & ->)].
      * destruct (turn_payload_complete on_message self self1 w (pre ++ hrest ++ frame_payload f ++ k2)
                    (pre ++ hrest) (frame_payload f) k2 [] (len pre) f Hread)
          as (self2 & Hturn & Hin2); try assumption; try reflexivity.
        { now rewrite <- !app_assoc. }
        exists (hrest ++ frame_payload f), k2, [f], fs0, self2.
        split; [now rewrite <- app_assoc|].
        split; [destruct hrest; [congruence|discriminate]|].
        split; [reflexivity|].
        split; [rewrite <- Hk2; now apply expects_stream|].
        rewrite Hturn. cbn [map hand_over].
        destruct (on_message (message f) w);
          cbn [hand_over mbind result_bind bind]; [|reflexivity].
        rewrite !len_app. f_equal. f_equal. lia.
      * destruct (turn_payload_partial on_message self self1 w (pre ++ hrest ++ k)
                    (pre ++ hrest) k k2 [] (len pre) f Hread)
          as (self2 & Hturn & Hin2 & Hbuf2); try assumption; try reflexivity.
        { now rewrite <- !app_assoc. }
        { now rewrite Hp. }
        exists (hrest ++ k), [], [], (f :: fs0), self2.
        split; [now rewrite app_nil_r|].
        split; [destruct hrest; [congruence|discriminate]|].
        split; [reflexivity|].
        split.
        { cbn [app]. apply (expects_payload self2 f k k2 fs0); try assumption.
          now rewrite Hp. }
        rewrite Hturn. cbn [map hand_over mbind result_bind bind mret result_ret].
        rewrite !len_app. do 2 f_equal. lia.
    + (* the chunk ends inside the header *)
      destruct (read_header_partial f cur k Hne
                  (Z.to_nat (len (pre ++ cur) - len pre)) self hs pre Hin)
        as (self1 & Hread & Hin1 & Hoff).
      { now rewrite Henc. }
      { rewrite !len_app. unfold len. lia. }
      exists cur, [], [], (f :: fs0), self1.
      split; [now rewrite app_nil_r|].
      split; [assumption|].
      split; [reflexivity|].
      split.
      { cbn [app]. apply (expects_header self1 (hs ++ cur) k f fs0); [assumption|].
        now rewrite <- app_assoc. }
      rewrite (turn_header_partial self self1 w (pre ++ cur) (hs ++ cur) (len pre)
                 (len pre + len cur) Hread Hin1).
      * reflexivity.
      * rewrite Hoff. destruct cur; [congruence|reflexivity].
  - apply Forall_cons in Hwf. destruct Hwf as [Hf Hwf].
    symmetry in Hbs.
    assert (read_header (Z.to_nat (len (pre ++ cur) - len pre)) self (pre ++ cur) (len pre)
            = Ok (self, len pre)) as Hread.
    { apply read_header_done. now destruct Hin. }
    destruct (app_meet _ _ _ _ Hbs) as [(k & -> & Hk)|(k & Hnek & -> & ->)].
    + destruct (turn_payload_complete on_message self self w (pre ++ prest ++ k)
                  pre prest k got (len pre) f Hread)
        as (self2 & Hturn & Hin2); try assumption; try reflexivity.
      exists prest, k, [f], fs0, self2.
      split; [reflexivity|]. split; [assumption|]. split; [reflexivity|].
      split; [rewrite <- Hk; now apply expects_stream|].
      rewrite Hturn. cbn [map hand_over].
      destruct (on_message (message f) w); reflexivity.
    + destruct (turn_payload_partial on_message self self w (pre ++ cur)
                  pre cur k got (len pre) f Hread)
        as (self2 & Hturn & Hin2 & Hbuf2); try assumption; try reflexivity.
      exists cur, [], [], (f :: fs0), self2.
      split; [now rewrite app_nil_r|]. split; [assumption|]. split; [reflexivity|].
      split.
      { cbn [app]. apply (expects_payload self2 f (got ++ cur) k fs0); try assumption.
        now rewrite <- app_assoc. }
      rewrite Hturn. reflexivity.
Qed.

End Loop.

(* ================================================================== *)
(** * The outer loop and the read pump                                 *)
(* ================================================================== *)

Section Feed.
Import Wire MessageReader Decoding.

Context {World : Type}.
Variable on_message : InboundMessage -> World -> result World.

Lemma hand_over_app (ms1 ms2 : list InboundMessage) (w : World) :
  hand_over on_message (ms1 ++ ms2) w
  = (w' ← hand_over on_message ms1 w; hand_over on_message ms2 w').
Proof.
  revert w. induction ms1 as [|m ms1 IH]; intros w; [reflexivity|].
  cbn [app hand_over]. destruct (on_message m w); cbn [mbind result_bind bind];
    [apply IH | reflexivity].
Qed.

Lemma process_loop_eq (fuel : nat) (self : state) (w : World)
    (chunk : list byte) (o : Z) :
  process_loop on_message fuel self w chunk o =
    if o <? len chunk
    then match fuel with
         | O => None
         | S fuel' =>
             match process_turn on_message self w chunk o with
             | Ok (self', w', o') => process_loop on_message fuel' self' w' chunk o'
             | Raise e => Some (Raise e)
             end
         end
    else Some (Ok (self, w)).
Proof. destruct fuel; reflexivity. Qed.

(** The outer loop on the rest [cur] of a chunk, from any point of a
    stream of well-formed frames: with as many turns as [cur] has bytes it
    comes to an end, having handed over the frames that [cur] finishes. *)
Lemma process_loop_spec (fuel : nat) :
  forall (self : state) (w : World) (fs : list Frame) (pre cur rest : list byte),
    expects self fs (cur ++ rest) ->
    Forall well_formed fs ->
    (length cur <= fuel)%nat ->
    exists (done fs' : list Frame) (self' : state),
      fs = done ++ fs' /\
      expects self' fs' rest /\
      process_loop on_message fuel self w (pre ++ cur) (len pre)
        = Some (w' ← hand_over on_message (map message done) w; Ok (self', w')).
Proof.
  induction fuel as [|fuel IH]; intros self w fs pre cur rest Hexp Hwf Hfuel.
  - destruct cur; [|simpl in Hfuel; lia].
    exists [], fs, self. split; [reflexivity|]. split; [assumption|].
    rewrite process_loop_eq, app_nil_r, Z.ltb_irrefl. reflexivity.
  - destruct (decide (cur = [])) as [->|Hcur].
    + exists [], fs, self. split; [reflexivity|]. split; [assumption|].
      rewrite process_loop_eq, app_nil_r, Z.ltb_irrefl. reflexivity.
    + destruct (process_turn_spec on_message self w fs pre cur rest Hexp Hwf Hcur)
        as (taken & cur2 & done1 & fs1 & self1 & -> & Htaken & -> & Hexp1 & Hturn).
      apply Forall_app in Hwf. destruct Hwf as [Hwf1 Hwf2].
      assert (length cur2 <= fuel)%nat as Hfuel2.
      { rewrite length_app in Hfuel. destruct taken; [congruence|simpl in Hfuel; lia]. }
      rewrite process_loop_eq.
      destruct (Z.ltb_spec (len pre) (len (pre ++ taken ++ cur2))) as [E|E].
      2:{ rewrite !len_app in E. pose proof (len_nonneg cur2).
          destruct taken; [congruence|unfold len in *; simpl length in *; lia]. }
      rewrite Hturn.
      destruct (hand_over on_message (map message done1) w) as [w1|e] eqn:Hdone1;
        cbn [mbind result_bind bind].
      * destruct (IH self1 w1 fs1 (pre ++ taken) cur2 rest Hexp1 Hwf2 Hfuel2)
          as (done2 & fs2 & self2 & -> & Hexp2 & Hloop).
        exists (done1 ++ done2), fs2, self2.
        split; [now rewrite app_assoc|]. split; [assumption|].
        rewrite <- app_assoc, len_app in Hloop. rewrite Hloop.
        rewrite map_app, hand_over_app, Hdone1. reflexivity.
      * destruct (IH self1 w fs1 (pre ++ taken) cur2 rest Hexp1 Hwf2 Hfuel2)
          as (done2 & fs2 & self2 & -> & Hexp2 & _).
        exists (done1 ++ done2), fs2, self2.
        split; [now rewrite app_assoc|]. split; [assumption|].
        rewrite map_app, hand_over_app, Hdone1. reflexivity.
Qed.

(** The read pump over a list of chunks. *)
Lemma feed_spec (fuel : nat) (chunks : list (list byte)) :
  forall (self : state) (w : World) (fs : list Frame) (rest : list byte),
    expects self fs (concat chunks ++ rest) ->
    Forall well_formed fs ->
    Forall (fun chunk => (length chunk <= fuel)%nat) chunks ->
    exists (done fs' : list Frame) (self' : state),
      fs = done ++ fs' /\
      expects self' fs' rest /\
      feed on_message fuel self w chunks
        = Some (w' ← hand_over on_message (map message done) w; Ok (self', w')).
Proof.
  induction chunks as [|chunk chunks IH]; intros self w fs rest Hexp Hwf Hfuel.
  - exists [], fs, self. now split.
  - apply Forall_cons in Hfuel. destruct Hfuel as [Hchunk Hfuel].
    cbn [concat] in Hexp. rewrite <- app_assoc in Hexp.
    destruct (process_loop_spec fuel self w fs [] chunk _ Hexp Hwf Hchunk)
      as (done1 & fs1 & self1 & -> & Hexp1 & Hloop).
    apply Forall_app in Hwf. destruct Hwf as [Hwf1 Hwf2].
    cbn [feed process]. cbn [app] in Hloop. change (len (@nil byte)) with 0 in Hloop.
    rewrite Hloop.
    destruct (hand_over on_message (map message done1) w) as [w1|e] eqn:Hdone1;
      cbn [mbind result_bind bind].
    + destruct (IH self1 w1 fs1 rest Hexp1 Hwf2 Hfuel)
        as (done2 & fs2 & self2 & -> & Hexp2 & Hfeed).
      exists (done1 ++ done2), fs2, self2.
      split; [now rewrite app_assoc|]. split; [assumption|].
      rewrite Hfeed, map_app, hand_over_app, Hdone1. reflexivity.
    + destruct (IH self1 w fs1 rest Hexp1 Hwf2 Hfuel)
        as (done2 & fs2 & self2 & -> & Hexp2 & _).
      exists (done1 ++ done2), fs2, self2.
      split; [now rewrite app_assoc|]. split; [assumption|].
      rewrite map_app, hand_over_app, Hdone1. reflexivity.
Qed.

(** Feeding a whole stream of well-formed frames, cut into chunks at any
    places, to a fresh reader hands over the frames' messages in order and
    leaves the reader between two frames. *)
Lemma feed_stream (fuel : nat) (chunks : list (list byte)) (fs : list Frame)
    (w : World) :
  Forall well_formed fs ->
  concat chunks = stream fs ->
  Forall (fun chunk => (length chunk <= fuel)%nat) chunks ->
  exists self',
    in_header self' [] /\
    feed on_message fuel init w chunks
      = Some (w' ← hand_over on_message (map message fs) w; Ok (self', w')).
Proof.
  intros Hwf Hcat Hfuel.
  destruct (feed_spec fuel chunks init w fs [] ) as (done & fs' & self' & -> & Hexp & Hfeed);
    try assumption.
  { rewrite app_nil_r, Hcat. apply expects_init. }
  apply expects_end in Hexp. destruct Hexp as [-> Hin].
  exists self'. rewrite app_nil_r in *. now split.
Qed.

End Feed.

(* ================================================================== *)
(** * After a frame, and after a header that announces too little      *)
(* ================================================================== *)

Section Edges.
Import Wire MessageReader Decoding.

Context {World : Type}.
Variable on_message : InboundMessage -> World -> result World.

(** A reader between two frames stores the next byte as the first byte of
    a header and hands nothing over. *)
Lemma first_header_byte (self : state) (w : World) (b : byte) :
  in_header self [] ->
  exists self1,
    process on_message 1 self w (Some [b]) = Some (Ok (self1, w))
    /\ header_bytes self1 !! 0%nat = Some b
    /\ header_bytes_required self1 = MESSAGE_MIN_SIZE - 1.
Proof.
  intros Hin. pose proof Hin as [Hreq Hshort Hbytes Hsize Hlen Hbuf].
  cbn [process]. rewrite process_loop_eq. change (0 <? len [b]) with true. cbv iota.
  unfold process_turn. change (Z.to_nat (len [b] - 0)) with 1%nat.
  pose proof (read_header_turn 0 self [] [] [] b Hin) as Hturn.
  cbn [app] in Hturn. change (len (@nil byte)) with 0 in Hturn.
  rewrite Hturn. cbv zeta. cbn [length].
  set (self1 := set_header_byte (<[0%nat:=b]> (header_bytes self)) self).
  assert (header_bytes_required self1 = MESSAGE_MIN_SIZE - 1) as Hreq1.
  { subst self1. cbn. rewrite Hreq. change (len (@nil byte)) with 0. lia. }
  destruct (Z.eqb_spec (header_bytes_required self1) 0) as [E|E];
    [rewrite Hreq1 in E; discriminate|].
  cbn [mbind result_bind bind read_header].
  cbn [length_ message_offset set_message_offset].
  assert (length_ self1 = length_ self) as -> by reflexivity.
  destruct (Z.ltb_spec 0 (length_ self - HEADER_LENGTH)) as [E1|E1]; [lia|].
  destruct (Z.eqb_spec (length_ self - HEADER_LENGTH) 0) as [E2|E2]; [lia|].
  rewrite process_loop_eq. change (0 + 1 <? len [b]) with false. cbv iota.
  eexists. split; [reflexivity|]. split; [|exact Hreq1].
  cbn. apply list_lookup_insert_eq.
  unfold len, MESSAGE_MIN_SIZE, SIZE_UINT_32, HEADER_LENGTH in Hsize. lia.
Qed.

(** A reader that has unpacked a length smaller than the header it has
    just read takes no byte and changes nothing in a turn: the outer loop
    never ends. *)
Lemma process_loop_spins (fuel : nat) (self : state) (w : World)
    (chunk : list byte) (o : Z) :
  header_bytes_required self = 0 ->
  length_ self - message_offset self < 0 ->
  o < len chunk ->
  process_loop on_message fuel self w chunk o = None.
Proof.
  intros Hreq Hneg Ho. induction fuel as [|fuel IH].
  - rewrite process_loop_eq. destruct (Z.ltb_spec o (len chunk)); [reflexivity|lia].
  - rewrite process_loop_eq. destruct (Z.ltb_spec o (len chunk)); [|lia].
    unfold process_turn. rewrite read_header_done by exact Hreq.
    cbn [mbind result_bind bind].
    destruct (Z.ltb_spec 0 (length_ self - message_offset self)) as [E1|E1]; [lia|].
    destruct (Z.eqb_spec (length_ self - message_offset self) 0) as [E2|E2]; [lia|].
    exact IH.
Qed.

(** The header of a frame whose length field is below 18, followed by at
    least one more byte in the same chunk: [process] does not return. *)
Lemma short_length_spins (f : Frame) (b : byte) (rest : list byte)
    (w : World) (fuel : nat) :
  header_ok f ->
  frame_length f < HEADER_LENGTH ->
  process on_message fuel init w (Some (encode_header f ++ b :: rest)) = None.
Proof.
  intros Hok Hshort. cbn [process].
  pose proof (len_encode_header f) as HL.
  pose proof (len_nonneg rest) as Hrest.
  assert (len (encode_header f ++ b :: rest) = MESSAGE_MIN_SIZE + 1 + len rest) as Hlen.
  { rewrite len_app, HL. unfold len. simpl length. lia. }
  unfold MESSAGE_MIN_SIZE, SIZE_UINT_32, HEADER_LENGTH in *.
  rewrite process_loop_eq.
  destruct (Z.ltb_spec 0 (len (encode_header f ++ b :: rest))) as [_|E]; [|lia].
  destruct fuel as [|fuel]; [reflexivity|].
  assert (in_header init []) as Hin by (split; cbn; try reflexivity; lia).
  destruct (read_header_complete f (encode_header f) Hok
              (Z.to_nat (len (encode_header f ++ b :: rest) - 0)) init [] [] (b :: rest) Hin)
    as (self1 & Hread & [Hreq Hsize Hlen1 Hoff Hbuf Hcmd Hid] & _).
  { reflexivity. }
  { rewrite Hlen. unfold len in *. lia. }
  cbn [app] in Hread. change (len (@nil byte)) with 0 in *.
  unfold process_turn. rewrite Hread. cbn [mbind result_bind bind].
  rewrite Hlen1, Hoff. change (len (@nil byte)) with 0.
  unfold HEADER_LENGTH.
  destruct (Z.ltb_spec 0 (frame_length f - (1 + 1 + 16 + 0))) as [E1|E1]; [lia|].
  destruct (Z.eqb_spec (frame_length f - (1 + 1 + 16 + 0)) 0) as [E2|E2]; [lia|].
  apply process_loop_spins; try assumption.
  - rewrite Hlen1, Hoff. change (len (@nil byte)) with 0. unfold HEADER_LENGTH. lia.
  - rewrite HL. lia.
Qed.

(** The same header alone in a chunk: [process] returns, having handed
    nothing over and raised nothing, and leaves a reader on which every
    later chunk that is not empty spins. *)
Lemma short_length_stalls (f : Frame) (w : World) (fuel : nat) :
  header_ok f ->
  frame_length f < HEADER_LENGTH ->
  (22 <= fuel)%nat ->
  exists self1,
    process on_message fuel init w (Some (encode_header f)) = Some (Ok (self1, w))
    /\ forall (fuel' : nat) (w' : World) (b : byte) (rest : list byte),
         process on_message fuel' self1 w' (Some (b :: rest)) = None.
Proof.
  intros Hok Hshort Hfuel. cbn [process].
  pose proof (len_encode_header f) as HL.
  unfold MESSAGE_MIN_SIZE, SIZE_UINT_32, HEADER_LENGTH in *.
  rewrite process_loop_eq.
  destruct (Z.ltb_spec 0 (len (encode_header f))) as [_|E]; [|lia].
  destruct fuel as [|fuel]; [lia|].
  assert (in_header init []) as Hin by (split; cbn; try reflexivity; lia).
  destruct (read_header_complete f (encode_header f) Hok
              (Z.to_nat (len (encode_header f ++ []) - 0)) init [] [] [] Hin)
    as (self1 & Hread & [Hreq Hsize Hlen1 Hoff Hbuf Hcmd Hid] & _).
  { reflexivity. }
  { rewrite app_nil_r. unfold len in *. lia. }
  cbn [app] in Hread. rewrite app_nil_r in Hread. change (len (@nil byte)) with 0 in *.
  unfold process_turn. rewrite Hread. cbn [mbind result_bind bind].
  rewrite Hlen1, Hoff. change (len (@nil byte)) with 0.
  unfold HEADER_LENGTH.
  destruct (Z.ltb_spec 0 (frame_length f - (1 + 1 + 16 + 0))) as [E1|E1]; [lia|].
  destruct (Z.eqb_spec (frame_length f - (1 + 1 + 16 + 0)) 0) as [E2|E2]; [lia|].
  rewrite process_loop_eq.
  destruct (Z.ltb_spec (0 + len (encode_header f)) (len (encode_header f))) as [E3|_]; [lia|].
  exists self1. split; [reflexivity|].
  intros fuel' w' b rest. cbn [process].
  apply process_loop_spins; try assumption.
  - rewrite Hlen1, Hoff. change (len (@nil byte)) with 0. unfold HEADER_LENGTH. lia.
  - unfold len. simpl length. lia.
Qed.

End Edges.

(* ================================================================== *)
(** * The framing properties                                           *)
(* ================================================================== *)

Lemma hand_over_queue (ms queue : list InboundMessage) :
  Decoding.hand_over Connection2.on_message ms queue = Ok (queue ++ ms).
Proof.
  revert queue. induction ms as [|m ms IH]; intros queue.
  - now rewrite app_nil_r.
  - cbn [Decoding.hand_over].
    change (Connection2.on_message m queue) with (Ok (queue ++ [m])).
    cbn [mbind result_bind bind]. rewrite IH, <- app_assoc. reflexivity.
Qed.

Lemma hand_over_input_queue (tcp : TcpCommand) (C : Type)
    (ms : list InboundMessage) (w : Connection.Pump C) :
  Forall (fun m => in_command m <> HeartbeatRequest tcp
                   /\ in_command m <> HeartbeatResponse tcp) ms ->
  Decoding.hand_over (Connection.on_message tcp) ms w
  = Ok (Connection.mkPump (Connection.input_queue w ++ ms) (Connection.pacemaker w)
          (Connection.queues w) (Connection.dispatcher w)).
Proof.
  revert w. induction ms as [|m ms IH]; intros w Hms.
  - rewrite app_nil_r. now destruct w.
  - apply Forall_cons in Hms. destruct Hms as [[H1 H2] Hms].
    cbn [Decoding.hand_over].
    assert (Connection.on_message tcp m w
            = Ok (Connection.mkPump (Connection.input_queue w ++ [m])
                    (Connection.pacemaker w) (Connection.queues w)
                    (Connection.dispatcher w))) as ->.
    { unfold Connection.on_message.
      destruct (Z.eqb_spec (in_command m) (HeartbeatRequest tcp)); [congruence|].
      destruct (Z.eqb_spec (in_command m) (HeartbeatResponse tcp)); [congruence|].
      reflexivity. }
    cbn [mbind result_bind bind]. rewrite IH by exact Hms.
    cbn. now rewrite <- app_assoc.
Qed.

Section Framing.
Import Wire MessageReader Decoding.

(** C1.  Chunking independence.  Let [frames] be well-formed frames
    (length field at least 18, equal to 18 plus the payload length) and
    [chunks] any way of cutting the concatenation of their encodings into
    chunks.  With a turn of fuel for every byte of the longest chunk, the
    read pump of either implementation comes to an end on [chunks].  In
    [connection2.py] the queue then holds, after what it held, exactly the
    messages of [frames] in order, each with the conversation id, command
    and payload of its frame.  In [connection.py] the outcome is that of
    handing those same messages over in that order, whatever the chunks;
    when none of them is a heartbeat, they are what has been added to the
    input queue. *)
Theorem chunking_independence (tcp : TcpCommand) (C : Type)
    (frames : list Frame) (chunks : list (list byte)) (fuel : nat)
    (queue : list InboundMessage) (w : Connection.Pump C) :
  Forall well_formed frames ->
  concat chunks = stream frames ->
  Forall (fun chunk => (length chunk <= fuel)%nat) chunks ->
  (exists self',
     Connection2.feed fuel init queue chunks
     = Some (Ok (self', queue ++ map message frames)))
  /\ (exists self',
        Connection.feed tcp fuel init w chunks
        = Some (w' ← hand_over (Connection.on_message tcp) (map message frames) w;
                Ok (self', w')))
  /\ (Forall (fun f => byte_val (frame_command f) <> HeartbeatRequest tcp
                       /\ byte_val (frame_command f) <> HeartbeatResponse tcp) frames ->
      exists self',
        Connection.feed tcp fuel init w chunks
        = Some (Ok (self',
                    Connection.mkPump
                      (Connection.input_queue w ++ map message frames)
                      (Connection.pacemaker w) (Connection.queues w)
                      (Connection.dispatcher w)))).
Proof.
  intros Hwf Hcat Hfuel.
  destruct (feed_stream Connection2.on_message fuel chunks frames queue Hwf Hcat Hfuel)
    as (self2 & _ & Hfeed2).
  destruct (feed_stream (Connection.on_message tcp) fuel chunks frames w Hwf Hcat Hfuel)
    as (self1 & _ & Hfeed1).
  split; [|split].
  - exists self2. unfold Connection2.feed. rewrite Hfeed2, hand_over_queue. reflexivity.
  - exists self1. exact Hfeed1.
  - intros Hcmd. exists self1. unfold Connection.feed in *. rewrite Hfeed1.
    rewrite hand_over_input_queue; [reflexivity|].
    apply Forall_map. exact Hcmd.
Qed.

(** C10.  A frame whose length field is exactly 18 has no payload bytes.
    When it ends a stream of well-formed frames that is fed in chunks cut
    anywhere, the last message handed over carries its conversation id,
    its command and the empty byte string; the reader is then waiting for
    all 22 bytes of a header with no buffer, and stores the next byte it is
    given as byte 0 of the header, handing nothing over. *)
Theorem empty_payload_frame {World : Type}
    (on_message : InboundMessage -> World -> result World)
    (before : list Frame) (f : Frame) (chunks : list (list byte))
    (fuel : nat) (w : World) :
  Forall well_formed (before ++ [f]) ->
  frame_length f = 18 ->
  concat chunks = stream (before ++ [f]) ->
  Forall (fun chunk => (length chunk <= fuel)%nat) chunks ->
  exists self',
    feed on_message fuel init w chunks
    = Some (w' ← hand_over on_message
                   (map message before
                    ++ [mkInbound (Some (frame_conversation_id f))
                                  (byte_val (frame_command f)) []]) w;
            Ok (self', w'))
    /\ header_bytes_required self' = 22
    /\ message_buffer self' = None
    /\ forall (b : byte) (w1 : World),
         exists self'',
           process on_message 1 self' w1 (Some [b]) = Some (Ok (self'', w1))
           /\ header_bytes self'' !! 0%nat = Some b
           /\ header_bytes_required self'' = 21.
Proof.
  intros Hwf H18 Hcat Hfuel.
  destruct (feed_stream on_message fuel chunks (before ++ [f]) w Hwf Hcat Hfuel)
    as (self' & Hin & Hfeed).
  exists self'. split; [|split; [|split]].
  - rewrite Hfeed, map_app. cbn [map]. unfold message at 2.
    apply Forall_app in Hwf. destruct Hwf as [_ Hf].
    apply Forall_cons in Hf. destruct Hf as [(Hlen & _ & _) _].
    assert (frame_payload f = []) as ->; [|reflexivity].
    rewrite H18 in Hlen. unfold HEADER_LENGTH, len in Hlen.
    destruct (frame_payload f); [reflexivity|simpl in Hlen; lia].
  - destruct Hin as [Hreq _ _ _ _ _]. rewrite Hreq. reflexivity.
  - now destruct Hin.
  - intros b w1. destruct (first_header_byte on_message self' w1 b Hin)
      as (self'' & Hp & Hb & Hr).
    exists self''. split; [exact Hp|]. split; [exact Hb|]. rewrite Hr. reflexivity.
Qed.

End Framing.

Section FramingWitnesses.
Import Wire MessageReader Decoding.

Lemma chunking_independence_witness :
  let frames := [Sample.reply; Sample.pong] in
  let bytes := stream frames in
  let chunks := [take 3 bytes; take 30 (drop 3 bytes); []; drop 33 bytes] in
  (exists self',
     Connection2.feed 30 init [] chunks = Some (Ok (self', [] ++ map message frames)))
  /\ (exists self',
        Connection.feed Sample.tcp 30 init Sample.pump chunks
        = Some (w' ← hand_over (Connection.on_message Sample.tcp)
                       (map message frames) Sample.pump;
                Ok (self', w')))
  /\ (Forall (fun f => byte_val (frame_command f) <> HeartbeatRequest Sample.tcp
                       /\ byte_val (frame_command f) <> HeartbeatResponse Sample.tcp)
             frames ->
      exists self',
        Connection.feed Sample.tcp 30 init Sample.pump chunks
        = Some (Ok (self',
                    Connection.mkPump
                      (Connection.input_queue Sample.pump ++ map message frames)
                      (Connection.pacemaker Sample.pump)
                      (Connection.queues Sample.pump)
                      (Connection.dispatcher Sample.pump)))).
Proof.
  intros frames bytes chunks.
  apply (chunking_independence Sample.tcp Sample.Simple frames chunks 30 []
           Sample.pump).
  - repeat constructor; vm_compute; congruence.
  - vm_compute. reflexivity.
  - repeat constructor; vm_compute; lia.
Defined.

Lemma empty_payload_frame_witness :
  let chunks := [take 25 (stream [Sample.reply; Sample.pong]);
                 drop 25 (stream [Sample.reply; Sample.pong])] in
  exists self',
    feed Connection2.on_message 30 init [] chunks
    = Some (w' ← hand_over Connection2.on_message
                   (map message [Sample.reply]
                    ++ [mkInbound (Some (frame_conversation_id Sample.pong))
                                  (byte_val (frame_command Sample.pong)) []]) [];
            Ok (self', w'))
    /\ header_bytes_required self' = 22
    /\ message_buffer self' = None
    /\ forall (b : byte) (w1 : list InboundMessage),
         exists self'',
           process Connection2.on_message 1 self' w1 (Some [b]) = Some (Ok (self'', w1))
           /\ header_bytes self'' !! 0%nat = Some b
           /\ header_bytes_required self'' = 21.
Proof.
  intros chunks.
  apply (empty_payload_frame Connection2.on_message [Sample.reply] Sample.pong
           chunks 30 []).
  - repeat constructor; vm_compute; congruence.
  - reflexivity.
  - vm_compute. reflexivity.
  - repeat constructor; vm_compute; lia.
Defined.

(** C2.  The specification wants a frame whose length field is below 18
    to be a fatal protocol error that reaches the connector.  The decoder
    has no such case.  On the header of [Sample.short], whose length field
    is 17, followed by one more byte, [process] of either implementation
    never returns, whatever fuel it is given: it raises nothing and hands
    nothing over.  When the header comes alone in a chunk, [process]
    returns as if nothing were wrong, and it is the next byte received
    that it spins on. *)
Theorem length_below_18_never_returns (fuel : nat) :
  Connection2.process fuel init [] (Some (encode_header Sample.short ++ [x00])) = None
  /\ Connection.process Sample.tcp fuel init Sample.pump
       (Some (encode_header Sample.short ++ [x00])) = None
  /\ exists self1,
       Connection2.process 22 init [] (Some (encode_header Sample.short))
       = Some (Ok (self1, []))
       /\ Connection2.process fuel self1 [] (Some [x00]) = None.
Proof.
  assert (header_ok Sample.short) as Hok by (split; vm_compute; split; congruence).
  assert (frame_length Sample.short < HEADER_LENGTH) as Hshort by reflexivity.
  split; [|split].
  - apply short_length_spins; assumption.
  - apply short_length_spins; assumption.
  - destruct (short_length_stalls Connection2.on_message Sample.short [] 22 Hok Hshort)
      as (self1 & Hret & Hspin); [lia|].
    exists self1. split; [exact Hret|]. apply Hspin.
Qed.

End FramingWitnesses.

(* ================================================================== *)
(** * The connector and heartbeat verdicts                             *)
(* ================================================================== *)

Section Verdicts.
Import Connection Heartbeats.
Context {C D R L : Type}.
Context `{Conversation C} `{Discovery D} `{DiscoveryRetryPolicy R} `{EventLoop L}.

Lemma longest_run_ge (msgs : list ConnectorInstruction) (run : nat) :
  (run <= longest_run run msgs)%nat.
Proof.
  revert run. induction msgs as [|msg msgs IH]; intros run; cbn [longest_run].
  - lia.
  - destruct (is_failure msg).
    + specialize (IH (S run)). lia.
    + lia.
Qed.

Lemma _run_eq (fuel : nat) (self : Connector) (s : System C D R L) :
  _run fuel self s =
    match ctrl_queue self with
    | [] => Some (Ok (self, s))
    | msg :: waiting =>
        match fuel with
        | O => None
        | S fuel' =>
            if cancelled self && waits msg self s then None
            else
              match handle msg (set_ctrl_queue waiting self) s with
              | Ok (self', s') => _run fuel' self' s'
              | Raise e => Some (Raise e)
              end
        end
    end.
Proof. destruct fuel; reflexivity. Qed.

(** Verdicts among which no three failures are consecutive leave the
    transport alone. *)
Lemma verdicts_below_three (msgs : list ConnectorInstruction) :
  forall (run : nat) (self : Connector) (s : System C D R L),
    Forall (fun msg => is_verdict msg = true) msgs ->
    (longest_run run msgs < 3)%nat ->
    heartbeat_failures self = Z.of_nat run ->
    cancelled self = false ->
    ctrl_queue self = msgs ->
    exists self',
      _run (length msgs) self s = Some (Ok (self', s))
      /\ ctrl_queue self' = []
      /\ 0 <= heartbeat_failures self' < 3
      /\ active_protocol self' = active_protocol self
      /\ cancelled self' = false.
Proof.
  induction msgs as [|msg msgs IH]; intros run self s Hv Hrun Hcount Hcan Hq.
  - exists self. rewrite _run_eq, Hcan, Hq. cbn [longest_run] in Hrun.
    repeat split; try assumption; try reflexivity; lia.
  - apply Forall_cons in Hv. destruct Hv as [Hmsg Hv].
    cbn [length]. rewrite _run_eq, Hcan, Hq. cbn [andb].
    destruct msg; try discriminate Hmsg; cbn [longest_run is_failure] in Hrun.
    + (* a failure *)
      pose proof (longest_run_ge msgs (S run)) as Hge.
      cbn [handle]. unfold _on_failed_heartbeat.
      cbn [heartbeat_failures set_heartbeat_failures set_ctrl_queue].
      destruct (Z.leb_spec 3 (heartbeat_failures self + 1)) as [E|E]; [lia|].
      destruct (IH (S run) (set_heartbeat_failures (heartbeat_failures self + 1)
                              (set_ctrl_queue msgs self)) s Hv Hrun)
        as (self' & Hrun' & Hq' & Hc' & Ha' & Hcan'); try reflexivity.
      { cbn. lia. }
      { exact Hcan. }
      exists self'. repeat split; try assumption; lia.
    + (* a success *)
      cbn [handle]. unfold _on_successful_heartbeat.
      destruct (IH 0%nat (set_heartbeat_failures 0 (set_ctrl_queue msgs self)) s Hv)
        as (self' & Hrun' & Hq' & Hc' & Ha' & Hcan'); try reflexivity.
      { lia. }
      { exact Hcan. }
      exists self'. repeat split; try assumption; lia.
Qed.

(** One failure handled by [_run], below the threshold and at it. *)
Lemma _run_failure_below (fuel : nat) (e : exn) (msgs : list ConnectorInstruction)
    (self : Connector) (s : System C D R L) :
  cancelled self = false ->
  ctrl_queue self = HandleHeartbeatFailed e :: msgs ->
  heartbeat_failures self + 1 < 3 ->
  _run (S fuel) self s
  = _run fuel (set_heartbeat_failures (heartbeat_failures self + 1)
                 (set_ctrl_queue msgs self)) s.
Proof.
  intros Hcan Hq Hc. rewrite _run_eq, Hcan, Hq. cbn [handle andb].
  unfold _on_failed_heartbeat.
  cbn [heartbeat_failures set_heartbeat_failures set_ctrl_queue].
  destruct (Z.leb_spec 3 (heartbeat_failures self + 1)) as [E|E]; [lia|reflexivity].
Qed.

Lemma _run_failure_third (fuel : nat) (e : exn) (msgs : list ConnectorInstruction)
    (self : Connector) (s : System C D R L) (p : PhotonPumpProtocol) :
  cancelled self = false ->
  ctrl_queue self = HandleHeartbeatFailed e :: msgs ->
  active_protocol self = Some p ->
  3 <= heartbeat_failures self + 1 ->
  _run (S fuel) self s
  = _run fuel (set_heartbeat_failures 0
                 (set_heartbeat_failures (heartbeat_failures self + 1)
                    (set_ctrl_queue msgs self)))
         (PhotonPumpProtocol_stop p s).
Proof.
  intros Hcan Hq Hp Hc. rewrite _run_eq, Hcan, Hq. cbn [handle andb].
  unfold _on_failed_heartbeat.
  cbn [heartbeat_failures set_heartbeat_failures set_ctrl_queue active_protocol].
  destruct (Z.leb_spec 3 (heartbeat_failures self + 1)) as [E|E]; [|lia].
  now rewrite Hp.
Qed.

(** Three failures in a row stop the active protocol once: on the failure
    that brings the count to three.  The counter ends where it began, so
    at zero when the three were counted from zero. *)
Lemma three_failures (e1 e2 e3 : exn) (self : Connector) (s : System C D R L)
    (p : PhotonPumpProtocol) :
  0 <= heartbeat_failures self < 3 ->
  active_protocol self = Some p ->
  cancelled self = false ->
  ctrl_queue self
    = [HandleHeartbeatFailed e1; HandleHeartbeatFailed e2; HandleHeartbeatFailed e3] ->
  exists self',
    _run 3 self s = Some (Ok (self', PhotonPumpProtocol_stop p s))
    /\ heartbeat_failures self' = heartbeat_failures self
    /\ ctrl_queue self' = [].
Proof.
  intros Hcount Hp Hcan Hq.
  assert (heartbeat_failures self = 0 \/ heartbeat_failures self = 1
          \/ heartbeat_failures self = 2) as [E|[E|E]] by lia.
  - rewrite (_run_failure_below _ e1 _ self s Hcan Hq) by lia.
    rewrite (_run_failure_below _ e2 [HandleHeartbeatFailed e3])
      by (try reflexivity; try assumption; cbn; lia).
    rewrite (_run_failure_third _ e3 [] _ s p)
      by (try reflexivity; try assumption; cbn; lia).
    rewrite _run_eq. cbn [set_heartbeat_failures set_ctrl_queue ctrl_queue].
    eexists. split; [reflexivity|]. split; [cbn; lia|reflexivity].
  - rewrite (_run_failure_below _ e1 _ self s Hcan Hq) by lia.
    rewrite (_run_failure_third _ e2 [HandleHeartbeatFailed e3] _ s p)
      by (try reflexivity; try assumption; cbn; lia).
    rewrite (_run_failure_below _ e3 [])
      by (try reflexivity; try assumption; cbn; lia).
    rewrite _run_eq. cbn [set_heartbeat_failures set_ctrl_queue ctrl_queue].
    eexists. split; [reflexivity|]. split; [cbn; lia|reflexivity].
  - rewrite (_run_failure_third _ e1 _ self s p Hcan Hq Hp) by lia.
    rewrite (_run_failure_below _ e2 [HandleHeartbeatFailed e3])
      by (try reflexivity; try assumption; cbn; lia).
    rewrite (_run_failure_below _ e3 [])
      by (try reflexivity; try assumption; cbn; lia).
    rewrite _run_eq. cbn [set_heartbeat_failures set_ctrl_queue ctrl_queue].
    eexists. split; [reflexivity|]. split; [cbn; lia|reflexivity].
Qed.

End Verdicts.

(* ================================================================== *)
(** * Dictionaries, queues and the dispatcher                          *)
(* ================================================================== *)

Section DictLemmas.
Context {K V : Type} `{EqDecision K}.

Lemma Dict_get_set_eq (k : K) (v : V) (d : list (K * V)) :
  Dict.get k (Dict.set k v d) = Some v.
Proof.
  induction d as [|[k' v'] d IH]; cbn [Dict.set Dict.get].
  - now rewrite decide_True.
  - destruct (decide (k = k')) as [->|Hne]; cbn [Dict.get].
    + now rewrite decide_True.
    + now rewrite decide_False.
Qed.

Lemma Dict_keys_set (k : K) (v : V) (d : list (K * V)) :
  Dict.keys (Dict.set k v d)
  = if Dict.mem k d then Dict.keys d else Dict.keys d ++ [k].
Proof.
  unfold Dict.mem, Dict.keys.
  induction d as [|[k' v'] d IH]; cbn [Dict.set Dict.get map fst app]; [reflexivity|].
  destruct (decide (k = k')) as [->|Hne]; cbn [map fst]; [reflexivity|].
  rewrite IH. now destruct (Dict.get k d).
Qed.

Lemma Dict_mem_keys (k : K) (d : list (K * V)) :
  Dict.mem k d = true <-> k ∈ Dict.keys d.
Proof.
  unfold Dict.mem, Dict.keys.
  induction d as [|[k' v'] d IH]; cbn [Dict.get map fst].
  - split; [discriminate|]. intros Hin. now apply elem_of_nil in Hin.
  - rewrite elem_of_cons. destruct (decide (k = k')) as [->|Hne].
    + split; [now left | reflexivity].
    + rewrite IH. split; [now right | intros [?|?]; [congruence|assumption]].
Qed.

Lemma Dict_Forall_set (P : K * V -> Prop) (k : K) (v : V) (d : list (K * V)) :
  (forall k', P (k', v)) -> Forall P d -> Forall P (Dict.set k v d).
Proof.
  intros Hv. induction 1 as [|[k' v'] d Hx Hd IH]; cbn [Dict.set].
  - repeat constructor. apply Hv.
  - destruct (decide (k = k')); constructor; auto.
Qed.

End DictLemmas.

Section QueueLemmas.

Lemma contents_put_eq (q : Z) (m : OutboundMessage) (qs : Queues.t) :
  Queues.contents q (Queues.put q m qs) = Queues.contents q qs ++ [m].
Proof.
  unfold Queues.put. unfold Queues.contents at 1. now rewrite lookup_insert_eq.
Qed.

Lemma lookup_put_ne (q q' : Z) (m : OutboundMessage) (qs : Queues.t) :
  q' <> q -> Queues.put q m qs !! q' = qs !! q'.
Proof.
  intros Hne. unfold Queues.put. now rewrite lookup_insert_ne.
Qed.

End QueueLemmas.

Section DispatcherLemmas.
Import Connection Tracking.
Context {C : Type} `{Conversation C}.

Lemma contents_start_all (cs : list C) (q : Z) (qs : Queues.t) :
  Queues.contents q (start_all cs q qs) = Queues.contents q qs ++ map start cs.
Proof.
  revert qs. induction cs as [|c cs IH]; intros qs; cbn [start_all map].
  - now rewrite app_nil_r.
  - rewrite IH, contents_put_eq, <- app_assoc. reflexivity.
Qed.

Lemma lookup_start_all_ne (cs : list C) (q q' : Z) (qs : Queues.t) :
  q' <> q -> start_all cs q qs !! q' = qs !! q'.
Proof.
  intros Hne. revert qs. induction cs as [|c cs IH]; intros qs; cbn [start_all].
  - reflexivity.
  - rewrite IH. now apply lookup_put_ne.
Qed.

Lemma consistent_nil : consistent (@nil (UUID * C)).
Proof. split; constructor. Qed.

(** Tracking a conversation under its own id keeps the dictionary
    consistent. *)
Lemma consistent_set (c : C) (d : list (UUID * C)) :
  consistent d -> consistent (Dict.set (conversation_id c) c d).
Proof.
  intros [Hnd Hid]. split.
  - rewrite Dict_keys_set.
    destruct (Dict.mem (conversation_id c) d) eqn:E; [assumption|].
    apply NoDup_app. split; [assumption|]. split; [|apply NoDup_singleton].
    intros k Hk Hk'. apply list_elem_of_singleton in Hk'. subst k.
    apply Dict_mem_keys in Hk. congruence.
  - clear Hnd. induction Hid as [|[k' v'] d Hx Hd IH]; cbn [Dict.set].
    + repeat constructor.
    + destruct (decide (conversation_id c = k')) as [E|E]; constructor; auto.
Qed.

Lemma frames_of_absent (u : UUID) (d : list (UUID * C)) :
  Forall (fun kv => conversation_id kv.2 = kv.1) d ->
  u ∉ Dict.keys d ->
  frames_of u (map start (Dict.values d)) = 0%nat.
Proof.
  unfold frames_of, Dict.values, Dict.keys.
  induction 1 as [|[k c] d Hk Hd IH]; intros Hu; [reflexivity|].
  cbn [map fst snd] in *. rewrite not_elem_of_cons in Hu. destruct Hu as [Hne Hu].
  rewrite filter_cons. rewrite decide_False.
  - now apply IH.
  - rewrite start_conversation_id. cbn in Hk. intros [= E]. congruence.
Qed.

(** Among the start frames of the tracked conversations, exactly one bears
    the id of each tracked conversation, and none bears any other id. *)
Lemma frames_of_tracked (u : UUID) (d : list (UUID * C)) :
  consistent d ->
  frames_of u (map start (Dict.values d))
  = if Dict.mem u d then 1%nat else 0%nat.
Proof.
  intros [Hnd Hid]. induction Hid as [|[k c] d Hk Hd IH].
  - reflexivity.
  - cbn [Dict.keys map fst] in Hnd. apply NoDup_cons in Hnd. destruct Hnd as [Hin Hnd].
    unfold Dict.mem. cbn [Dict.get Dict.values map snd]. cbn in Hk.
    unfold frames_of. rewrite filter_cons.
    destruct (decide (u = k)) as [->|Hne].
    + rewrite decide_True by (rewrite start_conversation_id; congruence).
      cbn [length]. f_equal. now apply frames_of_absent.
    + rewrite decide_False.
      * apply IH. exact Hnd.
      * rewrite start_conversation_id. intros [= E]. congruence.
Qed.

End DispatcherLemmas.

(* ================================================================== *)
(** * The dispatcher properties                                        *)
(* ================================================================== *)

Section DispatcherClaims.
Import Connection Tracking.
Context {C : Type} `{Conversation C}.

(** C3.  Replay on attach.  [write_to], which the connector calls once for
    every transport that opens, makes the transport's queue [q] the
    dispatcher's output, leaves the tracked conversations as they are, and
    appends to [q] the start frames of the tracked conversations, one for
    each in the order of the dictionary; no other queue is touched.  Among
    the appended frames exactly one bears the id of each tracked
    conversation and none bears another id.  The connector's handling of
    [HandleConnectionOpened] is this [write_to] on the queue of the
    protocol that opened, and the head of [_process_messages] in
    [connection2.py] appends the same frames to the dispatcher's queue. *)
Theorem reconnect_replays_tracked_conversations
    (d : MessageDispatcher C) (qs : Queues.t) (q : Z) :
  consistent (active_conversations d) ->
  let tracked := Dict.values (active_conversations d) in
  output (write_to q d qs).1 = Some q
  /\ active_conversations (write_to q d qs).1 = active_conversations d
  /\ Queues.contents q (write_to q d qs).2 = Queues.contents q qs ++ map start tracked
  /\ (forall q', q' <> q -> (write_to q d qs).2 !! q' = qs !! q')
  /\ (forall u, frames_of u (map start tracked)
                = if Dict.mem u (active_conversations d) then 1%nat else 0%nat)
  /\ (forall (D R L : Type) (HD : Discovery D) (HR : DiscoveryRetryPolicy R)
             (HL : EventLoop L) (self : Connector) (s : System C D R L)
             (a : NodeService) (p : PhotonPumpProtocol),
        exists self' s',
          handle (HandleConnectionOpened a p) self s = Ok (self', s')
          /\ active_protocol self' = Some p
          /\ (sys_dispatcher s', sys_queues s')
             = write_to (output_queue p) (sys_dispatcher s) (sys_queues s))
  /\ (forall (tcp : TcpCommand) (d2 : Connection2.MessageDispatcher C),
        Connection2.output (Connection2._process_messages_begin tcp d2)
        = Connection2.output d2
          ++ map (fun entry => Connection2.enqueued_start tcp entry.1)
                 (Dict.values (Connection2.active_conversations d2))).
Proof.
  intros Hok tracked.
  split; [reflexivity|]. split; [reflexivity|].
  split; [apply contents_start_all|].
  split; [intros q' Hne; now apply lookup_start_all_ne|].
  split; [intros u; now apply frames_of_tracked|].
  split.
  - intros D R L HD HR HL self s a p. cbn [handle]. unfold _on_transport_received.
    destruct (write_to (output_queue p) (sys_dispatcher s) (sys_queues s)) as [d' qs'].
    eexists _, _. split; [reflexivity|]. split; reflexivity.
  - reflexivity.
Qed.

(** What the connector does on an instruction leaves the dispatcher's
    output as it is, unless it is the opening of a connection, which sets
    it. *)
Lemma handle_keeps_output {D R L : Type} `{Discovery D}
    `{DiscoveryRetryPolicy R} `{EventLoop L}
    (msg : ConnectorInstruction) (self self' : Connector)
    (s s' : System C D R L) :
  handle msg self s = Ok (self', s') ->
  match msg with
  | HandleConnectionOpened _ p => output (sys_dispatcher s') = Some (output_queue p)
  | _ => sys_dispatcher s' = sys_dispatcher s
  end.
Proof.
  intros Hrun. destruct msg; cbn [handle] in Hrun.
  - injection Hrun as Hrun. unfold _attempt_connect in Hrun.
    assert (forall (n : NodeService) (self0 : Connector) (s0 : System C D R L),
              sys_dispatcher s0 = sys_dispatcher s ->
              dial_node n self0 s0 = (self', s') ->
              sys_dispatcher s' = sys_dispatcher s) as Hdial.
    { intros n self0 s0 Hd. unfold dial_node.
      destruct (create_connection n (loop s0)) as [dial l].
      destruct (wait_for dial _) as [waited [t|e]]; intros [= <- <-]; exact Hd. }
    destruct target as [n|].
    + now apply (Hdial n self s).
    + destruct (discover (discovery s)) as [[n|e] d].
      * now apply (Hdial n (set_target_node n self) (set_discovery d s)).
      * now injection Hrun as <- <-.
  - unfold _on_connect_failed, get_target_node in Hrun.
    destruct (target_node self) as [n|]; [|discriminate].
    cbn [mbind result_bind bind] in Hrun. injection Hrun as Hrun.
    unfold _reconnect in Hrun. cbn [retry_policy set_retry_policy] in Hrun.
    destruct (should_retry n _); now injection Hrun as <- <-.
  - unfold _on_transport_received in Hrun. unfold write_to in Hrun.
    now injection Hrun as <- <-.
  - unfold _on_transport_closed, get_target_node in Hrun.
    destruct (target_node self) as [n|]; [|discriminate].
    cbn [mbind result_bind bind] in Hrun. injection Hrun as Hrun.
    unfold _reconnect in Hrun. cbn [retry_policy effect] in Hrun.
    destruct (should_retry n _); now injection Hrun as <- <-.
  - unfold _on_transport_error, get_target_node in Hrun.
    destruct (target_node self) as [n|]; [|discriminate].
    cbn [mbind result_bind bind] in Hrun. injection Hrun as Hrun.
    unfold _reconnect in Hrun. cbn [retry_policy effect] in Hrun.
    destruct (should_retry n _); now injection Hrun as <- <-.
  - unfold _on_failed_heartbeat in Hrun.
    cbn [heartbeat_failures set_heartbeat_failures active_protocol] in Hrun.
    destruct (3 <=? heartbeat_failures self + 1).
    + destruct (active_protocol self); [|discriminate].
      now injection Hrun as <- <-.
    + now injection Hrun as <- <-.
  - now injection Hrun as <- <-.
  - unfold _on_connector_failed, Connector_stop in Hrun.
    cbn [set_state active_protocol] in Hrun.
    destruct (active_protocol self); now injection Hrun as <- <-.
  - discriminate.
Qed.

(** C6, as the code has it.  In [connection.py], [start_conversation]
    leaves the dictionary alone for a one-way conversation and tracks any
    other under its id; it never changes the dispatcher's output.  The
    start frame is put on a queue at once exactly when the dispatcher has
    an output queue, and then on that one.  It has none before the first
    attach, and from then on it always has the queue of the last attach:
    [write_to] sets it, and neither [start_conversation] nor what the
    connector does on the loss of the connection, or on any instruction,
    clears it.  Before the first attach the frame of a conversation that
    is not one-way is put on the queue of the first attach, and a one-way
    conversation leaves no trace.  In [connection2.py],
    [enqueue_conversation] tracks every conversation under its id,
    one-way or not; the start frame is put on the output queue at once
    exactly when the dispatcher is connected, which it is from the start
    of [_process_messages] to [stop]; otherwise it is put there by the
    next [_process_messages]. *)
Theorem start_conversation_tracks_and_sends
    (conversation : C) (d : MessageDispatcher C) (qs : Queues.t)
    (tcp : TcpCommand) (convo : Connection2.Enqueued C)
    (d2 : Connection2.MessageDispatcher C) :
  consistent (active_conversations d) ->
  (let '(d', qs', handle) := start_conversation conversation d qs in
   handle = result_handle conversation
   /\ output d' = output d
   /\ (one_way conversation = true ->
       active_conversations d' = active_conversations d)
   /\ (one_way conversation = false ->
       Dict.get (conversation_id conversation) (active_conversations d')
         = Some conversation
       /\ consistent (active_conversations d'))
   /\ (forall q, output d = Some q -> qs' = Queues.put q (start conversation) qs)
   /\ (output d = None -> qs' = qs)
   /\ (output d = None -> one_way conversation = false ->
       forall q, start conversation ∈ Queues.contents q (write_to q d' qs').2)
   /\ (output d = None -> one_way conversation = true -> d' = d))
  /\ output (@MessageDispatcher_init C) = None
  /\ (forall q, output (write_to q d qs).1 = Some q)
  /\ (forall (D R L : Type) (HD : Discovery D) (HR : DiscoveryRetryPolicy R)
             (HL : EventLoop L) (msg : ConnectorInstruction)
             (self self' : Connector) (s s' : System C D R L),
        handle msg self s = Ok (self', s') ->
        is_Some (output (sys_dispatcher s)) ->
        is_Some (output (sys_dispatcher s')))
  /\ (forall (D R L : Type) (HD : Discovery D) (HR : DiscoveryRetryPolicy R)
             (HL : EventLoop L) (exn : option exn)
             (self self' : Connector) (s s' : System C D R L),
        connection_lost exn self s = Ok (self', s') ->
        sys_dispatcher s' = sys_dispatcher s)
  /\ (let d2' := (Connection2.enqueue_conversation tcp convo d2).1 in
      Dict.get (Connection2.enqueued_id convo) (Connection2.active_conversations d2')
        = Some (convo, Pending)
      /\ Connection2._connected d2' = Connection2._connected d2
      /\ (Connection2._connected d2 = true ->
          Connection2.output d2'
          = Connection2.output d2 ++ [Connection2.enqueued_start tcp convo])
      /\ (Connection2._connected d2 = false ->
          Connection2.output d2' = Connection2.output d2
          /\ Connection2.enqueued_start tcp convo
             ∈ Connection2.output (Connection2._process_messages_begin tcp d2')))
  /\ Connection2._connected (Connection2._process_messages_begin tcp d2) = true
  /\ Connection2._connected (Connection2.MessageDispatcher_stop d2) = false.
Proof.
  intros Hok. split; [|split; [reflexivity|split; [reflexivity|split; [|split; [|split]]]]].
  - unfold start_conversation.
    destruct (one_way conversation) eqn:Hway; cbn [negb output active_conversations].
    + split; [reflexivity|]. split; [reflexivity|]. split; [reflexivity|].
      split; [discriminate|].
      split; [intros q ->; reflexivity|].
      split; [intros ->; reflexivity|].
      split; [discriminate|]. reflexivity.
    + split; [reflexivity|]. split; [reflexivity|]. split; [discriminate|].
      split; [intros _; split; [apply Dict_get_set_eq | now apply consistent_set]|].
      split; [intros q ->; reflexivity|].
      split; [intros ->; reflexivity|].
      split; [|discriminate].
      intros -> _ q. unfold write_to. cbn [snd active_conversations].
      rewrite contents_start_all. apply elem_of_app. right.
      apply list_elem_of_fmap. exists conversation. split; [reflexivity|].
      unfold Dict.values. apply list_elem_of_fmap.
      exists (conversation_id conversation, conversation). split; [reflexivity|].
      clear Hok. induction (active_conversations d) as [|[k v] l IH]; cbn [Dict.set].
      * apply list_elem_of_here.
      * destruct (decide (conversation_id conversation = k)) as [<-|Hne].
        -- apply list_elem_of_here.
        -- apply list_elem_of_further, IH.
  - intros D R L HD HR HL msg self self' s s' Hrun Hset.
    apply handle_keeps_output in Hrun. destruct msg; now rewrite Hrun.
  - intros D R L HD HR HL exn self self' s s'. unfold connection_lost, get_target_node.
    destruct (target_node self) as [n|]; [|discriminate].
    cbn [mbind result_bind bind]. destruct exn; now intros [= <- <-].
  - cbv zeta. unfold Connection2.enqueue_conversation.
    cbn [fst Connection2.active_conversations Connection2.output
         Connection2._connected].
    split; [apply Dict_get_set_eq|]. split; [reflexivity|].
    split; [now intros ->|].
    intros ->. split; [reflexivity|].
    unfold Connection2._process_messages_begin.
    cbn [Connection2.output Connection2.active_conversations].
    apply elem_of_app. right. apply list_elem_of_fmap.
    exists (convo, Pending). split; [reflexivity|].
    unfold Dict.values. apply list_elem_of_fmap.
    exists (Connection2.enqueued_id convo, (convo, Pending)). split; [reflexivity|].
    induction (Connection2.active_conversations d2) as [|[k v] l IH]; cbn [Dict.set].
    + apply list_elem_of_here.
    + destruct (decide (Connection2.enqueued_id convo = k)) as [<-|Hne].
      * apply list_elem_of_here.
      * apply list_elem_of_further, IH.
  - split; reflexivity.
Qed.

End DispatcherClaims.

Section DispatcherWitnesses.
Import Connection Tracking.

Lemma consistent_sample :
  consistent (active_conversations (sys_dispatcher Sample.system)).
Proof.
  split.
  - apply NoDup_singleton.
  - repeat constructor.
Defined.

Lemma reconnect_replays_tracked_conversations_witness :
  Queues.contents 2
    (write_to 2 (sys_dispatcher Sample.system) (sys_queues Sample.system)).2
  = Queues.contents 2 (sys_queues Sample.system)
    ++ map start (Dict.values (active_conversations (sys_dispatcher Sample.system))).
Proof.
  exact (proj1 (proj2 (proj2
    (reconnect_replays_tracked_conversations (sys_dispatcher Sample.system)
       (sys_queues Sample.system) 2 consistent_sample)))).
Defined.

Lemma start_conversation_tracks_and_sends_witness :
  (let '(d', qs', handle) :=
     start_conversation Sample.write_events (sys_dispatcher Sample.system)
       (sys_queues Sample.system) in
   handle = result_handle Sample.write_events
   /\ output d' = output (sys_dispatcher Sample.system))
  /\ Dict.get (Some Sample.uuid_c)
       (Connection2.active_conversations
          (Connection2.enqueue_conversation Sample.tcp
             (Connection2.Started Sample.ack)
             (Connection2.mkDispatcher [] [] false)).1)
     = Some (Connection2.Started Sample.ack, Pending).
Proof.
  pose proof (start_conversation_tracks_and_sends Sample.write_events
                (sys_dispatcher Sample.system) (sys_queues Sample.system)
                Sample.tcp (Connection2.Started Sample.ack)
                (Connection2.mkDispatcher [] [] false)
                consistent_sample) as [Hw (_ & _ & _ & _ & Hw2 & _)].
  split.
  - destruct (start_conversation Sample.write_events (sys_dispatcher Sample.system)
                (sys_queues Sample.system)) as [[d' qs'] handle].
    exact (conj (proj1 Hw) (proj1 (proj2 Hw))).
  - exact (proj1 Hw2).
Defined.

(** C6, as the specification words it, fails in three places.  In
    [connection.py], a one-way conversation started before the first
    attach is neither sent nor kept for the attach.  Still there, once a
    connection has been made and lost, the dispatcher keeps the queue of
    the lost connection as its output: a conversation started then has its
    frame put on that queue at once, with no transport attached, and a
    one-way one is not on the queue of the next attach.  In
    [connection2.py] a one-way conversation is inserted into the map like
    any other. *)
Lemma one_way_conversation_is_not_deferred :
  (one_way Sample.ack = true
   /\ output (@MessageDispatcher_init Sample.Simple) = None
   /\ ~ sent_or_deferred Sample.ack MessageDispatcher_init ∅)
  /\ (Readings.attached (effects Scenario.lost.2) = false
      /\ active_protocol Scenario.lost.1 = Some (mkProtocol Sample.localhost 1)
      /\ output (sys_dispatcher Scenario.lost.2) = Some 1
      /\ ~ Readings.held_back_while_detached Sample.ack Scenario.lost.2
      /\ (let '(d', qs', _) :=
            start_conversation Sample.ack (sys_dispatcher Scenario.lost.2)
              (sys_queues Scenario.lost.2) in
          qs' = Queues.put 1 (start Sample.ack) (sys_queues Scenario.lost.2)
          /\ start Sample.ack ∈ Queues.contents 1 qs'
          /\ start Sample.ack ∉ Queues.contents 2 (write_to 2 d' qs').2))
  /\ ~ Readings.one_way_untracked2 Sample.tcp Sample.ack
         (Connection2.mkDispatcher [] [] false).
Proof.
  split; [|split].
  - split; [reflexivity|]. split; [reflexivity|].
    unfold sent_or_deferred. cbn. intros Hall. specialize (Hall 1).
    now apply elem_of_nil in Hall.
  - split; [reflexivity|]. split; [reflexivity|]. split; [reflexivity|].
    split.
    + unfold Readings.held_back_while_detached. intros Hheld.
      specialize (Hheld eq_refl).
      apply (f_equal (Queues.contents 1)) in Hheld. discriminate Hheld.
    + split; [reflexivity|]. split.
      * apply list_elem_of_here.
      * apply not_elem_of_nil.
  - unfold Readings.one_way_untracked2. intros Hun. specialize (Hun eq_refl).
    discriminate Hun.
Qed.

End DispatcherWitnesses.

(* ================================================================== *)
(** * The connector properties                                         *)
(* ================================================================== *)

Section ConnectorClaims.
Import Connection Heartbeats.
Context {C D R L : Type}.
Context `{Conversation C} `{Discovery D} `{DiscoveryRetryPolicy R} `{EventLoop L}.

(** C4.  Three strikes.  Take a connector with an active protocol and a
    running loop, whose failure counter is where the handlers can have
    left it, from zero to two.  Three [HandleHeartbeatFailed] in a row make
    it stop the active protocol exactly once, on the failure that brings
    the count to three, and the counter, set to zero there, ends where it
    began: at zero when the three were counted from zero.  Any sequence of
    heartbeat verdicts that, with the failures already counted, never has
    three failures in a row makes it stop nothing and leaves the counter
    below three.  A [HandleHeartbeatSuccess] sets the counter to zero
    whatever it was.  The handlers of [connection2.py] count alike: three
    failures from zero close the transport once, on the third, and zero
    the counter; one or two close nothing; a success zeroes the
    counter. *)
Theorem three_consecutive_heartbeat_failures
    (self : Connector) (s : System C D R L) (p : PhotonPumpProtocol)
    (self2 : Connection2.Connector) (t : Z) :
  0 <= heartbeat_failures self < 3 ->
  active_protocol self = Some p ->
  cancelled self = false ->
  Connection2.heartbeat_failures self2 = 0 ->
  Connection2.transport self2 = Some t ->
  (forall e1 e2 e3 : exn,
     exists self' s',
       _run 3 (set_ctrl_queue [HandleHeartbeatFailed e1; HandleHeartbeatFailed e2;
                               HandleHeartbeatFailed e3] self) s
       = Some (Ok (self', s'))
       /\ effects s' = effects s ++ [protocol_stopped (connection_number p)]
       /\ heartbeat_failures self' = heartbeat_failures self)
  /\ (forall msgs : list ConnectorInstruction,
        Forall (fun msg => is_verdict msg = true) msgs ->
        (longest_run (Z.to_nat (heartbeat_failures self)) msgs < 3)%nat ->
        exists self',
          _run (length msgs) (set_ctrl_queue msgs self) s = Some (Ok (self', s))
          /\ 0 <= heartbeat_failures self' < 3)
  /\ (forall (u : UUID) (any : Connector),
        exists self',
          handle (HandleHeartbeatSuccess u) any s = Ok (self', s)
          /\ heartbeat_failures self' = 0)
  /\ (forall e1 e2 e3 : exn,
        let one := Connection2._on_failed_heartbeat e1 self2 in
        let two := Connection2._on_failed_heartbeat e2 one in
        let three := Connection2._on_failed_heartbeat e3 two in
        Connection2.effects one = Connection2.effects self2
        /\ Connection2.effects two = Connection2.effects self2
        /\ Connection2.effects three
           = Connection2.effects self2 ++ [Connection2.transport_closed t]
        /\ Connection2.heartbeat_failures three = 0)
  /\ (forall (u : UUID) (any : Connection2.Connector),
        Connection2.heartbeat_failures (Connection2._on_successful_heartbeat u any) = 0).
Proof.
  intros Hcount Hp Hcan Hcount2 Ht.
  split; [|split; [|split; [|split]]].
  - intros e1 e2 e3.
    destruct (three_failures e1 e2 e3
                (set_ctrl_queue [HandleHeartbeatFailed e1; HandleHeartbeatFailed e2;
                                 HandleHeartbeatFailed e3] self) s p)
      as (self' & Hrun & Hsame & _); try assumption; try reflexivity.
    exists self', (PhotonPumpProtocol_stop p s). split; [exact Hrun|].
    split; [reflexivity|exact Hsame].
  - intros msgs Hv Hlong.
    destruct (verdicts_below_three msgs (Z.to_nat (heartbeat_failures self))
                (set_ctrl_queue msgs self) s Hv Hlong)
      as (self' & Hrun & _ & Hbelow & _); try assumption; try reflexivity.
    { cbn. lia. }
    exists self'. split; assumption.
  - intros u any. eexists. split; reflexivity.
  - intros e1 e2 e3. unfold Connection2._on_failed_heartbeat.
    cbn [Connection2.heartbeat_failures Connection2.set_heartbeat_failures
         Connection2.effects Connection2.transport Connection2.effect].
    rewrite Hcount2.
    change (3 <=? 0 + 1) with false. cbv iota.
    cbn [Connection2.heartbeat_failures Connection2.set_heartbeat_failures
         Connection2.effects Connection2.transport Connection2.effect].
    change (3 <=? 0 + 1 + 1) with false. cbv iota.
    cbn [Connection2.heartbeat_failures Connection2.set_heartbeat_failures
         Connection2.effects Connection2.transport Connection2.effect].
    change (3 <=? 0 + 1 + 1 + 1) with true. cbv iota. rewrite Ht.
    cbn [Connection2.heartbeat_failures Connection2.set_heartbeat_failures
         Connection2.effects Connection2.transport Connection2.effect].
    repeat split.
  - intros u any. reflexivity.
Qed.

End ConnectorClaims.

Section ConnectorWitnesses.
Import Connection Heartbeats.

Lemma three_consecutive_heartbeat_failures_witness :
  exists self' s',
    _run 3 (set_ctrl_queue [HandleHeartbeatFailed TimeoutError;
                            HandleHeartbeatFailed TimeoutError;
                            HandleHeartbeatFailed TimeoutError] Sample.connector)
         Sample.system
    = Some (Ok (self', s'))
    /\ effects s' = effects Sample.system
                    ++ [protocol_stopped (connection_number Sample.protocol)]
    /\ heartbeat_failures self' = heartbeat_failures Sample.connector.
Proof.
  refine (proj1 (three_consecutive_heartbeat_failures Sample.connector Sample.system
                   Sample.protocol Sample.connector2 1
                   _ eq_refl eq_refl eq_refl eq_refl)
            TimeoutError TimeoutError TimeoutError).
  cbn. lia.
Defined.

End ConnectorWitnesses.

(* ================================================================== *)
(** * The pacemaker properties                                         *)
(* ================================================================== *)

Section PacemakerClaims.
Import Wire MessageReader Decoding.

Lemma stream_one (f : Frame) : stream [f] = encode f.
Proof. unfold stream. cbn [map concat]. apply app_nil_r. Qed.

(** Feeding the bytes of one well-formed frame, cut anywhere, is handing
    its message over. *)
Lemma feed_frame {World : Type}
    (on_message : InboundMessage -> World -> result World)
    (f : Frame) (chunks : list (list byte)) (fuel : nat) (w : World) :
  well_formed f ->
  concat chunks = encode f ->
  Forall (fun chunk => (length chunk <= fuel)%nat) chunks ->
  exists self',
    feed on_message fuel init w chunks
    = Some (w' ← on_message (message f) w; Ok (self', w')).
Proof.
  intros Hwf Hcat Hfuel.
  destruct (feed_stream on_message fuel chunks [f] w) as (self' & _ & Hfeed);
    try assumption.
  - apply Forall_cons. split; [exact Hwf|apply Forall_nil_2].
  - now rewrite stream_one.
  - exists self'. rewrite Hfeed. cbn [map hand_over].
    destruct (on_message (message f) w); reflexivity.
Qed.

(** In [connection2.py] a heartbeat request goes the other way: the
    dispatcher itself enqueues the reply as a conversation, which it then
    tracks. *)
Lemma connection2_tracks_heartbeat_replies (tcp : TcpCommand) (C : Type)
    (HC : Conversation C) (m : InboundMessage) (d : Connection2.MessageDispatcher C) :
  Dict.get (in_conversation_id m)
    (Connection2.active_conversations (Connection2.on_heartbeat_request tcp m d))
  = Some (Connection2.Heartbeat (in_conversation_id m), Pending).
Proof.
  unfold Connection2.on_heartbeat_request, Connection2.enqueue_conversation.
  cbn [fst Connection2.active_conversations Connection2.enqueued_id].
  apply Dict_get_set_eq.
Qed.

(** C5, as the code has it.  Every [HeartbeatRequest] frame that the
    client receives, in whatever chunks, is answered at once with a
    [HeartbeatResponse] that bears the conversation id of the request and
    has no payload, put on the output queue.  In [connection.py] the read
    pump gives the request to the pacemaker, which puts the response on
    the output queue of the protocol: the request is not put on the input
    queue, from which alone the dispatch pump feeds the dispatcher, and
    the dispatcher and its conversations stay as they were.  In
    [connection2.py] the read pump puts the request on the input queue
    like every message, and the loop of the dispatcher, connected since it
    began, answers it through [enqueue_conversation]: the response is put
    on the dispatcher's output queue and the reply is inserted into
    [active_conversations] under the conversation id of the request, with
    a future that is pending. *)
Theorem heartbeat_request_is_answered (tcp : TcpCommand) (C : Type)
    (HC : Conversation C) (f : Frame) (chunks : list (list byte)) (fuel : nat)
    (w : Connection.Pump C) (input : list InboundMessage)
    (d2 : Connection2.MessageDispatcher C) :
  well_formed f ->
  byte_val (frame_command f) = HeartbeatRequest tcp ->
  concat chunks = encode f ->
  Forall (fun chunk => (length chunk <= fuel)%nat) chunks ->
  (exists self',
     Connection.feed tcp fuel init w chunks
     = Some (Ok (self',
                 Connection.mkPump
                   (Connection.input_queue w)
                   (Connection.pacemaker w)
                   (Queues.put (Connection._output (Connection.pacemaker w))
                      (mkOutbound (Some (frame_conversation_id f))
                                  (HeartbeatResponse tcp) [])
                      (Connection.queues w))
                   (Connection.dispatcher w))))
  /\ (exists self',
        Connection2.feed fuel init input chunks
        = Some (Ok (self', input ++ [message f])))
  /\ (let connected := Connection2._process_messages_begin tcp d2 in
      let d2' := Connection2.on_heartbeat_request tcp (message f) connected in
      Connection2.output d2'
      = Connection2.output connected
        ++ [mkOutbound (Some (frame_conversation_id f)) (HeartbeatResponse tcp) []]
      /\ Dict.get (Some (frame_conversation_id f))
           (Connection2.active_conversations d2')
         = Some (Connection2.Heartbeat (Some (frame_conversation_id f)), Pending)).
Proof.
  intros Hwf Hcmd Hcat Hfuel. split; [|split].
  - destruct (feed_frame (Connection.on_message tcp) f chunks fuel w Hwf Hcat Hfuel)
      as (self' & Hfeed).
    exists self'. unfold Connection.feed. rewrite Hfeed.
    unfold Connection.on_message. cbn [in_command message]. rewrite Hcmd, Z.eqb_refl.
    reflexivity.
  - destruct (feed_frame Connection2.on_message f chunks fuel input Hwf Hcat Hfuel)
      as (self' & Hfeed).
    exists self'. unfold Connection2.feed. rewrite Hfeed. reflexivity.
  - cbv zeta. split.
    + reflexivity.
    + exact (connection2_tracks_heartbeat_replies tcp C HC (message f)
               (Connection2._process_messages_begin tcp d2)).
Qed.

(** C9.  A [HeartbeatResponse] frame whose conversation id is not the
    pacemaker's heartbeat id changes nothing when the read pump of
    [connection.py] receives it, in whatever chunks: the pacemaker's
    future is as it was, the input queue has not grown, so the dispatcher
    is never given the message, and no queue or conversation has
    changed. *)
Theorem stray_heartbeat_response_is_dropped (tcp : TcpCommand) (C : Type)
    (f : Frame) (chunks : list (list byte)) (fuel : nat) (w : Connection.Pump C) :
  HeartbeatRequest tcp <> HeartbeatResponse tcp ->
  well_formed f ->
  byte_val (frame_command f) = HeartbeatResponse tcp ->
  frame_conversation_id f <> Connection.heartbeat_id (Connection.pacemaker w) ->
  concat chunks = encode f ->
  Forall (fun chunk => (length chunk <= fuel)%nat) chunks ->
  exists self',
    Connection.feed tcp fuel init w chunks = Some (Ok (self', w)).
Proof.
  intros Hcodes Hwf Hcmd Hid Hcat Hfuel.
  destruct (feed_frame (Connection.on_message tcp) f chunks fuel w Hwf Hcat Hfuel)
    as (self' & Hfeed).
  exists self'. unfold Connection.feed. rewrite Hfeed.
  unfold Connection.on_message. cbn [in_command message]. rewrite Hcmd.
  destruct (Z.eqb_spec (HeartbeatResponse tcp) (HeartbeatRequest tcp)) as [E|_];
    [congruence|].
  rewrite Z.eqb_refl. unfold Connection.handle_response.
  cbn [in_conversation_id message].
  rewrite decide_False by (intros [= E]; contradiction).
  reflexivity.
Qed.

Lemma heartbeat_request_is_answered_witness :
  (exists self',
     Connection.feed Sample.tcp 16 init Sample.pump
       [take 9 (encode Sample.heartbeat_request);
        drop 9 (encode Sample.heartbeat_request)]
     = Some (Ok (self',
                 Connection.mkPump
                   (Connection.input_queue Sample.pump)
                   (Connection.pacemaker Sample.pump)
                   (Queues.put (Connection._output (Connection.pacemaker Sample.pump))
                      (mkOutbound (Some (frame_conversation_id Sample.heartbeat_request))
                                  (HeartbeatResponse Sample.tcp) [])
                      (Connection.queues Sample.pump))
                   (Connection.dispatcher Sample.pump))))
  /\ (exists self',
        Connection2.feed 16 init []
          [take 9 (encode Sample.heartbeat_request);
           drop 9 (encode Sample.heartbeat_request)]
        = Some (Ok (self', [] ++ [message Sample.heartbeat_request]))).
Proof.
  pose proof (heartbeat_request_is_answered Sample.tcp Sample.Simple _
                Sample.heartbeat_request
                [take 9 (encode Sample.heartbeat_request);
                 drop 9 (encode Sample.heartbeat_request)]
                16 Sample.pump [] (Connection2.mkDispatcher [] [] false)) as Hw.
  refine (let Hall := Hw _ _ _ _ in conj (proj1 Hall) (proj1 (proj2 Hall))).
  - repeat constructor; vm_compute; congruence.
  - reflexivity.
  - vm_compute. reflexivity.
  - repeat constructor; vm_compute; lia.
Defined.

(** C5, as the specification words it, fails on [connection2.py]: the
    reply to a heartbeat request passes through the dispatcher, whose
    conversation map, empty before, holds the reply afterwards. *)
Lemma heartbeat_reply_is_tracked_in_connection2 :
  let d := Connection2.mkDispatcher (C := Sample.Simple) [] [] true in
  let m := mkInbound (Some Sample.uuid_c) (HeartbeatRequest Sample.tcp) [] in
  Connection2.active_conversations d = []
  /\ Connection2.active_conversations (Connection2.on_heartbeat_request Sample.tcp m d)
     = [(Some Sample.uuid_c, (Connection2.Heartbeat (Some Sample.uuid_c), Pending))]
  /\ ~ Readings.answered_directly2 Sample.tcp m d.
Proof.
  cbv zeta. split; [reflexivity|]. split; [reflexivity|].
  unfold Readings.answered_directly2. discriminate.
Qed.

Lemma stray_heartbeat_response_is_dropped_witness :
  exists self',
    Connection.feed Sample.tcp 22 init Sample.pump [encode Sample.stray_response]
    = Some (Ok (self', Sample.pump)).
Proof.
  apply (stray_heartbeat_response_is_dropped Sample.tcp Sample.Simple
           Sample.stray_response).
  - vm_compute. congruence.
  - repeat constructor; vm_compute; congruence.
  - reflexivity.
  - vm_compute. congruence.
  - vm_compute. reflexivity.
  - repeat constructor; vm_compute; lia.
Defined.

End PacemakerClaims.

(* ================================================================== *)
(** * Discovery failure and the connect timeout                        *)
(* ================================================================== *)

Section ConnectClaims.
Import Connection Tracking.
Context {C D R L : Type}.
Context `{Conversation C} `{Discovery D} `{DiscoveryRetryPolicy R} `{EventLoop L}.

(** C7, as the code has it.  When [discover()] raises while the connector
    handles [Connect] with no target, the connector puts
    [HandleConnectorFailed] with the error on its control queue and does
    nothing else.  In [connection.py], handling that instruction is
    [stop]: whatever the connector is doing then, its state becomes
    [Stopping], it stops the active protocol if there is one and forgets
    it, it cancels the task of its loop, and it fires the [stopped] event
    with the error; the dispatcher, its tracked conversations with their
    result handles, and the output queues are as they were before.  For a
    connector that has just been started, the loop then stands on its
    empty queue, where the cancelled task ends.  In [connection2.py],
    handling the instruction sets the state to [Stopping] and puts [Stop]
    with the error on the control queue; the [Stop] branch of the loop
    fires [stopped] with it, and the loop returns; the transport is not
    touched, and the connector does not hold the dispatcher. *)
Theorem discovery_failure_stops_the_connector
    (self : Connector) (s : System C D R L) (e : exn) (d' : D)
    (self2 : Connection2.Connector) :
  discover (discovery s) = (Raise e, d') ->
  handle (Connect None) self s
  = Ok (put_msg (HandleConnectorFailed e) self, set_discovery d' s)
  /\ (forall (any : Connector) (s0 : System C D R L),
        exists self' s',
          handle (HandleConnectorFailed e) any s0 = Ok (self', s')
          /\ state self' = Some Stopping
          /\ cancelled self' = true
          /\ active_protocol self' = None
          /\ ctrl_queue self' = ctrl_queue any
          /\ effects s'
             = effects s0
               ++ match active_protocol any with
                  | Some p => [protocol_stopped (connection_number p)]
                  | None => []
                  end
               ++ [stopped (Some e)]
          /\ sys_dispatcher s' = sys_dispatcher s0
          /\ sys_queues s' = sys_queues s0)
  /\ (ctrl_queue self = [] ->
      cancelled self = false ->
      forall fuel : nat,
        exists self' s',
          _run (S (S fuel)) (Connector_start None self) s = Some (Ok (self', s'))
          /\ state self' = Some Stopping
          /\ cancelled self' = true
          /\ active_protocol self' = None
          /\ ctrl_queue self' = []
          /\ effects s'
             = effects s
               ++ match active_protocol self with
                  | Some p => [protocol_stopped (connection_number p)]
                  | None => []
                  end
               ++ [stopped (Some e)]
          /\ sys_dispatcher s' = sys_dispatcher s
          /\ sys_queues s' = sys_queues s)
  /\ (forall l : L,
        Connection2._attempt_connect None self2 (discovery s) l
        = Some (Connection2.put_msg (Connection2.HandleConnectorFailed e) self2, d', l))
  /\ (let stopping := Connection2._on_connector_failed e self2 in
      Connection2.state stopping = Stopping
      /\ Connection2.ctrl_queue stopping
         = Connection2.ctrl_queue self2 ++ [Connection2.Stop (Some e)]
      /\ Connection2.transport stopping = Connection2.transport self2
      /\ Connection2.effects stopping = Connection2.effects self2)
  /\ (let over := Connection2.on_stop (Some e) self2 in
      Connection2.effects over
      = Connection2.effects self2 ++ [Connection2.stopped (Some e)]
      /\ Connection2.transport over = Connection2.transport self2
      /\ Connection2.ctrl_queue over = Connection2.ctrl_queue self2).
Proof.
  intros Hdisc.
  assert (forall (any : Connector) (s0 : System C D R L),
            exists self' s',
              handle (HandleConnectorFailed e) any s0 = Ok (self', s')
              /\ state self' = Some Stopping
              /\ cancelled self' = true
              /\ active_protocol self' = None
              /\ ctrl_queue self' = ctrl_queue any
              /\ effects s'
                 = effects s0
                   ++ match active_protocol any with
                      | Some p => [protocol_stopped (connection_number p)]
                      | None => []
                      end
                   ++ [stopped (Some e)]
              /\ sys_dispatcher s' = sys_dispatcher s0
              /\ sys_queues s' = sys_queues s0) as Hstop.
  { intros any s0. cbn [handle]. unfold _on_connector_failed, Connector_stop.
    cbn [set_state active_protocol].
    destruct (active_protocol any) as [p|];
      (eexists _, _; split; [reflexivity|]; cbn; repeat split).
    now rewrite <- app_assoc. }
  assert (handle (Connect None) self s
          = Ok (put_msg (HandleConnectorFailed e) self, set_discovery d' s)) as Hput.
  { cbn [handle]. unfold _attempt_connect. now rewrite Hdisc. }
  split; [exact Hput|]. split; [exact Hstop|]. split; [|split; [|split]].
  - intros Hq Hcan fuel. clear Hput Hstop.
    destruct self as [cc cq hf ct ap st tn can]; cbn in Hq, Hcan; subst.
    rewrite _run_eq. cbn. rewrite Hdisc. cbn.
    destruct ap as [p|]; cbn; rewrite ?_run_eq; cbn;
      (eexists _, _; split; [reflexivity|]; cbn; repeat split);
      now rewrite <- ?app_assoc.
  - intros l. unfold Connection2._attempt_connect. now rewrite Hdisc.
  - cbv zeta. repeat split.
  - cbv zeta. repeat split.
Qed.

(** C8, as the code has it.  Every dial the connector of [connection.py]
    makes, for a target it was given or for a node it has discovered, is
    awaited under [asyncio.wait_for] with [connect_timeout], which is 5
    unless another number is passed: the wait for the dial is decided when
    the dial answers or when [connect_timeout] has passed, and not later.
    When the dial has not answered by then, [HandleConnectFailure] with
    the [TimeoutError] is what the connector puts on its control queue.
    The connector of [connection2.py] has no [connect_timeout] and awaits
    the dial as it is: when the dial never answers, [_attempt_connect]
    never returns and nothing is put on the control queue; when the dial
    fails, after however long, [HandleConnectFailure] with its exception
    is put there. *)
Theorem dial_is_bounded_by_connect_timeout
    (target : option NodeService) (n : NodeService) (dial : Dial) (l' : L)
    (self : Connector) (s : System C D R L) (self2 : Connection2.Connector) :
  target = Some n
  \/ (target = None /\ exists d', discover (discovery s) = (Ok n, d')) ->
  create_connection n (loop s) = (dial, l') ->
  (exists self' s' waited,
     handle (Connect target) self s = Ok (self', s')
     /\ effects s' = effects s ++ [dialled n (connection_counter self + 1) waited]
     /\ waited <= connect_timeout self
     /\ (dial = Hangs
         \/ (exists after outcome,
               dial = Answers after outcome /\ connect_timeout self <= after) ->
         waited = connect_timeout self
         /\ ctrl_queue self' = ctrl_queue self ++ [HandleConnectFailure TimeoutError]))
  /\ connect_timeout (Connector_init None) = 5
  /\ (dial = Hangs ->
      Connection2._attempt_connect target self2 (discovery s) (loop s) = None)
  /\ (forall (after : Z) (e : exn),
        dial = Answers after (Raise e) ->
        exists self2' d1,
          Connection2._attempt_connect target self2 (discovery s) (loop s)
          = Some (self2', d1, l')
          /\ Connection2.ctrl_queue self2'
             = Connection2.ctrl_queue self2 ++ [Connection2.HandleConnectFailure e]
          /\ Connection2.effects self2'
             = Connection2.effects self2 ++ [Connection2.dialled n after]).
Proof.
  intros Htarget Hdial. split; [|split; [reflexivity|split]].
  - assert (forall self0 : Connector,
              connection_counter self0 = connection_counter self ->
              connect_timeout self0 = connect_timeout self ->
              ctrl_queue self0 = ctrl_queue self ->
              forall s0 : System C D R L,
                loop s0 = loop s -> effects s0 = effects s ->
                exists self' s' waited,
                  dial_node n self0 s0 = (self', s')
                  /\ effects s' = effects s ++ [dialled n (connection_counter self + 1) waited]
                  /\ waited <= connect_timeout self
                  /\ (dial = Hangs
                      \/ (exists after outcome,
                            dial = Answers after outcome /\ connect_timeout self <= after) ->
                      waited = connect_timeout self
                      /\ ctrl_queue self' = ctrl_queue self ++ [HandleConnectFailure TimeoutError]))
      as Hnode.
    { intros self0 Hc Ht Hq s0 Hl He. unfold dial_node.
      cbn [connection_counter set_connection_counter connect_timeout].
      rewrite Hl, Hdial, Ht, Hc.
      destruct dial as [after outcome|]; cbn [wait_for].
      - destruct (Z.ltb_spec after (connect_timeout self)) as [E|E].
        + destruct outcome as [transport|e0].
          * eexists _, _, after. split; [reflexivity|].
            split; [cbn; now rewrite He|]. split; [lia|].
            intros [Hh|(a & o & Ha & Hle)]; [discriminate|].
            injection Ha as Ha1 Ha2. lia.
          * eexists _, _, after. split; [reflexivity|].
            split; [cbn; now rewrite He|]. split; [lia|].
            intros [Hh|(a & o & Ha & Hle)]; [discriminate|].
            injection Ha as Ha1 Ha2. lia.
        + eexists _, _, (connect_timeout self). split; [reflexivity|].
          split; [cbn; now rewrite He|]. split; [lia|].
          intros _. split; [reflexivity|]. cbn. now rewrite Hq.
      - eexists _, _, (connect_timeout self). split; [reflexivity|].
        split; [cbn; now rewrite He|]. split; [lia|].
        intros _. split; [reflexivity|]. cbn. now rewrite Hq. }
    cbn [handle]. unfold _attempt_connect.
    destruct Htarget as [->|(-> & d' & Hdisc)].
    + destruct (Hnode self eq_refl eq_refl eq_refl s eq_refl eq_refl)
        as (self' & s' & waited & Hrun & Hrest).
      exists self', s', waited. rewrite Hrun. split; [reflexivity|exact Hrest].
    + rewrite Hdisc.
      destruct (Hnode (set_target_node n self) eq_refl eq_refl eq_refl
                  (set_discovery d' s) eq_refl eq_refl)
        as (self' & s' & waited & Hrun & Hrest).
      exists self', s', waited. rewrite Hrun. split; [reflexivity|exact Hrest].
  - intros ->. unfold Connection2._attempt_connect.
    destruct Htarget as [->|(-> & d' & Hdisc)].
    + now rewrite Hdial.
    + now rewrite Hdisc, Hdial.
  - intros after e ->. unfold Connection2._attempt_connect.
    destruct Htarget as [->|(-> & d' & Hdisc)].
    + rewrite Hdial. cbn [await]. eexists _, _. split; [reflexivity|].
      split; reflexivity.
    + rewrite Hdisc, Hdial. cbn [await]. eexists _, _. split; [reflexivity|].
      split; reflexivity.
Qed.

End ConnectClaims.

Section ConnectWitnesses.
Import Connection Tracking.

Lemma discovery_failure_stops_the_connector_witness :
  handle (Connect None) Sample.fresh_connector Sample.nowhere
  = Ok (put_msg (HandleConnectorFailed DiscoveryFailed) Sample.fresh_connector,
        set_discovery [] Sample.nowhere)
  /\ exists self' s',
       _run 2 (Connector_start None (Connector_init None)) Sample.nowhere
       = Some (Ok (self', s'))
       /\ state self' = Some Stopping
       /\ cancelled self' = true
       /\ active_protocol self' = None
       /\ ctrl_queue self' = []
       /\ effects s'
          = effects Sample.nowhere
            ++ match active_protocol (Connector_init None) with
               | Some p => [protocol_stopped (connection_number p)]
               | None => []
               end
            ++ [stopped (Some DiscoveryFailed)]
       /\ sys_dispatcher s' = sys_dispatcher Sample.nowhere
       /\ sys_queues s' = sys_queues Sample.nowhere.
Proof.
  split.
  - exact (proj1 (discovery_failure_stops_the_connector Sample.fresh_connector
                    Sample.nowhere DiscoveryFailed [] Sample.connector2 eq_refl)).
  - exact (proj1 (proj2 (proj2
             (discovery_failure_stops_the_connector (Connector_init None)
                Sample.nowhere DiscoveryFailed [] Sample.connector2 eq_refl)))
             eq_refl eq_refl 0%nat).
Defined.

(** C7, as the specification words it, fails: after discovery has failed
    and the connector has stopped, the result handle of the conversation
    the dispatcher tracks is still pending; the error has reached the
    [stopped] event only. *)
Lemma discovery_failure_leaves_result_handles_pending :
  exists self' s',
    _run 2 Sample.fresh_connector Sample.nowhere = Some (Ok (self', s'))
    /\ effects s' = [stopped (Some DiscoveryFailed)]
    /\ Dict.values (active_conversations (sys_dispatcher s')) = [Sample.ping]
    /\ result_handle Sample.ping = Pending
    /\ ~ delivered_to_all DiscoveryFailed (sys_dispatcher s').
Proof.
  eexists _, _. split; [vm_compute; reflexivity|].
  split; [reflexivity|]. split; [reflexivity|]. split; [reflexivity|].
  unfold delivered_to_all. cbn. intros Hall.
  apply Forall_cons in Hall. destruct Hall as [Hping _]. discriminate Hping.
Qed.

Lemma dial_is_bounded_by_connect_timeout_witness :
  (exists self' s' waited,
     handle (Connect None) Sample.fresh_connector
       (set_discovery [Sample.localhost] Sample.nowhere) = Ok (self', s')
     /\ effects s'
        = effects (set_discovery [Sample.localhost] Sample.nowhere)
          ++ [dialled Sample.localhost (connection_counter Sample.fresh_connector + 1) waited]
     /\ waited <= connect_timeout Sample.fresh_connector
     /\ (Hangs = Hangs
         \/ (exists after outcome,
               Hangs = Answers after outcome
               /\ connect_timeout Sample.fresh_connector <= after) ->
         waited = connect_timeout Sample.fresh_connector
         /\ ctrl_queue self'
            = ctrl_queue Sample.fresh_connector ++ [HandleConnectFailure TimeoutError]))
  /\ (Hangs = Hangs ->
      Connection2._attempt_connect None Sample.connector2
        (discovery (set_discovery [Sample.localhost] Sample.nowhere))
        (loop (set_discovery [Sample.localhost] Sample.nowhere))
      = None).
Proof.
  refine (let Hall :=
            dial_is_bounded_by_connect_timeout None Sample.localhost Hangs Hangs
              Sample.fresh_connector
              (set_discovery [Sample.localhost] Sample.nowhere)
              Sample.connector2 _ _
          in conj (proj1 Hall) (proj1 (proj2 (proj2 Hall)))).
  - right. split; [reflexivity|]. exists [Sample.localhost]. reflexivity.
  - reflexivity.
Defined.

(** C8, as the specification words it, fails on [connection2.py]: with a
    dial that never answers, [_attempt_connect] does not come to an end,
    for a target of the caller's as for a discovered node, and the
    control queue gets no [HandleConnectFailure]. *)
Lemma connection2_dial_outlasts_every_timeout :
  Connection2._attempt_connect (Some Sample.localhost) Sample.connector2
    ([] : list NodeService) Hangs
  = None
  /\ ~ Readings.dial_is_bounded2 (Some Sample.localhost) Sample.connector2
         ([] : list NodeService) Hangs.
Proof.
  split; [reflexivity|].
  intros (self' & d' & l' & Hrun). discriminate Hrun.
Qed.

(** In [connection2.py] the dial is awaited with no timeout: a dial that
    never answers keeps [_attempt_connect] from ever returning, and
    nothing is put on the control queue. *)
Lemma connection2_dial_is_unbounded {D L : Type} (HD : Discovery D) (HL : EventLoop L)
    (target : option NodeService) (n : NodeService)
    (self : Connection2.Connector) (d : D) (l l' : L) :
  target = Some n \/ (target = None /\ exists d', discover d = (Ok n, d')) ->
  create_connection n l = (Hangs, l') ->
  Connection2._attempt_connect target self d l = None.
Proof.
  intros [->|(-> & d' & Hdisc)] Hdial; unfold Connection2._attempt_connect.
  - now rewrite Hdial.
  - now rewrite Hdisc, Hdial.
Qed.

Lemma connection2_dial_is_unbounded_witness :
  Connection2._attempt_connect None Sample.connector2 [Sample.localhost] Hangs = None.
Proof.
  apply (connection2_dial_is_unbounded _ _ None Sample.localhost Sample.connector2
           [Sample.localhost] Hangs Hangs).
  - right. split; [reflexivity|]. exists [Sample.localhost]. reflexivity.
  - reflexivity.
Defined.

End ConnectWitnesses.

(* ================================================================== *)
(** * The model's own footing                                          *)
(* ================================================================== *)

Section Footing.
Import MessageReader.

(** The count-down of the header loop never cuts it short: started with at
    least as many turns as the chunk has bytes left, it ends because its
    condition fails. *)
Lemma read_header_exit (n : nat) :
  forall (self self' : state) (chunk : list byte) (o o' : Z),
    (Z.to_nat (len chunk - o) <= n)%nat ->
    read_header n self chunk o = Ok (self', o') ->
    header_bytes_required self' = 0 \/ len chunk <= o'.
Proof.
  induction n as [|n IH]; intros self self' chunk o o' Hn Hrun.
  - cbn in Hrun. injection Hrun as <- <-. right. lia.
  - cbn [read_header] in Hrun.
    destruct (Z.eqb_spec (header_bytes_required self) 0) as [E|E];
      [injection Hrun as <- <-; now left|].
    destruct (Z.ltb_spec o (len chunk)) as [E2|E2];
      [|injection Hrun as <- <-; now right].
    cbn [negb andb] in Hrun.
    destruct (getitem chunk o) as [b|]; [|discriminate].
    cbn [mbind result_bind bind] in Hrun.
    destruct (setitem (header_bytes self) _ b) as [hb|]; [|discriminate].
    cbn [mbind result_bind bind] in Hrun.
    match type of Hrun with
    | context [read_header n (set_message_offset _ ?s)] => idtac
    | (?m ≫= _) = _ => destruct m as [s1|]; [|discriminate]
    end.
    cbn [mbind result_bind bind] in Hrun.
    apply IH in Hrun; [exact Hrun | lia].
Qed.

End Footing.

Section ConnectorFooting.
Import Connection.
Context {C D R L : Type}.
Context `{Conversation C} `{Discovery D} `{DiscoveryRetryPolicy R} `{EventLoop L}.

Lemma Ok_inj {A : Type} (a b : A) : Ok a = Ok b -> a = b.
Proof. now intros [= ->]. Qed.

Lemma heartbeat_failures_start (target : option NodeService) (self : Connector) :
  heartbeat_failures (Connector_start target self) = heartbeat_failures self.
Proof. reflexivity. Qed.

Lemma heartbeat_failures_reconnect (node : option NodeService)
    (self self' : Connector) (s s' : System C D R L) :
  _reconnect node self s = (self', s') ->
  heartbeat_failures self' = heartbeat_failures self.
Proof.
  unfold _reconnect. destruct node as [n|]; [|now intros [= <- _]].
  destruct (should_retry n (retry_policy s)); now intros [= <- _].
Qed.

Lemma heartbeat_failures_dial (n : NodeService) (self self' : Connector)
    (s s' : System C D R L) :
  dial_node n self s = (self', s') ->
  heartbeat_failures self' = heartbeat_failures self.
Proof.
  unfold dial_node.
  destruct (create_connection n (loop s)) as [dial l].
  destruct (wait_for dial _) as [waited [t|e]]; now intros [= <- _].
Qed.

(** No handler takes the failure counter out of the range zero to two. *)
Lemma handle_keeps_count (msg : ConnectorInstruction)
    (self self' : Connector) (s s' : System C D R L) :
  0 <= heartbeat_failures self < 3 ->
  handle msg self s = Ok (self', s') ->
  0 <= heartbeat_failures self' < 3.
Proof.
  intros Hc Hrun. destruct msg; cbn [handle] in Hrun.
  - apply Ok_inj in Hrun. unfold _attempt_connect in Hrun.
    destruct target as [n|].
    + apply heartbeat_failures_dial in Hrun. lia.
    + destruct (discover (discovery s)) as [[n|e] d].
      * apply heartbeat_failures_dial in Hrun. cbn in Hrun. lia.
      * injection Hrun as <- _. exact Hc.
  - unfold _on_connect_failed, get_target_node in Hrun.
    destruct (target_node self); [|discriminate].
    cbn [mbind result_bind bind] in Hrun. apply Ok_inj in Hrun.
    apply heartbeat_failures_reconnect in Hrun. lia.
  - unfold _on_transport_received in Hrun.
    destruct (write_to _ _ _) as [d qs]. injection Hrun as <- _. exact Hc.
  - unfold _on_transport_closed, get_target_node in Hrun.
    destruct (target_node self); [|discriminate].
    cbn [mbind result_bind bind] in Hrun. apply Ok_inj in Hrun.
    apply heartbeat_failures_reconnect in Hrun. lia.
  - unfold _on_transport_error, get_target_node in Hrun.
    destruct (target_node self); [|discriminate].
    cbn [mbind result_bind bind] in Hrun. apply Ok_inj in Hrun.
    apply heartbeat_failures_reconnect in Hrun. lia.
  - unfold _on_failed_heartbeat in Hrun.
    cbn [heartbeat_failures set_heartbeat_failures active_protocol] in Hrun.
    destruct (Z.leb_spec 3 (heartbeat_failures self + 1)) as [E|E].
    + destruct (active_protocol self); [|discriminate].
      injection Hrun as <- _. cbn. lia.
    + injection Hrun as <- _. cbn. lia.
  - injection Hrun as <- _. cbn. lia.
  - injection Hrun as <- _. exact Hc.
  - discriminate.
Qed.

End ConnectorFooting.

Section DispatcherFooting.
Import Connection Tracking.
Context {C : Type} `{Conversation C}.

(** Removing a conversation keeps the dictionary consistent. *)
Lemma consistent_remove (id : UUID) (d : MessageDispatcher C) :
  consistent (active_conversations d) ->
  consistent (active_conversations (remove id d)).
Proof.
  intros [Hnd Hid]. unfold remove.
  destruct (Dict.mem id (active_conversations d)); [|now split].
  cbn [active_conversations]. split.
  - unfold Dict.keys in *. clear Hid.
    induction (active_conversations d) as [|[k c] l IH]; [constructor|].
    cbn [map fst] in Hnd. apply NoDup_cons in Hnd. destruct Hnd as [Hk Hnd].
    rewrite filter_cons. destruct (decide ((k, c).1 ≠ id)); [|now apply IH].
    cbn [map fst]. apply NoDup_cons. split; [|now apply IH].
    intros Hin. apply Hk. apply list_elem_of_fmap in Hin.
    destruct Hin as ([k' c'] & -> & Hin). apply list_elem_of_filter in Hin.
    apply list_elem_of_fmap. exists (k', c'). split; [reflexivity|]. apply Hin.
  - apply Forall_forall. intros kv Hin. apply list_elem_of_filter in Hin.
    rewrite Forall_forall in Hid. apply Hid, Hin.
Qed.

(** In [connection2.py] every enqueued conversation is tracked, one-way or
    not, and its frame is put on the queue only while connected. *)
Lemma connection2_tracks_every_conversation (tcp : TcpCommand) (c : C)
    (d : Connection2.MessageDispatcher C) :
  let d' := (Connection2.enqueue_conversation tcp (Connection2.Started c) d).1 in
  Dict.get (Some (conversation_id c)) (Connection2.active_conversations d')
    = Some (Connection2.Started c, Pending)
  /\ Connection2.output d'
     = if Connection2._connected d
       then Connection2.output d ++ [start c]
       else Connection2.output d.
Proof.
  cbn. split; [apply Dict_get_set_eq|reflexivity].
Qed.

End DispatcherFooting.

(* ================================================================== *)
(** * Further properties of the read pump and the connector           *)
(* ================================================================== *)

Section Further.
Import Wire MessageReader Decoding.

(** A [HeartbeatResponse] frame that bears the pacemaker's heartbeat id
    while the pacemaker's future is no longer pending (it was resolved by
    an earlier response, or cancelled when the wait for it timed out)
    makes [set_result] raise [InvalidStateError] inside [process]: the read
    pump of [connection.py] ends on that frame, in whatever chunks it
    comes. *)
Lemma late_heartbeat_response_ends_the_pump (tcp : TcpCommand) (C : Type)
    (f : Frame) (chunks : list (list byte)) (fuel : nat) (w : Connection.Pump C)
    (fut : Future (option UUID)) :
  HeartbeatRequest tcp <> HeartbeatResponse tcp ->
  well_formed f ->
  byte_val (frame_command f) = HeartbeatResponse tcp ->
  frame_conversation_id f = Connection.heartbeat_id (Connection.pacemaker w) ->
  Connection._fut (Connection.pacemaker w) = Some fut ->
  fut <> Pending ->
  concat chunks = encode f ->
  Forall (fun chunk => (length chunk <= fuel)%nat) chunks ->
  Connection.feed tcp fuel init w chunks = Some (Raise InvalidStateError).
Proof.
  intros Hcodes Hwf Hcmd Hid Hfut Hdone Hcat Hfuel.
  destruct (feed_frame (Connection.on_message tcp) f chunks fuel w Hwf Hcat Hfuel)
    as (self' & Hfeed).
  unfold Connection.feed. rewrite Hfeed.
  unfold Connection.on_message. cbn [in_command message]. rewrite Hcmd.
  destruct (Z.eqb_spec (HeartbeatResponse tcp) (HeartbeatRequest tcp)) as [E|_];
    [congruence|].
  rewrite Z.eqb_refl. unfold Connection.handle_response.
  cbn [in_conversation_id message].
  rewrite decide_True by congruence. rewrite Hfut.
  destruct fut; [congruence| | |]; reflexivity.
Qed.

Lemma late_heartbeat_response_ends_the_pump_witness :
  Connection.feed Sample.tcp 22 init
    (Connection.mkPump [] 
       (Connection.set_fut (Some Cancelled) (Connection.PaceMaker_init 1 Sample.uuid_c))
       ∅ (@Connection.MessageDispatcher_init Sample.Simple))
    [encode Sample.stray_response]
  = Some (Raise InvalidStateError).
Proof.
  apply (late_heartbeat_response_ends_the_pump Sample.tcp Sample.Simple
           Sample.stray_response _ 22 _ Cancelled).
  - vm_compute. congruence.
  - repeat constructor; vm_compute; congruence.
  - reflexivity.
  - reflexivity.
  - reflexivity.
  - discriminate.
  - vm_compute. reflexivity.
  - repeat constructor; vm_compute; lia.
Defined.

Lemma handle_keeps_count_witness :
  0 <= Connection.heartbeat_failures
         (Connection.set_heartbeat_failures 0 Sample.connector) < 3.
Proof.
  apply (handle_keeps_count (Connection.HandleHeartbeatSuccess Sample.uuid_a)
           Sample.connector _ Sample.system Sample.system).
  - cbn. lia.
  - reflexivity.
Defined.

End Further.

(* ================================================================== *)
(** * The decoder on arbitrary bytes                                   *)
(* ================================================================== *)

Section Steady.
Import MessageReader Reading.

Lemma steady_init : steady init.
Proof.
  split; cbn; unfold MESSAGE_MIN_SIZE, SIZE_UINT_32, HEADER_LENGTH; try lia.
  reflexivity.
Qed.

Lemma steady_reset (self : state) : steady self -> steady (reset self).
Proof.
  intros [Hreq Hsize Hlen Hcmd].
  split; cbn [reset header_bytes_required header_bytes length_ cmd];
    unfold MESSAGE_MIN_SIZE, SIZE_UINT_32, HEADER_LENGTH in *; try lia;
    try exact Hsize.
Qed.

Lemma getitem_in_range {A : Type} (l : list A) (i : Z) :
  0 <= i < len l -> exists x, getitem l i = Ok x.
Proof.
  intros Hi. unfold getitem. rewrite index_in_range by exact Hi.
  cbn [mbind result_bind bind].
  destruct (lookup_lt_is_Some_2 l (Z.to_nat i)) as [x Hx].
  - unfold len in Hi. lia.
  - exists x. now rewrite Hx.
Qed.

(** A full header array always unpacks: six bytes for the struct, sixteen
    for the UUID. *)
Lemma header_parses (hb : list byte) :
  len hb = MESSAGE_MIN_SIZE ->
  exists (l c f : Z) (u : UUID),
    HEAD_PACK_unpack (slice hb 0 6) = Ok (l, c, f)
    /\ UUID_of_bytes_le (slice hb 6 22) = Ok u.
Proof.
  intros Hlen. unfold MESSAGE_MIN_SIZE, SIZE_UINT_32, HEADER_LENGTH in Hlen.
  rewrite !slice_in_range by lia. unfold len in Hlen.
  do 22 (destruct hb as [|? hb]; [simpl in Hlen; lia|]).
  destruct hb; [|simpl in Hlen; lia].
  do 4 eexists. split; reflexivity.
Qed.

(** The header loop has nothing to do. *)
Ltac stays :=
  split; [reflexivity|]; split; [assumption|]; split; [lia|];
  split; [intros; lia|]; split; [intros; reflexivity|intros; (lia || congruence)].

(** The header loop on any bytes: it raises nothing and keeps the reader
    steady; when it has taken a byte the message offset is the header
    length, and it takes one whenever a header byte is required and the
    chunk has one. *)
Lemma read_header_steady (n : nat) :
  forall (self : state) (chunk : list byte) (o : Z),
    steady self -> 0 <= o ->
    exists (self' : state) (o' : Z),
      read_header n self chunk o = Ok (self', o')
      /\ steady self'
      /\ o <= o'
      /\ (o < o' -> message_offset self' = HEADER_LENGTH)
      /\ (o' = o -> self' = self)
      /\ (header_bytes_required self <> 0 -> o < len chunk -> (0 < n)%nat -> o < o').
Proof.
  induction n as [|n IH]; intros self chunk o Hs Ho.
  - exists self, o. cbn [read_header]. stays.
  - cbn [read_header].
    destruct (Z.eqb_spec (header_bytes_required self) 0) as [E|E]; cbn [negb andb].
    { exists self, o. stays. }
    destruct (Z.ltb_spec o (len chunk)) as [E2|E2].
    2:{ exists self, o. stays. }
    pose proof Hs as [Hreq Hsize Hlen Hcmd].
    destruct (getitem_in_range chunk o) as [b Hb]; [lia|].
    rewrite Hb. cbn [mbind result_bind bind].
    rewrite setitem_in_range by (rewrite Hsize; lia).
    cbn [mbind result_bind bind].
    set (hb := <[Z.to_nat (MESSAGE_MIN_SIZE - header_bytes_required self) := b]>
                 (header_bytes self)).
    assert (len hb = MESSAGE_MIN_SIZE) as Hhb.
    { subst hb. unfold len in *. now rewrite length_insert. }
    set (self1 := set_header_byte hb self).
    assert (exists self2,
              (if header_bytes_required self1 =? 0
               then
                 '(l, c, f) ← HEAD_PACK_unpack (slice (header_bytes self1) 0 6);
                 u ← UUID_of_bytes_le (slice (header_bytes self1) 6 22);
                 Ok (set_header l c f u self1)
               else Ok self1) = Ok self2
              /\ steady self2) as (self2 & -> & Hs2).
    { destruct (Z.eqb_spec (header_bytes_required self1) 0) as [E3|E3].
      - destruct (header_parses (header_bytes self1) Hhb) as (l & c & f & u & Hp & Hu).
        rewrite Hp. cbn [mbind result_bind bind]. rewrite Hu.
        cbn [mbind result_bind bind].
        eexists. split; [reflexivity|].
        split; cbn [set_header header_bytes_required header_bytes length_ cmd].
        + rewrite E3. unfold MESSAGE_MIN_SIZE, SIZE_UINT_32, HEADER_LENGTH. lia.
        + exact Hhb.
        + congruence.
        + intros _. now eexists.
      - exists self1. split; [reflexivity|].
        subst self1.
        split; cbn [set_header_byte header_bytes_required header_bytes length_ cmd] in *.
        + lia.
        + exact Hhb.
        + intros _. apply Hlen. exact E.
        + intros E4. contradiction. }
    cbn [mbind result_bind bind].
    assert (steady (set_message_offset HEADER_LENGTH self2)) as Hs3.
    { destruct Hs2 as [H1 H2 H3 H4]. now split. }
    destruct (IH (set_message_offset HEADER_LENGTH self2) chunk (o + 1) Hs3)
      as (self' & o' & Hrun & Hs' & Hle & Hoff & Hsame & _); [lia|].
    exists self', o'. split; [exact Hrun|]. split; [exact Hs'|].
    split; [lia|]. split; [|split; [lia|lia]].
    intros _. destruct (Z.eq_dec o' (o + 1)) as [E5|E5].
    + rewrite (Hsame E5). reflexivity.
    + apply Hoff. lia.
Qed.

Context {World : Type}.
Variable on_message : InboundMessage -> World -> result World.

(** One turn of [process] on any bytes: an exception can only be one that
    the hand-over of a message has raised. *)
Lemma process_turn_steady (self : state) (w : World) (chunk : list byte) (o : Z) :
  steady self -> 0 <= o < len chunk ->
  match process_turn on_message self w chunk o with
  | Ok (self', _, o') => steady self' /\ 0 <= o'
  | Raise e => exists m w0, on_message m w0 = Raise e
  end.
Proof.
  intros Hs Ho. unfold process_turn.
  destruct (read_header_steady (Z.to_nat (len chunk - o)) self chunk o Hs)
    as (self1 & o1 & -> & Hs1 & Hle & Hoff & Hsame & Hran); [lia|].
  cbn [mbind result_bind bind].
  pose proof Hs1 as [Hreq Hsize Hlen Hcmd].
  assert (header_bytes_required self1 <> 0
          -> length_ self1 - message_offset self1 < 0) as Hneg.
  { intros E. specialize (Hlen E).
    assert (o < o1) as Hlt.
    { destruct (Z.eq_dec o1 o) as [E1|E1]; [|lia].
      apply Hran; [|lia|lia]. rewrite <- (Hsame E1). exact E. }
    rewrite (Hoff Hlt). lia. }
  set (required := length_ self1 - message_offset self1) in *.
  destruct (Z.ltb_spec 0 required) as [E1|E1].
  - assert (header_bytes_required self1 = 0) as E0.
    { destruct (Z.eq_dec (header_bytes_required self1) 0) as [E|E]; [exact E|].
      specialize (Hneg E). lia. }
    destruct (Hcmd E0) as [c Hc].
    set (end_span := Z.min (len chunk) (required + o1)).
    assert (0 <= end_span) as Hend by (subst end_span; lia).
    destruct (Z.eqb_spec (required - (end_span - o1)) 0) as [E2|E2].
    + cbn [cmd set_message_buffer]. rewrite Hc. cbn [mbind result_bind bind].
      match goal with
      | |- context [on_message ?m w] => destruct (on_message m w) as [w'|e] eqn:Hm
      end; cbn [mbind result_bind bind].
      * split; [|exact Hend]. apply steady_reset. now split.
      * eexists. eexists. exact Hm.
    + split; [|exact Hend]. now split.
  - destruct (Z.eqb_spec required 0) as [E2|E2].
    + assert (header_bytes_required self1 = 0) as E0.
      { destruct (Z.eq_dec (header_bytes_required self1) 0) as [E|E]; [exact E|].
        specialize (Hneg E). lia. }
      destruct (Hcmd E0) as [c Hc]. rewrite Hc. cbn [mbind result_bind bind].
      match goal with
      | |- context [on_message ?m w] => destruct (on_message m w) as [w'|e] eqn:Hm
      end; cbn [mbind result_bind bind].
      * split; [|lia]. now apply steady_reset.
      * eexists. eexists. exact Hm.
    + split; [exact Hs1|lia].
Qed.

Lemma process_loop_steady (fuel : nat) :
  forall (self : state) (w : World) (chunk : list byte) (o : Z),
    steady self -> 0 <= o ->
    match process_loop on_message fuel self w chunk o with
    | None => True
    | Some (Ok (self', _)) => steady self'
    | Some (Raise e) => exists m w0, on_message m w0 = Raise e
    end.
Proof.
  induction fuel as [|fuel IH]; intros self w chunk o Hs Ho;
    rewrite process_loop_eq;
    destruct (Z.ltb_spec o (len chunk)) as [E|E]; try exact Hs; [exact I|].
  pose proof (process_turn_steady self w chunk o Hs (conj Ho E)) as Hturn.
  destruct (process_turn on_message self w chunk o) as [[[self1 w1] o1]|e].
  - destruct Hturn as [Hs1 Ho1]. now apply IH.
  - exact Hturn.
Qed.

Lemma feed_steady (fuel : nat) (chunks : list (list byte)) :
  forall (self : state) (w : World),
    steady self ->
    match feed on_message fuel self w chunks with
    | None => True
    | Some (Ok (self', _)) => steady self'
    | Some (Raise e) => exists m w0, on_message m w0 = Raise e
    end.
Proof.
  induction chunks as [|chunk chunks IH]; intros self w Hs; cbn [feed process].
  - exact Hs.
  - pose proof (process_loop_steady fuel self w chunk 0 Hs (Z.le_refl 0)) as Hloop.
    destruct (process_loop on_message fuel self w chunk 0) as [[[self1 w1]|e]|].
    + now apply IH.
    + exact Hloop.
    + exact I.
Qed.

End Steady.

Section Robust.
Import MessageReader Reading.

(** The only exception the hand-over of [connection.py] raises is the
    [InvalidStateError] of [set_result]. *)
Lemma on_message_raises (tcp : TcpCommand) (C : Type) (m : InboundMessage)
    (w : Connection.Pump C) (e : exn) :
  Connection.on_message tcp m w = Raise e -> e = InvalidStateError.
Proof.
  unfold Connection.on_message, Connection.handle_request, Connection.handle_response.
  destruct (in_command m =? HeartbeatRequest tcp); [discriminate|].
  destruct (in_command m =? HeartbeatResponse tcp); [|discriminate].
  destruct (decide _); [|discriminate].
  destruct (Connection._fut (Connection.pacemaker w)) as [[| | |]|];
    cbn; congruence.
Qed.

(** X6.  Whatever bytes the read pump is fed, well-formed frames or not
    and in whatever chunks, the decoder raises nothing of its own: no
    [IndexError] from a subscript, no [struct.error] or [ValueError] from
    unpacking the header, no [AttributeError] from reading [cmd] before a
    header has been unpacked.  The read pump of [connection2.py] returns or
    spins; that of [connection.py] returns, spins, or ends on the
    [InvalidStateError] of the pacemaker's [set_result]. *)
Theorem decoder_raises_nothing_of_its_own (tcp : TcpCommand) (C : Type)
    (chunks : list (list byte)) (fuel : nat)
    (queue : list InboundMessage) (w : Connection.Pump C) :
  (Connection2.feed fuel init queue chunks = None
   \/ exists self' queue',
        Connection2.feed fuel init queue chunks = Some (Ok (self', queue')))
  /\ (Connection.feed tcp fuel init w chunks = None
      \/ (exists self' w',
            Connection.feed tcp fuel init w chunks = Some (Ok (self', w')))
      \/ Connection.feed tcp fuel init w chunks = Some (Raise InvalidStateError)).
Proof.
  split.
  - pose proof (feed_steady Connection2.on_message fuel chunks init queue steady_init)
      as Hfeed.
    unfold Connection2.feed.
    destruct (feed Connection2.on_message fuel init queue chunks)
      as [[[self' queue']|e]|].
    + right. now exists self', queue'.
    + destruct Hfeed as (m & w0 & Hm). discriminate.
    + now left.
  - pose proof (feed_steady (Connection.on_message tcp) fuel chunks init w steady_init)
      as Hfeed.
    unfold Connection.feed.
    destruct (feed (Connection.on_message tcp) fuel init w chunks)
      as [[[self' w']|e]|].
    + right. left. now exists self', w'.
    + destruct Hfeed as (m & w0 & Hm). apply on_message_raises in Hm. subst e.
      right. now right.
    + now left.
Qed.

End Robust.

(* ================================================================== *)
(** * A stream that stops inside a frame                               *)
(* ================================================================== *)

Section Truncated.
Import Wire MessageReader Decoding.

Lemma stream_app (fs1 fs2 : list Frame) :
  stream (fs1 ++ fs2) = stream fs1 ++ stream fs2.
Proof. unfold stream. now rewrite map_app, concat_app. Qed.

(** Where a reader stands in the stream of the frames it expects: short of
    the end of the first of them. *)
Lemma expects_consumed (self : state) (fs : list Frame) (rest : list byte) :
  expects self fs rest ->
  exists c,
    c ++ rest = stream fs
    /\ match fs with
       | [] => c = []
       | f :: _ => (length c < length (encode f))%nat
       end.
Proof.
  intros Hexp.
  destruct Hexp as [s Hin | s hs hrest f fs' Hin Henc | s f got prest fs' Hin Hbuf Hpay Hne].
  - now exists [].
  - exists hs. split.
    + rewrite stream_cons, <- Henc, <- !app_assoc. reflexivity.
    + destruct Hin as [_ Hshort _ _ _ _].
      unfold encode. rewrite length_app, length_encode_header.
      unfold len, MESSAGE_MIN_SIZE, SIZE_UINT_32, HEADER_LENGTH in Hshort. lia.
  - exists (encode_header f ++ got). split.
    + rewrite stream_cons, <- Hpay, <- !app_assoc. reflexivity.
    + unfold encode. rewrite !length_app, <- Hpay, length_app.
      destruct prest; [congruence|]. simpl length. lia.
Qed.

Context {World : Type}.
Variable on_message : InboundMessage -> World -> result World.

(** X7.  When the bytes that have arrived are only the beginning of a
    stream of well-formed frames, the read pump has handed over exactly
    the frames whose last byte has arrived, in order, however the bytes
    were cut into chunks: every frame that lies wholly within the bytes
    received, and nothing of the frame that the bytes stop in. *)
Theorem only_whole_frames_are_handed_over (fs : list Frame)
    (chunks : list (list byte)) (rest : list byte) (fuel : nat) (w : World) :
  Forall well_formed fs ->
  concat chunks ++ rest = stream fs ->
  Forall (fun chunk => (length chunk <= fuel)%nat) chunks ->
  exists (done fs' : list Frame) (self' : state),
    fs = done ++ fs'
    /\ feed on_message fuel init w chunks
       = Some (w' ← hand_over on_message (map message done) w; Ok (self', w'))
    /\ (length (stream done) <= length (concat chunks))%nat
    /\ match fs' with
       | [] => length (concat chunks) = length (stream done)
       | f :: _ =>
           (length (concat chunks) < length (stream done) + length (encode f))%nat
       end.
Proof.
  intros Hwf Hcat Hfuel.
  destruct (feed_spec on_message fuel chunks init w fs rest)
    as (done & fs' & self' & -> & Hexp & Hfeed); try assumption.
  { rewrite Hcat. apply expects_init. }
  exists done, fs', self'. split; [reflexivity|]. split; [exact Hfeed|].
  destruct (expects_consumed self' fs' rest Hexp) as (c & Hc & Hshort).
  rewrite stream_app, <- Hc, app_assoc in Hcat. apply app_inv_tail in Hcat.
  rewrite Hcat, length_app. split; [lia|].
  destruct fs' as [|f fs'']; [subst c; simpl; lia|lia].
Qed.

End Truncated.

Section TruncatedWitness.
Import Wire MessageReader Decoding.

Lemma only_whole_frames_are_handed_over_witness :
  exists (done fs' : list Frame) (self' : state),
    [Sample.pong; Sample.reply] = done ++ fs'
    /\ feed Connection2.on_message 40 init []
         [take 5 (encode Sample.pong);
          drop 5 (encode Sample.pong) ++ take 21 (encode Sample.reply)]
       = Some (w' ← hand_over Connection2.on_message (map message done) [];
               Ok (self', w'))
    /\ (length (stream done)
        <= length (concat [take 5 (encode Sample.pong);
                           drop 5 (encode Sample.pong)
                             ++ take 21 (encode Sample.reply)]))%nat
    /\ match fs' with
       | [] =>
           length (concat [take 5 (encode Sample.pong);
                           drop 5 (encode Sample.pong)
                             ++ take 21 (encode Sample.reply)])
           = length (stream done)
       | f :: _ =>
           (length (concat [take 5 (encode Sample.pong);
                            drop 5 (encode Sample.pong)
                              ++ take 21 (encode Sample.reply)])
            < length (stream done) + length (encode f))%nat
       end.
Proof.
  apply (only_whole_frames_are_handed_over Connection2.on_message
           [Sample.pong; Sample.reply] _ (drop 21 (encode Sample.reply)) 40 []).
  - apply Forall_cons. split; [repeat split; vm_compute; congruence|].
    apply Forall_cons. split; [repeat split; vm_compute; congruence|].
    apply Forall_nil_2.
  - vm_compute. reflexivity.
  - apply Forall_cons. split; [vm_compute; lia|].
    apply Forall_cons. split; [vm_compute; lia|]. apply Forall_nil_2.
Defined.

End TruncatedWitness.

(* ================================================================== *)
(** * The dispatcher behind the dispatch pump                          *)
(* ================================================================== *)

Section DictMore.
Context {K V : Type} `{EqDecision K}.

Lemma Dict_get_set_ne (k k' : K) (v : V) (d : list (K * V)) :
  k' <> k -> Dict.get k' (Dict.set k v d) = Dict.get k' d.
Proof.
  intros Hne. induction d as [|[k0 v0] d IH]; cbn [Dict.set Dict.get].
  - now rewrite decide_False.
  - destruct (decide (k = k0)) as [->|E]; cbn [Dict.get].
    + now rewrite !decide_False.
    + destruct (decide (k' = k0)); [reflexivity|exact IH].
Qed.

Lemma Dict_get_filter_eq (k : K) (d : list (K * V)) :
  Dict.get k (filter (fun kv => kv.1 <> k) d) = None.
Proof.
  induction d as [|[k0 v0] d IH]; [reflexivity|].
  rewrite filter_cons. destruct (decide ((k0, v0).1 <> k)) as [E|E]; [|exact IH].
  cbn [Dict.get]. cbn in E. rewrite decide_False by congruence. exact IH.
Qed.

Lemma Dict_get_filter_ne (k k' : K) (d : list (K * V)) :
  k' <> k -> Dict.get k' (filter (fun kv => kv.1 <> k) d) = Dict.get k' d.
Proof.
  intros Hne. induction d as [|[k0 v0] d IH]; [reflexivity|].
  rewrite filter_cons. destruct (decide ((k0, v0).1 <> k)) as [E|E]; cbn [Dict.get].
  - destruct (decide (k' = k0)); [reflexivity|exact IH].
  - cbn in E. rewrite decide_False; [exact IH|].
    intros ->. apply E. intros ->. now apply Hne.
Qed.

Lemma Dict_get_elem (k : K) (v : V) (d : list (K * V)) :
  Dict.get k d = Some v -> (k, v) ∈ d.
Proof.
  induction d as [|[k0 v0] d IH]; cbn [Dict.get]; [discriminate|].
  destruct (decide (k = k0)) as [->|E].
  - intros [= ->]. apply list_elem_of_here.
  - intros Hget. apply list_elem_of_further. now apply IH.
Qed.

Lemma Dict_mem_get (k : K) (d : list (K * V)) :
  Dict.mem k d = match Dict.get k d with Some _ => true | None => false end.
Proof. reflexivity. Qed.

End DictMore.

Section Delivery.
Import Connection Tracking Delivery Protocol.
Context {C : Type} `{Conversation C}.

(** Dropping the entries of one key keeps a dictionary consistent. *)
Lemma consistent_filter (k : UUID) (d : list (UUID * C)) :
  consistent d -> consistent (filter (fun kv => kv.1 <> k) d).
Proof.
  intros [Hnd Hid]. split.
  - unfold Dict.keys in *. clear Hid.
    induction d as [|[k0 c0] d IH]; [constructor|].
    cbn [map fst] in Hnd. apply NoDup_cons in Hnd. destruct Hnd as [Hk Hnd].
    rewrite filter_cons. destruct (decide ((k0, c0).1 <> k)); [|now apply IH].
    cbn [map fst]. apply NoDup_cons. split; [|now apply IH].
    intros Hin. apply Hk. apply list_elem_of_fmap in Hin.
    destruct Hin as ([k' c'] & -> & Hin). apply list_elem_of_filter in Hin.
    apply list_elem_of_fmap. exists (k', c'). split; [reflexivity|]. apply Hin.
  - apply Forall_forall. intros kv Hin. apply list_elem_of_filter in Hin.
    rewrite Forall_forall in Hid. apply Hid, Hin.
Qed.

Lemma lookup_put_all_ne (q q' : Z) (frames : list OutboundMessage) (qs : Queues.t) :
  q' <> q -> foldl (fun qs m => Queues.put q m qs) qs frames !! q' = qs !! q'.
Proof.
  intros Hne. revert qs. induction frames as [|m frames IH]; intros qs; cbn [foldl].
  - reflexivity.
  - rewrite IH. now apply lookup_put_ne.
Qed.

(** [dispatch] of a message for a tracked conversation that keeps its
    id: the conversation is advanced in place and dropped once it is
    complete; no [KeyError] is raised. *)
Lemma dispatch_tracked (m : InboundMessage) (q : Z) (d : MessageDispatcher C)
    (qs : Queues.t) (k : UUID) (c : C) :
  keeps_id ->
  consistent (active_conversations d) ->
  in_conversation_id m = Some k ->
  Dict.get k (active_conversations d) = Some c ->
  dispatch m q d qs
  = Ok ({| active_conversations :=
             if is_complete (respond_to m c).1
             then filter (fun kv => kv.1 <> k)
                         (Dict.set k (respond_to m c).1 (active_conversations d))
             else Dict.set k (respond_to m c).1 (active_conversations d);
           output := output d |},
        foldl (fun qs m => Queues.put q m qs) qs (respond_to m c).2).
Proof.
  intros Hkeeps [Hnd Hid] Hm Hget. unfold dispatch. rewrite Hm, Hget.
  assert (conversation_id c = k) as Hk.
  { apply Dict_get_elem in Hget. rewrite Forall_forall in Hid.
    exact (Hid _ Hget). }
  pose proof (Hkeeps m c) as Hsame.
  destruct (respond_to m c) as [c' frames]. cbn [fst snd] in *.
  destruct (is_complete c'); [|reflexivity].
  unfold Dict.del. rewrite Hsame, Hk.
  rewrite Dict_mem_get, Dict_get_set_eq. reflexivity.
Qed.

Lemma dispatch_tracked_consistent (m : InboundMessage) (d : MessageDispatcher C)
    (k : UUID) (c : C) :
  keeps_id ->
  consistent (active_conversations d) ->
  Dict.get k (active_conversations d) = Some c ->
  consistent (if is_complete (respond_to m c).1
              then filter (fun kv => kv.1 <> k)
                          (Dict.set k (respond_to m c).1 (active_conversations d))
              else Dict.set k (respond_to m c).1 (active_conversations d)).
Proof.
  intros Hkeeps Hcons Hget.
  assert (conversation_id (respond_to m c).1 = k) as Hk.
  { rewrite Hkeeps. destruct Hcons as [_ Hid].
    apply Dict_get_elem in Hget. rewrite Forall_forall in Hid.
    exact (Hid _ Hget). }
  assert (consistent (Dict.set k (respond_to m c).1 (active_conversations d)))
    as Hset.
  { rewrite <- Hk at 1. now apply consistent_set. }
  destruct (is_complete _); [now apply consistent_filter|exact Hset].
Qed.

Lemma addressed_to_cons (k : UUID) (m : InboundMessage) (ms : list InboundMessage) :
  addressed_to k (m :: ms)
  = if decide (in_conversation_id m = Some k)
    then m :: addressed_to k ms
    else addressed_to k ms.
Proof. unfold addressed_to. now rewrite filter_cons. Qed.

(** X8.  The dispatch pump of [connection.py], for conversations that keep
    their id: it never breaks, it empties the input queue, and each tracked
    conversation has been given exactly the messages that bear its id, in
    the order in which they were queued and whatever was queued between
    them, up to the message that completed it, after which it is no
    longer tracked.  Messages with no id or with the id of no tracked
    conversation are dropped; only the protocol's own output queue is
    written to. *)
Theorem replies_reach_their_conversation_in_order
    (protocol : PhotonPumpProtocol) (ms : list InboundMessage) :
  forall (d : MessageDispatcher C) (qs : Queues.t),
    keeps_id ->
    consistent (active_conversations d) ->
    exists (d' : MessageDispatcher C) (qs' : Queues.t),
      PhotonPumpProtocol_dispatch protocol ms d qs = waits d' qs'
      /\ consistent (active_conversations d')
      /\ output d' = output d
      /\ (forall k : UUID,
            Dict.get k (active_conversations d')
            = Dict.get k (active_conversations d) ≫= replies (addressed_to k ms))
      /\ (forall q' : Z, q' <> output_queue protocol -> qs' !! q' = qs !! q').
Proof.
  induction ms as [|m ms IH]; intros d qs Hkeeps Hcons;
    cbn [PhotonPumpProtocol_dispatch].
  - exists d, qs. split; [reflexivity|]. split; [exact Hcons|].
    split; [reflexivity|]. split; [|reflexivity].
    intros k. cbn [addressed_to filter]. unfold addressed_to. cbn.
    now destruct (Dict.get k (active_conversations d)).
  - destruct (in_conversation_id m) as [k0|] eqn:Hm.
    2:{ unfold dispatch. rewrite Hm.
        destruct (IH d qs Hkeeps Hcons) as (d' & qs' & Hrun & Hc' & Hout & Hget & Hqs).
        exists d', qs'. split; [exact Hrun|]. split; [exact Hc'|].
        split; [exact Hout|]. split; [|exact Hqs].
        intros k. rewrite addressed_to_cons, Hm, decide_False by discriminate.
        apply Hget. }
    destruct (Dict.get k0 (active_conversations d)) as [c|] eqn:Hk0.
    2:{ unfold dispatch. rewrite Hm, Hk0.
        destruct (IH d qs Hkeeps Hcons) as (d' & qs' & Hrun & Hc' & Hout & Hget & Hqs).
        exists d', qs'. split; [exact Hrun|]. split; [exact Hc'|].
        split; [exact Hout|]. split; [|exact Hqs].
        intros k. rewrite addressed_to_cons, Hm.
        destruct (decide (Some k0 = Some k)) as [[= ->]|Hne]; [|apply Hget].
        rewrite Hget, Hk0. reflexivity. }
    rewrite (dispatch_tracked m _ d qs k0 c Hkeeps Hcons Hm Hk0).
    pose proof (dispatch_tracked_consistent m d k0 c Hkeeps Hcons Hk0) as Hc1.
    match goal with
    | |- context [PhotonPumpProtocol_dispatch protocol ms ?d1 ?qs1] =>
        destruct (IH d1 qs1 Hkeeps Hc1)
          as (d' & qs' & Hrun & Hc' & Hout & Hget & Hqs)
    end.
    exists d', qs'. split; [exact Hrun|]. split; [exact Hc'|].
    split; [exact Hout|]. split.
    + intros k. rewrite Hget. cbn [active_conversations].
      rewrite addressed_to_cons, Hm.
      destruct (decide (Some k0 = Some k)) as [[= ->]|Hne].
      * rewrite Hk0. cbn [mbind option_bind replies].
        destruct (is_complete (respond_to m c).1).
        -- now rewrite Dict_get_filter_eq.
        -- now rewrite Dict_get_set_eq.
      * assert (k <> k0) as Hne' by congruence.
        destruct (is_complete (respond_to m c).1).
        -- now rewrite Dict_get_filter_ne, Dict_get_set_ne.
        -- now rewrite Dict_get_set_ne.
    + intros q' Hq'. rewrite (Hqs q' Hq'). now apply lookup_put_all_ne.
Qed.

(** The frames that [write_to] puts on a queue: the start frames of the
    tracked conversations. *)
Lemma write_to_replays (q : Z) (d : MessageDispatcher C) (qs : Queues.t) :
  Queues.contents q (write_to q d qs).2
  = Queues.contents q qs ++ map start (Dict.values (active_conversations d)).
Proof. unfold write_to. cbn [snd active_conversations]. apply contents_start_all. Qed.

(** X9.  When a message completes the conversation it is dispatched to,
    the conversation is forgotten: [has_conversation] answers false, the
    other conversations are tracked as before, and the next [write_to]
    replays no frame for it, and exactly one for every other tracked
    conversation. *)
Theorem completed_conversation_is_not_replayed (m : InboundMessage) (q : Z)
    (d : MessageDispatcher C) (qs : Queues.t) (k : UUID) (c : C) :
  keeps_id ->
  consistent (active_conversations d) ->
  in_conversation_id m = Some k ->
  Dict.get k (active_conversations d) = Some c ->
  is_complete (respond_to m c).1 = true ->
  exists (d' : MessageDispatcher C) (qs' : Queues.t),
    dispatch m q d qs = Ok (d', qs')
    /\ has_conversation k d' = false
    /\ (forall k', k' <> k ->
          Dict.get k' (active_conversations d') = Dict.get k' (active_conversations d))
    /\ forall (q2 : Z) (qs2 : Queues.t),
         exists replayed,
           Queues.contents q2 (write_to q2 d' qs2).2
             = Queues.contents q2 qs2 ++ replayed
           /\ frames_of k replayed = 0%nat
           /\ forall k', k' <> k ->
                frames_of k' replayed
                = if has_conversation k' d then 1%nat else 0%nat.
Proof.
  intros Hkeeps Hcons Hm Hget Hdone.
  pose proof (dispatch_tracked_consistent m d k c Hkeeps Hcons Hget) as Hc1.
  rewrite (dispatch_tracked m q d qs k c Hkeeps Hcons Hm Hget).
  rewrite Hdone in *.
  eexists. eexists. split; [reflexivity|].
  unfold has_conversation. cbn [active_conversations].
  split; [now rewrite Dict_mem_get, Dict_get_filter_eq|].
  split; [intros k' Hne; now rewrite Dict_get_filter_ne, Dict_get_set_ne|].
  intros q2 qs2. eexists. split; [apply write_to_replays|].
  cbn [active_conversations].
  split.
  - rewrite (frames_of_tracked k _ Hc1).
    now rewrite Dict_mem_get, Dict_get_filter_eq.
  - intros k' Hne. rewrite (frames_of_tracked k' _ Hc1).
    now rewrite !Dict_mem_get, Dict_get_filter_ne, Dict_get_set_ne.
Qed.

(** X10.  [remove] forgets a conversation for good: [has_conversation]
    answers false, the other conversations and the output stay, and the
    next [write_to] replays no frame for it, and exactly one for every
    other tracked conversation.  Removing an id that is not tracked
    changes nothing. *)
Theorem removed_conversation_is_not_replayed (id : UUID) (d : MessageDispatcher C) :
  consistent (active_conversations d) ->
  has_conversation id (remove id d) = false
  /\ (has_conversation id d = false -> remove id d = d)
  /\ output (remove id d) = output d
  /\ (forall k', k' <> id ->
        Dict.get k' (active_conversations (remove id d))
        = Dict.get k' (active_conversations d))
  /\ forall (q : Z) (qs : Queues.t),
       exists replayed,
         Queues.contents q (write_to q (remove id d) qs).2
           = Queues.contents q qs ++ replayed
         /\ frames_of id replayed = 0%nat
         /\ forall k', k' <> id ->
              frames_of k' replayed
              = if has_conversation k' d then 1%nat else 0%nat.
Proof.
  intros Hcons.
  pose proof (consistent_filter id _ Hcons) as Hc1.
  assert (Dict.get id (active_conversations (remove id d)) = None) as Hgone.
  { unfold remove. rewrite Dict_mem_get.
    destruct (Dict.get id (active_conversations d)) eqn:E; [|exact E].
    apply Dict_get_filter_eq. }
  assert (forall k', k' <> id ->
            Dict.get k' (active_conversations (remove id d))
            = Dict.get k' (active_conversations d)) as Hkept.
  { intros k' Hne. unfold remove.
    destruct (Dict.mem id (active_conversations d)); [|reflexivity].
    now apply Dict_get_filter_ne. }
  assert (consistent (active_conversations (remove id d))) as Hc2.
  { unfold remove. now destruct (Dict.mem id (active_conversations d)). }
  split; [unfold has_conversation; now rewrite Dict_mem_get, Hgone|].
  split; [unfold has_conversation, remove; now intros ->|].
  split; [unfold remove; now destruct (Dict.mem id (active_conversations d))|].
  split; [exact Hkept|].
  intros q qs. eexists. split; [apply write_to_replays|]. split.
  - rewrite (frames_of_tracked id _ Hc2). now rewrite Dict_mem_get, Hgone.
  - intros k' Hne. rewrite (frames_of_tracked k' _ Hc2).
    unfold has_conversation. now rewrite !Dict_mem_get, Hkept.
Qed.

End Delivery.

Section DeliveryWitnesses.
Import Connection Tracking Delivery Protocol.

Lemma keeps_id_sample : @keeps_id Sample.Simple _.
Proof. intros m c. reflexivity. Qed.

Lemma consistent_two :
  consistent [(Sample.uuid_a, Sample.ping); (Sample.uuid_b, Sample.write_events)].
Proof.
  split.
  - apply NoDup_cons. split; [|apply NoDup_singleton].
    intros Hin. apply list_elem_of_singleton in Hin. discriminate.
  - apply Forall_cons. split; [reflexivity|].
    apply Forall_cons. split; [reflexivity|apply Forall_nil_2].
Qed.

Lemma replies_reach_their_conversation_in_order_witness :
  exists (d' : MessageDispatcher Sample.Simple) (qs' : Queues.t),
    PhotonPumpProtocol_dispatch Sample.protocol
      [Wire.message Sample.reply; Wire.message Sample.heartbeat_request]
      (mkDispatcher
         [(Sample.uuid_a, Sample.ping); (Sample.uuid_b, Sample.write_events)]
         (Some 1))
      (<[1 := []]> ∅)
    = waits d' qs'
    /\ consistent (active_conversations d')
    /\ output d' = Some 1
    /\ (forall k : UUID,
          Dict.get k (active_conversations d')
          = Dict.get k [(Sample.uuid_a, Sample.ping);
                        (Sample.uuid_b, Sample.write_events)]
              ≫= replies
                   (addressed_to k [Wire.message Sample.reply;
                                    Wire.message Sample.heartbeat_request]))
    /\ (forall q' : Z,
          q' <> output_queue Sample.protocol ->
          qs' !! q' = (<[1 := []]> ∅ : Queues.t) !! q').
Proof.
  apply (replies_reach_their_conversation_in_order Sample.protocol
           [Wire.message Sample.reply; Wire.message Sample.heartbeat_request]
           (mkDispatcher
              [(Sample.uuid_a, Sample.ping); (Sample.uuid_b, Sample.write_events)]
              (Some 1))
           (<[1 := []]> ∅)).
  - exact keeps_id_sample.
  - exact consistent_two.
Defined.

Lemma completed_conversation_is_not_replayed_witness :
  exists (d' : MessageDispatcher Sample.Simple) (qs' : Queues.t),
    dispatch (Wire.message Sample.reply) 1
      (mkDispatcher
         [(Sample.uuid_a, Sample.ping); (Sample.uuid_b, Sample.write_events)]
         (Some 1))
      (<[1 := []]> ∅)
    = Ok (d', qs')
    /\ has_conversation Sample.uuid_b d' = false
    /\ (forall k', k' <> Sample.uuid_b ->
          Dict.get k' (active_conversations d')
          = Dict.get k' [(Sample.uuid_a, Sample.ping);
                         (Sample.uuid_b, Sample.write_events)])
    /\ forall (q2 : Z) (qs2 : Queues.t),
         exists replayed,
           Queues.contents q2 (write_to q2 d' qs2).2
             = Queues.contents q2 qs2 ++ replayed
           /\ frames_of Sample.uuid_b replayed = 0%nat
           /\ forall k', k' <> Sample.uuid_b ->
                frames_of k' replayed
                = if has_conversation k'
                       (mkDispatcher
                          [(Sample.uuid_a, Sample.ping);
                           (Sample.uuid_b, Sample.write_events)]
                          (Some 1))
                  then 1%nat else 0%nat.
Proof.
  apply (completed_conversation_is_not_replayed (Wire.message Sample.reply) 1
           (mkDispatcher
              [(Sample.uuid_a, Sample.ping); (Sample.uuid_b, Sample.write_events)]
              (Some 1))
           (<[1 := []]> ∅) Sample.uuid_b Sample.write_events).
  - exact keeps_id_sample.
  - exact consistent_two.
  - reflexivity.
  - reflexivity.
  - reflexivity.
Defined.

Lemma removed_conversation_is_not_replayed_witness :
  let d := mkDispatcher
             [(Sample.uuid_a, Sample.ping); (Sample.uuid_b, Sample.write_events)]
             (Some 1) in
  has_conversation Sample.uuid_a (remove Sample.uuid_a d) = false
  /\ (has_conversation Sample.uuid_a d = false -> remove Sample.uuid_a d = d)
  /\ output (remove Sample.uuid_a d) = output d
  /\ (forall k', k' <> Sample.uuid_a ->
        Dict.get k' (active_conversations (remove Sample.uuid_a d))
        = Dict.get k' (active_conversations d))
  /\ forall (q : Z) (qs : Queues.t),
       exists replayed,
         Queues.contents q (write_to q (remove Sample.uuid_a d) qs).2
           = Queues.contents q qs ++ replayed
         /\ frames_of Sample.uuid_a replayed = 0%nat
         /\ forall k', k' <> Sample.uuid_a ->
              frames_of k' replayed
              = if has_conversation k' d then 1%nat else 0%nat.
Proof.
  apply (removed_conversation_is_not_replayed Sample.uuid_a). exact consistent_two.
Defined.

End DeliveryWitnesses.

(* ================================================================== *)
(** * The connector: connecting, losing a connection, stopping        *)
(* ================================================================== *)

Section ConnectorMore.
Import Connection Trace.
Context {C D R L : Type}.
Context `{Conversation C} `{Discovery D} `{DiscoveryRetryPolicy R} `{EventLoop L}.

(** X11.  A connector that is started with no target, finds a node and
    reaches it within the connect timeout ends up connected: the node is
    kept as [target_node], the protocol of the new connection is the
    active one, the dispatcher is attached to that protocol's output
    queue and tracks what it tracked, [write_to] having been run on that
    queue, and [connected] has been fired after the dial; the control
    queue is empty again. *)
Theorem first_connection_attaches_the_dispatcher
    (self : Connector) (s : System C D R L) (n : NodeService) (d' : D) (l' : L)
    (after transport : Z) (fuel : nat) :
  ctrl_queue self = [] ->
  cancelled self = false ->
  discover (discovery s) = (Ok n, d') ->
  create_connection n (loop s) = (Answers after (Ok transport), l') ->
  after < connect_timeout self ->
  exists self' s',
    _run (S (S fuel)) (Connector_start None self) s = Some (Ok (self', s'))
    /\ ctrl_queue self' = []
    /\ state self' = Some Connecting
    /\ target_node self' = Some n
    /\ active_protocol self' = Some (mkProtocol n (connection_counter self + 1))
    /\ connection_counter self' = connection_counter self + 1
    /\ output (sys_dispatcher s') = Some (connection_counter self + 1)
    /\ active_conversations (sys_dispatcher s')
       = active_conversations (sys_dispatcher s)
    /\ discovery s' = d'
    /\ effects s'
       = effects s ++ [dialled n (connection_counter self + 1) after; connected n].
Proof.
  intros Hq Hcan Hdisc Hdial Hafter.
  destruct self as [cc cq hf ct ap st tn can]; cbn in Hq, Hcan, Hafter; subst.
  rewrite _run_eq. cbn. rewrite Hdisc. unfold dial_node. cbn. rewrite Hdial. cbn.
  destruct (Z.ltb_spec after ct) as [_|E]; [|lia].
  cbn. rewrite _run_eq. cbn.
  eexists. eexists. split; [reflexivity|]. cbn.
  repeat (split; [reflexivity|]).
  now rewrite <- app_assoc.
Qed.

(** X12.  A connector that is started with a target of the caller's and
    has never run discovery has no [target_node].  When the dial fails,
    [_on_connect_failed] raises [AttributeError] on reading it and the run
    loop ends with that exception instead of dialling again.  When the
    dial succeeds the connection is opened, but [connection_lost] and
    [heartbeat_received] raise [AttributeError] before they put any
    instruction: the loss of that connection does not reach the control
    queue. *)
Theorem target_of_the_caller_is_never_kept
    (self : Connector) (s : System C D R L) (n : NodeService) (dial : Dial)
    (l' : L) (fuel : nat) :
  target_node self = None ->
  ctrl_queue self = [] ->
  cancelled self = false ->
  create_connection n (loop s) = (dial, l') ->
  match (wait_for dial (connect_timeout self)).2 with
  | Raise _ =>
      _run (S (S fuel)) (Connector_start (Some n) self) s
      = Some (Raise AttributeError)
  | Ok _ =>
      exists self' s',
        _run (S (S fuel)) (Connector_start (Some n) self) s = Some (Ok (self', s'))
        /\ active_protocol self'
           = Some (mkProtocol n (connection_counter self + 1))
        /\ (forall exn, connection_lost exn self' s' = Raise AttributeError)
        /\ (forall id, heartbeat_received id self' s' = Raise AttributeError)
  end.
Proof.
  intros Htarget Hq Hcan Hdial.
  destruct self as [cc cq hf ct ap st tn can]; cbn in Htarget, Hq, Hcan; subst.
  rewrite _run_eq. cbn. unfold dial_node. cbn. rewrite Hdial.
  destruct (wait_for dial ct) as [waited [transport|e]]; cbn.
  - rewrite _run_eq. cbn.
    eexists. eexists. split; [reflexivity|]. split; [reflexivity|].
    split; reflexivity.
  - reflexivity.
Qed.

(** X13.  The connector does not give up on its own.  Whenever it handles
    the failure of a dial or the loss of a connection, with a node kept as
    [target_node], it puts exactly one [Connect] on its control queue: for
    the same node when the retry policy allows another attempt, after the
    policy's wait, and otherwise for a node still to be discovered, after
    the node has been marked as failed on the discovery.  The failure of a
    dial is recorded with the policy before the policy is asked.  The
    count of failed heartbeats and the active protocol are carried over to
    the next connection as they are. *)
Theorem every_loss_asks_for_one_connect
    (msg : ConnectorInstruction) (self : Connector) (s : System C D R L)
    (n : NodeService) :
  is_loss msg = true ->
  target_node self = Some n ->
  let policy :=
    match msg with
    | HandleConnectFailure _ => record_failure n (retry_policy s)
    | _ => retry_policy s
    end in
  exists self' s',
    handle msg self s = Ok (self', s')
    /\ ctrl_queue self'
       = ctrl_queue self
         ++ [Connect (if should_retry n policy then Some n else None)]
    /\ state self' = Some Connecting
    /\ retry_policy s' = (if should_retry n policy then wait n policy else policy)
    /\ discovery s'
       = (if should_retry n policy then discovery s
          else mark_failed n (discovery s))
    /\ effects s'
       = effects s
         ++ match msg with
            | HandleConnectFailure _ => []
            | _ => [disconnected]
            end
    /\ heartbeat_failures self' = heartbeat_failures self
    /\ active_protocol self' = active_protocol self.
Proof.
  intros Hloss Htarget.
  destruct msg; try discriminate Hloss; cbv zeta; cbn [handle];
    unfold _on_connect_failed, _on_transport_closed, _on_transport_error,
           get_target_node;
    rewrite Htarget; cbn [mbind result_bind bind]; unfold _reconnect;
    cbn [retry_policy set_retry_policy effect];
    match goal with
    | |- context [should_retry n ?p] => destruct (should_retry n p)
    end;
    (eexists; eexists; split; [reflexivity|]);
    cbn; rewrite ?app_nil_r; repeat split; reflexivity.
Qed.

(** X14.  [stop] stops the active protocol once, and a stop from inside
    the loop does not keep the loop from what waits on its queue.  After a
    first call, every further call finds no active protocol and only
    fires [stopped] again, with its own argument; the connector stays in
    state [Stopping] with the task of its loop cancelled, and its control
    queue and its count of failed heartbeats are as they were.  With that
    queue empty, the loop stands at its end.  But when the loop takes
    [HandleConnectorFailed], whose handler calls [stop], and a heartbeat
    verdict waits behind it, the loop takes the verdict as well: a
    success sets the counter of failures to zero, a failure below the
    third is counted, and the loop goes on to what waits behind. *)
Theorem stop_stops_the_protocol_once (exns : list (option exn))
    (exn : option exn) (self : Connector) (s : System C D R L) :
  let first := Connector_stop exn self s in
  let last := foldl (fun st e => Connector_stop e st.1 st.2) first exns in
  effects first.2
  = effects s
    ++ match active_protocol self with
       | Some p => [protocol_stopped (connection_number p)]
       | None => []
       end
    ++ [stopped exn]
  /\ effects last.2 = effects first.2 ++ map stopped exns
  /\ active_protocol last.1 = None
  /\ cancelled last.1 = true
  /\ state last.1 = Some Stopping
  /\ ctrl_queue last.1 = ctrl_queue self
  /\ heartbeat_failures last.1 = heartbeat_failures self
  /\ (ctrl_queue self = [] -> forall fuel, _run fuel last.1 last.2 = Some (Ok last))
  /\ (forall (e : Py.exn) (id : UUID) (waiting : list ConnectorInstruction)
             (fuel : nat),
        cancelled self = false ->
        let stopped_by_handler := Connector_stop (Some e) self s in
        _run (S (S fuel))
          (set_ctrl_queue
             (HandleConnectorFailed e :: HandleHeartbeatSuccess id :: waiting) self)
          s
        = _run fuel
            (set_heartbeat_failures 0 (set_ctrl_queue waiting stopped_by_handler.1))
            stopped_by_handler.2)
  /\ (forall (e e' : Py.exn) (waiting : list ConnectorInstruction) (fuel : nat),
        cancelled self = false ->
        heartbeat_failures self + 1 < 3 ->
        let stopped_by_handler := Connector_stop (Some e) self s in
        _run (S (S fuel))
          (set_ctrl_queue
             (HandleConnectorFailed e :: HandleHeartbeatFailed e' :: waiting) self)
          s
        = _run fuel
            (set_heartbeat_failures (heartbeat_failures self + 1)
               (set_ctrl_queue waiting stopped_by_handler.1))
            stopped_by_handler.2).
Proof.
  cbv zeta. split.
  { unfold Connector_stop. cbn [set_state active_protocol].
    destruct (active_protocol self); cbn; now rewrite <- ?app_assoc. }
  assert (forall (e : Py.exn) (id : UUID) (waiting : list ConnectorInstruction)
                 (fuel : nat),
            cancelled self = false ->
            _run (S (S fuel))
              (set_ctrl_queue
                 (HandleConnectorFailed e :: HandleHeartbeatSuccess id :: waiting) self)
              s
            = _run fuel
                (set_heartbeat_failures 0
                   (set_ctrl_queue waiting (Connector_stop (Some e) self s).1))
                (Connector_stop (Some e) self s).2) as Hsuccess.
  { intros e id waiting fuel Hcan.
    destruct self as [cc cq hf ct ap st tn can]. cbn in Hcan. subst can.
    rewrite _run_eq. cbn. destruct ap as [p|]; cbn; reflexivity. }
  assert (forall (e e' : Py.exn) (waiting : list ConnectorInstruction) (fuel : nat),
            cancelled self = false ->
            heartbeat_failures self + 1 < 3 ->
            _run (S (S fuel))
              (set_ctrl_queue
                 (HandleConnectorFailed e :: HandleHeartbeatFailed e' :: waiting) self)
              s
            = _run fuel
                (set_heartbeat_failures (heartbeat_failures self + 1)
                   (set_ctrl_queue waiting (Connector_stop (Some e) self s).1))
                (Connector_stop (Some e) self s).2) as Hfailure.
  { intros e e' waiting fuel Hcan Hbelow.
    destruct self as [cc cq hf ct ap st tn can]. cbn in Hcan, Hbelow. subst can.
    assert ((3 <=? hf + 1) = false) as E by lia.
    rewrite _run_eq. cbn. rewrite ?E.
    destruct ap as [p|]; cbn; unfold _on_failed_heartbeat; cbn; now rewrite E. }
  assert (active_protocol (Connector_stop exn self s).1 = None
          /\ cancelled (Connector_stop exn self s).1 = true
          /\ state (Connector_stop exn self s).1 = Some Stopping
          /\ ctrl_queue (Connector_stop exn self s).1 = ctrl_queue self
          /\ heartbeat_failures (Connector_stop exn self s).1
             = heartbeat_failures self) as Hfirst.
  { now unfold Connector_stop. }
  revert Hfirst. generalize (Connector_stop exn self s).
  induction exns as [|e exns IH]; intros [self1 s1] (Hp & Hc & Hst & Hq & Hf);
    cbn [foldl map fst snd] in *.
  - rewrite app_nil_r. repeat split; try assumption.
    intros Hempty fuel. rewrite _run_eq, Hq, Hempty. reflexivity.
  - assert (effects (Connector_stop e self1 s1).2 = effects s1 ++ [stopped e])
      as Hstep.
    { unfold Connector_stop. cbn [set_state active_protocol]. now rewrite Hp. }
    specialize (IH (Connector_stop e self1 s1)).
    destruct IH as (He & Hrest); [now unfold Connector_stop|].
    split; [|exact Hrest].
    rewrite He, Hstep. now rewrite <- app_assoc.
Qed.

Lemma dial_numbers_app (es1 es2 : list Effect) :
  dial_numbers (es1 ++ es2) = dial_numbers es1 ++ dial_numbers es2.
Proof.
  induction es1 as [|e es1 IH]; [reflexivity|].
  destruct e; cbn [app dial_numbers]; now rewrite ?IH.
Qed.

(** What a handler does to the counter and to the dials: nothing, or it
    makes one dial under the next number. *)
Lemma handle_dials (msg : ConnectorInstruction) (self self' : Connector)
    (s s' : System C D R L) :
  handle msg self s = Ok (self', s') ->
  (connection_counter self' = connection_counter self
   /\ dial_numbers (effects s') = dial_numbers (effects s))
  \/ (connection_counter self' = connection_counter self + 1
      /\ dial_numbers (effects s')
         = dial_numbers (effects s) ++ [connection_counter self + 1]).
Proof.
  assert (forall (n : NodeService) (self0 : Connector) (s0 : System C D R L),
            connection_counter self0 = connection_counter self ->
            dial_numbers (effects s0) = dial_numbers (effects s) ->
            dial_node n self0 s0 = (self', s') ->
            connection_counter self' = connection_counter self + 1
            /\ dial_numbers (effects s')
               = dial_numbers (effects s) ++ [connection_counter self + 1])
    as Hdial.
  { intros n self0 s0 Hc He. unfold dial_node.
    destruct (create_connection n (loop s0)) as [dial l].
    destruct (wait_for dial _) as [waited [t|e]]; intros [= <- <-];
      cbn; rewrite dial_numbers_app, He, Hc; split; reflexivity. }
  assert (forall (node : option NodeService) (self0 : Connector)
                 (s0 : System C D R L),
            connection_counter self0 = connection_counter self ->
            dial_numbers (effects s0) = dial_numbers (effects s) ->
            _reconnect node self0 s0 = (self', s') ->
            connection_counter self' = connection_counter self
            /\ dial_numbers (effects s') = dial_numbers (effects s)) as Hre.
  { intros node self0 s0 Hc He. unfold _reconnect.
    destruct node as [n|]; [destruct (should_retry n _)|];
      intros [= <- <-]; cbn; now rewrite Hc. }
  assert (forall (e : Effect) (s0 : System C D R L),
            dial_numbers [e] = [] ->
            dial_numbers (effects (effect e s0)) = dial_numbers (effects s0))
    as Hquiet.
  { intros e s0 He. cbn [effects effect].
    now rewrite dial_numbers_app, He, app_nil_r. }
  intros Hrun. destruct msg; cbn [handle] in Hrun.
  - apply Ok_inj in Hrun. unfold _attempt_connect in Hrun.
    destruct target as [n|].
    + right. now apply (Hdial n self s).
    + destruct (discover (discovery s)) as [[n|e] d].
      * right. now apply (Hdial n (set_target_node n self) (set_discovery d s)).
      * injection Hrun as <- <-. now left.
  - unfold _on_connect_failed, get_target_node in Hrun.
    destruct (target_node self) as [n|]; [|discriminate].
    cbn [mbind result_bind bind] in Hrun. apply Ok_inj in Hrun.
    left. eapply (Hre (Some n)); [| |exact Hrun]; reflexivity.
  - unfold _on_transport_received in Hrun.
    destruct (write_to _ _ _) as [d qs]. injection Hrun as <- <-.
    left. split; [reflexivity|]. now rewrite Hquiet.
  - unfold _on_transport_closed, get_target_node in Hrun.
    destruct (target_node self) as [n|]; [|discriminate].
    cbn [mbind result_bind bind] in Hrun. apply Ok_inj in Hrun.
    left. eapply (Hre (Some n)); [| |exact Hrun]; [reflexivity|now rewrite Hquiet].
  - unfold _on_transport_error, get_target_node in Hrun.
    destruct (target_node self) as [n|]; [|discriminate].
    cbn [mbind result_bind bind] in Hrun. apply Ok_inj in Hrun.
    left. eapply (Hre (Some n)); [| |exact Hrun]; [reflexivity|now rewrite Hquiet].
  - unfold _on_failed_heartbeat in Hrun.
    cbn [heartbeat_failures set_heartbeat_failures active_protocol] in Hrun.
    destruct (3 <=? heartbeat_failures self + 1).
    + destruct (active_protocol self); [|discriminate].
      injection Hrun as <- <-. left. split; [reflexivity|].
      unfold PhotonPumpProtocol_stop. now rewrite Hquiet.
    + injection Hrun as <- <-. now left.
  - injection Hrun as <- <-. now left.
  - unfold _on_connector_failed, Connector_stop in Hrun.
    cbn [set_state active_protocol] in Hrun.
    destruct (active_protocol self); injection Hrun as <- <-; left;
      (split; [reflexivity|]); unfold PhotonPumpProtocol_stop;
      now rewrite !Hquiet.
  - discriminate.
Qed.

(** A handler that returns keeps the dials numbered. *)
Lemma handle_numbered (msg : ConnectorInstruction) (self self' : Connector)
    (s s' : System C D R L) :
  numbered self (effects s) ->
  handle msg self s = Ok (self', s') ->
  numbered self' (effects s').
Proof.
  intros [Hnd Hle] Hrun. apply handle_dials in Hrun.
  destruct Hrun as [[Hc He]|[Hc He]]; unfold numbered; rewrite He, Hc.
  - now split.
  - split.
    + apply NoDup_app. split; [exact Hnd|]. split; [|apply NoDup_singleton].
      intros k Hk Hk'. apply list_elem_of_singleton in Hk'. subst k.
      rewrite Forall_forall in Hle. specialize (Hle _ Hk). lia.
    + apply Forall_app. split.
      * eapply Forall_impl; [exact Hle|]. intros k Hk. cbn beta in Hk. lia.
      * apply Forall_cons. split; [lia|apply Forall_nil_2].
Qed.

Lemma turns_numbered (n : nat) :
  forall (self : Connector) (s : System C D R L),
    numbered self (effects s) ->
    numbered (turns n self s).1 (effects (turns n self s).2).
Proof.
  induction n as [|n IH]; intros self s Hnum; cbn [turns]; [exact Hnum|].
  destruct (ctrl_queue self) as [|msg waiting]; [exact Hnum|].
  destruct (cancelled self && waits msg self s); [exact Hnum|].
  destruct (handle msg (set_ctrl_queue waiting self) s) as [[self1 s1]|e] eqn:Hrun;
    [|exact Hnum].
  apply IH. eapply handle_numbered; [|exact Hrun]. exact Hnum.
Qed.

(** X15.  However long the connector runs, and however its run ends, no
    two of its dials bear the same connection number, and none a number
    above the counter: every dial takes the number after the counter, so
    every protocol has an output queue of its own.  This holds of the
    connector at every turn of its loop; it is kept by every handler that
    returns, whatever the instruction and whatever state it finds, and by
    everything that is called on the connector from outside the loop:
    [start], [stop], and the reports of the protocol and of the
    pacemaker. *)
Theorem connection_numbers_are_fresh (self : Connector) (s : System C D R L) :
  numbered self (effects s) ->
  (forall n : nat, numbered (turns n self s).1 (effects (turns n self s).2))
  /\ (forall (msg : ConnectorInstruction) (self' : Connector) (s' : System C D R L),
        handle msg self s = Ok (self', s') -> numbered self' (effects s'))
  /\ (forall target, numbered (Connector_start target self) (effects s))
  /\ (forall exn,
        numbered (Connector_stop exn self s).1 (effects (Connector_stop exn self s).2))
  /\ (forall exn (self' : Connector) (s' : System C D R L),
        connection_lost exn self s = Ok (self', s') -> numbered self' (effects s'))
  /\ (forall id (self' : Connector) (s' : System C D R L),
        heartbeat_received id self s = Ok (self', s') -> numbered self' (effects s'))
  /\ (forall exn, numbered (heartbeat_failed exn self) (effects s)).
Proof.
  intros Hnum. split; [intros n; now apply turns_numbered|].
  split; [intros msg self' s'; now apply handle_numbered|].
  split; [intros target; exact Hnum|].
  split.
  { intros exn. destruct Hnum as [Hnd Hle]. unfold numbered, Connector_stop.
    cbn [set_state active_protocol fst snd].
    destruct (active_protocol self); unfold PhotonPumpProtocol_stop;
      cbn [effects effect]; rewrite ?dial_numbers_app; cbn [dial_numbers];
      rewrite ?app_nil_r; split; assumption. }
  split.
  { intros exn self' s'. unfold connection_lost, get_target_node.
    destruct (target_node self) as [n|]; [|discriminate].
    cbn [mbind result_bind bind]. destruct exn; intros [= <- <-]; exact Hnum. }
  split.
  { intros id self' s'. unfold heartbeat_received, get_target_node.
    destruct (target_node self) as [n|]; [|discriminate].
    cbn [mbind result_bind bind]. intros [= <- <-]. exact Hnum. }
  intros exn. exact Hnum.
Qed.

End ConnectorMore.

Section ConnectorMoreWitnesses.
Import Connection Trace.

Lemma first_connection_attaches_the_dispatcher_witness :
  exists self' s',
    _run 2 (Connector_start None (Connector_init None))
      (mkSystem [Sample.localhost] (Sample.mkRetries 0 0) (Answers 1 (Ok 7))
         (mkDispatcher [(Sample.uuid_a, Sample.ping)] None) ∅ [])
    = Some (Ok (self', s'))
    /\ ctrl_queue self' = []
    /\ state self' = Some Connecting
    /\ target_node self' = Some Sample.localhost
    /\ active_protocol self' = Some (mkProtocol Sample.localhost (0 + 1))
    /\ connection_counter self' = 0 + 1
    /\ output (sys_dispatcher s') = Some (0 + 1)
    /\ active_conversations (sys_dispatcher s') = [(Sample.uuid_a, Sample.ping)]
    /\ discovery s' = [Sample.localhost]
    /\ effects s'
       = [] ++ [dialled Sample.localhost (0 + 1) 1; connected Sample.localhost].
Proof.
  apply (first_connection_attaches_the_dispatcher (Connector_init None)
           (mkSystem [Sample.localhost] (Sample.mkRetries 0 0) (Answers 1 (Ok 7))
              (mkDispatcher [(Sample.uuid_a, Sample.ping)] None) ∅ [])
           Sample.localhost [Sample.localhost] (Answers 1 (Ok 7)) 1 7 0).
  - reflexivity.
  - reflexivity.
  - reflexivity.
  - reflexivity.
  - cbn. lia.
Defined.

Lemma target_of_the_caller_is_never_kept_witness :
  _run 2 (Connector_start (Some Sample.localhost) (Connector_init None))
    Sample.nowhere
  = Some (Raise AttributeError).
Proof.
  apply (target_of_the_caller_is_never_kept (Connector_init None) Sample.nowhere
           Sample.localhost Hangs Hangs 0).
  - reflexivity.
  - reflexivity.
  - reflexivity.
  - reflexivity.
Defined.

Lemma every_loss_asks_for_one_connect_witness :
  exists self' s',
    handle HandleConnectionClosed Sample.connector Sample.system = Ok (self', s')
    /\ ctrl_queue self' = [] ++ [Connect (Some Sample.localhost)]
    /\ state self' = Some Connecting
    /\ retry_policy s' = Sample.mkRetries 0 0
    /\ discovery s' = [Sample.localhost]
    /\ effects s' = [] ++ [disconnected]
    /\ heartbeat_failures self' = 0
    /\ active_protocol self' = Some Sample.protocol.
Proof.
  exact (every_loss_asks_for_one_connect HandleConnectionClosed Sample.connector
           Sample.system Sample.localhost eq_refl eq_refl).
Defined.

Lemma connection_numbers_are_fresh_witness :
  (forall n : nat,
     numbered (turns n Sample.fresh_connector Scenario.refusing).1
              (effects (turns n Sample.fresh_connector Scenario.refusing).2))
  /\ dial_numbers (effects (turns 6 Sample.fresh_connector Scenario.refusing).2)
     = [1; 2].
Proof.
  split.
  - apply (connection_numbers_are_fresh Sample.fresh_connector Scenario.refusing).
    split; [apply NoDup_nil_2|apply Forall_nil_2].
  - reflexivity.
Defined.

End ConnectorMoreWitnesses.

(* ================================================================== *)
(** * The pacemaker's own probe                                        *)
(* ================================================================== *)

Section Between.
Import Wire MessageReader Decoding.

(** Feeding the bytes of one well-formed frame, cut anywhere, to a reader
    that stands between two frames is handing its message over; the
    reader stands between two frames again. *)
Lemma feed_frame_between {World : Type}
    (on_message : InboundMessage -> World -> result World)
    (reader : state) (f : Frame) (chunks : list (list byte)) (fuel : nat)
    (w : World) :
  in_header reader [] ->
  well_formed f ->
  concat chunks = encode f ->
  Forall (fun chunk => (length chunk <= fuel)%nat) chunks ->
  exists reader',
    in_header reader' []
    /\ feed on_message fuel reader w chunks
       = Some (w' ← on_message (message f) w; Ok (reader', w')).
Proof.
  intros Hin Hwf Hcat Hfuel.
  destruct (feed_spec on_message fuel chunks reader w [f] [])
    as (done & fs' & reader' & Hsplit & Hexp & Hfeed).
  - rewrite app_nil_r, Hcat, <- stream_one. now apply expects_stream.
  - apply Forall_cons. split; [exact Hwf|apply Forall_nil_2].
  - exact Hfuel.
  - apply expects_end in Hexp. destruct Hexp as [-> Hin'].
    rewrite app_nil_r in Hsplit. subst done.
    exists reader'. split; [exact Hin'|]. rewrite Hfeed. cbn [map hand_over].
    destruct (on_message (message f) w); reflexivity.
Qed.

End Between.

Section Probe.
Import Wire MessageReader Decoding Connection Protocol.
Context {C D R L : Type}.
Context `{Conversation C} `{Discovery D} `{DiscoveryRetryPolicy R} `{EventLoop L}.
Variable tcp : TcpCommand.
Variable not_a_future : exn.

(** What the read pump does with the answer to a probe. *)
Lemma on_message_answer (f : Frame) (w : Pump C) :
  HeartbeatRequest tcp <> HeartbeatResponse tcp ->
  byte_val (frame_command f) = HeartbeatResponse tcp ->
  frame_conversation_id f = heartbeat_id (pacemaker w) ->
  on_message tcp (message f) w
  = match _fut (pacemaker w) with
    | Some fut =>
        fut ← set_result (Some (heartbeat_id (pacemaker w))) fut;
        Ok {| input_queue := input_queue w;
              pacemaker := set_fut (Some fut) (pacemaker w);
              queues := queues w;
              dispatcher := dispatcher w |}
    | None => Ok w
    end.
Proof.
  intros Hcodes Hcmd Hid. unfold on_message. cbn [in_command message].
  rewrite Hcmd.
  destruct (Z.eqb_spec (HeartbeatResponse tcp) (HeartbeatRequest tcp)) as [E|_];
    [congruence|].
  rewrite Z.eqb_refl. unfold handle_response. cbn [in_conversation_id message].
  rewrite decide_True by congruence. now rewrite Hid.
Qed.

(** X16.  The pacemaker's probe, answered.  [send_heartbeat] puts a
    [HeartbeatRequest] that bears the pacemaker's heartbeat id on the
    protocol's output queue; when the read pump then receives a
    [HeartbeatResponse] frame with that id, in whatever chunks, the
    pacemaker's future holds the id and [await_heartbeat_response] returns
    at once.  With a node kept as [target_node] the success is recorded
    with the retry policy and [HandleHeartbeatSuccess] is put on the
    control queue.  With none (a connector started with a target of the
    caller's), [heartbeat_received] raises [AttributeError], which
    [except Exception] turns into [HandleHeartbeatFailed]: the answered
    probe is counted as a failed heartbeat. *)
Theorem answered_probe_is_reported (reader : MessageReader.state) (f : Frame)
    (chunks : list (list byte)) (fuel : nat) (w : Pump C) (self : Connector)
    (s : System C D R L) :
  HeartbeatRequest tcp <> HeartbeatResponse tcp ->
  in_header reader [] ->
  well_formed f ->
  byte_val (frame_command f) = HeartbeatResponse tcp ->
  frame_conversation_id f = heartbeat_id (pacemaker w) ->
  concat chunks = encode f ->
  Forall (fun chunk => (length chunk <= fuel)%nat) chunks ->
  exists reader' w1,
    Connection.feed tcp fuel reader (send_heartbeat tcp w) chunks
      = Some (Ok (reader', w1))
    /\ Queues.contents (_output (pacemaker w)) (queues w1)
       = Queues.contents (_output (pacemaker w)) (queues w)
         ++ [mkOutbound (Some (heartbeat_id (pacemaker w)))
                        (HeartbeatRequest tcp) []]
    /\ _fut (pacemaker w1) = Some (Finished (Some (heartbeat_id (pacemaker w))))
    /\ await_heartbeat_response not_a_future w1 self s
       = match target_node self with
         | Some n =>
             (returned, w1,
              put_msg (HandleHeartbeatSuccess (heartbeat_id (pacemaker w))) self,
              set_retry_policy (record_success n (retry_policy s)) s)
         | None =>
             (returned, w1, put_msg (HandleHeartbeatFailed AttributeError) self, s)
         end.
Proof.
  intros Hcodes Hin Hwf Hcmd Hid Hcat Hfuel.
  destruct (feed_frame_between (on_message tcp) reader f chunks fuel
              (send_heartbeat tcp w) Hin Hwf Hcat Hfuel) as (reader' & _ & Hfeed).
  unfold Connection.feed. rewrite Hfeed.
  rewrite on_message_answer by assumption.
  cbn [send_heartbeat pacemaker _fut set_fut set_result mbind result_bind bind
       heartbeat_id input_queue queues dispatcher].
  eexists. eexists. split; [reflexivity|].
  cbn [queues pacemaker _fut set_fut heartbeat_id _output].
  split; [apply contents_put_eq|]. split; [reflexivity|].
  unfold await_heartbeat_response.
  cbn [pacemaker _fut set_fut heartbeat_id].
  unfold heartbeat_received, get_target_node.
  destruct (target_node self); reflexivity.
Qed.

(** X17.  The pacemaker's probe, unanswered.  When no answer has come by
    the end of the response timeout, the wait of
    [await_heartbeat_response] cancels the pacemaker's future and
    [HandleHeartbeatFailed] with the [TimeoutError] is put on the control
    queue; nothing else changes.  The cancelled future stays in place
    until the next probe is sent: a [HeartbeatResponse] frame with the
    heartbeat id that arrives in between, in whatever chunks, makes
    [set_result] raise [InvalidStateError], which ends the read pump. *)
Theorem unanswered_probe_times_out (reader : MessageReader.state) (f : Frame)
    (chunks : list (list byte)) (fuel : nat) (w : Pump C) (self : Connector)
    (s : System C D R L) :
  HeartbeatRequest tcp <> HeartbeatResponse tcp ->
  in_header reader [] ->
  well_formed f ->
  byte_val (frame_command f) = HeartbeatResponse tcp ->
  frame_conversation_id f = heartbeat_id (pacemaker w) ->
  concat chunks = encode f ->
  Forall (fun chunk => (length chunk <= fuel)%nat) chunks ->
  exists w2,
    await_heartbeat_response not_a_future (send_heartbeat tcp w) self s
      = (returned, w2, put_msg (HandleHeartbeatFailed TimeoutError) self, s)
    /\ _fut (pacemaker w2) = Some Cancelled
    /\ queues w2 = queues (send_heartbeat tcp w)
    /\ input_queue w2 = input_queue w
    /\ dispatcher w2 = dispatcher w
    /\ Connection.feed tcp fuel reader w2 chunks = Some (Raise InvalidStateError).
Proof.
  intros Hcodes Hin Hwf Hcmd Hid Hcat Hfuel.
  unfold await_heartbeat_response.
  cbn [send_heartbeat pacemaker _fut set_fut].
  eexists. split; [reflexivity|].
  split; [reflexivity|]. split; [reflexivity|]. split; [reflexivity|].
  split; [reflexivity|].
  match goal with
  | |- Connection.feed tcp fuel reader ?w2 chunks = _ =>
      destruct (feed_frame_between (on_message tcp) reader f chunks fuel w2
                  Hin Hwf Hcat Hfuel) as (reader' & _ & Hfeed)
  end.
  unfold Connection.feed. rewrite Hfeed.
  rewrite on_message_answer; [reflexivity|assumption..].
Qed.

End Probe.

Section ProbeWitnesses.
Import Wire MessageReader Decoding Connection Protocol.

Lemma in_header_init : in_header init [].
Proof. split; cbn; try reflexivity; lia. Qed.

Lemma answered_probe_is_reported_witness :
  let f := mkFrame 18 x02 x00 Sample.uuid_a [] in
  exists reader' w1,
    Connection.feed Sample.tcp 22 init (send_heartbeat Sample.tcp Sample.pump)
      [take 7 (encode f); drop 7 (encode f)]
      = Some (Ok (reader', w1))
    /\ Queues.contents (_output (pacemaker Sample.pump)) (queues w1)
       = Queues.contents (_output (pacemaker Sample.pump)) (queues Sample.pump)
         ++ [mkOutbound (Some (heartbeat_id (pacemaker Sample.pump)))
                        (HeartbeatRequest Sample.tcp) []]
    /\ _fut (pacemaker w1)
       = Some (Finished (Some (heartbeat_id (pacemaker Sample.pump))))
    /\ await_heartbeat_response ValueError w1 Sample.connector Sample.system
       = match target_node Sample.connector with
         | Some n =>
             (returned, w1,
              put_msg (HandleHeartbeatSuccess (heartbeat_id (pacemaker Sample.pump)))
                      Sample.connector,
              set_retry_policy (record_success n (retry_policy Sample.system))
                               Sample.system)
         | None =>
             (returned, w1,
              put_msg (HandleHeartbeatFailed AttributeError) Sample.connector,
              Sample.system)
         end.
Proof.
  apply (answered_probe_is_reported Sample.tcp ValueError init
           (mkFrame 18 x02 x00 Sample.uuid_a []) _ 22 Sample.pump
           Sample.connector Sample.system).
  - vm_compute. congruence.
  - exact in_header_init.
  - repeat split; vm_compute; congruence.
  - reflexivity.
  - reflexivity.
  - vm_compute. reflexivity.
  - repeat constructor; vm_compute; lia.
Defined.

Lemma unanswered_probe_times_out_witness :
  let f := mkFrame 18 x02 x00 Sample.uuid_a [] in
  exists w2,
    await_heartbeat_response ValueError (send_heartbeat Sample.tcp Sample.pump)
      Sample.connector Sample.system
      = (returned, w2,
         put_msg (HandleHeartbeatFailed TimeoutError) Sample.connector,
         Sample.system)
    /\ _fut (pacemaker w2) = Some Cancelled
    /\ queues w2 = queues (send_heartbeat Sample.tcp Sample.pump)
    /\ input_queue w2 = input_queue Sample.pump
    /\ dispatcher w2 = dispatcher Sample.pump
    /\ Connection.feed Sample.tcp 22 init w2 [take 7 (encode f); drop 7 (encode f)]
       = Some (Raise InvalidStateError).
Proof.
  apply (unanswered_probe_times_out Sample.tcp ValueError init
           (mkFrame 18 x02 x00 Sample.uuid_a []) _ 22 Sample.pump
           Sample.connector Sample.system).
  - vm_compute. congruence.
  - exact in_header_init.
  - repeat split; vm_compute; congruence.
  - reflexivity.
  - reflexivity.
  - vm_compute. reflexivity.
  - repeat constructor; vm_compute; lia.
Defined.

End ProbeWitnesses.

(* ================================================================== *)
(** * [connection2.py]: the streaming iterator                         *)
(* ================================================================== *)

Section StreamingLemmas.
Import Streaming.
Context {A : Type}.

Lemma set_items_items (self : StreamingIterator A) :
  set_items (items self) self = self.
Proof. now destruct self. Qed.

(** With room for all of them, [enqueue_items] puts every item and does
    not suspend. *)
Lemma enqueue_items_room (new : list (Item A)) :
  forall self : StreamingIterator A,
    maxsize self <= 0 \/ len (items self) + len new <= maxsize self ->
    enqueue_items new self = (set_items (items self ++ new) self, []).
Proof.
  induction new as [|item new IH]; intros self Hroom; cbn [enqueue_items].
  - now rewrite app_nil_r, set_items_items.
  - unfold put, full.
    assert ((0 <? maxsize self) && (maxsize self <=? len (items self)) = false)
      as ->.
    { destruct Hroom as [Hun|Hroom].
      - destruct (Z.ltb_spec 0 (maxsize self)); [lia|reflexivity].
      - destruct (Z.leb_spec (maxsize self) (len (items self))) as [E|E];
          [|apply andb_false_r].
        pose proof (len_nonneg new). unfold len in *. cbn [length] in Hroom. lia. }
    rewrite IH.
    + cbn [items maxsize finished set_items]. now rewrite <- app_assoc.
    + cbn [items maxsize]. rewrite len_app.
      unfold len in *. cbn [length] in *. lia.
Qed.

(** A consumer takes the events at the head of the queue one by one. *)
Lemma consume_values (vs : list A) :
  forall (self : StreamingIterator A) (rest : list (Item A)),
    items self = map Value vs ++ rest ->
    consume (length vs) self = (map yields vs, set_items rest self).
Proof.
  induction vs as [|v vs IH]; intros self rest Hitems; cbn [length consume map].
  - cbn [map app] in Hitems. now rewrite <- Hitems, set_items_items.
  - unfold __anext__. rewrite Hitems. cbn [map app].
    replace (len (Value v :: map Value vs ++ rest) =? 0) with false.
    2:{ symmetry. apply Z.eqb_neq. unfold len. cbn [length]. lia. }
    rewrite andb_false_r.
    rewrite (IH (set_items (map Value vs ++ rest) self) rest eq_refl).
    reflexivity.
Qed.

Lemma consume_app (n k : nat) :
  forall self : StreamingIterator A,
    consume (n + k) self
    = let '(answers1, self1) := consume n self in
      let '(answers2, self2) := consume k self1 in
      (answers1 ++ answers2, self2).
Proof.
  induction n as [|n IH]; intros self; cbn [Nat.add consume].
  - now destruct (consume k self).
  - destruct (__anext__ self) as [answer self1]. rewrite IH.
    destruct (consume n self1) as [answers1 self2].
    now destruct (consume k self2).
Qed.

(** X18.  A stream that the dispatcher completes.  Events that are put on
    a [StreamingIterator] with room for them, and then the
    [StopAsyncIteration] mark, reach the consumer in the order in which
    they were put, behind the events that were waiting already; the call
    that takes the mark ends the iteration.  [finished] is not set by
    that: a consumer that calls [__anext__] once more is suspended on the
    empty queue and stays so. *)
Theorem completed_stream_is_read_in_order (held vs : list A)
    (self : StreamingIterator A) :
  items self = map Value held ->
  finished self = false ->
  maxsize self <= 0 \/ len held + len vs + 1 <= maxsize self ->
  exists self1 self2 self3,
    enqueue_items (map Value vs) self = (self1, [])
    /\ asend StopAsyncIteration self1 = Some self2
    /\ consume (length held + length vs + 1) self2
       = (map yields (held ++ vs) ++ [stop_async_iteration], self3)
    /\ items self3 = []
    /\ __anext__ self3 = (suspended, self3).
Proof.
  intros Hitems Hfin Hroom.
  assert (len (items self) = len held) as Hheld.
  { rewrite Hitems. unfold len. now rewrite length_map. }
  assert (len (map (@Value A) vs) = len vs) as Hvs.
  { unfold len. now rewrite length_map. }
  rewrite enqueue_items_room by (rewrite Hheld, Hvs; lia).
  set (self2 := {| maxsize := maxsize self;
                   items := (items self ++ map Value vs) ++ [StopAsyncIteration];
                   finished := finished self |}).
  assert (items self2 = map Value (held ++ vs) ++ [StopAsyncIteration]) as H2.
  { subst self2. cbn [items]. now rewrite Hitems, map_app. }
  exists (set_items (items self ++ map Value vs) self), self2, (set_items [] self2).
  split; [reflexivity|]. split.
  { unfold asend, put, full. cbn [maxsize items set_items finished].
    assert ((0 <? maxsize self)
            && (maxsize self <=? len (items self ++ map Value vs)) = false) as ->.
    { destruct Hroom as [Hun|Hroom].
      - destruct (Z.ltb_spec 0 (maxsize self)); [lia|reflexivity].
      - rewrite len_app, Hheld, Hvs.
        destruct (Z.leb_spec (maxsize self) (len held + len vs)); [lia|].
        apply andb_false_r. }
    reflexivity. }
  assert (__anext__ (set_items [] self2) = (suspended, set_items [] self2)) as Hend.
  { unfold __anext__. cbn [items finished set_items]. subst self2.
    cbn [finished]. now rewrite Hfin. }
  split; [|split; [reflexivity|exact Hend]].
  rewrite <- length_app, consume_app.
  rewrite (consume_values (held ++ vs) self2 [StopAsyncIteration] H2).
  cbn [consume]. unfold __anext__ at 1.
  cbn [items finished set_items]. subst self2. cbn [finished].
  rewrite Hfin. cbn [andb]. reflexivity.
Qed.

(** X19.  [cancel] puts nothing on the queue: the coroutine that
    [self.asend(StopIteration())] builds is never awaited.  The events
    that wait on a cancelled iterator are still handed to the consumer, in
    order; after them every call of [__anext__] ends the iteration, and
    the consumer is never suspended. *)
Theorem cancel_puts_no_mark (held : list A) (more : nat)
    (self : StreamingIterator A) :
  items self = map Value held ->
  items (cancel self) = items self
  /\ exists self',
       consume (length held + more) (cancel self)
       = (map yields held ++ replicate more stop_async_iteration, self')
       /\ items self' = []
       /\ finished self' = true.
Proof.
  intros Hitems. split; [reflexivity|].
  rewrite consume_app.
  rewrite (consume_values held (cancel self) []) by (cbn; now rewrite app_nil_r).
  set (self1 := set_items [] (cancel self)).
  assert (forall k, consume k self1 = (replicate k stop_async_iteration, self1))
    as Hend.
  { assert (__anext__ self1 = (stop_async_iteration, self1)) as Hnext
      by reflexivity.
    induction k as [|k IH]; [reflexivity|].
    cbn [consume replicate]. now rewrite Hnext, IH. }
  rewrite Hend. exists self1. now split.
Qed.

(** X20.  The queue of a [StreamingIterator] is bounded by the size it was
    made with.  [enqueue_items] puts the items in order for as long as
    there is room and is suspended on the first one for which there is
    none, with the queue full; nothing is lost or reordered.  A size of
    zero or less makes the queue unbounded, and [enqueue_items] is never
    suspended. *)
Theorem enqueue_items_is_bounded (new : list (Item A)) :
  forall self : StreamingIterator A,
    let self' := (enqueue_items new self).1 in
    let left := (enqueue_items new self).2 in
    items self' ++ left = items self ++ new
    /\ maxsize self' = maxsize self
    /\ finished self' = finished self
    /\ (0 < maxsize self -> len (items self) <= maxsize self ->
        len (items self') <= maxsize self)
    /\ (left <> [] -> 0 < maxsize self /\ maxsize self <= len (items self'))
    /\ (maxsize self <= 0 \/ len (items self) + len new <= maxsize self ->
        left = []).
Proof.
  induction new as [|item new IH]; intros self; cbv zeta; cbn [enqueue_items].
  - cbn [fst snd]. rewrite !app_nil_r.
    repeat split; try reflexivity; try lia; congruence.
  - unfold put.
    destruct (full self) eqn:Hfull.
    + cbn [fst snd]. unfold full in Hfull.
      apply andb_true_iff in Hfull. destruct Hfull as [H1 H2].
      apply Z.ltb_lt in H1. apply Z.leb_le in H2.
      repeat split; try reflexivity; try lia.
      intros [Hun|Hroom]; [lia|].
      pose proof (len_nonneg new). unfold len in *. cbn [length] in Hroom. lia.
    + match goal with
      | |- context [enqueue_items new ?s1] =>
          specialize (IH s1); cbv zeta in IH;
          destruct (enqueue_items new s1) as [self' left]
      end.
      cbn [fst snd items maxsize finished] in *.
      destruct IH as (Hall & Hmax & Hfin & Hbound & Hleft & Hroom).
      unfold full in Hfull. apply andb_false_iff in Hfull.
      rewrite len_app in *. change (len [item]) with 1 in *.
      split; [now rewrite Hall, <- app_assoc|].
      split; [exact Hmax|]. split; [exact Hfin|].
      split.
      { intros Hpos Hle. apply Hbound; [exact Hpos|].
        destruct Hfull as [E|E]; [apply Z.ltb_ge in E; lia|].
        apply Z.leb_gt in E. lia. }
      split; [exact Hleft|].
      intros Hr. apply Hroom. destruct Hr as [Hun|Hr]; [now left|right].
      unfold len in *. cbn [length] in Hr. lia.
Qed.

End StreamingLemmas.

Section StreamingWitnesses.
Import Streaming.

Lemma completed_stream_is_read_in_order_witness :
  exists self1 self2 self3,
    enqueue_items (map Value [x03; x04]) (mkIterator 4 [Value x01] false)
      = (self1, [])
    /\ asend StopAsyncIteration self1 = Some self2
    /\ consume (length [x01] + length [x03; x04] + 1) self2
       = (map yields ([x01] ++ [x03; x04]) ++ [stop_async_iteration], self3)
    /\ items self3 = []
    /\ __anext__ self3 = (suspended, self3).
Proof.
  apply (completed_stream_is_read_in_order [x01] [x03; x04]
           (mkIterator 4 [Value x01] false)).
  - reflexivity.
  - reflexivity.
  - right. vm_compute. congruence.
Defined.

Lemma cancel_puts_no_mark_witness :
  items (cancel (mkIterator 4 [Value x01; Value x02] false))
  = [Value x01; Value x02]
  /\ exists self',
       consume (length [x01; x02] + 3)
         (cancel (mkIterator 4 [Value x01; Value x02] false))
       = (map yields [x01; x02] ++ replicate 3 stop_async_iteration, self')
       /\ items self' = []
       /\ finished self' = true.
Proof.
  apply (cancel_puts_no_mark [x01; x02] 3
           (mkIterator 4 [Value x01; Value x02] false)).
  reflexivity.
Defined.

End StreamingWitnesses.

(* ================================================================== *)
(** * [connection2.py]: the writer and the dispatcher across a         *)
(**   reconnect                                                        *)
(* ================================================================== *)

Section Writer2Lemmas.
Import Writer2.

Lemma chunks_of_cons (m : OutboundMessage) (ms : list OutboundMessage) :
  chunks_of (m :: ms) = header_bytes m :: payload m :: chunks_of ms.
Proof. reflexivity. Qed.

(** The write loop over the waiting messages: each is written, header and
    then payload, and the last one stays in [next]. *)
Lemma write_waiting_spec (waiting : list OutboundMessage) :
  forall (self : MessageWriter) (sw : Z),
    stream_writer self = Some sw ->
    written (write_waiting waiting self)
    = written self ++ map (pair sw) (chunks_of waiting)
    /\ next (write_waiting waiting self)
       = match last waiting with
         | Some m => Some m
         | None => next self
         end
    /\ _queue (write_waiting waiting self)
       = match waiting with
         | [] => _queue self
         | _ => []
         end
    /\ stream_writer (write_waiting waiting self) = Some sw
    /\ _is_connected (write_waiting waiting self) = _is_connected self.
Proof.
  induction waiting as [|m waiting IH]; intros self sw Hsw; cbn [write_waiting].
  - cbn [chunks_of map concat]. rewrite app_nil_r. now repeat split.
  - unfold write_message. cbn [stream_writer]. rewrite Hsw.
    match goal with
    | |- context [write_waiting waiting ?s1] =>
        destruct (IH s1 sw eq_refl) as (Hw & Hn & Hq & Hs & Hc)
    end.
    rewrite Hw, Hn, Hq, Hs, Hc.
    cbn [written next _queue _is_connected].
    rewrite chunks_of_cons. cbn [map]. rewrite <- app_assoc. cbn [app].
    split; [reflexivity|]. split.
    { destruct waiting as [|m' waiting]; [reflexivity|].
      cbn [last]. destruct (last (m' :: waiting)) eqn:E; [reflexivity|].
      apply last_None in E. discriminate. }
    split; [now destruct waiting|]. now split.
Qed.

Lemma enqueue_all (more : list OutboundMessage) :
  forall self : MessageWriter,
    let self' := foldl (fun w m => enqueue_message m w) self more in
    _queue self' = _queue self ++ more
    /\ next self' = next self
    /\ written self' = written self
    /\ _is_connected self' = _is_connected self
    /\ stream_writer self' = stream_writer self.
Proof.
  induction more as [|m more IH]; intros self; cbv zeta; cbn [foldl].
  - rewrite app_nil_r. now repeat split.
  - destruct (IH (enqueue_message m self)) as (Hq & Hn & Hw & Hc & Hs).
    rewrite Hq, Hn, Hw, Hc, Hs. cbn [enqueue_message _queue next written
                                     _is_connected stream_writer].
    rewrite <- app_assoc. now repeat split.
Qed.

(** X21.  The writer of [connection2.py] writes one message twice across
    a reconnect.  In a first connection it writes every queued message,
    header and then payload, and keeps the last one in [next].  When the
    connection is lost and a new one is made, it begins by writing that
    last message again to the new stream writer, before the messages that
    have been queued since, although it had been written in full to the
    old one. *)
Theorem last_message_is_written_again (self : MessageWriter) (sw1 sw2 : Z)
    (queued : list OutboundMessage) (m : OutboundMessage)
    (more : list OutboundMessage) :
  next self = None ->
  _queue self = queued ++ [m] ->
  exists self1 lost self2,
    on_connected sw1 self = Ok self1
    /\ written self1 = written self ++ map (pair sw1) (chunks_of (queued ++ [m]))
    /\ _queue self1 = []
    /\ on_connection_lost self1 = Ok lost
    /\ on_connected sw2 (foldl (fun w m => enqueue_message m w) lost more)
       = Ok self2
    /\ written self2 = written self1 ++ map (pair sw2) (chunks_of (m :: more))
    /\ _queue self2 = [].
Proof.
  intros Hnext Hqueue.
  unfold on_connected at 1, _write_outbound_messages.
  cbn [next _is_connected _queue]. rewrite Hnext, Hqueue.
  cbn [mbind result_bind bind _is_connected _queue].
  match goal with
  | |- context [write_waiting (queued ++ [m]) ?s0] =>
      destruct (write_waiting_spec (queued ++ [m]) s0 sw1 eq_refl)
        as (Hw1 & Hn1 & Hq1 & Hs1 & Hc1);
      set (self1 := write_waiting (queued ++ [m]) s0) in *
  end.
  cbn [written next _queue] in Hw1, Hn1, Hq1.
  rewrite last_snoc in Hn1.
  assert (_queue self1 = []) as Hq1'.
  { rewrite Hq1. now destruct queued. }
  set (gone := {| _queue := _queue self1;
                  _is_connected := false;
                  next := next self1;
                  stream_writer := stream_writer self1;
                  written := written self1 |}).
  assert (on_connection_lost self1 = Ok gone) as Hgone.
  { unfold on_connection_lost, gone.
    destruct (stream_writer self1) eqn:Esw; [reflexivity|congruence]. }
  exists self1, gone.
  destruct (enqueue_all more gone) as (Hq2 & Hn2 & Hw2 & Hc2 & Hs2).
  cbn [gone _queue next written] in Hq2, Hn2, Hw2.
  set (lost := foldl (fun w m => enqueue_message m w) gone more) in *.
  unfold on_connected, _write_outbound_messages.
  cbn [next _is_connected _queue]. rewrite Hn2, Hn1.
  unfold write_message at 1. cbn [stream_writer mbind result_bind bind].
  cbn [_is_connected _queue].
  match goal with
  | |- context [write_waiting (_queue lost) ?s0] =>
      destruct (write_waiting_spec (_queue lost) s0 sw2 eq_refl)
        as (Hw3 & Hn3 & Hq3 & Hs3 & Hc3);
      set (self2 := write_waiting (_queue lost) s0) in *
  end.
  cbn [written _queue] in Hw3, Hq3.
  exists self2. split; [reflexivity|]. split; [exact Hw1|].
  split; [exact Hq1'|]. split; [exact Hgone|]. split; [reflexivity|].
  split.
  - rewrite Hw3, Hw2, Hq2, Hq1'. cbn [app].
    rewrite chunks_of_cons. cbn [map]. now rewrite <- app_assoc.
  - rewrite Hq3, Hq2, Hq1'. cbn [app]. now destruct more.
Qed.

End Writer2Lemmas.

Section Writer2Witnesses.
Import Writer2.

Lemma last_message_is_written_again_witness :
  let m1 := mkOutbound (Some Sample.uuid_a) 3 [] in
  let m2 := mkOutbound (Some Sample.uuid_b) 130 [x01] in
  let m3 := mkOutbound (Some Sample.uuid_c) 204 [x09] in
  exists self1 lost self2,
    on_connected 1 (MessageWriter_init [m1; m2]) = Ok self1
    /\ written self1
       = written (MessageWriter_init [m1; m2])
         ++ map (pair 1) (chunks_of ([m1] ++ [m2]))
    /\ _queue self1 = []
    /\ on_connection_lost self1 = Ok lost
    /\ on_connected 2 (foldl (fun w m => enqueue_message m w) lost [m3])
       = Ok self2
    /\ written self2 = written self1 ++ map (pair 2) (chunks_of (m2 :: [m3]))
    /\ _queue self2 = [].
Proof.
  apply (last_message_is_written_again
           (MessageWriter_init [mkOutbound (Some Sample.uuid_a) 3 [];
                                mkOutbound (Some Sample.uuid_b) 130 [x01]])
           1 2 [mkOutbound (Some Sample.uuid_a) 3 []]
           (mkOutbound (Some Sample.uuid_b) 130 [x01])
           [mkOutbound (Some Sample.uuid_c) 204 [x09]]).
  - reflexivity.
  - reflexivity.
Defined.

End Writer2Witnesses.

Section Dispatcher2.
Context {C : Type} `{Conversation C}.
Variable tcp : TcpCommand.

Lemma Dict_get_values {K V : Type} `{EqDecision K} (k : K) (v : V)
    (d : list (K * V)) :
  Dict.get k d = Some v ->
  exists before after, Dict.values d = before ++ v :: after.
Proof.
  intros Hget. apply Dict_get_elem in Hget.
  apply list_elem_of_split in Hget. destruct Hget as (l1 & l2 & ->).
  exists (Dict.values l1), (Dict.values l2).
  unfold Dict.values. now rewrite map_app.
Qed.

(** X2.  In [connection2.py] the reply to a heartbeat request stays among
    the active conversations, so it is replayed: when the connection is
    lost after the request and the dispatcher is started again on the
    next one, the frames it puts on the output queue include the
    [HeartbeatResponse] for that request once more. *)
Theorem connection2_replays_heartbeat_replies (m : InboundMessage)
    (d : Connection2.MessageDispatcher C) :
  let d1 := Connection2.on_heartbeat_request tcp m d in
  let d2 := Connection2._process_messages_begin tcp
              (Connection2.MessageDispatcher_stop d1) in
  exists before after,
    Connection2.output d2
    = Connection2.output d1
      ++ before ++ [Heartbeat_start tcp (in_conversation_id m) INBOUND] ++ after.
Proof.
  cbv zeta. unfold Connection2.on_heartbeat_request, Connection2.enqueue_conversation.
  cbn [fst Connection2.enqueued_id Connection2.enqueued_start].
  unfold Connection2._process_messages_begin, Connection2.MessageDispatcher_stop.
  cbn [Connection2.active_conversations Connection2.output].
  match goal with
  | |- context [Dict.values (Dict.set ?k ?v ?l)] =>
      destruct (Dict_get_values k v (Dict.set k v l) (Dict_get_set_eq k v l))
        as (before & after & ->)
  end.
  rewrite map_app. cbn [map fst Connection2.enqueued_start].
  eexists. eexists. reflexivity.
Qed.

(** X3.  In [connection2.py] every conversation is deferred, one-way or
    not.  [enqueue_conversation] puts the start frame on the output queue
    only while the dispatcher is connected, but it tracks the conversation
    in either case, so the next start of the dispatcher puts the frame on
    the queue: a conversation enqueued while disconnected is sent once the
    connection is there, and one enqueued while connected is sent again
    after a reconnect for as long as it is tracked. *)
Theorem connection2_defers_every_conversation (c : C)
    (d : Connection2.MessageDispatcher C) :
  let d1 := (Connection2.enqueue_conversation tcp (Connection2.Started c) d).1 in
  let d2 := Connection2._process_messages_begin tcp
              (Connection2.MessageDispatcher_stop d1) in
  Connection2.output d1
  = (if Connection2._connected d
     then Connection2.output d ++ [start c]
     else Connection2.output d)
  /\ exists before after,
       Connection2.output d2
       = Connection2.output d1 ++ before ++ [start c] ++ after.
Proof.
  cbv zeta. unfold Connection2.enqueue_conversation.
  cbn [fst Connection2.enqueued_id Connection2.enqueued_start].
  unfold Connection2._process_messages_begin, Connection2.MessageDispatcher_stop.
  cbn [Connection2.active_conversations Connection2.output].
  split; [reflexivity|].
  match goal with
  | |- context [Dict.values (Dict.set ?k ?v ?l)] =>
      destruct (Dict_get_values k v (Dict.set k v l) (Dict_get_set_eq k v l))
        as (before & after & ->)
  end.
  rewrite map_app. cbn [map fst Connection2.enqueued_start].
  eexists. eexists. reflexivity.
Qed.

End Dispatcher2.

(* ================================================================== *)
(** * Any bytes, in any chunks                                         *)
(* ================================================================== *)

Section AnyBytes.
Import MessageReader Reading.
Context {World : Type}.
Variable on_message : InboundMessage -> World -> result World.

Lemma process_turn_after (self : state) (w : World) (chunk : list byte) (o : Z) :
  process_turn on_message self w chunk o
  = '(self1, o1) ← read_header (Z.to_nat (len chunk - o)) self chunk o;
    after_header on_message self1 w chunk o1.
Proof. reflexivity. Qed.

(** A turn that starts with its header complete, or at the end of the
    chunk, is what comes after the header loop. *)
Lemma process_turn_no_header (self : state) (w : World) (chunk : list byte)
    (o : Z) :
  header_bytes_required self = 0 \/ len chunk <= o ->
  process_turn on_message self w chunk o = after_header on_message self w chunk o.
Proof.
  intros [E|E]; rewrite process_turn_after.
  - now rewrite read_header_done.
  - now rewrite read_header_exhausted.
Qed.

(** The first turn of the header loop depends on the byte it takes and on
    nothing else of the chunk. *)
Lemma read_header_first (self : state) (b : byte) :
  steady self ->
  header_bytes_required self <> 0 ->
  exists self_b,
    steady self_b
    /\ message_offset self_b = HEADER_LENGTH
    /\ forall (n : nat) (chunk : list byte) (o : Z),
         getitem chunk o = Ok b ->
         o < len chunk ->
         read_header (S n) self chunk o = read_header n self_b chunk (o + 1).
Proof.
  intros Hs E. pose proof Hs as [Hreq Hsize Hlen Hcmd].
  set (hb := <[Z.to_nat (MESSAGE_MIN_SIZE - header_bytes_required self) := b]>
               (header_bytes self)).
  assert (len hb = MESSAGE_MIN_SIZE) as Hhb.
  { subst hb. unfold len in *. now rewrite length_insert. }
  set (self1 := set_header_byte hb self).
  assert (exists self2,
            (if header_bytes_required self1 =? 0
             then
               '(l, c, f) ← HEAD_PACK_unpack (slice (header_bytes self1) 0 6);
               u ← UUID_of_bytes_le (slice (header_bytes self1) 6 22);
               Ok (set_header l c f u self1)
             else Ok self1) = Ok self2
            /\ steady self2) as (self2 & Hstep & Hs2).
  { destruct (Z.eqb_spec (header_bytes_required self1) 0) as [E3|E3].
    - destruct (header_parses (header_bytes self1) Hhb) as (l & c & f & u & Hp & Hu).
      rewrite Hp. cbn [mbind result_bind bind]. rewrite Hu.
      cbn [mbind result_bind bind].
      eexists. split; [reflexivity|].
      split; cbn [set_header header_bytes_required header_bytes length_ cmd].
      + rewrite E3. unfold MESSAGE_MIN_SIZE, SIZE_UINT_32, HEADER_LENGTH. lia.
      + exact Hhb.
      + congruence.
      + intros _. now eexists.
    - exists self1. split; [reflexivity|].
      subst self1.
      split; cbn [set_header_byte header_bytes_required header_bytes length_ cmd] in *.
      + lia.
      + exact Hhb.
      + intros _. apply Hlen. exact E.
      + intros E4. contradiction. }
  exists (set_message_offset HEADER_LENGTH self2).
  split; [destruct Hs2 as [H1 H2 H3 H4]; now split|]. split; [reflexivity|].
  intros n chunk o Hb Ho. cbn [read_header].
  destruct (Z.eqb_spec (header_bytes_required self) 0) as [E0|_]; [contradiction|].
  destruct (Z.ltb_spec o (len chunk)) as [_|E2]; [|lia].
  cbn [negb andb]. rewrite Hb. cbn [mbind result_bind bind].
  rewrite setitem_in_range by (rewrite Hsize; lia).
  cbn [mbind result_bind bind]. fold hb. fold self1.
  rewrite Hstep. reflexivity.
Qed.

Lemma process_turn_first (self : state) (b : byte) :
  steady self ->
  header_bytes_required self <> 0 ->
  exists self_b,
    steady self_b
    /\ message_offset self_b = HEADER_LENGTH
    /\ forall (w : World) (chunk : list byte) (o : Z),
         getitem chunk o = Ok b ->
         0 <= o < len chunk ->
         process_turn on_message self w chunk o
         = process_turn on_message self_b w chunk (o + 1).
Proof.
  intros Hs E.
  destruct (read_header_first self b Hs E) as (self_b & Hsb & Hoff & Hread).
  exists self_b. split; [exact Hsb|]. split; [exact Hoff|].
  intros w chunk o Hb Ho. rewrite !process_turn_after.
  replace (Z.to_nat (len chunk - o)) with (S (Z.to_nat (len chunk - (o + 1))))
    by lia.
  rewrite (Hread _ chunk o Hb) by lia. reflexivity.
Qed.


(** The three ways of a turn after its header loop. *)
Lemma after_header_stuck (self : state) (w : World) (chunk : list byte) (o : Z) :
  length_ self - message_offset self < 0 ->
  after_header on_message self w chunk o = Ok (self, w, o).
Proof.
  intros Hr. unfold after_header.
  destruct (Z.ltb_spec 0 (length_ self - message_offset self)); [lia|].
  destruct (Z.eqb_spec (length_ self - message_offset self) 0); [lia|reflexivity].
Qed.

Lemma after_header_emit (self : state) (w : World) (chunk : list byte) (o : Z) :
  length_ self - message_offset self = 0 ->
  after_header on_message self w chunk o
  = (c ← match cmd self with
         | Some c => Ok c
         | None => Raise AttributeError
         end;
     w' ← on_message
            (mkInbound (conversation_id self) c
               (buffer_or_empty (message_buffer self))) w;
     Ok (reset self, w', o)).
Proof.
  intros Hr. unfold after_header. rewrite Hr. reflexivity.
Qed.

Lemma after_header_copy (self : state) (w : World) (chunk : list byte) (o : Z) :
  0 < length_ self - message_offset self ->
  let e := Z.min (len chunk) (length_ self - message_offset self + o) in
  let self' :=
    set_message_buffer
      (buffer_or_empty (message_buffer self) ++ slice chunk o e)
      (message_offset self + (e - o)) self in
  after_header on_message self w chunk o
  = if length_ self - message_offset self - (e - o) =? 0
    then
      c ← match cmd self with
          | Some c => Ok c
          | None => Raise AttributeError
          end;
      w' ← on_message
             (mkInbound (conversation_id self) c
                (buffer_or_empty (message_buffer self) ++ slice chunk o e)) w;
      Ok (reset self', w', e)
    else Ok (self', w, e).
Proof.
  intros Hr. cbv zeta. unfold after_header.
  destruct (Z.ltb_spec 0 (length_ self - message_offset self)); [|lia].
  reflexivity.
Qed.

Lemma read_header_le (n : nat) :
  forall (self self' : state) (chunk : list byte) (o o' : Z),
    o <= len chunk ->
    read_header n self chunk o = Ok (self', o') ->
    o <= o' <= len chunk.
Proof.
  induction n as [|n IH]; intros self self' chunk o o' Ho Hrun.
  - cbn in Hrun. injection Hrun as <- <-. lia.
  - cbn [read_header] in Hrun.
    destruct (Z.eqb_spec (header_bytes_required self) 0) as [E|E];
      [injection Hrun as <- <-; lia|].
    destruct (Z.ltb_spec o (len chunk)) as [E2|E2];
      [|injection Hrun as <- <-; lia].
    cbn [negb andb] in Hrun.
    destruct (getitem chunk o) as [b|]; [|discriminate].
    cbn [mbind result_bind bind] in Hrun.
    destruct (setitem (header_bytes self) _ b) as [hb|]; [|discriminate].
    cbn [mbind result_bind bind] in Hrun.
    match type of Hrun with
    | context [read_header n (set_message_offset _ ?s)] => idtac
    | (?m ≫= _) = _ => destruct m as [s1|]; [|discriminate]
    end.
    cbn [mbind result_bind bind] in Hrun.
    apply IH in Hrun; lia.
Qed.

Lemma steady_set_message_buffer (b : list byte) (o : Z) (self : state) :
  steady self -> steady (set_message_buffer b o self).
Proof. intros [H1 H2 H3 H4]. now split. Qed.

Lemma settled_reset (self : state) : steady self -> settled (reset self).
Proof.
  intros Hs. split; [now apply steady_reset|].
  cbn [reset header_bytes_required].
  unfold MESSAGE_MIN_SIZE, SIZE_UINT_32, HEADER_LENGTH. lia.
Qed.

(** What comes after the header loop, from a steady reader whose header
    is complete or that is short of a header: the reader is settled
    afterwards, and the offset stays within the chunk. *)
Lemma after_header_settled (self : state) (w : World) (chunk : list byte) (o : Z) :
  steady self ->
  (header_bytes_required self <> 0 -> message_offset self = HEADER_LENGTH) ->
  0 <= o <= len chunk ->
  match after_header on_message self w chunk o with
  | Ok (self', w', o') =>
      o <= o' <= len chunk
      /\ (settled self'
          \/ (length_ self - message_offset self = 0 -> False)
             /\ ~ 0 < length_ self - message_offset self
             /\ self' = self /\ w' = w /\ o' = o)
  | Raise _ => True
  end.
Proof.
  intros Hs Hoff Ho. pose proof Hs as [Hreq Hsize Hlen Hcmd].
  destruct (Z.lt_trichotomy (length_ self - message_offset self) 0) as [Hr|[Hr|Hr]].
  - rewrite after_header_stuck by exact Hr.
    split; [lia|]. right. repeat split; lia.
  - rewrite after_header_emit by exact Hr.
    destruct (cmd self); cbn [mbind result_bind bind]; [|exact I].
    destruct (on_message _ w); cbn [mbind result_bind bind]; [|exact I].
    split; [lia|]. left. now apply settled_reset.
  - assert (header_bytes_required self = 0) as E0.
    { destruct (Z.eq_dec (header_bytes_required self) 0) as [E|E]; [exact E|].
      specialize (Hlen E). rewrite (Hoff E) in Hr. lia. }
    pose proof (after_header_copy self w chunk o Hr) as Hcopy. cbv zeta in Hcopy.
    rewrite Hcopy. clear Hcopy.
    set (e := Z.min (len chunk) (length_ self - message_offset self + o)).
    assert (o <= e <= len chunk) as He by (subst e; lia).
    destruct (Z.eqb_spec (length_ self - message_offset self - (e - o)) 0) as [E|E].
    + destruct (cmd self); cbn [mbind result_bind bind]; [|exact I].
      destruct (on_message _ w); cbn [mbind result_bind bind]; [|exact I].
      split; [lia|]. left. apply settled_reset.
      now apply steady_set_message_buffer.
    + split; [lia|]. left. split; [now apply steady_set_message_buffer|].
      cbn [set_message_buffer header_bytes_required length_ message_offset].
      intros _. lia.
Qed.

(** One turn of [process] from a settled reader: it takes at least one
    byte and leaves the reader settled, unless the reader holds a length
    below the header's, in which case it takes nothing and changes
    nothing. *)
Lemma process_turn_settled (self : state) (w : World) (chunk : list byte) (o : Z) :
  settled self ->
  0 <= o < len chunk ->
  match process_turn on_message self w chunk o with
  | Ok (self', w', o') =>
      (settled self' /\ o < o' <= len chunk)
      \/ (header_bytes_required self = 0
          /\ length_ self - message_offset self < 0
          /\ self' = self /\ w' = w /\ o' = o)
  | Raise _ => True
  end.
Proof.
  intros [Hs Hne] Ho.
  destruct (Z.eq_dec (header_bytes_required self) 0) as [E|E].
  - rewrite process_turn_no_header by now left.
    specialize (Hne E).
    pose proof (after_header_settled self w chunk o Hs) as Hafter.
    destruct (Z.lt_trichotomy (length_ self - message_offset self) 0) as [Hr|[Hr|Hr]];
      [|lia|].
    + rewrite after_header_stuck by exact Hr. right. now repeat split.
    + pose proof (after_header_copy self w chunk o Hr) as Hcopy. cbv zeta in Hcopy.
      rewrite Hcopy. clear Hcopy.
      set (e := Z.min (len chunk) (length_ self - message_offset self + o)).
      assert (o < e <= len chunk) as He by (subst e; lia).
      pose proof Hs as [Hreq Hsize Hlen Hcmd].
      destruct (Z.eqb_spec (length_ self - message_offset self - (e - o)) 0) as [E1|E1].
      * destruct (cmd self); cbn [mbind result_bind bind]; [|exact I].
        destruct (on_message _ w); cbn [mbind result_bind bind]; [|exact I].
        left. split; [|lia]. apply settled_reset.
        now apply steady_set_message_buffer.
      * left. split; [|lia]. split; [now apply steady_set_message_buffer|].
        cbn [set_message_buffer header_bytes_required length_ message_offset].
        intros _. lia.
  - rewrite process_turn_after.
    destruct (read_header_steady (Z.to_nat (len chunk - o)) self chunk o Hs)
      as (self1 & o1 & Hread & Hs1 & Hle & Hoff & Hsame & Hran); [lia|].
    rewrite Hread. cbn [mbind result_bind bind].
    assert (o < o1) as Hlt by (apply Hran; [exact E|lia|lia]).
    assert (o1 <= len chunk) as Hup.
    { eapply (read_header_le _ self self1 chunk o o1); [lia|exact Hread]. }
    pose proof (after_header_settled self1 w chunk o1 Hs1 (fun _ => Hoff Hlt)) as Hafter.
    destruct (after_header on_message self1 w chunk o1) as [[[self' w'] o']|e];
      [|exact I].
    destruct Hafter as [Hb [Hset|(Hn0 & Hnpos & -> & -> & ->)]]; [lia| |].
    + left. split; [exact Hset|lia].
    + left. split; [|lia]. split; [exact Hs1|]. intros _ Heq. apply Hn0. lia.
Qed.


Lemma process_loop_settled (fuel : nat) :
  forall (self : state) (w : World) (chunk : list byte) (o : Z),
    settled self -> 0 <= o ->
    match process_loop on_message fuel self w chunk o with
    | Some (Ok (self', _)) => settled self'
    | _ => True
    end.
Proof.
  induction fuel as [|fuel IH]; intros self w chunk o Hs Ho;
    rewrite process_loop_eq;
    destruct (Z.ltb_spec o (len chunk)) as [E|E]; try exact Hs; [exact I|].
  pose proof (process_turn_settled self w chunk o Hs (conj Ho E)) as Hturn.
  destruct (process_turn on_message self w chunk o) as [[[self1 w1] o1]|e];
    [|exact I].
  destruct Hturn as [[Hs1 Ho1]|(_ & _ & -> & -> & ->)].
  - apply IH; [exact Hs1|lia].
  - now apply IH.
Qed.

Lemma feed_settled (fuel : nat) (chunks : list (list byte)) :
  forall (self : state) (w : World),
    settled self ->
    match feed on_message fuel self w chunks with
    | Some (Ok (self', _)) => settled self'
    | _ => True
    end.
Proof.
  induction chunks as [|chunk chunks IH]; intros self w Hs; cbn [feed process].
  - exact Hs.
  - pose proof (process_loop_settled fuel self w chunk 0 Hs (Z.le_refl 0)) as Hloop.
    destruct (process_loop on_message fuel self w chunk 0) as [[[self1 w1]|e]|];
      [now apply IH|exact I|exact I].
Qed.

(** From a settled reader, the loop does the same with any fuel that
    covers the bytes left in the chunk. *)
Lemma process_loop_fuel (f1 : nat) :
  forall (f2 : nat) (self : state) (w : World) (chunk : list byte) (o : Z),
    settled self -> 0 <= o ->
    (Z.to_nat (len chunk - o) <= f1)%nat ->
    (Z.to_nat (len chunk - o) <= f2)%nat ->
    process_loop on_message f1 self w chunk o
    = process_loop on_message f2 self w chunk o.
Proof.
  induction f1 as [|f1 IH]; intros f2 self w chunk o Hs Ho H1 H2;
    rewrite (process_loop_eq on_message f2), process_loop_eq;
    destruct (Z.ltb_spec o (len chunk)) as [E|E]; try reflexivity; [lia|].
  destruct f2 as [|f2]; [lia|].
  pose proof (process_turn_settled self w chunk o Hs (conj Ho E)) as Hturn.
  destruct (process_turn on_message self w chunk o) as [[[self1 w1] o1]|e];
    [|reflexivity].
  destruct Hturn as [[Hs1 Ho1]|(Hreq & Hneg & -> & -> & ->)].
  - apply IH; [exact Hs1|lia|lia|lia].
  - rewrite !process_loop_spins by assumption. reflexivity.
Qed.

Lemma feed_fuel (chunks : list (list byte)) :
  forall (f1 f2 : nat) (self : state) (w : World),
    settled self ->
    Forall (fun chunk => (length chunk <= f1)%nat) chunks ->
    Forall (fun chunk => (length chunk <= f2)%nat) chunks ->
    feed on_message f1 self w chunks = feed on_message f2 self w chunks.
Proof.
  induction chunks as [|chunk chunks IH]; intros f1 f2 self w Hs H1 H2;
    cbn [feed process]; [reflexivity|].
  apply Forall_cons in H1. destruct H1 as [Hc1 H1].
  apply Forall_cons in H2. destruct H2 as [Hc2 H2].
  rewrite (process_loop_fuel f1 f2 self w chunk 0 Hs)
    by (unfold len; lia).
  pose proof (process_loop_settled f2 self w chunk 0 Hs (Z.le_refl 0)) as Hloop.
  destruct (process_loop on_message f2 self w chunk 0) as [[[self1 w1]|e]|];
    [now apply IH|reflexivity|reflexivity].
Qed.

(** A turn reads the chunk from its offset on: what lies before the
    offset does not matter. *)
Lemma getitem_shift {A : Type} (pre c : list A) (o : Z) :
  0 <= o < len c -> getitem (pre ++ c) (len pre + o) = getitem c o.
Proof.
  intros Ho. pose proof (len_nonneg pre). unfold getitem.
  rewrite !index_in_range by (rewrite ?len_app; lia).
  cbn [mbind result_bind bind].
  rewrite lookup_app_r by (unfold len in *; lia).
  replace (Z.to_nat (len pre + o) - length pre)%nat with (Z.to_nat o)
    by (unfold len; lia).
  reflexivity.
Qed.

Lemma slice_shift {A : Type} (pre c : list A) (a e : Z) :
  0 <= a <= e -> e <= len c ->
  slice (pre ++ c) (len pre + a) (len pre + e) = slice c a e.
Proof.
  intros Ha He. pose proof (len_nonneg pre).
  rewrite !slice_in_range by (rewrite ?len_app; lia).
  rewrite drop_app_ge by (unfold len in *; lia).
  replace (Z.to_nat (len pre + a) - length pre)%nat with (Z.to_nat a)
    by (unfold len; lia).
  f_equal. lia.
Qed.

Lemma read_header_shift (pre c : list byte) (n : nat) :
  forall (self : state) (o : Z),
    0 <= o ->
    read_header n self (pre ++ c) (len pre + o)
    = '(self', o') ← read_header n self c o; Ok (self', len pre + o').
Proof.
  induction n as [|n IH]; intros self o Ho; [reflexivity|].
  cbn [read_header]. rewrite len_app.
  destruct (Z.eqb_spec (header_bytes_required self) 0) as [E|E]; [reflexivity|].
  cbn [negb andb].
  destruct (Z.ltb_spec o (len c)) as [E2|E2];
    destruct (Z.ltb_spec (len pre + o) (len pre + len c)) as [E3|E3];
    try lia; [|reflexivity].
  rewrite getitem_shift by lia.
  destruct (getitem c o) as [b|]; [|reflexivity].
  cbn [mbind result_bind bind].
  destruct (setitem (header_bytes self) _ b) as [hb|]; [|reflexivity].
  cbn [mbind result_bind bind].
  match goal with
  | |- (?m ≫= _) = _ => destruct m as [s1|]; [|reflexivity]
  end.
  cbn [mbind result_bind bind].
  rewrite <- Z.add_assoc. now apply IH; lia.
Qed.

Lemma after_header_bounds (self self' : state) (w w' : World)
    (chunk : list byte) (o o' : Z) :
  0 <= o <= len chunk ->
  after_header on_message self w chunk o = Ok (self', w', o') ->
  o <= o' <= len chunk.
Proof.
  intros Ho.
  destruct (Z.lt_trichotomy (length_ self - message_offset self) 0) as [Hr|[Hr|Hr]].
  - rewrite after_header_stuck by exact Hr. intros [= _ _ <-]. lia.
  - rewrite after_header_emit by exact Hr.
    destruct (cmd self); cbn [mbind result_bind bind]; [|discriminate].
    destruct (on_message _ w); cbn [mbind result_bind bind]; [|discriminate].
    intros [= _ _ <-]. lia.
  - pose proof (after_header_copy self w chunk o Hr) as Hcopy. cbv zeta in Hcopy.
    rewrite Hcopy. clear Hcopy.
    destruct (_ =? 0).
    + destruct (cmd self); cbn [mbind result_bind bind]; [|discriminate].
      destruct (on_message _ w); cbn [mbind result_bind bind]; [|discriminate].
      intros [= _ _ <-]. lia.
    + intros [= _ _ <-]. lia.
Qed.

Lemma process_turn_bounds (self self' : state) (w w' : World)
    (chunk : list byte) (o o' : Z) :
  0 <= o <= len chunk ->
  process_turn on_message self w chunk o = Ok (self', w', o') ->
  o <= o' <= len chunk.
Proof.
  intros Ho. rewrite process_turn_after.
  destruct (read_header _ self chunk o) as [[self1 o1]|] eqn:Hread;
    cbn [mbind result_bind bind]; [|discriminate].
  apply read_header_le in Hread; [|lia].
  intros Hafter. apply after_header_bounds in Hafter; lia.
Qed.

Lemma after_header_shift (pre c : list byte) (self : state) (w : World) (o : Z) :
  0 <= o <= len c ->
  after_header on_message self w (pre ++ c) (len pre + o)
  = '(self', w', o') ← after_header on_message self w c o;
    Ok (self', w', len pre + o').
Proof.
  intros Ho.
  destruct (Z.lt_trichotomy (length_ self - message_offset self) 0) as [Hr|[Hr|Hr]].
  - now rewrite !after_header_stuck by exact Hr.
  - rewrite !after_header_emit by exact Hr.
    destruct (cmd self); cbn [mbind result_bind bind]; [|reflexivity].
    destruct (on_message _ w); reflexivity.
  - pose proof (after_header_copy self w (pre ++ c) (len pre + o) Hr) as H1.
    pose proof (after_header_copy self w c o Hr) as H2.
    cbv zeta in H1, H2. rewrite H1, H2. clear H1 H2.
    rewrite len_app.
    replace (Z.min (len pre + len c)
                   (length_ self - message_offset self + (len pre + o)))
      with (len pre + Z.min (len c) (length_ self - message_offset self + o))
      by lia.
    set (e := Z.min (len c) (length_ self - message_offset self + o)).
    rewrite slice_shift by (subst e; lia).
    replace (len pre + e - (len pre + o)) with (e - o) by lia.
    destruct (_ =? 0); [|reflexivity].
    destruct (cmd self); cbn [mbind result_bind bind]; [|reflexivity].
    destruct (on_message _ w); reflexivity.
Qed.

Lemma process_turn_shift (pre c : list byte) (self : state) (w : World) (o : Z) :
  0 <= o <= len c ->
  process_turn on_message self w (pre ++ c) (len pre + o)
  = '(self', w', o') ← process_turn on_message self w c o;
    Ok (self', w', len pre + o').
Proof.
  intros Ho. rewrite !process_turn_after. rewrite len_app.
  replace (len pre + len c - (len pre + o)) with (len c - o) by lia.
  rewrite read_header_shift by lia.
  destruct (read_header _ self c o) as [[self1 o1]|] eqn:Hread;
    cbn [mbind result_bind bind]; [|reflexivity].
  apply read_header_le in Hread; [|lia].
  apply after_header_shift. lia.
Qed.

Lemma process_loop_shift (pre c : list byte) (fuel : nat) :
  forall (self : state) (w : World) (o : Z),
    0 <= o <= len c ->
    process_loop on_message fuel self w (pre ++ c) (len pre + o)
    = process_loop on_message fuel self w c o.
Proof.
  induction fuel as [|fuel IH]; intros self w o Ho;
    rewrite (process_loop_eq on_message _ self w c), process_loop_eq, len_app;
    destruct (Z.ltb_spec o (len c)) as [E|E];
    destruct (Z.ltb_spec (len pre + o) (len pre + len c)) as [E'|E'];
    try lia; try reflexivity.
  rewrite process_turn_shift by lia.
  destruct (process_turn on_message self w c o) as [[[self1 w1] o1]|e] eqn:Hturn;
    cbn [mbind result_bind bind]; [|reflexivity].
  apply process_turn_bounds in Hturn; [|lia].
  apply IH. lia.
Qed.


Lemma slice_app {A : Type} (l : list A) (a m e : Z) :
  0 <= a <= m -> m <= e <= len l ->
  slice l a m ++ slice l m e = slice l a e.
Proof.
  intros Ha He. rewrite !slice_in_range by lia.
  replace (Z.to_nat m) with (Z.to_nat a + Z.to_nat (m - a))%nat by lia.
  rewrite <- drop_drop, take_take_drop. f_equal. lia.
Qed.

(** A copy into the message buffer that stops short of the payload's end
    can be taken up where it stopped. *)
Lemma after_header_resume (self : state) (w : World) (chunk : list byte)
    (o o2 : Z) :
  0 <= o <= o2 -> o2 <= len chunk ->
  o2 - o < length_ self - message_offset self ->
  after_header on_message self w chunk o
  = after_header on_message
      (set_message_buffer
         (buffer_or_empty (message_buffer self) ++ slice chunk o o2)
         (message_offset self + (o2 - o)) self)
      w chunk o2.
Proof.
  intros Ho Ho2 Hr.
  pose proof (after_header_copy self w chunk o) as H1. cbv zeta in H1.
  rewrite H1 by lia. clear H1.
  match goal with
  | |- _ = after_header on_message ?s1 w chunk o2 =>
      pose proof (after_header_copy s1 w chunk o2) as H2
  end.
  cbv zeta in H2.
  cbn [length_ message_offset message_buffer set_message_buffer buffer_or_empty
       cmd conversation_id] in H2.
  rewrite H2 by lia. clear H2.
  replace (length_ self - (message_offset self + (o2 - o)) + o2)
    with (length_ self - message_offset self + o) by lia.
  set (e := Z.min (len chunk) (length_ self - message_offset self + o)).
  assert (o2 <= e <= len chunk) as He by (subst e; lia).
  rewrite <- app_assoc, slice_app by lia.
  replace (message_offset self + (o2 - o) + (e - o2))
    with (message_offset self + (e - o)) by lia.
  replace (length_ self - (message_offset self + (o2 - o)) - (e - o2))
    with (length_ self - message_offset self - (e - o)) by lia.
  reflexivity.
Qed.

Lemma slice_head {A : Type} (x : A) (l : list A) :
  slice (x :: l) 0 1 = [x] /\ slice (x :: l) 1 1 = [].
Proof.
  pose proof (len_nonneg l).
  assert (len (x :: l) = 1 + len l) as Hlen by (unfold len; cbn [length]; lia).
  rewrite !slice_in_range by lia. now split.
Qed.

(** The turn that takes the first byte [b] of a chunk, set against the
    turn on [b] alone: it is that turn, or that turn followed at once by
    the turn on what comes after [b]. *)
Lemma turn_of_first_byte (self : state) (w : World) (b : byte) (cur : list byte) :
  settled self ->
  match process_turn on_message self w [b] 0 with
  | Raise e => process_turn on_message self w (b :: cur) 0 = Raise e
  | Ok (self1, w1, o1) =>
      process_turn on_message self w (b :: cur) 0 = Ok (self1, w1, o1)
      \/ (cur <> [] /\ w1 = w /\ o1 = 1
          /\ process_turn on_message self w (b :: cur) 0
             = process_turn on_message self1 w (b :: cur) 1)
  end.
Proof.
  intros [Hs Hne].
  destruct cur as [|b2 cur].
  { destruct (process_turn on_message self w [b] 0) as [[[? ?] ?]|];
      [left|]; reflexivity. }
  set (big := b :: b2 :: cur).
  assert (2 <= len big) as Hbig.
  { subst big. pose proof (len_nonneg cur). unfold len in *. cbn [length]. lia. }
  assert (len [b] = 1) as Hone by reflexivity.
  destruct (slice_head b (b2 :: cur)) as [Hhead Hnone]. fold big in Hhead, Hnone.
  destruct (slice_head b []) as [Hhead1 Hnone1].
  destruct (Z.eq_dec (header_bytes_required self) 0) as [E|E].
  - rewrite !process_turn_no_header by now left.
    specialize (Hne E).
    destruct (Z.lt_trichotomy (length_ self - message_offset self) 0)
      as [Hr|[Hr|Hr]]; [|lia|].
    + rewrite !after_header_stuck by exact Hr. now left.
    + destruct (Z.eq_dec (length_ self - message_offset self) 1) as [E1|E1].
      * assert (after_header on_message self w big 0
                = after_header on_message self w [b] 0) as ->.
        { pose proof (after_header_copy self w big 0 Hr) as H1.
          pose proof (after_header_copy self w [b] 0 Hr) as H2.
          cbv zeta in H1, H2. rewrite H1, H2, Hone, E1.
          replace (Z.min (len big) (1 + 0)) with 1 by lia.
          change (Z.min 1 (1 + 0)) with 1. now rewrite Hhead, Hhead1. }
        destruct (after_header on_message self w [b] 0) as [[[? ?] ?]|];
          [left|]; reflexivity.
      * pose proof (after_header_copy self w [b] 0 Hr) as H2. cbv zeta in H2.
        rewrite H2, Hone.
        replace (Z.min 1 (length_ self - message_offset self + 0)) with 1 by lia.
        destruct (Z.eqb_spec (length_ self - message_offset self - (1 - 0)) 0);
          [lia|].
        right. split; [discriminate|]. split; [reflexivity|].
        split; [reflexivity|].
        rewrite process_turn_no_header by now left.
        rewrite (after_header_resume self w big 0 1) by lia.
        now rewrite Hhead, Hhead1.
  - destruct (process_turn_first self b Hs E) as (self_b & Hsb & Hoff & Hfirst).
    rewrite (Hfirst w [b] 0) by first [reflexivity | rewrite Hone; lia].
    rewrite (Hfirst w big 0) by first [reflexivity | lia].
    change (0 + 1) with 1.
    rewrite (process_turn_no_header self_b w [b] 1) by (right; lia).
    pose proof Hsb as [Hreq Hsize Hlen Hcmd].
    destruct (Z.eq_dec (header_bytes_required self_b) 0) as [Eb|Eb].
    + rewrite process_turn_no_header by now left.
      destruct (Z.lt_trichotomy (length_ self_b - message_offset self_b) 0)
        as [Hr|[Hr|Hr]].
      * rewrite !after_header_stuck by exact Hr. now left.
      * rewrite !after_header_emit by exact Hr.
        match goal with
        | |- match ?m with _ => _ end => destruct m as [[[? ?] ?]|]
        end; [left|]; reflexivity.
      * pose proof (after_header_copy self_b w [b] 1 Hr) as H2. cbv zeta in H2.
        rewrite H2, Hone.
        replace (Z.min 1 (length_ self_b - message_offset self_b + 1)) with 1
          by lia.
        destruct (Z.eqb_spec (length_ self_b - message_offset self_b - (1 - 1)) 0);
          [lia|].
        right. split; [discriminate|]. split; [reflexivity|].
        split; [reflexivity|].
        rewrite process_turn_no_header by now left.
        rewrite (after_header_resume self_b w big 1 1) by lia.
        now rewrite Hnone, Hnone1.
    + rewrite after_header_stuck by (specialize (Hlen Eb); lia).
      right. split; [discriminate|]. now repeat split.
Qed.

(** Taking the first byte of a chunk off: the loop on the chunk is the
    loop on that byte alone, followed by the loop on the rest. *)
Lemma process_loop_peel (fuel : nat) (self : state) (w : World) (b : byte)
    (cur : list byte) :
  settled self ->
  (length cur < fuel)%nat ->
  process_loop on_message fuel self w (b :: cur) 0
  = match process_loop on_message fuel self w [b] 0 with
    | Some (Ok (self1, w1)) => process_loop on_message fuel self1 w1 cur 0
    | other => other
    end.
Proof.
  intros Hs Hfuel. destruct fuel as [|f]; [lia|].
  assert (0 < len (b :: cur)) as Hpos by (unfold len; cbn [length]; lia).
  assert (len [b] = 1) as Hone by reflexivity.
  rewrite (process_loop_eq on_message (S f) self w [b] 0), process_loop_eq.
  destruct (Z.ltb_spec 0 (len (b :: cur))) as [_|]; [|lia].
  rewrite Hone. change (0 <? 1) with true. cbv iota.
  pose proof (turn_of_first_byte self w b cur Hs) as Hturn.
  pose proof (process_turn_settled self w [b] 0 Hs) as Hone_turn.
  rewrite Hone in Hone_turn. specialize (Hone_turn ltac:(lia)).
  destruct (process_turn on_message self w [b] 0) as [[[self1 w1] o1]|e].
  2:{ now rewrite Hturn. }
  destruct Hone_turn as [[Hs1 Ho1]|(Hreq & Hneg & -> & -> & ->)].
  - assert (o1 = 1) as -> by lia.
    rewrite (process_loop_eq on_message f self1 w1 [b] 1), Hone.
    change (1 <? 1) with false. cbv iota.
    destruct Hturn as [Hsame|(Hcur & -> & _ & Hnext)].
    + rewrite Hsame.
      pose proof (process_loop_shift [b] cur f self1 w1 0) as Hshift.
      change ([b] ++ cur) with (b :: cur) in Hshift.
      change (len [b] + 0) with 1 in Hshift.
      rewrite Hshift by (pose proof (len_nonneg cur); lia).
      apply process_loop_fuel; [exact Hs1|lia|unfold len; lia|unfold len; lia].
    + rewrite Hnext.
      pose proof (process_loop_shift [b] cur (S f) self1 w 0) as Hshift.
      change ([b] ++ cur) with (b :: cur) in Hshift.
      change (len [b] + 0) with 1 in Hshift.
      rewrite <- Hshift by (pose proof (len_nonneg cur); lia).
      rewrite (process_loop_eq on_message (S f) self1 w (b :: cur) 1).
      destruct (Z.ltb_spec 1 (len (b :: cur))) as [_|Hle]; [reflexivity|].
      destruct cur; [congruence|]. unfold len in Hle. cbn [length] in Hle. lia.
  - rewrite (process_loop_spins on_message f self w [b] 0) by (rewrite ?Hone; lia).
    destruct Hturn as [Hsame|(_ & _ & Ho1 & _)]; [|lia].
    rewrite Hsame. apply process_loop_spins; assumption.
Qed.

(** The loop on a chunk is the read pump on its bytes, one at a time. *)
Lemma process_loop_bytewise (cur : list byte) :
  forall (fuel : nat) (self : state) (w : World),
    settled self ->
    (length cur < fuel)%nat ->
    process_loop on_message fuel self w cur 0
    = feed on_message fuel self w (map (fun b => [b]) cur).
Proof.
  induction cur as [|b cur IH]; intros fuel self w Hs Hfuel.
  - now rewrite process_loop_eq.
  - cbn [length] in Hfuel. rewrite process_loop_peel by (assumption || lia).
    cbn [map feed process].
    pose proof (process_loop_settled fuel self w [b] 0 Hs (Z.le_refl 0)) as Hloop.
    destruct (process_loop on_message fuel self w [b] 0) as [[[self1 w1]|e]|];
      [|reflexivity|reflexivity].
    apply IH; [exact Hloop|lia].
Qed.

Lemma feed_app (fuel : nat) (chunks1 chunks2 : list (list byte)) :
  forall (self : state) (w : World),
    feed on_message fuel self w (chunks1 ++ chunks2)
    = match feed on_message fuel self w chunks1 with
      | Some (Ok (self', w')) => feed on_message fuel self' w' chunks2
      | other => other
      end.
Proof.
  induction chunks1 as [|chunk chunks1 IH]; intros self w; [reflexivity|].
  cbn [app feed process].
  destruct (process_loop on_message fuel self w chunk 0) as [[[self1 w1]|e]|];
    [apply IH|reflexivity|reflexivity].
Qed.

(** The read pump on any chunks is the read pump on their bytes, one at a
    time. *)
Lemma feed_bytewise (chunks : list (list byte)) :
  forall (fuel : nat) (self : state) (w : World),
    settled self ->
    Forall (fun chunk => (length chunk < fuel)%nat) chunks ->
    feed on_message fuel self w chunks
    = feed on_message fuel self w (map (fun b => [b]) (concat chunks)).
Proof.
  induction chunks as [|chunk chunks IH]; intros fuel self w Hs Hfuel;
    [reflexivity|].
  apply Forall_cons in Hfuel. destruct Hfuel as [Hchunk Hfuel].
  cbn [concat]. rewrite map_app, feed_app. cbn [feed process].
  rewrite <- process_loop_bytewise by assumption.
  pose proof (process_loop_settled fuel self w chunk 0 Hs (Z.le_refl 0)) as Hloop.
  destruct (process_loop on_message fuel self w chunk 0) as [[[self1 w1]|e]|];
    [|reflexivity|reflexivity].
  now apply IH.
Qed.

Lemma settled_init : settled init.
Proof.
  split; [exact steady_init|].
  cbn. unfold MESSAGE_MIN_SIZE, SIZE_UINT_32, HEADER_LENGTH. lia.
Qed.

(** X22.  Chunking never matters, whatever the bytes.  Two ways of cutting
    the same bytes into chunks lead the read pump, started on a fresh
    reader, to the same end: the same reader state and the same messages
    handed over, or the same exception of a hand-over, or in both cases a
    loop that does not return.  The bytes need not be well-formed frames,
    nor end where a frame ends. *)
Theorem chunking_never_matters (chunks1 chunks2 : list (list byte))
    (fuel : nat) (w : World) :
  concat chunks1 = concat chunks2 ->
  Forall (fun chunk => (length chunk <= fuel)%nat) chunks1 ->
  Forall (fun chunk => (length chunk <= fuel)%nat) chunks2 ->
  feed on_message fuel init w chunks1 = feed on_message fuel init w chunks2.
Proof.
  intros Hcat H1 H2.
  assert (forall chunks : list (list byte),
            Forall (fun chunk => (length chunk <= fuel)%nat) chunks ->
            Forall (fun chunk => (length chunk < S fuel)%nat) chunks) as Hmore.
  { intros chunks Hall. eapply Forall_impl; [exact Hall|].
    intros chunk Hc. cbn beta in Hc. lia. }
  assert (forall chunks : list (list byte),
            Forall (fun chunk => (length chunk <= fuel)%nat) chunks ->
            Forall (fun chunk => (length chunk <= S fuel)%nat) chunks) as Hmore'.
  { intros chunks Hall. eapply Forall_impl; [exact Hall|].
    intros chunk Hc. cbn beta in Hc. lia. }
  rewrite (feed_fuel chunks1 fuel (S fuel) init w settled_init H1 (Hmore' _ H1)).
  rewrite (feed_fuel chunks2 fuel (S fuel) init w settled_init H2 (Hmore' _ H2)).
  rewrite (feed_bytewise chunks1 (S fuel) init w settled_init (Hmore _ H1)).
  rewrite (feed_bytewise chunks2 (S fuel) init w settled_init (Hmore _ H2)).
  now rewrite Hcat.
Qed.

End AnyBytes.

Section AnyBytesWitness.
Import MessageReader.

Lemma chunking_never_matters_witness :
  feed Connection2.on_message 24 init []
    [[x11; x00; x00]; [x00; x03; x00; x01; x02]]
  = feed Connection2.on_message 24 init []
      [[x11]; [x00; x00; x00; x03; x00; x01]; []; [x02]].
Proof.
  apply (chunking_never_matters Connection2.on_message).
  - reflexivity.
  - repeat constructor; vm_compute; lia.
  - repeat constructor; vm_compute; lia.
Defined.

End AnyBytesWitness.

(* ================================================================== *)
(** * The loop of the dispatcher of [connection2.py]                   *)
(* ================================================================== *)

Section DictSet.
Context {K V : Type} `{EqDecision K}.

Lemma Dict_set_set (k : K) (v v' : V) (d : list (K * V)) :
  Dict.set k v (Dict.set k v' d) = Dict.set k v d.
Proof.
  induction d as [|[k0 v0] d IH]; cbn [Dict.set].
  - now rewrite decide_True.
  - destruct (decide (k = k0)) as [->|Hne]; cbn [Dict.set].
    + now rewrite decide_True.
    + rewrite decide_False by exact Hne. now rewrite IH.
Qed.

Lemma Dict_set_id (k : K) (v : V) (d : list (K * V)) :
  Dict.get k d = Some v -> Dict.set k v d = d.
Proof.
  induction d as [|[k0 v0] d IH]; cbn [Dict.set Dict.get]; [discriminate|].
  destruct (decide (k = k0)) as [->|Hne].
  - now intros [= ->].
  - intros Hget. now rewrite IH.
Qed.

Lemma Dict_filter_set (k : K) (v : V) (d : list (K * V)) :
  filter (fun kv => kv.1 <> k) (Dict.set k v d)
  = filter (fun kv => kv.1 <> k) d.
Proof.
  induction d as [|[k0 v0] d IH]; cbn [Dict.set].
  - rewrite filter_cons. cbn [fst]. now rewrite decide_False by tauto.
  - destruct (decide (k = k0)) as [->|Hne].
    + rewrite !filter_cons. cbn [fst]. now rewrite !decide_False by tauto.
    + rewrite !filter_cons. cbn [fst]. rewrite IH. reflexivity.
Qed.

End DictSet.

Section Room.
Import Streaming.
Context {A : Type}.

(** How far [enqueue_items] gets on a bounded queue. *)
Lemma enqueue_items_split (new : list (Item A)) :
  forall self : StreamingIterator A,
    0 < maxsize self ->
    len (items self) <= maxsize self ->
    enqueue_items new self
    = (set_items
         (items self ++ take (Z.to_nat (maxsize self - len (items self))) new)
         self,
       drop (Z.to_nat (maxsize self - len (items self))) new).
Proof.
  induction new as [|item new IH]; intros self Hpos Hle; cbn [enqueue_items].
  - now rewrite take_nil, drop_nil, app_nil_r, set_items_items.
  - unfold put, full.
    destruct (Z.ltb_spec 0 (maxsize self)) as [_|]; [|lia].
    destruct (Z.leb_spec (maxsize self) (len (items self))) as [Hfull|Hroom];
      cbn [andb].
    + replace (maxsize self - len (items self)) with 0 by lia.
      cbn [Z.to_nat take drop]. now rewrite app_nil_r, set_items_items.
    + rewrite IH; cbn [maxsize items]; rewrite ?len_app;
        change (len [item]) with 1; try lia.
      replace (Z.to_nat (maxsize self - len (items self)))
        with (S (Z.to_nat (maxsize self - (len (items self) + 1)))) by lia.
      cbn [take drop]. unfold set_items. cbn [maxsize finished].
      now rewrite <- app_assoc.
Qed.

(** With room for it, [put] puts. *)
Lemma put_room (item : Item A) (self : StreamingIterator A) :
  maxsize self <= 0 \/ len (items self) + 1 <= maxsize self ->
  put item self = Some (set_items (items self ++ [item]) self).
Proof.
  intros Hroom. unfold put, full.
  assert ((0 <? maxsize self) && (maxsize self <=? len (items self)) = false)
    as ->; [|reflexivity].
  destruct Hroom as [Hun|Hroom].
  - destruct (Z.ltb_spec 0 (maxsize self)); [lia|reflexivity].
  - destruct (Z.leb_spec (maxsize self) (len (items self))); [lia|].
    apply andb_false_r.
Qed.

(** A reader takes the events that wait on the queue, and then the mark
    behind them. *)
Lemma consume_to_mark (vs : list A) (mark : Item A)
    (self : StreamingIterator A) :
  mark = StopAsyncIteration \/ mark = StopIteration ->
  items self = map Value vs ++ [mark] ->
  consume (length vs + 1) self
  = (map yields vs ++ [stop_async_iteration], set_items [] self).
Proof.
  intros Hmark Hitems. rewrite consume_app.
  rewrite (consume_values vs self [mark] Hitems).
  cbn [consume]. unfold __anext__. cbn [set_items items finished maxsize].
  change (len [mark] =? 0) with false. rewrite andb_false_r.
  destruct Hmark as [->| ->]; reflexivity.
Qed.

End Room.

Section Loop.
Import Streaming Replies.
Context {C : Type} `{Conversation C}.
Context {V E : Type}.
Variable tcp : TcpCommand.
Variable respond_to :
  InboundMessage -> Connection2.Enqueued C
  -> Connection2.Enqueued C * ReplyAction V E.

Implicit Types self : MessageDispatcher C V E.
Implicit Types c : Connection2.Enqueued C.
Implicit Types k : option UUID.
Implicit Types i : nat.

Lemma future_at_lookup self i (fut : Future (Handle V E)) :
  futures self !! i = Some fut -> future_at i self = fut.
Proof. unfold future_at. now intros ->. Qed.

Lemma lookup_set_future self i (old fut : Future (Handle V E)) :
  futures self !! i = Some old -> futures (set_future i fut self) !! i = Some fut.
Proof.
  intros Hold. cbn [set_future futures]. apply list_lookup_insert_eq.
  now apply lookup_lt_Some in Hold.
Qed.

Lemma set_future_set_future self i (f g : Future (Handle V E)) :
  set_future i f (set_future i g self) = set_future i f self.
Proof.
  unfold set_future. cbn [futures active_conversations output _connected].
  now rewrite list_insert_insert_eq.
Qed.

Lemma set_future_id self i (fut : Future (Handle V E)) :
  futures self !! i = Some fut -> set_future i fut self = self.
Proof.
  intros Hfut. unfold set_future. rewrite list_insert_id by exact Hfut.
  now destruct self.
Qed.

Lemma keep_keep self k c c' i :
  keep k c i (keep k c' i self) = keep k c i self.
Proof.
  unfold keep, set_active_conversations.
  cbn [futures active_conversations output _connected].
  now rewrite Dict_set_set.
Qed.

Lemma keep_id self k c i :
  Dict.get k (active_conversations self) = Some (c, i) -> keep k c i self = self.
Proof.
  intros Hget. unfold keep, set_active_conversations.
  rewrite Dict_set_id by exact Hget. now destruct self.
Qed.

Lemma keep_set_future self k c i j (fut : Future (Handle V E)) :
  keep k c i (set_future j fut self) = set_future j fut (keep k c i self).
Proof. reflexivity. Qed.

Lemma get_keep self k c i :
  Dict.get k (active_conversations (keep k c i self)) = Some (c, i).
Proof. apply Dict_get_set_eq. Qed.

(** [del] of a conversation that is tracked. *)
Lemma forget_tracked self k c i :
  Dict.get k (active_conversations self) = Some (c, i) ->
  forget k self
  = goes_on (set_active_conversations
               (filter (fun kv => kv.1 <> k) (active_conversations self)) self).
Proof.
  intros Hget. unfold forget, Dict.del, Dict.mem. now rewrite Hget.
Qed.

Lemma forget_keep self k c i (fut : Future (Handle V E)) :
  forget k (set_future i fut (keep k c i self))
  = goes_on (set_future i fut
               (set_active_conversations
                  (filter (fun kv => kv.1 <> k) (active_conversations self))
                  self)).
Proof.
  rewrite (forget_tracked _ k c i) by apply Dict_get_set_eq.
  unfold keep, set_future, set_active_conversations.
  cbn [futures active_conversations output _connected].
  now rewrite Dict_filter_set.
Qed.

(** A turn for a message of a tracked conversation. *)
Lemma turn_reply (m : InboundMessage) self c c' i (reply : ReplyAction V E) :
  in_command m <> HeartbeatRequest tcp ->
  Dict.get (in_conversation_id m) (active_conversations self) = Some (c, i) ->
  respond_to m c = (c', reply) ->
  turn tcp respond_to m self
  = on_reply (in_conversation_id m) i reply (keep (in_conversation_id m) c' i self).
Proof.
  intros Hcmd Hget Hreply. unfold turn.
  destruct (Z.eqb_spec (in_command m) (HeartbeatRequest tcp)) as [Heq|_];
    [contradiction|].
  now rewrite Hget, Hreply.
Qed.

(** A turn for a message of a conversation that is not tracked. *)
Lemma turn_unknown (m : InboundMessage) self :
  in_command m <> HeartbeatRequest tcp ->
  Dict.get (in_conversation_id m) (active_conversations self) = None ->
  turn tcp respond_to m self = goes_on self.
Proof.
  intros Hcmd Hget. unfold turn.
  destruct (Z.eqb_spec (in_command m) (HeartbeatRequest tcp)) as [Heq|_];
    [contradiction|].
  now rewrite Hget.
Qed.

(** With room for the items, [fill] puts them all and goes on. *)
Lemma fill_room self i (wrap : StreamingIterator E -> Handle V E)
    (it : StreamingIterator E) (new : list (Item E))
    (after : StreamingIterator E -> MessageDispatcher C V E -> Turn C V E) :
  maxsize it <= 0 \/ len (items it) + len new <= maxsize it ->
  fill i wrap it new after self
  = after (set_items (items it ++ new) it)
          (set_future i (Finished (wrap (set_items (items it ++ new) it))) self).
Proof.
  intros Hroom. unfold fill. now rewrite enqueue_items_room.
Qed.

Lemma send_room self i (wrap : StreamingIterator E -> Handle V E)
    (it : StreamingIterator E) (item : Item E)
    (after : MessageDispatcher C V E -> Turn C V E) :
  maxsize it <= 0 \/ len (items it) + 1 <= maxsize it ->
  send i wrap it item after self
  = after (set_future i (Finished (wrap (set_items (items it ++ [item]) it))) self).
Proof.
  intros Hroom. unfold send. now rewrite put_room.
Qed.

Lemma len_map_Value (vs : list E) : len (map (@Value E) vs) = len vs.
Proof. unfold len. now rewrite length_map. Qed.

(** Batches for an iterator with room for them: the events are put behind
    those that wait, batch after batch, and the loop goes on. *)
Lemma yields_to_iterator (input : list InboundMessage) k i :
  forall (ms : list InboundMessage) (batches : list (list E)) self c c'
         (it : StreamingIterator E),
    for_conversation tcp k ms ->
    Dict.get k (active_conversations self) = Some (c, i) ->
    futures self !! i = Some (Finished (iterator it)) ->
    answers respond_to c ms = (c', map YieldToIterator batches) ->
    maxsize it <= 0 \/ len (items it) + len (concat batches) <= maxsize it ->
    _process_messages_loop tcp respond_to (ms ++ input) self
    = _process_messages_loop tcp respond_to input
        (set_future i
           (Finished (iterator
              (set_items (items it ++ map Value (concat batches)) it)))
           (keep k c' i self)).
Proof.
  induction ms as [|m ms IH]; intros batches self c c' it Hfor Hget Hfut Hans Hroom.
  - cbn [answers] in Hans. destruct batches as [|b bs]; [|discriminate].
    injection Hans as <-. cbn [concat map app].
    rewrite app_nil_r, set_items_items.
    rewrite (keep_id _ _ _ _ Hget), set_future_id by exact Hfut. reflexivity.
  - apply Forall_cons in Hfor. destruct Hfor as [[Hcmd Hid] Hfor].
    cbn [answers] in Hans.
    destruct (respond_to m c) as [c1 reply] eqn:Hreply.
    destruct (answers respond_to c1 ms) as [c2 replies] eqn:Hrest.
    destruct batches as [|b bs]; [discriminate|].
    cbn [map] in Hans. injection Hans as -> -> ->.
    cbn [concat] in Hroom. rewrite len_app in Hroom.
    pose proof (len_nonneg b). pose proof (len_nonneg (concat bs)).
    cbn [app _process_messages_loop].
    rewrite (turn_reply m self c c1 i (YieldToIterator b)) by congruence.
    rewrite Hid. cbn [on_reply]. unfold with_iterator.
    rewrite (future_at_lookup (keep k c1 i self) i (Finished (iterator it)))
      by exact Hfut.
    cbn [Future_result].
    rewrite fill_room by (rewrite len_map_Value; lia).
    rewrite (IH bs _ c1 c' (set_items (items it ++ map Value b) it)).
    + rewrite keep_set_future, keep_keep, set_future_set_future.
      cbn [set_items items maxsize finished concat].
      now rewrite map_app, app_assoc.
    + exact Hfor.
    + apply get_keep.
    + apply (lookup_set_future _ _ (Finished (iterator it))). exact Hfut.
    + exact Hrest.
    + cbn [set_items items maxsize]. rewrite len_app, len_map_Value. lia.
Qed.

(** Events for a subscription with room for them: the same, event after
    event. *)
Lemma yields_to_subscription (input : list InboundMessage) k i :
  forall (ms : list InboundMessage) (events : list E) self c c'
         (it : StreamingIterator E),
    for_conversation tcp k ms ->
    Dict.get k (active_conversations self) = Some (c, i) ->
    futures self !! i = Some (Finished (subscription it)) ->
    answers respond_to c ms = (c', map YieldToSubscription events) ->
    maxsize it <= 0 \/ len (items it) + len events <= maxsize it ->
    _process_messages_loop tcp respond_to (ms ++ input) self
    = _process_messages_loop tcp respond_to input
        (set_future i
           (Finished (subscription (set_items (items it ++ map Value events) it)))
           (keep k c' i self)).
Proof.
  induction ms as [|m ms IH]; intros events self c c' it Hfor Hget Hfut Hans Hroom.
  - cbn [answers] in Hans. destruct events as [|e es]; [|discriminate].
    injection Hans as <-. cbn [map app].
    rewrite app_nil_r, set_items_items.
    rewrite (keep_id _ _ _ _ Hget), set_future_id by exact Hfut. reflexivity.
  - apply Forall_cons in Hfor. destruct Hfor as [[Hcmd Hid] Hfor].
    cbn [answers] in Hans.
    destruct (respond_to m c) as [c1 reply] eqn:Hreply.
    destruct (answers respond_to c1 ms) as [c2 replies] eqn:Hrest.
    destruct events as [|e es]; [discriminate|].
    cbn [map] in Hans. injection Hans as -> -> ->.
    change (len (e :: es)) with (len ([e] ++ es)) in Hroom.
    rewrite len_app in Hroom. change (len [e]) with 1 in Hroom.
    pose proof (len_nonneg es).
    cbn [app _process_messages_loop].
    rewrite (turn_reply m self c c1 i (YieldToSubscription e)) by congruence.
    rewrite Hid. cbn [on_reply]. unfold with_subscription.
    rewrite (future_at_lookup (keep k c1 i self) i (Finished (subscription it)))
      by exact Hfut.
    cbn [Future_await Future_result].
    rewrite send_room by lia.
    rewrite (IH es _ c1 c' (set_items (items it ++ [Value e]) it)).
    + rewrite keep_set_future, keep_keep, set_future_set_future.
      cbn [set_items items maxsize finished map].
      now rewrite <- app_assoc.
    + exact Hfor.
    + apply get_keep.
    + apply (lookup_set_future _ _ (Finished (subscription it))). exact Hfut.
    + exact Hrest.
    + cbn [set_items items maxsize]. rewrite len_app.
      change (len [Value e]) with 1. lia.
Qed.

(** X23.  A scalar reply resolves the call, once.  When the conversation
    that a message is for answers it with [CompleteScalar] or
    [CompleteError], the future that [enqueue_conversation] returned for
    it, pending until then, holds the value, or the exception; the
    conversation is deleted from [active_conversations]; no other future
    and no other conversation is touched and nothing is put on the output
    queue.  A later message with the same conversation id finds no
    conversation and is dropped. *)
Theorem scalar_reply_resolves_the_call (m m' : InboundMessage)
    (input : list InboundMessage) self c c' i (reply : ReplyAction V E)
    (outcome : Future (Handle V E)) :
  in_command m <> HeartbeatRequest tcp ->
  in_command m' <> HeartbeatRequest tcp ->
  in_conversation_id m' = in_conversation_id m ->
  Dict.get (in_conversation_id m) (active_conversations self) = Some (c, i) ->
  futures self !! i = Some Pending ->
  respond_to m c = (c', reply) ->
  (exists value, reply = CompleteScalar value /\ outcome = Finished (scalar value))
  \/ (exists e, reply = CompleteError e /\ outcome = Failed e) ->
  exists self',
    _process_messages_loop tcp respond_to (m :: m' :: input) self
    = _process_messages_loop tcp respond_to input self'
    /\ futures self' = <[i := outcome]> (futures self)
    /\ active_conversations self'
       = filter (fun kv => kv.1 <> in_conversation_id m) (active_conversations self)
    /\ Dict.get (in_conversation_id m) (active_conversations self') = None
    /\ output self' = output self
    /\ _connected self' = _connected self.
Proof.
  intros Hcmd Hcmd' Hid Hget Hfut Hreply Hkind.
  exists (set_future i outcome
            (set_active_conversations
               (filter (fun kv => kv.1 <> in_conversation_id m)
                       (active_conversations self)) self)).
  split; [|repeat split; apply Dict_get_filter_eq].
  cbn [_process_messages_loop].
  rewrite (turn_reply m self c c' i reply Hcmd Hget Hreply).
  assert (on_reply (in_conversation_id m) i reply
            (keep (in_conversation_id m) c' i self)
          = forget (in_conversation_id m)
              (set_future i outcome (keep (in_conversation_id m) c' i self)))
    as ->.
  { destruct Hkind as [(value & -> & ->)|(e & -> & ->)]; cbn [on_reply];
      rewrite (future_at_lookup _ i Pending) by exact Hfut; reflexivity. }
  rewrite forget_keep.
  rewrite turn_unknown; [reflexivity|exact Hcmd'|].
  rewrite Hid. apply Dict_get_filter_eq.
Qed.

(** X24.  A reply for a call that its caller has cancelled ends the loop.
    When the future of a conversation has been cancelled (as
    [asyncio.wait_for] does with the future it gives up on), the
    conversation is still tracked, and whatever it replies to its next
    message, the turn raises: [set_result] and [set_exception] raise
    [InvalidStateError] on the cancelled future, [result.result()] and
    [await result] raise its [CancelledError].  The loop has no handler:
    it ends there, the messages behind stay on the input queue, and the
    conversation stays in [active_conversations]. *)
Theorem reply_for_a_cancelled_call_ends_the_loop (m : InboundMessage)
    (input : list InboundMessage) self c c' i (reply : ReplyAction V E) :
  in_command m <> HeartbeatRequest tcp ->
  Dict.get (in_conversation_id m) (active_conversations self) = Some (c, i) ->
  futures self !! i = Some Cancelled ->
  respond_to m c = (c', reply) ->
  exists self',
    _process_messages_loop tcp respond_to (m :: input) self
    = stopped_in
        match reply with
        | CompleteScalar _ | CompleteError _ | BeginIterator _ _
        | BeginPersistentSubscription _ => raised InvalidStateError self'
        | _ => cancelled self'
        end
        input
    /\ Dict.get (in_conversation_id m) (active_conversations self') = Some (c', i)
    /\ futures self' = futures self
    /\ output self' = output self.
Proof.
  intros Hcmd Hget Hfut Hreply.
  exists (keep (in_conversation_id m) c' i self).
  split; [|split; [apply get_keep|split; reflexivity]].
  cbn [_process_messages_loop].
  rewrite (turn_reply m self c c' i reply Hcmd Hget Hreply).
  destruct reply; cbn [on_reply]; unfold with_iterator, with_subscription;
    rewrite (future_at_lookup (keep (in_conversation_id m) c' i self) i Cancelled)
      by exact Hfut;
    reflexivity.
Qed.

(** X25.  A stream reaches its reader whole and in order.  A conversation
    that answers its messages with [BeginIterator], then any number of
    [YieldToIterator], then [CompleteIterator], has its pending future
    resolved with an iterator of twice the size that came with
    [BeginIterator].  With room in it for all events and the end mark, the
    loop takes all these messages without being suspended, and a reader
    of the iterator gets the events of the first batch, of the batches in
    between and of the last one, each once and in this order, and then the
    end of the iteration.  The conversation is deleted. *)
Theorem stream_reaches_its_reader_in_order (m0 m9 : InboundMessage)
    (ms input : list InboundMessage) self c0 c1 c2 c3 i (size : Z)
    (first last : list E) (batches : list (list E)) :
  for_conversation tcp (in_conversation_id m0) (m0 :: ms ++ [m9]) ->
  Dict.get (in_conversation_id m0) (active_conversations self) = Some (c0, i) ->
  futures self !! i = Some Pending ->
  respond_to m0 c0 = (c1, BeginIterator size first) ->
  answers respond_to c1 ms = (c2, map YieldToIterator batches) ->
  respond_to m9 c2 = (c3, CompleteIterator last) ->
  size <= 0 \/ len first + len (concat batches) + len last + 1 <= size * 2 ->
  exists self' it reader,
    _process_messages_loop tcp respond_to (m0 :: ms ++ m9 :: input) self
    = _process_messages_loop tcp respond_to input self'
    /\ futures self' = <[i := Finished (iterator it)]> (futures self)
    /\ maxsize it = size * 2
    /\ consume (length (first ++ concat batches ++ last) + 1) it
       = (map yields (first ++ concat batches ++ last) ++ [stop_async_iteration],
          reader)
    /\ items reader = []
    /\ active_conversations self'
       = filter (fun kv => kv.1 <> in_conversation_id m0)
                (active_conversations self)
    /\ output self' = output self.
Proof.
  intros Hfor Hget Hfut Hbegin Hyields Hend Hroom.
  set (k := in_conversation_id m0) in *.
  apply Forall_cons in Hfor. destruct Hfor as [[Hcmd0 _] Hfor].
  apply Forall_app in Hfor. destruct Hfor as [Hfor Hfor9].
  apply Forall_cons in Hfor9. destruct Hfor9 as [[Hcmd9 Hid9] _].
  pose proof (len_nonneg first). pose proof (len_nonneg (concat batches)).
  pose proof (len_nonneg last).
  set (all := first ++ concat batches ++ last).
  set (it := {| maxsize := size * 2;
                items := map Value all ++ [StopAsyncIteration];
                finished := false |} : StreamingIterator E).
  exists (set_future i (Finished (iterator it))
            (set_active_conversations
               (filter (fun kv => kv.1 <> k) (active_conversations self)) self)),
         it, (set_items [] it).
  split; [|split; [reflexivity|split; [reflexivity|split;
           [|split; [reflexivity|split; reflexivity]]]]].
  2: { apply (consume_to_mark all StopAsyncIteration); [now left|reflexivity]. }
  cbn [_process_messages_loop].
  rewrite (turn_reply m0 self c0 c1 i _ Hcmd0 Hget Hbegin). fold k.
  cbn [on_reply].
  rewrite (future_at_lookup (keep k c1 i self) i Pending) by exact Hfut.
  cbn [set_result].
  rewrite fill_room
    by (cbn [StreamingIterator_init maxsize items]; rewrite len_map_Value;
        change (len []) with 0; lia).
  rewrite set_future_set_future.
  cbn [StreamingIterator_init set_items items maxsize finished app].
  rewrite (yields_to_iterator (m9 :: input) k i ms batches _ c1 c2
             {| maxsize := size * 2; items := map Value first; finished := false |}).
  - rewrite keep_set_future, keep_keep, set_future_set_future.
    cbn [set_items items maxsize finished].
    cbn [_process_messages_loop].
    rewrite (turn_reply m9 _ c2 c3 i (CompleteIterator last)).
    + rewrite Hid9. cbn [on_reply]. unfold with_iterator.
      match goal with
      | |- context [future_at i (keep k c3 i (set_future i ?f (keep k c2 i self)))] =>
          rewrite (future_at_lookup (keep k c3 i (set_future i f (keep k c2 i self)))
                     i f)
            by (apply (lookup_set_future _ _ Pending); exact Hfut)
      end.
      cbn [Future_result].
      rewrite fill_room
        by (cbn [set_items maxsize items]; rewrite ?len_app, ?len_map_Value; lia).
      cbn [set_items items maxsize finished].
      rewrite send_room
        by (cbn [set_items maxsize items]; rewrite ?len_app, ?len_map_Value; lia).
      rewrite set_future_set_future, keep_set_future, keep_keep,
        set_future_set_future.
      rewrite forget_keep.
      unfold set_items. cbn [items maxsize finished].
      subst it all. rewrite !map_app, <- !app_assoc. reflexivity.
    + exact Hcmd9.
    + rewrite Hid9. exact (get_keep self k c2 i).
    + exact Hend.
  - exact Hfor.
  - apply get_keep.
  - apply (lookup_set_future _ _ Pending). exact Hfut.
  - exact Hyields.
  - cbn [maxsize items]. rewrite len_map_Value. lia.
Qed.

(** X26.  A full iterator holds the whole loop.  When a batch comes for an
    iterator whose bounded queue has not room for all of it, the events
    for which there is room are put, in order, and the loop is suspended
    in the [put] of the next one.  It is the one loop of the dispatcher:
    every message behind, of whatever conversation, replies to other
    calls and heartbeat requests included, stays on the input queue until
    the reader of that iterator takes an event. *)
Theorem full_iterator_holds_the_loop (m : InboundMessage)
    (input : list InboundMessage) self c c' i (events : list E)
    (it : StreamingIterator E) :
  in_command m <> HeartbeatRequest tcp ->
  Dict.get (in_conversation_id m) (active_conversations self) = Some (c, i) ->
  futures self !! i = Some (Finished (iterator it)) ->
  respond_to m c = (c', YieldToIterator events) ->
  0 < maxsize it ->
  len (items it) <= maxsize it < len (items it) + len events ->
  exists self',
    let room := Z.to_nat (maxsize it - len (items it)) in
    _process_messages_loop tcp respond_to (m :: input) self
    = stopped_in (suspended_in_put self' i (map Value (drop room events))) input
    /\ drop room events <> []
    /\ futures self'
       = <[i := Finished (iterator
                   (set_items (items it ++ map Value (take room events)) it))]>
           (futures self)
    /\ len (items it ++ map Value (take room events)) = maxsize it
    /\ output self' = output self.
Proof.
  intros Hcmd Hget Hfut Hreply Hpos [Hle Hover].
  set (room := Z.to_nat (maxsize it - len (items it))).
  assert (room < length events)%nat as Hroom.
  { subst room. unfold len in *. lia. }
  assert (drop room events <> []) as Hleft.
  { intros Hnil. apply (f_equal length) in Hnil.
    rewrite length_drop in Hnil. cbn [length] in Hnil. lia. }
  exists (set_future i
            (Finished (iterator
               (set_items (items it ++ map Value (take room events)) it)))
            (keep (in_conversation_id m) c' i self)).
  cbv zeta. fold room.
  split; [|split; [exact Hleft|split; [reflexivity|split; [|reflexivity]]]].
  - cbn [_process_messages_loop].
    rewrite (turn_reply m self c c' i _ Hcmd Hget Hreply).
    cbn [on_reply]. unfold with_iterator.
    rewrite (future_at_lookup _ i (Finished (iterator it))) by exact Hfut.
    cbn [Future_result]. unfold fill.
    rewrite enqueue_items_split by assumption. fold room.
    rewrite firstn_map, skipn_map.
    destruct (drop room events) as [|e rest] eqn:Hdrop; [contradiction|].
    reflexivity.
  - rewrite len_app, len_map_Value. unfold len.
    rewrite length_take. subst room. unfold len in *. lia.
Qed.

(** X27.  A reply that comes before the reply it presupposes stops the
    loop.  While the future of a conversation is pending, a reply of that
    conversation for an iterator ([YieldToIterator], [CompleteIterator],
    [RaiseToIterator]) makes [result.result()] raise [InvalidStateError],
    which ends the loop; a reply for a subscription
    ([YieldToSubscription], [RaiseToSubscription], [FinishSubscription])
    suspends the loop in [await result], and the branch that resolves the
    future is a later turn of this same loop.  Either way the messages behind stay on the input queue,
    and the conversation stays tracked with its future pending. *)
Theorem reply_before_its_start_stops_the_loop (m : InboundMessage)
    (input : list InboundMessage) self c c' i (reply : ReplyAction V E) :
  in_command m <> HeartbeatRequest tcp ->
  Dict.get (in_conversation_id m) (active_conversations self) = Some (c, i) ->
  futures self !! i = Some Pending ->
  respond_to m c = (c', reply) ->
  match reply with
  | YieldToIterator _ | CompleteIterator _ | RaiseToIterator _
  | YieldToSubscription _ | RaiseToSubscription _ | FinishSubscription => True
  | _ => False
  end ->
  exists self',
    _process_messages_loop tcp respond_to (m :: input) self
    = stopped_in
        match reply with
        | YieldToIterator _ | CompleteIterator _ | RaiseToIterator _ =>
            raised InvalidStateError self'
        | _ => suspended_on_result self' i
        end
        input
    /\ Dict.get (in_conversation_id m) (active_conversations self') = Some (c', i)
    /\ futures self' = futures self
    /\ output self' = output self.
Proof.
  intros Hcmd Hget Hfut Hreply Hkind.
  exists (keep (in_conversation_id m) c' i self).
  split; [|split; [apply get_keep|split; reflexivity]].
  cbn [_process_messages_loop].
  rewrite (turn_reply m self c c' i reply Hcmd Hget Hreply).
  destruct reply; try contradiction; cbn [on_reply];
    unfold with_iterator, with_subscription;
    rewrite (future_at_lookup (keep (in_conversation_id m) c' i self) i Pending)
      by exact Hfut;
    reflexivity.
Qed.

(** X28.  The events of a persistent subscription reach its reader in
    order, and its end does not untrack it.  A conversation that answers
    its messages with [BeginPersistentSubscription], then any number of
    [YieldToSubscription], then [FinishSubscription] has its pending
    future resolved with a subscription whose iterator has the
    [buffer_size] of the reply.  With room in it for the events and the
    end mark, the loop takes all these messages without being suspended,
    and a reader of [events] gets each event once, in the order of the
    messages, and then the end of the iteration.  No branch for a
    subscription deletes the conversation: it is still in
    [active_conversations] afterwards. *)
Theorem subscription_events_reach_their_reader (m0 m9 : InboundMessage)
    (ms input : list InboundMessage) self c0 c1 c2 c3 i (buffer_size : Z)
    (events : list E) :
  for_conversation tcp (in_conversation_id m0) (m0 :: ms ++ [m9]) ->
  Dict.get (in_conversation_id m0) (active_conversations self) = Some (c0, i) ->
  futures self !! i = Some Pending ->
  respond_to m0 c0 = (c1, BeginPersistentSubscription buffer_size) ->
  answers respond_to c1 ms = (c2, map YieldToSubscription events) ->
  respond_to m9 c2 = (c3, FinishSubscription) ->
  buffer_size <= 0 \/ len events + 1 <= buffer_size ->
  exists self' it reader,
    _process_messages_loop tcp respond_to (m0 :: ms ++ m9 :: input) self
    = _process_messages_loop tcp respond_to input self'
    /\ futures self' = <[i := Finished (subscription it)]> (futures self)
    /\ maxsize it = buffer_size
    /\ consume (length events + 1) it
       = (map yields events ++ [stop_async_iteration], reader)
    /\ items reader = []
    /\ Dict.get (in_conversation_id m0) (active_conversations self') = Some (c3, i)
    /\ output self' = output self.
Proof.
  intros Hfor Hget Hfut Hbegin Hyields Hend Hroom.
  set (k := in_conversation_id m0) in *.
  apply Forall_cons in Hfor. destruct Hfor as [[Hcmd0 _] Hfor].
  apply Forall_app in Hfor. destruct Hfor as [Hfor Hfor9].
  apply Forall_cons in Hfor9. destruct Hfor9 as [[Hcmd9 Hid9] _].
  pose proof (len_nonneg events).
  set (it := {| maxsize := buffer_size;
                items := map Value events ++ [StopIteration];
                finished := false |} : StreamingIterator E).
  exists (set_future i (Finished (subscription it)) (keep k c3 i self)),
         it, (set_items [] it).
  split; [|split; [reflexivity|split; [reflexivity|split;
           [|split; [reflexivity|split; [apply get_keep|reflexivity]]]]]].
  2: { apply (consume_to_mark events StopIteration); [now right|reflexivity]. }
  cbn [_process_messages_loop].
  rewrite (turn_reply m0 self c0 c1 i _ Hcmd0 Hget Hbegin). fold k.
  cbn [on_reply].
  rewrite (future_at_lookup (keep k c1 i self) i Pending) by exact Hfut.
  cbn [set_result].
  rewrite (yields_to_subscription (m9 :: input) k i ms events _ c1 c2
             (StreamingIterator_init buffer_size)).
  - rewrite keep_set_future, keep_keep, set_future_set_future.
    cbn [StreamingIterator_init set_items items maxsize finished app].
    cbn [_process_messages_loop].
    rewrite (turn_reply m9 _ c2 c3 i FinishSubscription).
    + rewrite Hid9. cbn [on_reply]. unfold with_subscription.
      match goal with
      | |- context [future_at i (keep k c3 i (set_future i ?f (keep k c2 i self)))] =>
          rewrite (future_at_lookup (keep k c3 i (set_future i f (keep k c2 i self)))
                     i f)
            by (apply (lookup_set_future _ _ Pending); exact Hfut)
      end.
      cbn [Future_await Future_result].
      rewrite send_room
        by (cbn [StreamingIterator_init set_items maxsize items app];
            rewrite ?len_app, ?len_map_Value; lia).
      rewrite keep_set_future, keep_keep, !set_future_set_future.
      reflexivity.
    + exact Hcmd9.
    + rewrite Hid9. exact (get_keep self k c2 i).
    + exact Hend.
  - exact Hfor.
  - apply get_keep.
  - apply (lookup_set_future _ _ Pending). exact Hfut.
  - exact Hyields.
  - cbn [StreamingIterator_init maxsize items]. change (len []) with 0. lia.
Qed.

End Loop.

Section LoopWitnesses.
Import Streaming Replies.

Local Abbreviation started := (Connection2.Started Sample.write_events).

Lemma scalar_reply_resolves_the_call_witness :
  exists self',
    _process_messages_loop Sample.tcp Reads.respond_to
      [Reads.frame 16 [x07]; Reads.frame 16 [x08]] Reads.dispatcher
    = _process_messages_loop Sample.tcp Reads.respond_to [] self'
    /\ futures self' = <[0%nat := Finished (scalar [x07])]> (futures Reads.dispatcher)
    /\ active_conversations self'
       = filter (fun kv => kv.1 <> Some Sample.uuid_b)
                (active_conversations Reads.dispatcher)
    /\ Dict.get (Some Sample.uuid_b) (active_conversations self') = None
    /\ output self' = output Reads.dispatcher
    /\ _connected self' = _connected Reads.dispatcher.
Proof.
  apply (scalar_reply_resolves_the_call Sample.tcp Reads.respond_to
           (Reads.frame 16 [x07]) (Reads.frame 16 [x08]) [] Reads.dispatcher
           started started 0%nat (CompleteScalar [x07])).
  - vm_compute. congruence.
  - vm_compute. congruence.
  - reflexivity.
  - reflexivity.
  - reflexivity.
  - reflexivity.
  - left. exists [x07]. split; reflexivity.
Defined.

Lemma reply_for_a_cancelled_call_ends_the_loop_witness :
  exists self',
    _process_messages_loop Sample.tcp Reads.respond_to
      [Reads.frame 16 [x07]; Reads.frame 16 [x08]]
      (set_future 0 Cancelled Reads.dispatcher)
    = stopped_in (raised InvalidStateError self') [Reads.frame 16 [x08]]
    /\ Dict.get (Some Sample.uuid_b) (active_conversations self')
       = Some (started, 0%nat)
    /\ futures self' = [Cancelled]
    /\ output self' = output Reads.dispatcher.
Proof.
  apply (reply_for_a_cancelled_call_ends_the_loop Sample.tcp Reads.respond_to
           (Reads.frame 16 [x07]) [Reads.frame 16 [x08]]
           (set_future 0 Cancelled Reads.dispatcher)
           started started 0%nat (CompleteScalar [x07])).
  - vm_compute. congruence.
  - reflexivity.
  - reflexivity.
  - reflexivity.
Defined.

Lemma stream_reaches_its_reader_in_order_witness :
  exists self' it reader,
    _process_messages_loop Sample.tcp Reads.respond_to
      [Reads.frame 18 [x01; x02]; Reads.frame 19 [x03]; Reads.frame 20 []]
      Reads.dispatcher
    = _process_messages_loop Sample.tcp Reads.respond_to [] self'
    /\ futures self' = <[0%nat := Finished (iterator it)]> (futures Reads.dispatcher)
    /\ maxsize it = 2 * 2
    /\ consume 4 it
       = (map yields [x01; x02; x03] ++ [stop_async_iteration], reader)
    /\ items reader = []
    /\ active_conversations self'
       = filter (fun kv => kv.1 <> Some Sample.uuid_b)
                (active_conversations Reads.dispatcher)
    /\ output self' = output Reads.dispatcher.
Proof.
  apply (stream_reaches_its_reader_in_order Sample.tcp Reads.respond_to
           (Reads.frame 18 [x01; x02]) (Reads.frame 20 []) [Reads.frame 19 [x03]]
           [] Reads.dispatcher started started started started 0%nat 2
           [x01; x02] [] [[x03]]).
  - repeat constructor; vm_compute; congruence.
  - reflexivity.
  - reflexivity.
  - reflexivity.
  - reflexivity.
  - reflexivity.
  - right. vm_compute. congruence.
Defined.

Lemma full_iterator_holds_the_loop_witness :
  let it := mkIterator 4 [Value x01; Value x02; Value x03] false in
  let self := set_future 0 (Finished (iterator it)) Reads.dispatcher in
  exists self',
    _process_messages_loop Sample.tcp Reads.respond_to
      [Reads.frame 19 [x04; x05]; Reads.frame 16 [x07]] self
    = stopped_in (suspended_in_put self' 0 [Value x05]) [Reads.frame 16 [x07]]
    /\ [x05] <> []
    /\ futures self'
       = [Finished (iterator
            (mkIterator 4 [Value x01; Value x02; Value x03; Value x04] false))]
    /\ len [Value x01; Value x02; Value x03; Value x04] = 4
    /\ output self' = output Reads.dispatcher.
Proof.
  intros it self.
  apply (full_iterator_holds_the_loop Sample.tcp Reads.respond_to
           (Reads.frame 19 [x04; x05]) [Reads.frame 16 [x07]] self
           started started 0%nat [x04; x05] it).
  - vm_compute. congruence.
  - reflexivity.
  - reflexivity.
  - reflexivity.
  - reflexivity.
  - vm_compute. split; congruence.
Defined.

Lemma reply_before_its_start_stops_the_loop_witness :
  exists self',
    _process_messages_loop Sample.tcp Reads.respond_to
      [Reads.frame 23 [x01]; Reads.frame 22 []] Reads.dispatcher
    = stopped_in (suspended_on_result self' 0) [Reads.frame 22 []]
    /\ Dict.get (Some Sample.uuid_b) (active_conversations self')
       = Some (started, 0%nat)
    /\ futures self' = futures Reads.dispatcher
    /\ output self' = output Reads.dispatcher.
Proof.
  apply (reply_before_its_start_stops_the_loop Sample.tcp Reads.respond_to
           (Reads.frame 23 [x01]) [Reads.frame 22 []] Reads.dispatcher
           started started 0%nat (YieldToSubscription x01)).
  - vm_compute. congruence.
  - reflexivity.
  - reflexivity.
  - reflexivity.
  - exact I.
Defined.

Lemma subscription_events_reach_their_reader_witness :
  exists self' it reader,
    _process_messages_loop Sample.tcp Reads.respond_to
      [Reads.frame 22 []; Reads.frame 23 [x01]; Reads.frame 23 [x02];
       Reads.frame 25 []]
      Reads.dispatcher
    = _process_messages_loop Sample.tcp Reads.respond_to [] self'
    /\ futures self'
       = <[0%nat := Finished (subscription it)]> (futures Reads.dispatcher)
    /\ maxsize it = 4
    /\ consume 3 it = (map yields [x01; x02] ++ [stop_async_iteration], reader)
    /\ items reader = []
    /\ Dict.get (Some Sample.uuid_b) (active_conversations self')
       = Some (started, 0%nat)
    /\ output self' = output Reads.dispatcher.
Proof.
  apply (subscription_events_reach_their_reader Sample.tcp Reads.respond_to
           (Reads.frame 22 []) (Reads.frame 25 [])
           [Reads.frame 23 [x01]; Reads.frame 23 [x02]] [] Reads.dispatcher
           started started started started 0%nat 4 [x01; x02]).
  - repeat constructor; vm_compute; congruence.
  - reflexivity.
  - reflexivity.
  - reflexivity.
  - reflexivity.
  - reflexivity.
  - right. vm_compute. congruence.
Defined.

End LoopWitnesses.
